(** * rhana: periodicity detection, clustering and intensity attribution

    A shallow embedding of the Python sources [rhana/spectrum.py],
    [rhana/phaser/distance.py] and [rhana/pattern.py].

    Conventions of the embedding:
    - a Python/NumPy float is an exact rational ([Q]); equalities between
      computed values are stated with [==] ([Qeq]);
    - an array index is a [nat]; an integer that may be negative is a [Z]
      and indexing with it wraps around as in Python;
    - a call that may raise returns [exc A], whose [Raise e] carries the
      Python exception;
    - a method that may update its receiver returns the receiver's fields
      after the call next to the object it returns;
    - library routines whose result exact arithmetic does not determine
      (the matrix inversion, the optimiser, the filters, the clustering)
      and methods that the modelled files call but do not define are
      parameters of the definitions that use them. *)

From Stdlib Require Import ZArith QArith Qround Qabs Qminmax Lia Lqa.
From stdpp Require Import base list gmap sorting.

(** ** Python and NumPy primitives *)

Module Py.

Inductive exn : Type :=
| IndexError
| ValueError
| ZeroDivisionError
| LinAlgError
| UnboundLocalError
| OptimizeError.

Inductive exc (A : Type) : Type :=
| Ok (a : A)
| Raise (e : exn).
Arguments Ok {A} a.
Arguments Raise {A} e.

#[export] Instance exc_ret : MRet exc := fun A a => Ok a.
#[export] Instance exc_bind : MBind exc := fun A B f m =>
  match m with
  | Ok a => f a
  | Raise e => Raise e
  end.

(** [l[i]] for a Python integer [i]: negative indices count from the end. *)
Definition index {A} (l : list A) (i : Z) : exc A :=
  let n := Z.of_nat (length l) in
  let k := if (i <? 0)%Z then (i + n)%Z else i in
  if ((0 <=? k) && (k <? n))%Z
  then match l !! Z.to_nat k with
       | Some x => Ok x
       | None => Raise IndexError
       end
  else Raise IndexError.

(** [l[i]] for an index array entry that is known to be non-negative. *)
Definition nth_exc {A} (l : list A) (i : nat) : exc A :=
  match l !! i with
  | Some x => Ok x
  | None => Raise IndexError
  end.

(** [l[idx]] for an integer index array [idx] (fancy indexing). *)
Definition take_idx {A} (l : list A) (idx : list nat) : exc (list A) :=
  mapM (nth_exc l) idx.

(** [l[m]] for a boolean mask [m] of the length of [l]; the callers test
    the lengths where NumPy would raise. *)
Fixpoint select {A} (m : list bool) (l : list A) : list A :=
  match m, l with
  | b :: m', x :: l' => if b then x :: select m' l' else select m' l'
  | _, _ => []
  end.

(** [np.where(m)[0]] *)
Definition where_ (m : list bool) : list nat :=
  select m (seq 0 (length m)).

Definition Qltb (x y : Q) : bool := negb (Qle_bool y x).

(** [np.arange(a, b)] *)
Definition arange (a b : Z) : list Z :=
  map (fun i => (a + Z.of_nat i)%Z) (seq 0 (Z.to_nat (b - a))).

(** [np.sum] and the builtin [sum]. *)
Definition np_sum (l : list Q) : Q := fold_left Qplus l 0%Q.

(** [np.mean] *)
Definition np_mean (l : list Q) : Q :=
  (np_sum l / inject_Z (Z.of_nat (length l)))%Q.

(** [min(l)] / [max(l)] / [l.min()] / [l.max()] raise on an empty sequence. *)
Definition py_min (l : list Q) : exc Q :=
  match l with
  | [] => Raise ValueError
  | x :: t => Ok (fold_left Qmin t x)
  end.

Definition py_max (l : list Q) : exc Q :=
  match l with
  | [] => Raise ValueError
  | x :: t => Ok (fold_left Qmax t x)
  end.

(** [np.argmin]: the first position of the minimum. *)
Fixpoint argmin_from (best_i : nat) (best : Q) (i : nat) (l : list Q) : nat :=
  match l with
  | [] => best_i
  | x :: t =>
      if Qltb x best then argmin_from i x (S i) t
      else argmin_from best_i best (S i) t
  end.

Definition argmin (l : list Q) : exc nat :=
  match l with
  | [] => Raise ValueError
  | x :: t => Ok (argmin_from 0 x 1 t)
  end.

(** [np.unique]: the sorted distinct values. *)
Fixpoint insert_uniq (x : Z) (l : list Z) : list Z :=
  match l with
  | [] => [x]
  | y :: t =>
      if (x <? y)%Z then x :: l
      else if (x =? y)%Z then l
      else y :: insert_uniq x t
  end.

Definition unique (l : list Z) : list Z := foldr insert_uniq [] l.

(** [np.diff] *)
Fixpoint diff (l : list Z) : list Z :=
  match l with
  | x :: (y :: _) as t => (y - x)%Z :: diff t
  | _ => []
  end.

(** [scipy.spatial.distance_matrix] on one-dimensional points. *)
Definition distance_matrix (xs ys : list Q) : list (list Q) :=
  map (fun x => map (fun y => Qabs (x - y)) ys) xs.

(** [np.argsort]: positions in ascending order of value. Ties are kept in
    their original order, as a stable sort does; NumPy's default kind
    leaves the order of ties open. *)
Fixpoint insert_key (x : Q * nat) (l : list (Q * nat)) : list (Q * nat) :=
  match l with
  | [] => [x]
  | y :: t =>
      if Qle_bool (fst x) (fst y) then x :: l
      else y :: insert_key x t
  end.

Definition argsort (l : list Q) : list nat :=
  map snd (foldr insert_key [] (zip l (seq 0 (length l)))).

(** [int(x)] truncates towards zero. *)
Definition int_of (x : Q) : Z := (Qnum x ÷ Zpos (Qden x))%Z.

(** Two-dimensional arrays: a shape and the cell at each position. *)
Record array (A : Type) : Type := {
  nrows : nat;
  ncols : nat;
  cell : nat -> nat -> A
}.
Arguments nrows {A} _.
Arguments ncols {A} _.
Arguments cell {A} _ _ _.

(** [np.zeros((h, w), dtype=bool)] *)
Definition zeros (h w : nat) : array bool :=
  {| nrows := h; ncols := w; cell := fun _ _ => false |}.

(** The first position and the length of the slice [a:b] of a dimension
    of size [n]. *)
Definition norm_bound (n : nat) (a : Z) : nat :=
  if (a <? 0)%Z then Z.to_nat (Z.max 0 (a + Z.of_nat n))
  else Z.to_nat (Z.min a (Z.of_nat n)).

Definition slice_range (n : nat) (a b : Z) : nat * nat :=
  (norm_bound n a, norm_bound n b - norm_bound n a).

(** [m[r0:r1, c0:c1]] *)
Definition slice2 {A} (m : array A) (r0 r1 c0 c1 : Z) : array A :=
  let rs := slice_range (nrows m) r0 r1 in
  let cs := slice_range (ncols m) c0 c1 in
  {| nrows := snd rs; ncols := snd cs;
     cell := fun i j => cell m (fst rs + i) (fst cs + j) |}.

(** [m[:, c0:c1]] *)
Definition slice_cols {A} (m : array A) (c0 c1 : Z) : array A :=
  let cs := slice_range (ncols m) c0 c1 in
  {| nrows := nrows m; ncols := snd cs;
     cell := fun i j => cell m i (fst cs + j) |}.

(** Broadcasting of one dimension, and the position read in an operand
    of size [n]. *)
Definition bdim (a b : nat) : option nat :=
  if a =? b then Some a
  else if a =? 1 then Some b
  else if b =? 1 then Some a
  else None.

Definition bidx (n i : nat) : nat := if n =? 1 then 0 else i.

(** [a | b] *)
Definition bor (a b : array bool) : exc (array bool) :=
  match bdim (nrows a) (nrows b), bdim (ncols a) (ncols b) with
  | Some r, Some c =>
      Ok {| nrows := r; ncols := c;
            cell := fun i j =>
              cell a (bidx (nrows a) i) (bidx (ncols a) j)
              || cell b (bidx (nrows b) i) (bidx (ncols b) j) |}
  | _, _ => Raise ValueError
  end.

(** [m[r0:r1, c0:c1] = v] *)
Definition assign2 {A} (m : array A) (r0 r1 c0 c1 : Z) (v : array A)
    : exc (array A) :=
  let rs := slice_range (nrows m) r0 r1 in
  let cs := slice_range (ncols m) c0 c1 in
  if ((nrows v =? snd rs) || (nrows v =? 1))
     && ((ncols v =? snd cs) || (ncols v =? 1))
  then
    Ok {| nrows := nrows m; ncols := ncols m;
          cell := fun i j =>
            if (fst rs <=? i) && (i <? fst rs + snd rs)
               && (fst cs <=? j) && (j <? fst cs + snd cs)
            then cell v (bidx (nrows v) (i - fst rs)) (bidx (ncols v) (j - fst cs))
            else cell m i j |}
  else Raise ValueError.

(** [np.sum(mask * pattern)] for a mask of the pattern's shape. *)
Definition masked_sum (mask : array bool) (pattern : array Q) : Q :=
  np_sum (flat_map (fun i =>
            map (fun j => if cell mask i j then cell pattern i j else 0%Q)
                (seq 0 (ncols pattern)))
          (seq 0 (nrows pattern))).

End Py.

Import Py.

(** ** rhana/spectrum.py: the Peak Distance Engine *)

(** [avg_dist] is a spacing or [np.inf], the one non-finite value the
    resolver tests for. *)
Inductive spacing : Type :=
| Finite (q : Q)
| Infinity.

Record PeakAnalysisResult : Type := {
  peaks_family : list nat;
  avg_dist : spacing;
  avg_err : Q
}.

(** The two shapes [get_peaks_distance] returns. *)
Inductive interdist_t : Type :=
| Flat (v : list Q)
| Full (m : list (list Q)).

(** [m[np.tril_indices_from(m)] = -m[np.tril_indices_from(m)]] *)
Definition negate_tril (m : list (list Q)) : list (list Q) :=
  imap (fun i row => imap (fun j v => if j <=? i then (- v)%Q else v) row) m.

(** [m[np.tril_indices_from(m, -1)]], row by row. *)
Definition strict_tril (m : list (list Q)) : list Q :=
  concat (imap (fun i row => take i row) m).

Definition get_peaks_distance (peaks : list nat) (peaks_w : list Q)
    (full polar : bool) : interdist_t :=
  if negb full then
    let dm := distance_matrix peaks_w peaks_w in
    Flat (strict_tril dm)
  else
    let interdist := distance_matrix peaks_w peaks_w in
    Full (if polar then negate_tril interdist else interdist).

Definition create_grid (start end_ center dist : Q) : exc (list Q) :=
  if Qeq_bool dist 0 then Raise ZeroDivisionError
  else
    let rn := Qfloor ((end_ - center) / dist) in
    let ln := Qfloor ((start - center) / dist) in
    Ok (map (fun k => (inject_Z k * dist)%Q) (arange (ln + 1) (rn + 1))).

Definition get_center_peak_idxs (peaks : list Q) (spec_center_loc tolerant : Q)
    : list nat :=
  where_ (map (fun p => Qltb (Qabs (p - spec_center_loc)) tolerant) peaks).

Definition get_center_peak_idx (peaks : list Q) (spec_center_loc tolerant : Q)
    : exc Z :=
  ci ← argmin (map (fun p => Qabs (p - spec_center_loc)) peaks);
  p ← nth_exc peaks ci;
  if Qltb (p - spec_center_loc) tolerant then mret (Z.of_nat ci)
  else mret (-1)%Z.

(** The generator [get_all_nbr_idxs]: one turn of its [while] loop per unit
    of fuel; the yielded values in order. *)
Fixpoint nbr_loop (fuel : nat) (center_i maxidx level : Z)
    (endleft endright : bool) : list Z :=
  match fuel with
  | O => []
  | S fuel' =>
      if endleft && endright then []
      else
        let level := (level + 1)%Z in
        let left := (0 <=? center_i - level)%Z in
        let right := (center_i + level <=? maxidx)%Z in
        (if left then [(center_i - level)%Z] else [])
          ++ (if right then [(center_i + level)%Z] else [])
          ++ nbr_loop fuel' center_i maxidx level
               (if left then endleft else true)
               (if right then endright else true)
  end.

Definition nbr_fuel (center_i maxidx : Z) : nat :=
  S (S (Z.to_nat (Z.max (center_i + 1) (maxidx - center_i + 1)))).

Definition get_all_nbr_idxs (center_i : Z) (idxs : list Z) : exc (list Z) :=
  match idxs with
  | [] => Raise ValueError
  | x :: t =>
      let maxidx := fold_left Z.max t x in
      Ok (nbr_loop (nbr_fuel center_i maxidx) center_i maxidx 0 false false)
  end.

(** The matching of every peak against the grid (the body of the loop of
    [analyze_peaks_distance_cent] from [nbr_grid_dm] to [gidx]):
    the accepted peaks [idx] and the grid index each one hit. *)
Definition match_grid (center_nbr_dists grid : list Q) (bound : Q)
    : exc (list nat * list nat) :=
  match grid with
  | [] => Raise ValueError
  | _ =>
      let nbr_grid_dm := map (map Qabs) (distance_matrix center_nbr_dists grid) in
      close ← mapM argmin nbr_grid_dm;
      match_error ← mapM (fun rc => nth_exc (fst rc) (snd rc))
                         (zip nbr_grid_dm close);
      let sel := map (fun e => Qltb (Qabs e) bound) match_error in
      mret (where_ sel, select sel close)
  end.

Definition uni_gidx_of (gidx : list nat) : list Z := unique (map Z.of_nat gidx).

Definition allowed_of (uni_gidx : list Z) (allow_discontinue : Z) : bool :=
  forallb (fun c => (c <=? allow_discontinue + 1)%Z) (diff uni_gidx).

(** [mask[x, y] = True] with [x, y = np.meshgrid(idx, idx)]. *)
Definition mark_processed (idx : list nat) (mask : list (list bool))
    : exc (list (list bool)) :=
  if forallb (fun i => i <? length mask) idx
  then Ok (imap (fun i row =>
             imap (fun k v =>
               if bool_decide (i ∈ idx) && bool_decide (k ∈ idx) then true else v)
               row) mask)
  else Raise IndexError.

(** The family recorded on acceptance: refined spacing and error. *)
Definition make_family (center_nbr_dists grid : list Q) (dist : Q)
    (idx gidx : list nat) : exc PeakAnalysisResult :=
  g ← take_idx grid gidx;
  d ← take_idx center_nbr_dists idx;
  let selected_multi := map (fun x => (x / dist)%Q) g in
  let nonzero_multi := map (fun m => negb (Qeq_bool m 0)) selected_multi in
  let ratios := map (fun dm => (fst dm / snd dm)%Q)
                    (zip (select nonzero_multi d)
                         (select nonzero_multi selected_multi)) in
  let count := inject_Z (Z.of_nat (length (List.filter id nonzero_multi))) in
  let avg := (np_sum ratios / count)%Q in
  let err := (np_sum (map (fun r => Qabs (r - avg)) ratios) / count)%Q in
  mret {| peaks_family := idx; avg_dist := Finite avg; avg_err := err |}.

Section Analyze.
Variables (peaks : list nat) (center_nbr_dists : list Q).
Variables (center_peak : Q) (center_peak_i : Z).
Variables (grid_min_w grid_max_w tolerant abs_tolerant : Q).
Variable (allow_discontinue : Z).

Definition analyze_state : Type := list (list bool) * list PeakAnalysisResult.

(** One turn of the [for j in get_all_nbr_idxs(...)] loop. *)
Definition analyze_step (st : analyze_state) (j : Z) : exc analyze_state :=
  let '(mask, out) := st in
  if (center_peak_i =? j)%Z then mret st
  else
    row ← index mask center_peak_i;
    seen ← index row j;
    if seen : bool then mret st
    else
      d ← index center_nbr_dists j;
      let dist := Qabs d in
      if Qle_bool dist abs_tolerant then mret st
      else
        grid ← create_grid grid_min_w grid_max_w center_peak dist;
        '(idx, gidx) ← match_grid center_nbr_dists grid
                          (Qmin (tolerant * dist) abs_tolerant);
        let uni_gidx := uni_gidx_of gidx in
        if allowed_of uni_gidx allow_discontinue && (1 <? length uni_gidx)
        then
          mask' ← mark_processed idx mask;
          r ← make_family center_nbr_dists grid dist idx gidx;
          mret (mask', out ++ [r])
        else mret st.

Fixpoint analyze_loop (st : analyze_state) (js : list Z) : exc analyze_state :=
  match js with
  | [] => mret st
  | j :: js' => st' ← analyze_step st j; analyze_loop st' js'
  end.

Definition analyze_peaks_distance_cent : exc (list PeakAnalysisResult) :=
  let n := length peaks in
  let mask := replicate n (replicate n false) in
  js ← get_all_nbr_idxs center_peak_i (arange 0 (Z.of_nat n));
  st ← analyze_loop (mask, []) js;
  mret (snd st).
End Analyze.

(** ** rhana/spectrum.py: class [Spectrum] *)

Module Spectrum.

Record t : Type := { spec : list Q; ws : list Q }.

(** What a method call leaves behind: the receiver's fields after the
    call, the fields of the object it returns, and whether that object
    is the receiver itself. *)
Record outcome : Type := {
  receiver : t;
  returned : t;
  is_self : bool
}.

Definition _update_spectrum (self : t) (spec ws : list Q) (inplace : bool)
    : outcome :=
  if inplace then
    let self' := {| spec := spec; ws := ws |} in
    {| receiver := self'; returned := self'; is_self := true |}
  else
    {| receiver := self;
       returned := {| spec := spec; ws := ws |};
       is_self := false |}.

Definition eps : Q := 1 # 100000.

Definition normalization (self : t) (inplace : bool) : exc outcome :=
  _min ← py_min (spec self);
  _max ← py_max (spec self);
  let nspec := map (fun x => ((x - _min) / (_max - _min + eps))%Q) (spec self) in
  mret (_update_spectrum self nspec (ws self) inplace).

Definition np_clip (clip_min clip_max : Q) (l : list Q) : list Q :=
  map (fun x => Qmin (Qmax x clip_min) clip_max) l.

Definition clip (self : t) (clip_min clip_max : Q) (inplace : bool) : outcome :=
  _update_spectrum self (np_clip clip_min clip_max (spec self)) (ws self) inplace.

(** Elementwise [a - b] with NumPy broadcasting of a length-one operand. *)
Definition np_sub (a b : list Q) : exc (list Q) :=
  if length a =? length b then Ok (zip_with Qminus a b)
  else match a, b with
       | [x], _ => Ok (map (fun y => (x - y)%Q) b)
       | _, [y] => Ok (map (fun x => (x - y)%Q) a)
       | _, _ => Raise ValueError
       end.

(** A 2 x 2 matrix, by rows. *)
Definition mat2 : Type := (Q * Q) * (Q * Q).

(** [X.T @ X] for the two-column design matrix [X = stack((xs, ones))]. *)
Definition normal_matrix (xs : list Q) : mat2 :=
  let sxx := np_sum (map (fun x => (x * x)%Q) xs) in
  let sx := np_sum xs in
  let m := inject_Z (Z.of_nat (length xs)) in
  ((sxx, sx), (sx, m)).

(** The inverse in exact arithmetic; there is none when the determinant
    vanishes. The float64 routine agrees with it up to rounding only, and
    may return on a matrix whose exact determinant is zero. *)
Definition exact_inv (M : mat2) : option mat2 :=
  let '((a, b), (c, d)) := M in
  let det := (a * d - b * c)%Q in
  if Qeq_bool det 0 then None
  else Some (((d / det)%Q, (- b / det)%Q), ((- c / det)%Q, (a / det)%Q)).

(** [l[0:n]] and [l[-n:]] for [n >= 1]. *)
Definition head_n {A} (n : nat) (l : list A) : list A := take n l.
Definition tail_n {A} (n : nat) (l : list A) : list A := drop (length l - n) l.

Section Inverse.
(** [np.linalg.inv] on a 2 x 2 matrix: the inverse it returns, or [None]
    where it raises [LinAlgError]. *)
Variable linalg_inv : mat2 -> option mat2.

(** [np.linalg.inv(X.T @ X) @ (X.T @ Y)]: the inverse is taken first, the
    product [X.T @ Y] raises on a length mismatch. *)
Definition lstsq_line (xs ys : list Q) : exc (Q * Q) :=
  match linalg_inv (normal_matrix xs) with
  | None => Raise LinAlgError
  | Some ((a, b), (c, d)) =>
      if negb (length xs =? length ys) then Raise ValueError
      else
        let sxy := np_sum (zip_with Qmult xs ys) in
        let sy := np_sum ys in
        mret ((a * sxy + b * sy)%Q, (c * sxy + d * sy)%Q)
  end.

Definition remove_background (self : t) (n : nat) (inplace : bool)
    : exc outcome :=
  XY ← (if 1 <? n then
           mret (head_n n (ws self) ++ tail_n n (ws self),
                 head_n n (spec self) ++ tail_n n (spec self))
         else
           x0 ← index (ws self) 0; x1 ← index (ws self) (-1);
           y0 ← index (spec self) 0; y1 ← index (spec self) (-1);
           mret ([x0; x1], [y0; y1]));
  A ← lstsq_line (fst XY) (snd XY);
  let fitted := map (fun w => (w * fst A + snd A)%Q) (ws self) in
  nspec ← np_sub (spec self) fitted;
  mret (_update_spectrum self nspec (ws self) inplace).
End Inverse.

Section External.
(** [scipy.ndimage.gaussian_filter1d(spec, sigma)] *)
Variable gaussian_filter1d : list Q -> Q -> list Q.
(** [interp1d(xs, ys, kind="quadratic")(ws)], which may raise. *)
Variable interp1d_quadratic : list Q -> list Q -> list Q -> exc (list Q).

Definition smooth (self : t) (sigma : Q) (inplace : bool) : outcome :=
  let nspec := gaussian_filter1d (spec self) sigma in
  _update_spectrum self nspec (ws self) true.

Definition filling_flat (self : t) (trunc : Q) (inplace : bool)
    : exc outcome :=
  let smask := map (fun x => Qle_bool x trunc) (spec self) in
  let cnt := length (List.filter id smask) in
  spec' ← (if (cnt <? length (spec self)) && (2 <? cnt) then
             if negb (length (ws self) =? length smask) then Raise IndexError
             else interp1d_quadratic (select smask (ws self))
                                     (select smask (spec self)) (ws self)
           else mret (spec self));
  if inplace then
    let self' := {| spec := spec'; ws := ws self |} in
    mret {| receiver := self'; returned := self'; is_self := true |}
  else
    mret {| receiver := self;
            returned := {| spec := spec'; ws := ws self |};
            is_self := false |}.
End External.

(** [Spectrum.get_peaks_distance]; [peaks] is the attribute set by
    [fit_spectrum_peaks]. *)
Definition get_peaks_distance (self : t) (peaks : list nat)
    (full polar : bool) : exc interdist_t :=
  pw ← take_idx (ws self) peaks;
  mret (get_peaks_distance peaks pw full polar).

(** The matrix [Spectrum.analyze_peaks_distance_cent] reads the centre row
    from: the result of [get_peaks_distance(full=True, polar=True)] after
    the method's own negation of the lower triangle. *)
Definition consumed_interdist (self : t) (peaks : list nat)
    : exc (list (list Q)) :=
  d ← get_peaks_distance self peaks true true;
  match d with
  | Full interdist => mret (negate_tril interdist)
  | Flat _ => Raise ValueError
  end.

Definition analyze_peaks_distance_cent (self : t) (peaks : list nat)
    (tolerant abs_tolerant : Q) (allow_discontinue : Z)
    : exc (list PeakAnalysisResult) :=
  grid_max_w ← py_max (ws self);
  let grid_min_w := 0%Q in
  interdist ← consumed_interdist self peaks;
  let peaks_q := map (fun p => inject_Z (Z.of_nat p)) peaks in
  center_peak_i ← get_center_peak_idx peaks_q
                    (inject_Z (Z.of_nat (length (ws self) / 2))) abs_tolerant;
  if (center_peak_i =? -1)%Z then mret []
  else
    center_peak ← index peaks_q center_peak_i;
    center_nbr_dists ← index interdist center_peak_i;
    analyze_peaks_distance_cent peaks center_nbr_dists center_peak
      center_peak_i grid_min_w grid_max_w tolerant abs_tolerant
      allow_discontinue.

(** *** The Peak Group Resolver: [Spectrum.get_peaks_group] *)

(** [a <= b] on [avg_dist] values. *)
Definition spacing_leb (a b : spacing) : bool :=
  match a, b with
  | Finite x, Finite y => Qle_bool x y
  | _, Infinity => true
  | Infinity, Finite _ => false
  end.

(** [avg_dist < np.inf] *)
Definition lt_inf (d : spacing) : bool :=
  match d with
  | Finite _ => true
  | Infinity => false
  end.

(** [sorted(l, key=lambda x: x[1])]: a stable sort on the second component. *)
Fixpoint insert_sorted (x : list nat * spacing) (l : list (list nat * spacing))
    : list (list nat * spacing) :=
  match l with
  | [] => [x]
  | y :: t =>
      if spacing_leb (snd x) (snd y) then x :: l
      else y :: insert_sorted x t
  end.

Definition sorted_by_dist (l : list (list nat * spacing))
    : list (list nat * spacing) :=
  foldr insert_sorted [] l.

(** [selected[family] = True] *)
Definition set_true (family : list nat) (selected : list bool)
    : exc (list bool) :=
  if forallb (fun i => i <? length selected) family
  then Ok (foldr (fun i s => <[i := true]> s) selected family)
  else Raise IndexError.

Definition group_state : Type := list (list nat * spacing) * list bool.

Definition group_step (exclusive : bool) (st : group_state)
    (fd : list nat * spacing) : exc group_state :=
  let '(out, selected) := st in
  let '(family, avg_dist) := fd in
  if lt_inf avg_dist then
    free ← (if negb exclusive then mret true
            else sel ← take_idx selected family; mret (forallb negb sel));
    if free : bool then
      selected' ← set_true family selected;
      mret (out ++ [(family, avg_dist)], selected')
    else mret st
  else mret st.

Fixpoint group_loop (exclusive : bool) (st : group_state)
    (l : list (list nat * spacing)) : exc group_state :=
  match l with
  | [] => mret st
  | fd :: l' => st' ← group_step exclusive st fd; group_loop exclusive st' l'
  end.

Definition get_peaks_group (ana_res : list PeakAnalysisResult)
    (peaks : list nat) (exclusive : bool)
    : exc (list (list nat * spacing)) :=
  let allpeaks_unfilterd :=
    map (fun res => (peaks_family res, avg_dist res)) ana_res in
  let selected := replicate (length peaks) false in
  let allpeaks_unfilterd := sorted_by_dist allpeaks_unfilterd in
  st ← group_loop exclusive ([], selected) allpeaks_unfilterd;
  mret (fst st ++ [(where_ (map negb (snd st)), Finite (-1))]).

End Spectrum.

(** ** rhana/phaser/distance.py: class [DBSCANDistanceCluster] *)

Module DBSCANDistanceCluster.

(** The attributes [labels] and [mean_dists] after a call. *)
Record t : Type := { labels : list Z; mean_dists : list Q }.

Definition _mean_dist (labels : list Z) (dists : list Q) : exc (list Q) :=
  if negb (length labels =? length dists) then Raise IndexError
  else
    mret (flat_map (fun l =>
            (if (l =? -1)%Z then [(-1)%Q] else [])
              ++ [np_mean (select (map (Z.eqb l) labels) dists)])
          (unique labels)).

(** [mapper = np.zeros_like(idx); for i, j in enumerate(idx): mapper[j] = i] *)
Definition make_mapper (sorted_mean_idx : list nat) : list Z :=
  fold_left (fun mapper ij => <[snd ij := Z.of_nat (fst ij)]> mapper)
    (zip (seq 0 (length sorted_mean_idx)) sorted_mean_idx)
    (replicate (length sorted_mean_idx) 0%Z).

Definition _sort_dists (labels : list Z) (mean_dists : list Q) : exc t :=
  let sorted_mean_idx := argsort mean_dists in
  mean_dists' ← take_idx mean_dists sorted_mean_idx;
  let mapper := make_mapper sorted_mean_idx in
  labels' ← mapM (index mapper) labels;
  mret {| labels := labels'; mean_dists := mean_dists' |}.

Section Model.
(** [self.model.fit_predict(dists); self.model.labels_]: the density
    clustering primitive, with [eps] and [min_samples] fixed by
    [__init__]. *)
Variable model_labels : list Q -> list Z.

Definition fit_predict (dists : list Q) : exc t :=
  let labels := model_labels dists in
  mean_dists ← _mean_dist labels dists;
  _sort_dists labels mean_dists.
End Model.

End DBSCANDistanceCluster.

(** ** rhana/pattern.py: class [RheedMask] *)

Module RheedMask.

(** A region of [skimage.measure.regionprops]: [bbox] is
    [(min_row, min_col, max_row, max_col)], [image] the mask inside it. *)
Record Region : Type := {
  bbox : Z * Z * Z * Z;
  image : array bool
}.

Inductive warning : Type :=
| LinAlgWarning
| GaussianFail (rid : nat)
| MaskFail (rid : nat).

(** The attributes of a [RheedMask] the modelled methods read or set. *)
Record t : Type := {
  pattern : array Q;
  regions : list Region;
  collapses : list Spectrum.t;
  collapses_peaks : list (list nat);
  collapses_peaks_ws : list (list Q);
  collapses_peaks_regions : list (list nat);
  collapses_peaks_ws_flatten : list Q;
  collapses_peaks_flatten : list nat;
  collapses_peaks_flatten_pids : list nat;
  collapses_peaks_flatten_regions : list nat;
  collapses_peaks_flatten_nbr_dist : list Q;
  collapses_peaks_flatten_ci : Z;
  collapses_peaks_flatten_cis : list nat;
  collapses_peaks_flatten_ciw : Q;
  collapses_peaks_flatten_ana_res : list PeakAnalysisResult;
  cluster_labels : list Z;
  cluster_labels_unique : list Z
}.

(** *** [clean_collapse] *)

Section Clean.
Variable linalg_inv : Spectrum.mat2 -> option Spectrum.mat2.
Variable gaussian_filter1d : list Q -> Q -> list Q.
(** [cs.normalize()]: the receiver after the call, or the exception it
    raises. The modelled files define no method of this name, so it is
    left open. *)
Variable normalize : Spectrum.t -> exc Spectrum.t.
Variables (smooth rm_bg scale : bool).

(** The body of the loop over [self.collapses]. *)
Definition clean_one (cs : Spectrum.t) : exc (Spectrum.t * list warning) :=
  r1 ← (if rm_bg then
          match Spectrum.remove_background linalg_inv cs 2 true with
          | Ok o => mret (Spectrum.receiver o, [])
          | Raise LinAlgError => mret (cs, [LinAlgWarning])
          | Raise e => Raise e
          end
        else mret (cs, []));
  cs2 ← (if scale then normalize (fst r1) else mret (fst r1));
  let cs3 := if smooth
             then Spectrum.receiver
                    (Spectrum.smooth gaussian_filter1d cs2 1 true)
             else cs2 in
  mret (cs3, snd r1).

Fixpoint clean_collapse (collapses : list Spectrum.t)
    : exc (list Spectrum.t * list warning) :=
  match collapses with
  | [] => mret ([], [])
  | cs :: rest =>
      r ← clean_one cs;
      rs ← clean_collapse rest;
      mret (fst r :: fst rs, snd r ++ snd rs)
  end.
End Clean.

(** *** [_flatten_peaks] and [analyze_peaks_distance_cent] *)

Definition _flatten_peaks (self : t) : exc t :=
  let ws_flatten := concat (collapses_peaks_ws self) in
  let flatten := concat (collapses_peaks self) in
  let flatten_regions := concat (collapses_peaks_regions self) in
  let sortidxs := argsort ws_flatten in
  ws_flatten' ← take_idx ws_flatten sortidxs;
  flatten' ← take_idx flatten sortidxs;
  flatten_regions' ← take_idx flatten_regions sortidxs;
  mret {| pattern := pattern self;
          regions := regions self;
          collapses := collapses self;
          collapses_peaks := collapses_peaks self;
          collapses_peaks_ws := collapses_peaks_ws self;
          collapses_peaks_regions := collapses_peaks_regions self;
          collapses_peaks_ws_flatten := ws_flatten';
          collapses_peaks_flatten := flatten';
          collapses_peaks_flatten_pids := sortidxs;
          collapses_peaks_flatten_regions := flatten_regions';
          collapses_peaks_flatten_nbr_dist := collapses_peaks_flatten_nbr_dist self;
          collapses_peaks_flatten_ci := collapses_peaks_flatten_ci self;
          collapses_peaks_flatten_cis := collapses_peaks_flatten_cis self;
          collapses_peaks_flatten_ciw := collapses_peaks_flatten_ciw self;
          collapses_peaks_flatten_ana_res := collapses_peaks_flatten_ana_res self;
          cluster_labels := cluster_labels self;
          cluster_labels_unique := cluster_labels_unique self |}.

(** The matrix the centre row is read from in the flattened path. *)
Definition consumed_interdist (allpeaks : list Q) : exc (list (list Q)) :=
  match get_peaks_distance (seq 0 (length allpeaks)) allpeaks true true with
  | Full inter_dist => mret inter_dist
  | Flat _ => Raise IndexError
  end.

Definition analyze_peaks_distance_cent (self : t)
    (tolerant abs_tolerant : Q) (allow_discontinue : Z) : exc t :=
  self ← _flatten_peaks self;
  let allpeaks := collapses_peaks_ws_flatten self in
  let half := inject_Z (Z.of_nat (ncols (pattern self) / 2)) in
  ci ← get_center_peak_idx allpeaks half abs_tolerant;
  let cis := get_center_peak_idxs allpeaks half abs_tolerant in
  ciw ← index allpeaks ci;
  inter_dist ← consumed_interdist allpeaks;
  nbr_dist ← index inter_dist ci;
  ana_res ← analyze_peaks_distance_cent (collapses_peaks_flatten self)
               nbr_dist ciw ci 0
               (inject_Z (Z.of_nat (ncols (pattern self))))
               tolerant abs_tolerant allow_discontinue;
  mret {| pattern := pattern self;
          regions := regions self;
          collapses := collapses self;
          collapses_peaks := collapses_peaks self;
          collapses_peaks_ws := collapses_peaks_ws self;
          collapses_peaks_regions := collapses_peaks_regions self;
          collapses_peaks_ws_flatten := collapses_peaks_ws_flatten self;
          collapses_peaks_flatten := collapses_peaks_flatten self;
          collapses_peaks_flatten_pids := collapses_peaks_flatten_pids self;
          collapses_peaks_flatten_regions := collapses_peaks_flatten_regions self;
          collapses_peaks_flatten_nbr_dist := nbr_dist;
          collapses_peaks_flatten_ci := ci;
          collapses_peaks_flatten_cis := cis;
          collapses_peaks_flatten_ciw := ciw;
          collapses_peaks_flatten_ana_res := ana_res;
          cluster_labels := cluster_labels self;
          cluster_labels_unique := cluster_labels_unique self |}.

(** *** [get_group_intensity] *)

Section GroupIntensity.
(** [curve_fit(multi_gaussian, xs, ys, guess)]: the optimal parameters,
    or the exception the optimiser raises. *)
Variable curve_fit : list Q -> list Q -> list Q -> exc (list Q).
Variable self : t.

(** The local state of the call: the mask of the current label, the
    dictionary [gauss_fit] and the warnings issued so far. *)
Definition acc : Type := array bool * gmap nat (list Q) * list warning.

Definition initial_guess (rid : nat) : exc (list Q) :=
  cs ← nth_exc (collapses self) rid;
  ps ← nth_exc (collapses_peaks self) rid;
  xs ← take_idx (Spectrum.ws cs) ps;
  hs ← take_idx (Spectrum.spec cs) ps;
  mx ← py_max xs;
  mn ← py_min xs;
  let width := ((mx - mn) / inject_Z (2 * Z.of_nat (length ps)))%Q in
  mret (flat_map (fun hx => [fst hx; snd hx; width]) (zip hs xs) ++ [0%Q]).

(** [if rid not in gauss_fit: ... else: popt, pcov = gauss_fit[rid]];
    [pcov] is never read and is left out. *)
Definition region_fit (rid : nat) (gauss_fit : gmap nat (list Q))
    (warns : list warning)
    : exc (list Q * gmap nat (list Q) * list warning) :=
  match gauss_fit !! rid with
  | Some popt => mret (popt, gauss_fit, warns)
  | None =>
      guess ← initial_guess rid;
      cs ← nth_exc (collapses self) rid;
      match curve_fit (Spectrum.ws cs) (Spectrum.spec cs) guess with
      | Ok popt => mret (popt, <[rid := popt]> gauss_fit, warns)
      | Raise _ =>
          mret (guess, <[rid := guess]> gauss_fit, warns ++ [GaussianFail rid])
      end
  end.

(** [m[r0:r1, c0:c1] = m[r0:r1, c0:c1] | img] *)
Definition or_into (m : array bool) (r0 r1 c0 c1 : Z) (img : array bool)
    : exc (array bool) :=
  v ← bor (slice2 m r0 r1 c0 c1) img;
  assign2 m r0 r1 c0 c1 v.

(** The body of [for p in ana.peaks_family]. *)
Definition peak_step (st : acc) (p : nat) : exc acc :=
  let '(group_mask, gauss_fit, warns) := st in
  if bool_decide (p ∈ collapses_peaks_flatten_cis self) then mret st
  else
    pid ← nth_exc (collapses_peaks_flatten_pids self) p;
    rid ← nth_exc (collapses_peaks_flatten_regions self) p;
    region ← nth_exc (regions self) rid;
    let '(minr, minc, maxr, maxc) := bbox region in
    ps ← nth_exc (collapses_peaks self) rid;
    if length ps =? 1 then
      group_mask' ← or_into group_mask minr maxr minc maxc (image region);
      mret (group_mask', gauss_fit, warns)
    else
      if negb (length (collapses_peaks_flatten_regions self)
               =? length (collapses_peaks_flatten_pids self))
      then Raise IndexError
      else
        let p_neighbor :=
          select (map (Nat.eqb rid) (collapses_peaks_flatten_regions self))
                 (collapses_peaks_flatten_pids self) in
        match p_neighbor with
        | [] => Raise ValueError
        | x :: rest =>
            let pid := pid - fold_left Nat.min rest x in
            f ← region_fit rid gauss_fit warns;
            let '(popt, gauss_fit', warns') := f in
            c ← nth_exc popt (pid * 3 + 1);
            s ← nth_exc popt (pid * 3 + 2);
            let old_minc := minc in
            let minc := Z.max minc (int_of (c - Qabs s)) in
            let maxc := Z.min maxc (int_of (c + Qabs s)) in
            match or_into group_mask minr maxr minc maxc
                    (slice_cols (image region)
                       (minc - old_minc) (maxc - old_minc)) with
            | Ok group_mask' => mret (group_mask', gauss_fit', warns')
            | Raise _ => mret (group_mask, gauss_fit', warns' ++ [MaskFail rid])
            end
        end.

Fixpoint peaks_loop (st : acc) (family : list nat) : exc acc :=
  match family with
  | [] => mret st
  | p :: rest => st' ← peak_step st p; peaks_loop st' rest
  end.

Fixpoint families_loop (st : acc) (selected : list PeakAnalysisResult)
    : exc acc :=
  match selected with
  | [] => mret st
  | ana :: rest =>
      st' ← peaks_loop st (peaks_family ana);
      families_loop st' rest
  end.

(** [[ana_res[i] for i, cl in enumerate(cluster_labels) if cl == ul]] *)
Definition selected_of (ul : Z) : exc (list PeakAnalysisResult) :=
  take_idx (collapses_peaks_flatten_ana_res self)
    (where_ (map (fun cl => (cl =? ul)%Z) (cluster_labels self))).

(** The state carried by [for i, ul in enumerate(cluster_labels_unique)]:
    [group_intensity], [group_percent] once it is bound, [gauss_fit]
    and the warnings. *)
Definition label_state : Type :=
  list Q * option (list Q) * gmap nat (list Q) * list warning.

Definition label_step (st : label_state) (i : nat) (ul : Z)
    : exc label_state :=
  let '(group_intensity, _, gauss_fit, warns) := st in
  let group_mask := zeros (nrows (pattern self)) (ncols (pattern self)) in
  selected ← selected_of ul;
  a ← families_loop (group_mask, gauss_fit, warns) selected;
  let '(group_mask', gauss_fit', warns') := a in
  let group_intensity' :=
    <[i := masked_sum group_mask' (pattern self)]> group_intensity in
  let total := np_sum group_intensity' in
  let group_percent := map (fun x => (x / total)%Q) group_intensity' in
  mret (group_intensity', Some group_percent, gauss_fit', warns').

Fixpoint labels_loop (st : label_state) (i : nat) (uls : list Z)
    : exc label_state :=
  match uls with
  | [] => mret st
  | ul :: rest => st' ← label_step st i ul; labels_loop st' (S i) rest
  end.

Definition get_group_intensity : exc (list Q * list Q * list warning) :=
  let group_intensity :=
    replicate (length (cluster_labels_unique self)) 0%Q in
  st ← labels_loop (group_intensity, None, ∅, []) 0
         (cluster_labels_unique self);
  let '(group_intensity', group_percent, _, warns) := st in
  match group_percent with
  | Some gp => mret (group_intensity', gp, warns)
  | None => Raise UnboundLocalError
  end.
End GroupIntensity.

End RheedMask.

(** ** Scenarios and specification predicates *)

(** The spectrum of the scenario: coordinates [0..120], peaks found at the
    samples [10, 20, 30, 40, 100]. *)
Definition scenario_spectrum : Spectrum.t :=
  {| Spectrum.spec := replicate 121 0%Q;
     Spectrum.ws := map inject_Z (arange 0 121) |}.

Definition scenario_peaks : list nat := [10; 20; 30; 40; 100].

(** The range the specification promises after [normalize]: minimum within
    [1e-5] of 0 and maximum within [1e-5] of 1. *)
Definition normalized_to_unit_range (s : Spectrum.t) : Prop :=
  exists o mn mx,
    Spectrum.normalization s true = Ok o
    /\ py_min (Spectrum.spec (Spectrum.receiver o)) = Ok mn
    /\ py_max (Spectrum.spec (Spectrum.receiver o)) = Ok mx
    /\ (Qabs (mn - 0) <= Spectrum.eps)%Q
    /\ (Qabs (mx - 1) <= Spectrum.eps)%Q.

(** [a <= b] on [avg_dist] values, as a proposition, and the order it
    induces on resolved groups. *)
Definition spacing_le (a b : spacing) : Prop :=
  match a, b with
  | Finite x, Finite y => (x <= y)%Q
  | _, Infinity => True
  | Infinity, Finite _ => False
  end.

Definition by_dist (g1 g2 : list nat * spacing) : Prop :=
  spacing_le (snd g1) (snd g2).

(** The invariant of the loop of [get_peaks_group] over the sorted families,
    for [n] peaks, after the families [done] have been visited: [selected]
    marks exactly the members of the accepted groups, which are pairwise
    disjoint, finite, taken from [done] and in ascending order. *)
Definition group_inv (n : nat) (done : list (list nat * spacing))
    (st : Spectrum.group_state) : Prop :=
  length (snd st) = n
  /\ (forall i, snd st !! i = Some true <-> exists g, g ∈ fst st /\ i ∈ fst g)
  /\ (forall a b ga gb, a <> b -> fst st !! a = Some ga -> fst st !! b = Some gb ->
        forall i, i ∈ fst ga -> i ∉ fst gb)
  /\ (forall g, g ∈ fst st -> g ∈ done /\ snd g <> Infinity)
  /\ StronglySorted by_dist (fst st).

Definition resolver_families : list PeakAnalysisResult :=
  [ {| peaks_family := [0; 1; 2]; avg_dist := Finite 20; avg_err := 0 |};
    {| peaks_family := [2; 3]; avg_dist := Finite 10; avg_err := 0 |};
    {| peaks_family := [4; 5]; avg_dist := Infinity; avg_err := 0 |} ].

(** The grid multiple behind the grid index [g] of [create_grid]: the grid
    lists the multiples from [floor((start - center) / dist) + 1] upwards. *)
Definition grid_multiple (start center dist : Q) (g : nat) : Z :=
  (Qfloor ((start - center) / dist) + 1 + Z.of_nat g)%Z.

(** [u] lists the distinct values of [l] in ascending order. *)
Definition sorted_distinct (l u : list Z) : Prop :=
  StronglySorted Z.lt u /\ forall x, x ∈ u <-> x ∈ l.

(** The acceptance conditions on a family [r]: it is the match of every peak
    against the grid of some neighbour [j] farther than [abs_tolerant] from
    the centre, each member with its matched grid index; the distinct
    matched multiples are at least two and consecutive ones differ by at most
    [allow_discontinue + 1]. *)
Definition accepted_family (center_nbr_dists : list Q)
    (center_peak grid_min_w grid_max_w tolerant abs_tolerant : Q)
    (allow_discontinue : Z) (r : PeakAnalysisResult) : Prop :=
  exists (j : Z) (d : Q) (grid : list Q) (gidx : list nat) (u : list Z),
    index center_nbr_dists j = Ok d
    /\ (abs_tolerant < Qabs d)%Q
    /\ create_grid grid_min_w grid_max_w center_peak (Qabs d) = Ok grid
    /\ match_grid center_nbr_dists grid
         (Qmin (tolerant * Qabs d) abs_tolerant) = Ok (peaks_family r, gidx)
    /\ length gidx = length (peaks_family r)
    /\ sorted_distinct
         (map (grid_multiple grid_min_w center_peak (Qabs d)) gidx) u
    /\ 2 <= length u
    /\ Forall (fun c => (c <= allow_discontinue + 1)%Z) (diff u).

(** The invariant of a spectrum: one coordinate per sample. *)
Definition aligned (cs : Spectrum.t) : Prop :=
  length (Spectrum.ws cs) = length (Spectrum.spec cs).

(** The matrix [X.T @ X] of the baseline system of [remove_background()],
    from the two first and the two last coordinates. *)
Definition baseline_matrix (cs : Spectrum.t) : Spectrum.mat2 :=
  Spectrum.normal_matrix
    (Spectrum.head_n 2 (Spectrum.ws cs) ++ Spectrum.tail_n 2 (Spectrum.ws cs)).

(** What the background step of [clean_collapse] makes of a spectrum [cs]:
    where the inversion of the baseline matrix raises, so does
    [remove_background()], with [LinAlgError]; the spectrum stays as it is
    and one warning is issued. Where the inversion returns, so does
    [remove_background()]; the spectrum is the receiver after the call and
    nothing is issued. *)
Definition background_step (linalg_inv : Spectrum.mat2 -> option Spectrum.mat2)
    (cs : Spectrum.t) (k : Spectrum.t * list RheedMask.warning) : Prop :=
  (linalg_inv (baseline_matrix cs) = None
   /\ Spectrum.remove_background linalg_inv cs 2 true = Raise LinAlgError
   /\ k = (cs, [RheedMask.LinAlgWarning]))
  \/ (exists N o, linalg_inv (baseline_matrix cs) = Some N
                 /\ Spectrum.remove_background linalg_inv cs 2 true = Ok o
                 /\ k = (Spectrum.receiver o, [])).

(** [normalize] as the min-max normalisation of [Spectrum]. *)
Definition normalize_min_max (cs : Spectrum.t) : exc Spectrum.t :=
  o ← Spectrum.normalization cs true; mret (Spectrum.receiver o).

(** A spectrum with a single sample: the baseline system of its two end
    samples, taken twice, has the matrix [[18, 6], [6, 2]]. *)
Definition single_sample : Spectrum.t :=
  {| Spectrum.spec := [5%Q]; Spectrum.ws := [3%Q] |}.

Definition three_samples : Spectrum.t :=
  {| Spectrum.spec := [1; 2; 4]%Q; Spectrum.ws := [0; 1; 2]%Q |}.

(** The same [RheedMask] with another list of analysis results. *)
Definition with_ana_res (self : RheedMask.t) (ana_res : list PeakAnalysisResult)
    : RheedMask.t :=
  {| RheedMask.pattern := RheedMask.pattern self;
     RheedMask.regions := RheedMask.regions self;
     RheedMask.collapses := RheedMask.collapses self;
     RheedMask.collapses_peaks := RheedMask.collapses_peaks self;
     RheedMask.collapses_peaks_ws := RheedMask.collapses_peaks_ws self;
     RheedMask.collapses_peaks_regions := RheedMask.collapses_peaks_regions self;
     RheedMask.collapses_peaks_ws_flatten := RheedMask.collapses_peaks_ws_flatten self;
     RheedMask.collapses_peaks_flatten := RheedMask.collapses_peaks_flatten self;
     RheedMask.collapses_peaks_flatten_pids := RheedMask.collapses_peaks_flatten_pids self;
     RheedMask.collapses_peaks_flatten_regions :=
       RheedMask.collapses_peaks_flatten_regions self;
     RheedMask.collapses_peaks_flatten_nbr_dist :=
       RheedMask.collapses_peaks_flatten_nbr_dist self;
     RheedMask.collapses_peaks_flatten_ci := RheedMask.collapses_peaks_flatten_ci self;
     RheedMask.collapses_peaks_flatten_cis := RheedMask.collapses_peaks_flatten_cis self;
     RheedMask.collapses_peaks_flatten_ciw := RheedMask.collapses_peaks_flatten_ciw self;
     RheedMask.collapses_peaks_flatten_ana_res := ana_res;
     RheedMask.cluster_labels := RheedMask.cluster_labels self;
     RheedMask.cluster_labels_unique := RheedMask.cluster_labels_unique self |}.

(** A family without the peaks recorded in [collapses_peaks_flatten_cis]. *)
Definition without_center (cis : list nat) (r : PeakAnalysisResult)
    : PeakAnalysisResult :=
  {| peaks_family :=
       List.filter (fun p => negb (bool_decide (p ∈ cis))) (peaks_family r);
     avg_dist := avg_dist r;
     avg_err := avg_err r |}.

Definition drop_center_peaks (self : RheedMask.t) : RheedMask.t :=
  with_ana_res self
    (map (without_center (RheedMask.collapses_peaks_flatten_cis self))
         (RheedMask.collapses_peaks_flatten_ana_res self)).

(** A fit that never fails: where [curve_fit] raises it returns the initial
    guess. *)
Definition fallback (curve_fit : list Q -> list Q -> list Q -> exc (list Q))
    : list Q -> list Q -> list Q -> exc (list Q) :=
  fun xs ys guess =>
    match curve_fit xs ys guess with
    | Ok popt => Ok popt
    | Raise _ => Ok guess
    end.

(** The contract of [curve_fit]: as many optimal parameters as guesses. *)
Definition fit_contract (curve_fit : list Q -> list Q -> list Q -> exc (list Q))
    : Prop :=
  forall xs ys guess popt,
    curve_fit xs ys guess = Ok popt -> length popt = length guess.

Definition not_gaussian_fail (w : RheedMask.warning) : bool :=
  match w with
  | RheedMask.GaussianFail _ => false
  | _ => true
  end.

(** Well-formedness of the state [get_group_intensity] reads. A region's
    bounding box lies inside the pattern and its image has the box's shape. *)
Definition region_wf (h w : nat) (r : RheedMask.Region) : bool :=
  let '(minr, minc, maxr, maxc) := RheedMask.bbox r in
  (0 <=? minr)%Z && (minr <=? maxr)%Z && (maxr <=? Z.of_nat h)%Z
  && (0 <=? minc)%Z && (minc <=? maxc)%Z && (maxc <=? Z.of_nat w)%Z
  && (Z.of_nat (nrows (RheedMask.image r)) =? maxr - minr)%Z
  && (Z.of_nat (ncols (RheedMask.image r)) =? maxc - minc)%Z.

(** A peak of a family is a centre peak, or it has a flattened position and
    a region; a region with one peak is well-formed; in a region with
    several peaks these index its spectrum, and the peak's rank among the
    region's peaks is below their number. *)
Definition peak_wf (self : RheedMask.t) (p : nat) : bool :=
  bool_decide (p ∈ RheedMask.collapses_peaks_flatten_cis self)
  || match RheedMask.collapses_peaks_flatten_pids self !! p,
           RheedMask.collapses_peaks_flatten_regions self !! p with
     | Some pid, Some rid =>
         match RheedMask.regions self !! rid,
               RheedMask.collapses_peaks self !! rid with
         | Some region, Some ps =>
             if length ps =? 1 then
               region_wf (nrows (RheedMask.pattern self))
                         (ncols (RheedMask.pattern self)) region
             else
               match RheedMask.collapses self !! rid with
               | Some cs =>
                   (1 <=? length ps)
                   && forallb (fun k => (k <? length (Spectrum.ws cs))
                                        && (k <? length (Spectrum.spec cs))) ps
                   && (length (RheedMask.collapses_peaks_flatten_regions self)
                       =? length (RheedMask.collapses_peaks_flatten_pids self))
                   && match select
                              (map (Nat.eqb rid)
                                 (RheedMask.collapses_peaks_flatten_regions self))
                              (RheedMask.collapses_peaks_flatten_pids self) with
                      | [] => false
                      | x :: rest => pid - fold_left Nat.min rest x <? length ps
                      end
               | None => false
               end
         | _, _ => false
         end
     | _, _ => false
     end.

Definition rheed_wf (self : RheedMask.t) : bool :=
  negb (length (RheedMask.cluster_labels_unique self) =? 0)
  && (length (RheedMask.cluster_labels self)
      <=? length (RheedMask.collapses_peaks_flatten_ana_res self))
  && forallb (fun r => forallb (peak_wf self) (peaks_family r))
       (RheedMask.collapses_peaks_flatten_ana_res self).

(** A pattern of 4 rows and 8 columns of unit intensity with two regions:
    columns 0..3 with peaks at the samples 1 and 3, and columns 5..7 with
    one peak at sample 1; the peak at position 3 is a centre peak. *)
Definition ones (h w : nat) : array bool :=
  {| nrows := h; ncols := w; cell := fun _ _ => true |}.

Definition two_regions : RheedMask.t :=
  {| RheedMask.pattern := {| nrows := 4; ncols := 8; cell := fun _ _ => 1%Q |};
     RheedMask.regions :=
       [ {| RheedMask.bbox := (0, 0, 4, 4)%Z; RheedMask.image := ones 4 4 |};
         {| RheedMask.bbox := (0, 5, 4, 8)%Z; RheedMask.image := ones 4 3 |} ];
     RheedMask.collapses :=
       [ {| Spectrum.spec := [1; 5; 2; 6]%Q; Spectrum.ws := [0; 1; 2; 3]%Q |};
         {| Spectrum.spec := [1; 9; 1]%Q; Spectrum.ws := [5; 6; 7]%Q |} ];
     RheedMask.collapses_peaks := [[1; 3]; [1]];
     RheedMask.collapses_peaks_ws := [[1; 3]%Q; [6%Q]];
     RheedMask.collapses_peaks_regions := [[0; 0]; [1]];
     RheedMask.collapses_peaks_ws_flatten := [1; 3; 6]%Q;
     RheedMask.collapses_peaks_flatten := [1; 3; 1];
     RheedMask.collapses_peaks_flatten_pids := [0; 1; 2];
     RheedMask.collapses_peaks_flatten_regions := [0; 0; 1];
     RheedMask.collapses_peaks_flatten_nbr_dist := [-2; 0; 3]%Q;
     RheedMask.collapses_peaks_flatten_ci := 1%Z;
     RheedMask.collapses_peaks_flatten_cis := [1];
     RheedMask.collapses_peaks_flatten_ciw := 3%Q;
     RheedMask.collapses_peaks_flatten_ana_res :=
       [ {| peaks_family := [0; 1; 2]; avg_dist := Finite (5 # 2); avg_err := 1 # 2 |} ];
     RheedMask.cluster_labels := [0%Z];
     RheedMask.cluster_labels_unique := [0%Z] |}.

(** An optimiser that always fails. *)
Definition failing_fit : list Q -> list Q -> list Q -> exc (list Q) :=
  fun _ _ _ => Raise OptimizeError.

(** Two runs agree up to the [GaussianFail] warnings of the first. *)
Definition exc_sim {A B} (R : A -> B -> Prop) (a : exc A) (b : exc B) : Prop :=
  match a, b with
  | Ok x, Ok y => R x y
  | Raise e, Raise e' => e = e'
  | _, _ => False
  end.

Definition fit_sim (r r' : list Q * gmap nat (list Q) * list RheedMask.warning)
    : Prop :=
  fst (fst r) = fst (fst r')
  /\ snd (fst r) = snd (fst r')
  /\ List.filter not_gaussian_fail (snd r) = snd r'.

Definition acc_sim (st st' : RheedMask.acc) : Prop :=
  fst (fst st) = fst (fst st')
  /\ snd (fst st) = snd (fst st')
  /\ List.filter not_gaussian_fail (snd st) = snd st'.

Definition label_sim (st st' : RheedMask.label_state) : Prop :=
  fst (fst st) = fst (fst st')
  /\ snd (fst st) = snd (fst st')
  /\ List.filter not_gaussian_fail (snd st) = snd st'.

Definition result_sim (r r' : list Q * list Q * list RheedMask.warning) : Prop :=
  fst r = fst r' /\ List.filter not_gaussian_fail (snd r) = snd r'.

(** Every cached parameter list has three entries per peak of its region
    and the offset. *)
Definition cache_ok (self : RheedMask.t) (gauss_fit : gmap nat (list Q)) : Prop :=
  forall rid popt ps,
    gauss_fit !! rid = Some popt ->
    RheedMask.collapses_peaks self !! rid = Some ps ->
    length popt = 3 * length ps + 1.

Definition acc_inv (self : RheedMask.t) (st : RheedMask.acc) : Prop :=
  nrows (fst (fst st)) = nrows (RheedMask.pattern self)
  /\ ncols (fst (fst st)) = ncols (RheedMask.pattern self)
  /\ cache_ok self (snd (fst st)).

(** The peaks [get_group_intensity] iterates over, in the order of the
    iteration: label by label, the members of the families that carry the
    label. *)
Definition visited (self : RheedMask.t) : list nat :=
  flat_map (fun ul =>
              match RheedMask.selected_of self ul with
              | Ok selected => flat_map peaks_family selected
              | Raise _ => []
              end)
    (RheedMask.cluster_labels_unique self).

(** The region whose mixture fit is read for the peak [p]: [p] is no centre
    peak and lies in a region with other than one peak. *)
Definition fitted_region (self : RheedMask.t) (p : nat) : option nat :=
  if bool_decide (p ∈ RheedMask.collapses_peaks_flatten_cis self) then None
  else
    match RheedMask.collapses_peaks_flatten_regions self !! p with
    | Some rid =>
        match RheedMask.collapses_peaks self !! rid with
        | Some ps => if length ps =? 1 then None else Some rid
        | None => None
        end
    | None => None
    end.

Section Failures.
Variable curve_fit : list Q -> list Q -> list Q -> exc (list Q).
Variable self : RheedMask.t.

(** The call of [curve_fit] for the region [rid] raises. *)
Definition fit_fails (rid : nat) : bool :=
  match RheedMask.initial_guess self rid, RheedMask.collapses self !! rid with
  | Ok guess, Some cs =>
      match curve_fit (Spectrum.ws cs) (Spectrum.spec cs) guess with
      | Ok _ => false
      | Raise _ => true
      end
  | _, _ => false
  end.

(** The parameters used for the region [rid]: the optimum of [curve_fit]
    or, where it raises, the initial guess. *)
Definition region_popt (rid : nat) : exc (list Q) :=
  guess ← RheedMask.initial_guess self rid;
  cs ← nth_exc (RheedMask.collapses self) rid;
  fallback curve_fit (Spectrum.ws cs) (Spectrum.spec cs) guess.

(** The composition of the sub-window of the peak [p] into a mask of the
    pattern's shape raises. *)
Definition mask_fails (p : nat) : bool :=
  match RheedMask.collapses_peaks_flatten_pids self !! p,
        RheedMask.collapses_peaks_flatten_regions self !! p with
  | Some pid, Some rid =>
      match RheedMask.regions self !! rid, region_popt rid,
            select (map (Nat.eqb rid) (RheedMask.collapses_peaks_flatten_regions self))
                   (RheedMask.collapses_peaks_flatten_pids self) with
      | Some region, Ok popt, x :: rest =>
          let k := pid - fold_left Nat.min rest x in
          match popt !! (k * 3 + 1), popt !! (k * 3 + 2) with
          | Some c, Some s =>
              let '(minr, minc, maxr, maxc) := RheedMask.bbox region in
              let minc' := Z.max minc (int_of (c - Qabs s)) in
              let maxc' := Z.min maxc (int_of (c + Qabs s)) in
              match RheedMask.or_into
                      (zeros (nrows (RheedMask.pattern self))
                             (ncols (RheedMask.pattern self)))
                      minr maxr minc' maxc'
                      (slice_cols (RheedMask.image region)
                         (minc' - minc) (maxc' - minc)) with
              | Ok _ => false
              | Raise _ => true
              end
          | _, _ => false
          end
      | _, _, _ => false
      end
  | _, _ => false
  end.

(** The warning of a fit: none for a cached region, [GaussianFail] where
    the fit of a region that is not cached raises. *)
Definition fit_warning (gauss_fit : gmap nat (list Q)) (rid : nat)
    : list RheedMask.warning :=
  match gauss_fit !! rid with
  | Some _ => []
  | None => if fit_fails rid then [RheedMask.GaussianFail rid] else []
  end.

(** The peaks whose contribution is skipped after a failed composition. *)
Definition mask_skipped (p : nat) : bool :=
  match fitted_region self p with
  | Some _ => mask_fails p
  | None => false
  end.
End Failures.

(** A family without the peaks that satisfy [bad], and the pattern with
    these peaks removed from every family. *)
Definition without_peaks (bad : nat -> bool) (r : PeakAnalysisResult)
    : PeakAnalysisResult :=
  {| peaks_family := List.filter (fun p => negb (bad p)) (peaks_family r);
     avg_dist := avg_dist r;
     avg_err := avg_err r |}.

Definition drop_peaks (bad : nat -> bool) (self : RheedMask.t) : RheedMask.t :=
  with_ana_res self
    (map (without_peaks bad) (RheedMask.collapses_peaks_flatten_ana_res self)).

(** Every cached parameter list is the one used for its region. *)
Definition cache_sound (curve_fit : list Q -> list Q -> list Q -> exc (list Q))
    (self : RheedMask.t) (gauss_fit : gmap nat (list Q)) : Prop :=
  forall rid popt, gauss_fit !! rid = Some popt ->
    region_popt curve_fit self rid = Ok popt.

(** A mask of the pattern's shape. *)
Definition mask_shape (self : RheedMask.t) (m : array bool) : Prop :=
  nrows m = nrows (RheedMask.pattern self)
  /\ ncols m = ncols (RheedMask.pattern self).

(** The warnings [warns] after the peaks [done] have been visited:
    [GaussianFail rid] was issued exactly when a peak fitted in the region
    [rid] was visited and the fit of [rid] raises; [MaskFail rid] exactly
    when the composition raised for a visited peak fitted in [rid]. *)
Definition warned (curve_fit : list Q -> list Q -> list Q -> exc (list Q))
    (self : RheedMask.t) (done : list nat) (warns : list RheedMask.warning)
    : Prop :=
  (forall rid, RheedMask.GaussianFail rid ∈ warns <->
     exists p, p ∈ done /\ fitted_region self p = Some rid
               /\ fit_fails curve_fit self rid = true)
  /\ (forall rid, RheedMask.MaskFail rid ∈ warns <->
        exists p, p ∈ done /\ fitted_region self p = Some rid
                  /\ mask_fails curve_fit self p = true).

(** The invariant of the loops of [get_group_intensity]: the cache is
    sound, a region is cached only after a peak fitted in it was visited,
    and the warnings are those of the visited peaks. *)
Definition warn_inv (curve_fit : list Q -> list Q -> list Q -> exc (list Q))
    (self : RheedMask.t) (done : list nat)
    (gauss_fit : gmap nat (list Q)) (warns : list RheedMask.warning) : Prop :=
  cache_sound curve_fit self gauss_fit
  /\ (forall rid, is_Some (gauss_fit !! rid) ->
        exists p, p ∈ done /\ fitted_region self p = Some rid)
  /\ warned curve_fit self done warns.

(** What [get_group_intensity] does about failures, for a fit [curve_fit]
    on the pattern [self]:
    - it returns the intensity and relative-intensity arrays, one entry per
      label;
    - the arrays are those obtained when every failed fit returns its
      initial guess instead, with the same warnings but the [GaussianFail]
      ones;
    - [GaussianFail rid] is among the warnings exactly when a visited peak
      is fitted in the region [rid] and the fit of [rid] raises;
    - [MaskFail rid] is among the warnings exactly when the composition
      raises for a visited peak that is fitted in the region [rid];
    - the arrays are those of the pattern without the peaks whose
      composition raises: nothing else is skipped. *)
Definition recovers (curve_fit : list Q -> list Q -> list Q -> exc (list Q))
    (self : RheedMask.t) : Prop :=
  exists gi gp warns,
    RheedMask.get_group_intensity curve_fit self = Ok (gi, gp, warns)
    /\ length gi = length (RheedMask.cluster_labels_unique self)
    /\ length gp = length (RheedMask.cluster_labels_unique self)
    /\ RheedMask.get_group_intensity (fallback curve_fit) self
       = Ok (gi, gp, List.filter not_gaussian_fail warns)
    /\ (forall rid, RheedMask.GaussianFail rid ∈ warns <->
          exists p, p ∈ visited self /\ fitted_region self p = Some rid
                    /\ fit_fails curve_fit self rid = true)
    /\ (forall rid, RheedMask.MaskFail rid ∈ warns <->
          exists p, p ∈ visited self /\ fitted_region self p = Some rid
                    /\ mask_fails curve_fit self p = true)
    /\ exists warns',
         RheedMask.get_group_intensity curve_fit
           (drop_peaks (mask_skipped curve_fit self) self)
         = Ok (gi, gp, warns').

(** A pattern of 4 rows and 10 columns of unit intensity with two regions
    of two peaks each, columns 1..4 and columns 6..9, in one family; and a
    fit that returns all zeros for the first region and raises for the
    second. *)
Definition two_doublets : RheedMask.t :=
  {| RheedMask.pattern := {| nrows := 4; ncols := 10; cell := fun _ _ => 1%Q |};
     RheedMask.regions :=
       [ {| RheedMask.bbox := (0, 1, 4, 5)%Z; RheedMask.image := ones 4 4 |};
         {| RheedMask.bbox := (0, 6, 4, 10)%Z; RheedMask.image := ones 4 4 |} ];
     RheedMask.collapses :=
       [ {| Spectrum.spec := [1; 5; 2; 6]%Q; Spectrum.ws := [1; 2; 3; 4]%Q |};
         {| Spectrum.spec := [1; 5; 2; 6]%Q; Spectrum.ws := [6; 7; 8; 9]%Q |} ];
     RheedMask.collapses_peaks := [[1; 3]; [1; 3]];
     RheedMask.collapses_peaks_ws := [[2; 4]%Q; [7; 9]%Q];
     RheedMask.collapses_peaks_regions := [[0; 0]; [1; 1]];
     RheedMask.collapses_peaks_ws_flatten := [2; 4; 7; 9]%Q;
     RheedMask.collapses_peaks_flatten := [1; 3; 1; 3];
     RheedMask.collapses_peaks_flatten_pids := [0; 1; 2; 3];
     RheedMask.collapses_peaks_flatten_regions := [0; 0; 1; 1];
     RheedMask.collapses_peaks_flatten_nbr_dist := [-2; 0; 3; 5]%Q;
     RheedMask.collapses_peaks_flatten_ci := 1%Z;
     RheedMask.collapses_peaks_flatten_cis := [];
     RheedMask.collapses_peaks_flatten_ciw := 4%Q;
     RheedMask.collapses_peaks_flatten_ana_res :=
       [ {| peaks_family := [0; 1; 2; 3]; avg_dist := Finite 2; avg_err := 0 |} ];
     RheedMask.cluster_labels := [0%Z];
     RheedMask.cluster_labels_unique := [0%Z] |}.

Definition zeros_or_fail : list Q -> list Q -> list Q -> exc (list Q) :=
  fun xs _ guess =>
    match xs with
    | x :: _ => if Qeq_bool x 1 then Ok (map (fun _ => 0%Q) guess)
                else Raise OptimizeError
    | [] => Raise OptimizeError
    end.

Definition key_le (a b : Q * nat) : Prop := (fst a <= fst b)%Q.

Definition cluster_mean (labels : list Z) (dists : list Q) (l : Z) : Q :=
  np_mean (select (map (Z.eqb l) labels) dists).

(** Nearer to the centre index [c], or as near. *)
Definition nearer (c a b : Z) : Prop := (Z.abs (a - c) <= Z.abs (b - c))%Z.

(** ** rhana/pattern.py: the blob queries of class [Rheed] *)

Module Rheed.

(** A row of [self.blobs]: row position [x], column position [y] and
    radius [r]. *)
Definition blob : Type := (Q * Q * Q)%type.

(** [x < top], where [top] starts as [np.inf] ([None]). *)
Definition below (x : Q) (top : option Q) : bool :=
  match top with
  | None => true
  | Some t => Qltb x t
  end.

(** The locals [top], [tb] and [i] of [get_top_blob]; [i] is unbound until
    the loop has run once. *)
Definition top_state : Type := (option Q * option (Q * Q) * option nat)%type.

Definition top_blob_step (rmin : Q) (st : top_state) (i : nat) (b : blob)
    : top_state :=
  let '(top, tb, _) := st in
  let '(x, y, r) := b in
  if below x top && Qle_bool rmin r then (Some x, Some (x, y), Some i)
  else (top, tb, Some i).

Fixpoint top_blob_loop (rmin : Q) (st : top_state) (i : nat) (blobs : list blob)
    : top_state :=
  match blobs with
  | [] => st
  | b :: rest => top_blob_loop rmin (top_blob_step rmin st i b) (S i) rest
  end.

Definition get_top_blob (rmin : Q) (blobs : list blob)
    : exc (option (Q * Q) * nat) :=
  let '(_, tb, i) := top_blob_loop rmin (None, None, None) 0 blobs in
  match i with
  | Some i => Ok (tb, i)
  | None => Raise UnboundLocalError
  end.

(** [get_direct_beam] on an object whose [blobs] attribute is set: the pair
    it stores in [self.db], [self.db_i] and returns. *)
Definition get_direct_beam (blobs : list blob) (rmin : Q)
    : exc (option (Q * Q) * nat) :=
  get_top_blob rmin blobs.

(** [y==dby and x==dbx and r==dbr] *)
Definition same_blob (b db : blob) : bool :=
  let '(x, y, r) := b in
  let '(dbx, dby, dbr) := db in
  Qeq_bool y dby && Qeq_bool x dbx && Qeq_bool r dbr.

(** The locals [top], [ss] and [i] of [get_specular_spot]; [i] starts
    as [-1]. *)
Definition spot_state : Type := (option Q * option blob * Z)%type.

Definition spot_step (rmin : Q) (db : blob) (st : spot_state) (i : nat)
    (b : blob) : spot_state :=
  let '(top, ss, _) := st in
  let '(x, y, r) := b in
  let '(dbx, dby, dbr) := db in
  if same_blob b db then (top, ss, Z.of_nat i)
  else if Qle_bool rmin r && Qle_bool x (dbx + dbr) && Qle_bool (dbx - dbr) x
          && below x top
  then (Some x, Some b, Z.of_nat i)
  else (top, ss, Z.of_nat i).

Fixpoint spot_loop (rmin : Q) (db : blob) (st : spot_state) (i : nat)
    (blobs : list blob) : spot_state :=
  match blobs with
  | [] => st
  | b :: rest => spot_loop rmin db (spot_step rmin db st i b) (S i) rest
  end.

(** [get_specular_spot]; [db_i] is the attribute set by [get_direct_beam]. *)
Definition get_specular_spot (blobs : list blob) (db_i : nat) (rmin : Q)
    : exc (option blob * Z) :=
  db ← nth_exc blobs db_i;
  let '(_, ss, i) := spot_loop rmin db (None, None, (-1)%Z) 0 blobs in
  mret (ss, i).

End Rheed.

(** [correct_zero_laue(xy, db, ndb)]; [db] and [ndb] are blobs, whose
    radius is not read. *)
Definition correct_zero_laue (xy : Q * Q) (db ndb : Rheed.blob) : Q * Q :=
  let '(nx, ny, _) := ndb in
  let '(x, y, _) := db in
  ((fst xy + (nx - x))%Q, (snd xy + (ny - y))%Q).

(** ** rhana/pattern.py: the region queries of class [RheedMask] *)

Module Regions.

Section Props.
(** [region.centroid] and [region.area] of [skimage.measure.regionprops]. *)
Variable centroid : RheedMask.Region -> Q * Q.
Variable area : RheedMask.Region -> Q.

(** The locals [topx], [topr] and [topr_i] of [get_top_region]. *)
Definition top_state : Type := (Q * option RheedMask.Region * Z)%type.

Definition top_region_step (st : top_state) (i : nat) (r : RheedMask.Region)
    : top_state :=
  let '(topx, topr, topr_i) := st in
  if Qltb (fst (centroid r)) topx
  then (fst (centroid r), Some r, Z.of_nat i)
  else st.

Fixpoint top_region_loop (st : top_state) (i : nat)
    (regions : list RheedMask.Region) : top_state :=
  match regions with
  | [] => st
  | r :: rest => top_region_loop (top_region_step st i r) (S i) rest
  end.

Definition get_top_region (pattern : array Q) (regions : list RheedMask.Region)
    : option RheedMask.Region * Z :=
  let '(_, topr, topr_i) :=
    top_region_loop (inject_Z (Z.of_nat (nrows pattern)), None, (-1)%Z) 0 regions in
  (topr, topr_i).

(** [filter_regions]: the attribute [regions] after the call and the
    returned list. *)
Definition filter_regions (regions : list RheedMask.Region) (min_area : Q)
    (inplace : bool) : list RheedMask.Region * list RheedMask.Region :=
  let filtered := List.filter (fun r => Qle_bool min_area (area r)) regions in
  let regions' := if inplace then filtered else regions in
  (regions', List.filter (fun r => Qle_bool min_area (area r)) regions').
End Props.

(** [m[r, c]] for Python integers [r] and [c]. *)
Definition cell_at {A} (m : array A) (r c : Z) : exc A :=
  let r' := if (r <? 0)%Z then (r + Z.of_nat (nrows m))%Z else r in
  let c' := if (c <? 0)%Z then (c + Z.of_nat (ncols m))%Z else c in
  if ((0 <=? r') && (r' <? Z.of_nat (nrows m))
      && (0 <=? c') && (c' <? Z.of_nat (ncols m)))%Z
  then Ok (cell m (Z.to_nat r') (Z.to_nat c'))
  else Raise IndexError.

(** The [for ... else] of [get_region_within] from region [i] on:
    [Some (r, i)] for [return r, i] and [None] for [return None, None]. *)
Fixpoint region_within_loop (i : nat) (regions : list RheedMask.Region)
    (x y : Z) : exc (option (RheedMask.Region * nat)) :=
  match regions with
  | [] => mret None
  | r :: rest =>
      let '(sx, sy, ex, ey) := RheedMask.bbox r in
      let within_box_x := ((sx <=? x) && (x <=? ex))%Z in
      let within_box_y := ((sy <=? y) && (y <=? ey))%Z in
      if within_box_x && within_box_y then
        within_mask ← cell_at (RheedMask.image r) (x - sx) (y - sy);
        if within_mask : bool then mret (Some (r, i))
        else region_within_loop (S i) rest x y
      else region_within_loop (S i) rest x y
  end.

Definition get_region_within (regions : list RheedMask.Region) (x y : Z)
    : exc (option (RheedMask.Region * nat)) :=
  region_within_loop 0 regions x y.

End Regions.

(** The point [(x, y)] lies in the mask of region [r]: inside the bounding
    box and on a set pixel of the region's image. *)
Definition in_region (r : RheedMask.Region) (x y : Z) : Prop :=
  let '(sx, sy, ex, ey) := RheedMask.bbox r in
  (sx <= x < ex)%Z /\ (sy <= y < ey)%Z
  /\ cell (RheedMask.image r) (Z.to_nat (x - sx)) (Z.to_nat (y - sy)) = true.

(** The image of a region has the extent of its bounding box. *)
Definition region_shape (r : RheedMask.Region) : Prop :=
  let '(sx, sy, ex, ey) := RheedMask.bbox r in
  (sx <= ex)%Z /\ (sy <= ey)%Z
  /\ Z.of_nat (nrows (RheedMask.image r)) = (ex - sx)%Z
  /\ Z.of_nat (ncols (RheedMask.image r)) = (ey - sy)%Z.

(** The test [within_box] of [get_region_within], which includes the
    maximal row and column of the bounding box. *)
Definition in_closed_box (r : RheedMask.Region) (x y : Z) : Prop :=
  let '(sx, sy, ex, ey) := RheedMask.bbox r in
  (sx <= x <= ex)%Z /\ (sy <= y <= ey)%Z.

(** The point is on the maximal row or column of the closed box. *)
Definition on_max_edge (r : RheedMask.Region) (x y : Z) : Prop :=
  let '(sx, sy, ex, ey) := RheedMask.bbox r in
  (sx <= x <= ex)%Z /\ (sy <= y <= ey)%Z /\ (x = ex \/ y = ey).

(** The candidates and keys of the two blob scans and of the region scan. *)
Definition wide_blob (rmin : Q) (b : Rheed.blob) : bool := Qle_bool rmin (snd b).
Definition blob_row (b : Rheed.blob) : Q := fst (fst b).
Definition blob_xy (b : Rheed.blob) : Q * Q := (fst (fst b), snd (fst b)).

(** The first element of the least key among the candidates of a list: the
    element at position [k], if any, that a loop keeping the first strict
    minimum selects. *)
Definition first_least {A} (cand : A -> bool) (key : A -> Q) (l : list A)
    (k : nat) (b : A) : Prop :=
  l !! k = Some b
  /\ cand b = true
  /\ (forall j c, l !! j = Some c -> cand c = true -> (key b <= key c)%Q)
  /\ (forall j c, j < k -> l !! j = Some c -> cand c = true -> (key b < key c)%Q).

Fixpoint first_least_from {A} (cand : A -> bool) (key : A -> Q)
    (best : option (nat * A)) (i : nat) (l : list A) : option (nat * A) :=
  match l with
  | [] => best
  | b :: rest =>
      first_least_from cand key
        (if cand b && Rheed.below (key b) (option_map (fun p => key (snd p)) best)
         then Some (i, b) else best)
        (S i) rest
  end.

(** A blob that [get_specular_spot] may select for the recorded direct
    beam [db]. *)
Definition spot_candidate (rmin : Q) (db : Rheed.blob) (b : Rheed.blob) : bool :=
  negb (Rheed.same_blob b db)
  && (Qle_bool rmin (snd b)
      && Qle_bool (fst (fst b)) (fst (fst db) + snd db)
      && Qle_bool (fst (fst db) - snd db) (fst (fst b))).

(** ** rhana/pattern.py: [RheedMask.fit_collapse_peaks] *)

Module PeakTables.

Section Fit.
(** The first component [peaks] of
    [cs.find_spectrum_peaks(height, threshold, prominence)]: the indices of
    the peaks found in the spectrum [cs], or the exception raised. The
    modelled files define no method of this name, so it is left open. *)
Variable find_spectrum_peaks : Spectrum.t -> exc (list nat).

(** The peak table of one entry of [self.collapses], which may be [None]:
    the peaks and their positions [cs.ws[peaks]]. *)
Definition fit_one (cs : option Spectrum.t) : exc (list nat * list Q) :=
  match cs with
  | Some cs =>
      peaks ← find_spectrum_peaks cs;
      w ← take_idx (Spectrum.ws cs) peaks;
      mret (peaks, w)
  | None => mret ([], [])
  end.

(** [collapses] is the attribute [self.collapses] as this method reads it,
    with the entries that are [None]; [collapses_peaks_info] is read by none
    of the modelled methods and is left out. *)
Definition fit_collapse_peaks (collapses : list (option Spectrum.t))
    (self : RheedMask.t) : exc RheedMask.t :=
  tables ← mapM fit_one collapses;
  let collapses_peaks := map fst tables in
  let collapses_peaks_ws := map snd tables in
  let collapses_peaks_regions :=
    imap (fun i ps => replicate (length ps) i) collapses_peaks in
  mret {| RheedMask.pattern := RheedMask.pattern self;
          RheedMask.regions := RheedMask.regions self;
          RheedMask.collapses := RheedMask.collapses self;
          RheedMask.collapses_peaks := collapses_peaks;
          RheedMask.collapses_peaks_ws := collapses_peaks_ws;
          RheedMask.collapses_peaks_regions := collapses_peaks_regions;
          RheedMask.collapses_peaks_ws_flatten :=
            RheedMask.collapses_peaks_ws_flatten self;
          RheedMask.collapses_peaks_flatten := RheedMask.collapses_peaks_flatten self;
          RheedMask.collapses_peaks_flatten_pids :=
            RheedMask.collapses_peaks_flatten_pids self;
          RheedMask.collapses_peaks_flatten_regions :=
            RheedMask.collapses_peaks_flatten_regions self;
          RheedMask.collapses_peaks_flatten_nbr_dist :=
            RheedMask.collapses_peaks_flatten_nbr_dist self;
          RheedMask.collapses_peaks_flatten_ci := RheedMask.collapses_peaks_flatten_ci self;
          RheedMask.collapses_peaks_flatten_cis :=
            RheedMask.collapses_peaks_flatten_cis self;
          RheedMask.collapses_peaks_flatten_ciw :=
            RheedMask.collapses_peaks_flatten_ciw self;
          RheedMask.collapses_peaks_flatten_ana_res :=
            RheedMask.collapses_peaks_flatten_ana_res self;
          RheedMask.cluster_labels := RheedMask.cluster_labels self;
          RheedMask.cluster_labels_unique := RheedMask.cluster_labels_unique self |}.
End Fit.

End PeakTables.

(** A peak finder for the examples: the samples above 4; and the collapses
    of [two_regions] around an entry that is [None]. *)
Definition peaks_above_4 (cs : Spectrum.t) : exc (list nat) :=
  Ok (where_ (map (fun v => Qltb 4 v) (Spectrum.spec cs))).

Definition some_collapses : list (option Spectrum.t) :=
  [ Some {| Spectrum.spec := [1; 5; 2; 6]%Q; Spectrum.ws := [0; 1; 2; 3]%Q |};
    None;
    Some {| Spectrum.spec := [1; 9; 1]%Q; Spectrum.ws := [5; 6; 7]%Q |} ].

(** ** rhana/phaser/distance.py: class [RHEEDMaskDistancePhaser] *)

Module RHEEDMaskDistancePhaser.

(** The phaser holds references to pattern objects. [store] holds the
    objects by identity and [rdms] lists identities, so that one object may
    be listed twice; every listed identity is bound in the store. *)
Definition with_labels (o : RheedMask.t) (labels uniq : list Z) : RheedMask.t :=
  {| RheedMask.pattern := RheedMask.pattern o;
     RheedMask.regions := RheedMask.regions o;
     RheedMask.collapses := RheedMask.collapses o;
     RheedMask.collapses_peaks := RheedMask.collapses_peaks o;
     RheedMask.collapses_peaks_ws := RheedMask.collapses_peaks_ws o;
     RheedMask.collapses_peaks_regions := RheedMask.collapses_peaks_regions o;
     RheedMask.collapses_peaks_ws_flatten := RheedMask.collapses_peaks_ws_flatten o;
     RheedMask.collapses_peaks_flatten := RheedMask.collapses_peaks_flatten o;
     RheedMask.collapses_peaks_flatten_pids := RheedMask.collapses_peaks_flatten_pids o;
     RheedMask.collapses_peaks_flatten_regions :=
       RheedMask.collapses_peaks_flatten_regions o;
     RheedMask.collapses_peaks_flatten_nbr_dist :=
       RheedMask.collapses_peaks_flatten_nbr_dist o;
     RheedMask.collapses_peaks_flatten_ci := RheedMask.collapses_peaks_flatten_ci o;
     RheedMask.collapses_peaks_flatten_cis := RheedMask.collapses_peaks_flatten_cis o;
     RheedMask.collapses_peaks_flatten_ciw := RheedMask.collapses_peaks_flatten_ciw o;
     RheedMask.collapses_peaks_flatten_ana_res :=
       RheedMask.collapses_peaks_flatten_ana_res o;
     RheedMask.cluster_labels := labels;
     RheedMask.cluster_labels_unique := uniq |}.

(** [rdm.collapses_peaks_flatten_ana_res] of the object [rdm]. *)
Definition ana_res_of (store : list RheedMask.t) (rdm : nat)
    : list PeakAnalysisResult :=
  match store !! rdm with
  | Some o => RheedMask.collapses_peaks_flatten_ana_res o
  | None => []
  end.

(** [_get_all_distance] with [convert_dist=False]: the list
    [all_peak_dists]; [all_peak_dists_values] is its second projection. *)
Definition _get_all_distance (store : list RheedMask.t) (rdms : list nat)
    : list (nat * nat * spacing) :=
  concat (imap (fun i rdm =>
                  imap (fun j res => ((i, j), avg_dist res)) (ana_res_of store rdm))
               rdms).

Section Cluster.
(** [self.dc.fit_predict(self.all_peak_dists_values[:, None])] of a fresh
    [DBSCANDistanceCluster(eps, min_samples)]: the labels, or the exception
    it raises. *)
Variable fit_predict : list spacing -> exc (list Z).

(** [for rdm in self.rdms: rdm.cluster_labels = []] *)
Definition reset_labels (store : list RheedMask.t) (rdms : list nat)
    : list RheedMask.t :=
  foldl (fun s rdm =>
           alter (fun o => with_labels o [] (RheedMask.cluster_labels_unique o)) rdm s)
        store rdms.

(** [for label, (idx, _) in zip(labels, self.all_peak_dists):
       self.rdms[idx[0]].cluster_labels.append(label)] *)
Fixpoint assign_labels (store : list RheedMask.t) (rdms : list nat)
    (zs : list (Z * (nat * nat * spacing))) : exc (list RheedMask.t) :=
  match zs with
  | [] => mret store
  | (label, (idx, _)) :: rest =>
      rdm ← nth_exc rdms (fst idx);
      assign_labels
        (alter (fun o => with_labels o (RheedMask.cluster_labels o ++ [label])
                           (RheedMask.cluster_labels_unique o)) rdm store)
        rdms rest
  end.

(** [for rdm in self.rdms: rdm.cluster_labels = np.array(rdm.cluster_labels);
       rdm.cluster_labels_unique = np.unique(rdm.cluster_labels)] *)
Definition finish_labels (store : list RheedMask.t) (rdms : list nat)
    : list RheedMask.t :=
  foldl (fun s rdm =>
           alter (fun o => with_labels o (RheedMask.cluster_labels o)
                             (unique (RheedMask.cluster_labels o))) rdm s)
        store rdms.

(** [run_cluster]: the store after the call. *)
Definition run_cluster (store : list RheedMask.t) (rdms : list nat)
    : exc (list RheedMask.t) :=
  let all_peak_dists := _get_all_distance store rdms in
  labels ← fit_predict (map snd all_peak_dists);
  let store := reset_labels store rdms in
  store ← assign_labels store rdms (zip labels all_peak_dists);
  mret (finish_labels store rdms).
End Cluster.

End RHEEDMaskDistancePhaser.

(** The entries of [all_peak_dists] for the patterns [rs], the pattern at
    position [k] being numbered [g k]. *)
Definition blocks_from (g : nat -> nat) (store : list RheedMask.t) (rs : list nat)
    : list (nat * nat * spacing) :=
  concat (imap (fun k rdm =>
                  imap (fun j res => ((g k, j), avg_dist res))
                       (RHEEDMaskDistancePhaser.ana_res_of store rdm))
               rs).

(** The labels that the loop over [zip(labels, all_peak_dists)] appends to
    the object [id], and those paired with the pattern number [v]. *)
Definition bucket (rdms : list nat) (id : nat)
    (zs : list (Z * (nat * nat * spacing))) : list Z :=
  flat_map (fun z => if decide (rdms !! fst (fst (snd z)) = Some id)
                     then [fst z] else []) zs.

Definition labels_at (v : nat) (zs : list (Z * (nat * nat * spacing))) : list Z :=
  flat_map (fun z => if decide (fst (fst (snd z)) = v) then [fst z] else []) zs.

(** Two objects listed in a store of two patterns. *)
Definition two_patterns : list RheedMask.t :=
  [ two_regions;
    with_ana_res two_regions
      [ {| peaks_family := [0; 1]; avg_dist := Finite 2; avg_err := 0 |};
        {| peaks_family := [1; 2]; avg_dist := Finite 3; avg_err := 0 |} ] ].

(** ** rhana/spectrum.py: the width guess of [SpectrumModel.from_peaks] *)

Module SpectrumModel.

(** [l[max(p - window, 0) : p + window]] for a peak index [p] and a
    non-negative [config.peak_window]. *)
Definition window_slice {A} (l : list A) (p window : nat) : list A :=
  take (p + window - (p - window)) (drop (p - window) l).

(** One turn of the loop of [_guess_FWHM]: the entries appended to
    [peak_lefts] and [peak_rights]. On an empty window the first lookup
    already raises. *)
Definition guess_one (spec : Spectrum.t) (window : nat) (p : nat) (wm : Q)
    : exc (Q * Q) :=
  let above_wm :=
    map (fun v => Qltb v wm) (window_slice (Spectrum.spec spec) p window) in
  let x := window_slice (Spectrum.ws spec) p window in
  let above_wm_int := where_ (map negb above_wm) in
  let '(left_, right_) :=
    match above_wm_int with
    | [] => (0, length x - 1)
    | i :: rest => (fold_left Nat.min rest i, fold_left Nat.max rest i)
    end in
  l ← nth_exc x left_;
  r ← nth_exc x right_;
  mret (l, r).

Definition _guess_FWHM (spec : Spectrum.t) (peaks : list nat)
    (peak_heights : list Q) (window : nat) : exc (list Q) :=
  let wms := map (fun h => (h / 2)%Q) peak_heights in
  lr ← mapM (fun pw => guess_one spec window (fst pw) (snd pw)) (zip peaks wms);
  mret (map (fun lr => (snd lr - fst lr)%Q) lr).

End SpectrumModel.

(** * Properties *)

(** ** The exception monad *)

Lemma bind_Ok {A B} (m : exc A) (f : A -> exc B) (b : B) :
  m ≫= f = Ok b -> exists a, m = Ok a /\ f a = Ok b.
Proof.
  destruct m as [a|e]; simpl; intros H.
  - exists a. split; [reflexivity | exact H].
  - discriminate H.
Qed.

Lemma mret_Ok {A} (a b : A) : (mret a : exc A) = Ok b -> a = b.
Proof. intros H. injection H. auto. Qed.

(** Peels the binds of a hypothesis [m ≫= f = Ok b]. *)
Ltac exc_inv H :=
  repeat match type of H with
  | (_ ≫= _) = Ok _ =>
      let a := fresh "a" in
      let Ha := fresh "Ha" in
      apply bind_Ok in H; destruct H as (a & Ha & H)
  | mret _ = Ok _ => apply mret_Ok in H
  | Ok _ = Ok _ => injection H as H
  | Raise _ = Ok _ => discriminate H
  end.

Lemma nth_exc_Ok {A} (l : list A) (i : nat) (x : A) :
  nth_exc l i = Ok x <-> l !! i = Some x.
Proof.
  unfold nth_exc. destruct (l !! i); split; intros H; congruence.
Qed.

Lemma mapM_Ok_length {A B} (f : A -> exc B) (l : list A) (k : list B) :
  mapM f l = Ok k -> length k = length l.
Proof.
  revert k. induction l as [|x l IH]; intros k H; simpl in H.
  - apply mret_Ok in H. subst k. reflexivity.
  - exc_inv H. subst k. simpl. f_equal. eauto.
Qed.

Lemma mapM_Ok_lookup {A B} (f : A -> exc B) (l : list A) (k : list B) i x :
  mapM f l = Ok k -> l !! i = Some x -> exists y, k !! i = Some y /\ f x = Ok y.
Proof.
  revert k i. induction l as [|a l IH]; intros k i H Hx; [discriminate Hx|].
  simpl in H. exc_inv H. subst k.
  destruct i as [|i]; simpl in *.
  - injection Hx as ->. eauto.
  - eauto.
Qed.

Lemma mapM_total {A B} (f : A -> exc B) (l : list A) :
  Forall (fun x => exists y, f x = Ok y) l -> exists k, mapM f l = Ok k.
Proof.
  induction 1 as [|x l [y Hy] _ [k Hk]]; simpl.
  - eexists. reflexivity.
  - rewrite Hy. simpl. rewrite Hk. simpl. eexists. reflexivity.
Qed.

(** ** C1: centre selection *)

(** C1, evaluated on the code: for peaks at [10,20,30,40,100] on the domain
    [0,120] with [abs_tolerant = 15], the centre selection returns the peak
    at 40 (index 3) although it lies 20 away from the midpoint 60, because
    the test compares the signed difference [40 - 60] with the tolerance;
    the engine then reports three families instead of an empty list. *)
Theorem center_selection_left_peak_accepted :
  get_center_peak_idx (map (fun p => inject_Z (Z.of_nat p)) scenario_peaks)
    60 15 = Ok 3%Z
  /\ exists out,
       Spectrum.analyze_peaks_distance_cent scenario_spectrum scenario_peaks
         (1 # 100) 15 1 = Ok out
       /\ map peaks_family out = [[3; 4]; [1; 3; 4]; [0; 3; 4]].
Proof.
  split.
  - vm_compute. reflexivity.
  - eexists. split.
    + vm_compute. reflexivity.
    + reflexivity.
Qed.

(** ** C5: polarity of the distance matrix *)

Lemma lookup_negate_tril (m : list (list Q)) i j row x :
  m !! i = Some row -> row !! j = Some x ->
  exists row', negate_tril m !! i = Some row'
    /\ row' !! j = Some (if j <=? i then (- x)%Q else x).
Proof.
  intros Hi Hj. unfold negate_tril.
  rewrite list_lookup_imap, Hi. simpl. eexists. split; [reflexivity|].
  rewrite list_lookup_imap, Hj. reflexivity.
Qed.

Lemma lookup_distance_matrix (xs ys : list Q) i j x y :
  xs !! i = Some x -> ys !! j = Some y ->
  exists row, distance_matrix xs ys !! i = Some row
    /\ row !! j = Some (Qabs (x - y)).
Proof.
  intros Hi Hj. unfold distance_matrix.
  rewrite list_lookup_fmap, Hi. simpl. eexists. split; [reflexivity|].
  rewrite list_lookup_fmap, Hj. reflexivity.
Qed.

(** What [get_peaks_distance(full=True, polar=True)] returns is polar: this
    is the matrix of the flattened path of [RheedMask]. *)
Lemma flattened_interdist_polar (allpeaks : list Q) m i j wi wj :
  RheedMask.consumed_interdist allpeaks = Ok m ->
  allpeaks !! i = Some wi -> allpeaks !! j = Some wj -> i <> j ->
  exists ri rj dij dji,
    m !! i = Some ri /\ ri !! j = Some dij /\
    m !! j = Some rj /\ rj !! i = Some dji /\
    dij == - dji.
Proof.
  intros Hm Hi Hj Hne. unfold RheedMask.consumed_interdist in Hm.
  simpl in Hm. apply mret_Ok in Hm. subst m.
  destruct (lookup_distance_matrix allpeaks allpeaks i j wi wj Hi Hj)
    as (ri & Hri & Hrij).
  destruct (lookup_distance_matrix allpeaks allpeaks j i wj wi Hj Hi)
    as (rj & Hrj & Hrji).
  destruct (lookup_negate_tril _ i j ri _ Hri Hrij) as (ri' & Hri' & Hij').
  destruct (lookup_negate_tril _ j i rj _ Hrj Hrji) as (rj' & Hrj' & Hji').
  assert (Hsym : Qabs (wi - wj) == Qabs (wj - wi)).
  { rewrite <- Qabs_opp. apply Qabs_wd. ring. }
  exists ri', rj'. eexists. eexists.
  split; [exact Hri'|]. split; [exact Hij'|].
  split; [exact Hrj'|]. split; [exact Hji'|].
  destruct (Nat.leb_spec j i), (Nat.leb_spec i j); try lia.
  - rewrite Hsym. reflexivity.
  - rewrite Hsym. ring.
Qed.

(** C5, evaluated on the code: in the per-spectrum path the matrix returned
    polar by [get_peaks_distance] has its lower triangle negated a second
    time, so the matrix the centre row is read from is the unsigned one: for
    two peaks at 10 and 20, [dist[0,1] = dist[1,0] = 10]. *)
Theorem spectrum_interdist_not_polar :
  Spectrum.consumed_interdist scenario_spectrum [10; 20]
  = Ok [[0%Q; 10%Q]; [10%Q; 0%Q]].
Proof. vm_compute. reflexivity. Qed.

(** ** C2: relabelling of the clusters *)

(** C2, evaluated on the code: with the primitive's labels
    [0,0,1,1,2,2,-1] for the periodicities [1,2,10,11,20,21,100] (three
    clusters and one outlier), the mean table gets five entries for four
    labels (the sentinel and the outlier's mean), the cluster of mean 20.5
    gets label 1 and the cluster of mean 10.5 gets label 4. *)
Theorem fit_predict_with_outlier :
  exists r,
    DBSCANDistanceCluster.fit_predict
      (fun _ => [0; 0; 1; 1; 2; 2; -1]%Z)
      [1; 2; 10; 11; 20; 21; 100]%Q = Ok r
    /\ DBSCANDistanceCluster.labels r = [0; 0; 4; 4; 1; 1; 3]%Z
    /\ Forall2 Qeq (DBSCANDistanceCluster.mean_dists r)
         [-1; 3 # 2; 21 # 2; 41 # 2; 100]%Q.
Proof.
  eexists. split; [vm_compute; reflexivity|]. split; [reflexivity|].
  repeat constructor.
Qed.

(** ** C8: in-place and copying variants *)

(** C8, evaluated on the code: [smooth] drops its [inplace] argument, so
    with [inplace=False] it overwrites the receiver's [spec] with the
    filtered values and returns the receiver itself. *)
Theorem smooth_ignores_inplace (gaussian_filter1d : list Q -> Q -> list Q)
    (self : Spectrum.t) (sigma : Q) :
  Spectrum.smooth gaussian_filter1d self sigma false
  = {| Spectrum.receiver :=
         {| Spectrum.spec := gaussian_filter1d (Spectrum.spec self) sigma;
            Spectrum.ws := Spectrum.ws self |};
       Spectrum.returned :=
         {| Spectrum.spec := gaussian_filter1d (Spectrum.spec self) sigma;
            Spectrum.ws := Spectrum.ws self |};
       Spectrum.is_self := true |}.
Proof. reflexivity. Qed.

(** ** C9: the range after normalisation *)

Section Normalization.
Local Open Scope Q_scope.

Lemma fold_min_compat (t : list Q) (a b : Q) :
  a == b -> fold_left Qmin t a == fold_left Qmin t b.
Proof.
  revert a b. induction t as [|x t IH]; intros a b Hab; simpl; [exact Hab|].
  apply IH. rewrite Hab. reflexivity.
Qed.

Lemma fold_max_compat (t : list Q) (a b : Q) :
  a == b -> fold_left Qmax t a == fold_left Qmax t b.
Proof.
  revert a b. induction t as [|x t IH]; intros a b Hab; simpl; [exact Hab|].
  apply IH. rewrite Hab. reflexivity.
Qed.

Lemma fold_min_le_init (t : list Q) (x : Q) : fold_left Qmin t x <= x.
Proof.
  revert x. induction t as [|y t IH]; intros x; simpl; [apply Qle_refl|].
  eapply Qle_trans; [apply IH | apply Q.le_min_l].
Qed.

Lemma fold_max_ge_init (t : list Q) (x : Q) : x <= fold_left Qmax t x.
Proof.
  revert x. induction t as [|y t IH]; intros x; simpl; [apply Qle_refl|].
  eapply Qle_trans; [apply Q.le_max_l | apply IH].
Qed.

Section MonotoneMap.
Variable f : Q -> Q.
Hypothesis f_wd : Proper (Qeq ==> Qeq) f.
Hypothesis f_mono : Proper (Qle ==> Qle) f.

Lemma fold_min_map (t : list Q) (x : Q) :
  fold_left Qmin (map f t) (f x) == f (fold_left Qmin t x).
Proof.
  revert x. induction t as [|y t IH]; intros x; simpl; [reflexivity|].
  rewrite <- IH. apply fold_min_compat. apply Q.min_mono; assumption.
Qed.

Lemma fold_max_map (t : list Q) (x : Q) :
  fold_left Qmax (map f t) (f x) == f (fold_left Qmax t x).
Proof.
  revert x. induction t as [|y t IH]; intros x; simpl; [reflexivity|].
  rewrite <- IH. apply fold_max_compat. apply Q.max_mono; assumption.
Qed.
End MonotoneMap.

Lemma eps_pos : 0 < Spectrum.eps.
Proof. reflexivity. Qed.

Lemma scale_wd (m d : Q) : Proper (Qeq ==> Qeq) (fun x => (x - m) / d).
Proof. intros x y Hxy. rewrite Hxy. reflexivity. Qed.

Lemma scale_mono (m d : Q) :
  0 < d -> Proper (Qle ==> Qle) (fun x => (x - m) / d).
Proof.
  intros Hd x y Hxy. unfold Qdiv.
  apply Qmult_le_compat_r; [lra|].
  apply Qlt_le_weak, Qinv_lt_0_compat, Hd.
Qed.

(** C9, the counterexample: a constant spectrum is normalised to all zeros,
    so its maximum is 0 and not within [1e-5] of 1. *)
Lemma normalization_constant_spectrum :
  ~ normalized_to_unit_range {| Spectrum.spec := [5; 5]; Spectrum.ws := [0; 1] |}.
Proof.
  intros (o & mn & mx & Ho & _ & Hmx & _ & Hbound).
  vm_compute in Ho. injection Ho as <-.
  vm_compute in Hmx. injection Hmx as <-.
  vm_compute in Hbound. apply Hbound. reflexivity.
Qed.

(** C9, as amended: on a non-empty spectrum with minimum [m] and maximum [M],
    [normalization] keeps [ws] and the length, the new minimum is 0, and the
    new maximum is within [1e-5] of 1 when the range [M - m] is at least 1
    (a bound that leaves room for the rounding of the division). *)
Theorem normalization_range (self : Spectrum.t) (inplace : bool) :
  Spectrum.spec self <> [] ->
  exists m M o mn mx,
    py_min (Spectrum.spec self) = Ok m
    /\ py_max (Spectrum.spec self) = Ok M
    /\ Spectrum.normalization self inplace = Ok o
    /\ Spectrum.ws (Spectrum.returned o) = Spectrum.ws self
    /\ length (Spectrum.spec (Spectrum.returned o)) = length (Spectrum.spec self)
    /\ py_min (Spectrum.spec (Spectrum.returned o)) = Ok mn
    /\ py_max (Spectrum.spec (Spectrum.returned o)) = Ok mx
    /\ mn == 0
    /\ (1 <= M - m -> Qabs (mx - 1) <= Spectrum.eps).
Proof.
  destruct self as [sp w]. simpl. destruct sp as [|x t]; [congruence|].
  intros _.
  set (m := fold_left Qmin t x). set (M := fold_left Qmax t x).
  set (d := M - m + Spectrum.eps).
  assert (Hm : m <= x) by apply fold_min_le_init.
  assert (HM : x <= M) by apply fold_max_ge_init.
  assert (Hd : 0 < d) by (unfold d; pose proof eps_pos; lra).
  set (f := fun y => (y - m) / d).
  exists m, M.
  exists (Spectrum._update_spectrum {| Spectrum.spec := x :: t; Spectrum.ws := w |}
            (map f (x :: t)) w inplace).
  exists (fold_left Qmin (map f t) (f x)), (fold_left Qmax (map f t) (f x)).
  assert (Hret : Spectrum.returned
            (Spectrum._update_spectrum {| Spectrum.spec := x :: t; Spectrum.ws := w |}
               (map f (x :: t)) w inplace)
          = {| Spectrum.spec := map f (x :: t); Spectrum.ws := w |}).
  { destruct inplace; reflexivity. }
  rewrite Hret. simpl.
  assert (Hmn : fold_left Qmin (map f t) (f x) == 0).
  { rewrite (fold_min_map f (scale_wd m d) (scale_mono m d Hd)).
    fold m. unfold f, Qdiv. ring. }
  assert (Hmx : fold_left Qmax (map f t) (f x) == (M - m) / d).
  { rewrite (fold_max_map f (scale_wd m d) (scale_mono m d Hd)).
    fold M. reflexivity. }
  assert (Hr : 0 <= M - m) by lra.
  assert (H0 : 0 <= (M - m) / d).
  { apply Qle_shift_div_l; [exact Hd | lra]. }
  assert (H1 : (M - m) / d < 1).
  { apply Qlt_shift_div_r; [exact Hd|]. unfold d. pose proof eps_pos. lra. }
  split; [reflexivity|]. split; [reflexivity|].
  split; [reflexivity|]. split; [reflexivity|].
  split; [rewrite length_map; reflexivity|].
  split; [reflexivity|]. split; [reflexivity|].
  split; [exact Hmn|].
  - intros Hbig.
    assert (Hneg : fold_left Qmax (map f t) (f x) - 1 <= 0) by lra.
    rewrite (Qabs_neg _ Hneg).
    assert (Hge : 1 - Spectrum.eps <= (M - m) / d).
    { apply Qle_shift_div_l; [exact Hd|]. unfold d.
      pose proof eps_pos.
      assert (Spectrum.eps * Spectrum.eps <= Spectrum.eps * 1).
      { apply Qmult_le_l; [assumption|]. vm_compute. discriminate. }
      nra. }
    lra.
Qed.

(** The theorem above on a three-sample spectrum. *)
Lemma normalization_range_witness :
  {| Spectrum.spec := [0; 1; 2]; Spectrum.ws := [0; 1; 2] |}.(Spectrum.spec) <> []
  /\ exists m M o mn mx,
    py_min [0; 1; 2] = Ok m
    /\ py_max [0; 1; 2] = Ok M
    /\ Spectrum.normalization
         {| Spectrum.spec := [0; 1; 2]; Spectrum.ws := [0; 1; 2] |} false = Ok o
    /\ Spectrum.ws (Spectrum.returned o) = [0; 1; 2]
    /\ length (Spectrum.spec (Spectrum.returned o)) = 3%nat
    /\ py_min (Spectrum.spec (Spectrum.returned o)) = Ok mn
    /\ py_max (Spectrum.spec (Spectrum.returned o)) = Ok mx
    /\ mn == 0
    /\ (1 <= M - m -> Qabs (mx - 1) <= Spectrum.eps).
Proof.
  split; [simpl; discriminate|].
  apply (normalization_range
           {| Spectrum.spec := [0; 1; 2]; Spectrum.ws := [0; 1; 2] |} false).
  simpl. discriminate.
Defined.

End Normalization.

(** ** C3: the resolved partition *)

Lemma spacing_leb_le a b : Spectrum.spacing_leb a b = true <-> spacing_le a b.
Proof.
  destruct a, b; simpl; try tauto; try (split; [discriminate|tauto]).
  apply Qle_bool_iff.
Qed.

Lemma spacing_le_trans a b c : spacing_le a b -> spacing_le b c -> spacing_le a c.
Proof.
  destruct a, b, c; simpl; try tauto. apply Qle_trans.
Qed.

Lemma spacing_le_total a b : spacing_le a b \/ spacing_le b a.
Proof.
  destruct a as [x|], b as [y|]; simpl; try tauto.
  destruct (Qlt_le_dec x y) as [H|H]; [left; apply Qlt_le_weak, H | right; exact H].
Qed.

Lemma insert_sorted_perm x l : Spectrum.insert_sorted x l ≡ₚ x :: l.
Proof.
  induction l as [|y t IH]; simpl; [reflexivity|].
  destruct (Spectrum.spacing_leb (snd x) (snd y)); [reflexivity|].
  rewrite IH. apply Permutation_swap.
Qed.

Lemma insert_sorted_sorted x l :
  StronglySorted by_dist l -> StronglySorted by_dist (Spectrum.insert_sorted x l).
Proof.
  induction 1 as [|y t Ht IH Hy]; simpl.
  - repeat constructor.
  - destruct (Spectrum.spacing_leb (snd x) (snd y)) eqn:E.
    + apply spacing_leb_le in E. constructor; [constructor; assumption|].
      constructor; [exact E|].
      eapply Forall_impl; [exact Hy|]. intros z Hz.
      unfold by_dist in *. eapply spacing_le_trans; eassumption.
    + constructor; [exact IH|].
      rewrite Forall_forall. intros z Hz.
      rewrite insert_sorted_perm in Hz. apply elem_of_cons in Hz as [->|Hz].
      * destruct (spacing_le_total (snd x) (snd y)) as [H|H]; [|exact H].
        apply spacing_leb_le in H. congruence.
      * rewrite Forall_forall in Hy. apply Hy, Hz.
Qed.

Lemma sorted_by_dist_perm l : Spectrum.sorted_by_dist l ≡ₚ l.
Proof.
  induction l as [|x l IH]; simpl; [reflexivity|].
  rewrite insert_sorted_perm, IH. reflexivity.
Qed.

Lemma sorted_by_dist_sorted l : StronglySorted by_dist (Spectrum.sorted_by_dist l).
Proof.
  induction l as [|x l IH]; simpl; [constructor|].
  apply insert_sorted_sorted, IH.
Qed.

Lemma elem_of_select_seq (m : list bool) (k i : nat) :
  i ∈ select m (seq k (length m)) <-> k <= i /\ m !! (i - k) = Some true.
Proof.
  revert k. induction m as [|b m IH]; intros k; simpl.
  - rewrite elem_of_nil. split; [tauto|]. intros [_ H]. discriminate H.
  - assert (Hrec : i ∈ select m (seq (S k) (length m)) <->
                   S k <= i /\ (b :: m) !! (i - k) = Some true).
    { rewrite IH. split; intros [H1 H2]; (split; [lia|]).
      - replace (i - k) with (S (i - S k)) by lia. exact H2.
      - replace (i - k) with (S (i - S k)) in H2 by lia. exact H2. }
    destruct b.
    + rewrite elem_of_cons, Hrec. split.
      * intros [->|[H1 H2]]; [|split; [lia|exact H2]].
        split; [lia|]. replace (k - k) with 0 by lia. reflexivity.
      * intros [H1 H2]. destruct (decide (i = k)) as [->|Hne]; [left; reflexivity|].
        right. split; [lia|exact H2].
    + rewrite Hrec. split; intros [H1 H2]; (split; [lia|exact H2]) || idtac.
      split; [|exact H2]. destruct (decide (i = k)) as [->|Hne]; [|lia].
      replace (k - k) with 0 in H2 by lia. discriminate H2.
Qed.

Lemma elem_of_where (m : list bool) (i : nat) :
  i ∈ where_ m <-> m !! i = Some true.
Proof.
  unfold where_. rewrite elem_of_select_seq.
  replace (i - 0) with i by lia. split; [tauto|]. intros H. split; [lia|exact H].
Qed.

Lemma foldr_set_true_length (fam : list nat) (sel : list bool) :
  length (foldr (fun i s => <[i := true]> s) sel fam) = length sel.
Proof.
  induction fam as [|a fam IH]; simpl; [reflexivity|].
  rewrite length_insert. exact IH.
Qed.

Lemma foldr_set_true_lookup (fam : list nat) (sel : list bool) (i : nat) :
  foldr (fun i s => <[i := true]> s) sel fam !! i = Some true
  <-> (i ∈ fam /\ i < length sel) \/ sel !! i = Some true.
Proof.
  induction fam as [|a fam IH]; simpl.
  - rewrite elem_of_nil. tauto.
  - rewrite list_lookup_insert, foldr_set_true_length, elem_of_cons.
    destruct (decide (a = i /\ a < length sel)) as [[-> Hlt]|Hn].
    + split; [intros _; left; split; [left; reflexivity|exact Hlt]|reflexivity].
    + rewrite IH. split.
      * intros [[H1 H2]|H]; [left; split; [right; exact H1|exact H2]|right; exact H].
      * intros [[[->|H1] H2]|H]; [exfalso; apply Hn; split; [reflexivity|exact H2]| |].
        -- left. split; assumption.
        -- right. exact H.
Qed.

Lemma set_true_Ok (fam : list nat) (sel : list bool) :
  (forall i, i ∈ fam -> i < length sel) ->
  Spectrum.set_true fam sel = Ok (foldr (fun i s => <[i := true]> s) sel fam).
Proof.
  intros H. unfold Spectrum.set_true.
  replace (forallb (fun i => i <? length sel) fam) with true; [reflexivity|].
  symmetry. apply forallb_forall. intros i Hi.
  apply Nat.ltb_lt, H, list_elem_of_In, Hi.
Qed.

Lemma take_idx_total {A} (l : list A) (idx : list nat) :
  (forall i, i ∈ idx -> i < length l) -> exists k, take_idx l idx = Ok k.
Proof.
  intros H. apply mapM_total. rewrite Forall_forall. intros i Hi.
  destruct (lookup_lt_is_Some_2 l i (H i Hi)) as [x Hx].
  exists x. apply nth_exc_Ok, Hx.
Qed.

Lemma take_idx_lookup {A} (l : list A) (idx : list nat) (k : list A) j i :
  take_idx l idx = Ok k -> idx !! j = Some i ->
  exists x, k !! j = Some x /\ l !! i = Some x.
Proof.
  intros H Hj. destruct (mapM_Ok_lookup _ _ _ _ _ H Hj) as (y & Hy & Hf).
  exists y. split; [exact Hy|]. apply nth_exc_Ok, Hf.
Qed.

Lemma take_idx_all_false (sel : list bool) (fam : list nat) (k : list bool) :
  take_idx sel fam = Ok k ->
  forallb negb k = true <-> (forall i, i ∈ fam -> sel !! i = Some false).
Proof.
  intros H. split.
  - intros Hall i Hi. apply list_elem_of_lookup in Hi as [j Hj].
    destruct (take_idx_lookup _ _ _ _ _ H Hj) as (x & Hx & Hsel).
    rewrite Hsel. f_equal.
    rewrite forallb_forall in Hall.
    specialize (Hall x). destruct x; [|reflexivity].
    exfalso. apply list_elem_of_lookup_2, list_elem_of_In in Hx.
    specialize (Hall Hx). discriminate Hall.
  - intros Hall. apply forallb_forall. intros x Hx.
    apply list_elem_of_In, list_elem_of_lookup in Hx as [j Hj].
    assert (Hlen := mapM_Ok_length _ _ _ H).
    destruct (lookup_lt_is_Some_2 fam j) as [i Hi].
    { rewrite <- Hlen. eapply lookup_lt_Some, Hj. }
    destruct (take_idx_lookup _ _ _ _ _ H Hi) as (y & Hy & Hsel).
    rewrite Hj in Hy. injection Hy as <-.
    rewrite (Hall i) in Hsel by (eapply list_elem_of_lookup_2, Hi).
    injection Hsel as <-. reflexivity.
Qed.

Lemma group_step_inv (n : nat) (done : list (list nat * spacing))
    (st : Spectrum.group_state) (fd : list nat * spacing) :
  group_inv n done st ->
  (forall i, i ∈ fst fd -> i < n) ->
  (forall g, g ∈ done -> by_dist g fd) ->
  exists st', Spectrum.group_step true st fd = Ok st'
    /\ group_inv n (done ++ [fd]) st'.
Proof.
  destruct st as [out selected]. destruct fd as [family d].
  intros (Hlen & Hsel & Hdisj & Hmem & Hsorted) Hrange Hle. simpl in *.
  assert (Hkeep : group_inv n (done ++ [(family, d)]) (out, selected)).
  { repeat split; simpl; try assumption; try apply Hsel.
    - apply elem_of_app. left. apply Hmem, H.
    - apply Hmem, H. }
  destruct d as [q|]; simpl; [|eexists; split; [reflexivity|exact Hkeep]].
  destruct (take_idx_total selected family) as [k Hk].
  { intros i Hi. rewrite Hlen. apply Hrange, Hi. }
  rewrite Hk. simpl.
  destruct (forallb negb k) eqn:Hfree; [|eexists; split; [reflexivity|exact Hkeep]].
  rewrite (take_idx_all_false _ _ _ Hk) in Hfree.
  rewrite set_true_Ok by (intros i Hi; rewrite Hlen; apply Hrange, Hi).
  simpl. eexists. split; [reflexivity|].
  split; [|split; [|split; [|split]]]; simpl.
  - rewrite foldr_set_true_length. exact Hlen.
  - intros i. rewrite foldr_set_true_lookup, Hsel. split.
    + intros [[H1 H2]|(g & Hg & Hi)].
      * exists (family, Finite q). split; [|exact H1].
        apply elem_of_app. right. apply list_elem_of_singleton. reflexivity.
      * exists g. split; [|exact Hi]. apply elem_of_app. left. exact Hg.
    + intros (g & Hg & Hi). apply elem_of_app in Hg as [Hg|Hg].
      * right. exists g. split; assumption.
      * apply list_elem_of_singleton in Hg. subst g. simpl in Hi.
        left. split; [exact Hi|]. rewrite Hlen. apply Hrange, Hi.
  - intros a b ga gb Hab Ha Hb i Hia Hib.
    apply lookup_app_Some in Ha as [Ha|[Hla Ha]];
      apply lookup_app_Some in Hb as [Hb|[Hlb Hb]].
    + exact (Hdisj a b ga gb Hab Ha Hb i Hia Hib).
    + apply list_lookup_singleton_Some in Hb as [_ <-]. simpl in Hib.
      assert (Ht : selected !! i = Some true).
      { apply Hsel. exists ga. split; [eapply list_elem_of_lookup_2, Ha|exact Hia]. }
      rewrite (Hfree i Hib) in Ht. discriminate Ht.
    + apply list_lookup_singleton_Some in Ha as [_ <-]. simpl in Hia.
      assert (Ht : selected !! i = Some true).
      { apply Hsel. exists gb. split; [eapply list_elem_of_lookup_2, Hb|exact Hib]. }
      rewrite (Hfree i Hia) in Ht. discriminate Ht.
    + apply list_lookup_singleton_Some in Ha as [Ha _].
      apply list_lookup_singleton_Some in Hb as [Hb _]. lia.
  - intros g Hg. apply elem_of_app in Hg as [Hg|Hg].
    + split; [apply elem_of_app; left|]; apply Hmem, Hg.
    + apply list_elem_of_singleton in Hg. subst g. split; [|discriminate].
      apply elem_of_app. right. apply list_elem_of_singleton. reflexivity.
  - apply StronglySorted_app_2.
    + intros g1 g2 Hg1 Hg2. apply list_elem_of_singleton in Hg2. subst g2.
      apply Hle, Hmem, Hg1.
    + exact Hsorted.
    + repeat constructor.
Qed.

Lemma group_loop_inv (n : nat) (l done : list (list nat * spacing))
    (st : Spectrum.group_state) :
  group_inv n done st ->
  StronglySorted by_dist (done ++ l) ->
  (forall g i, g ∈ l -> i ∈ fst g -> i < n) ->
  exists st', Spectrum.group_loop true st l = Ok st'
    /\ group_inv n (done ++ l) st'.
Proof.
  revert done st. induction l as [|fd l IH]; intros done st Hinv Hs Hrange; simpl.
  - exists st. split; [reflexivity|]. rewrite app_nil_r. exact Hinv.
  - destruct (group_step_inv n done st fd Hinv) as (st1 & Hstep & Hinv1).
    + intros i Hi. apply (Hrange fd i); [apply elem_of_cons; left; reflexivity|exact Hi].
    + intros g Hg. eapply StronglySorted_app_1_elem_of; [exact Hs|exact Hg|].
      apply elem_of_cons. left. reflexivity.
    + rewrite Hstep. simpl.
      replace (done ++ fd :: l) with ((done ++ [fd]) ++ l) in *
        by (rewrite <- app_assoc; reflexivity).
      apply IH; [exact Hinv1|exact Hs|].
      intros g i Hg. apply Hrange. apply elem_of_cons. right. exact Hg.
Qed.

(** C3: with [exclusive=True] and families whose members index the peak
    list, [get_peaks_group] returns the accepted groups followed by the
    leftover group with distance [-1]; every peak index lies in the leftover
    group or in an accepted group, the accepted groups are pairwise
    disjoint, the leftover group holds exactly the unclaimed indices, no
    accepted group has an infinite [avg_dist], every accepted group is one
    of the families, and the accepted groups are in ascending order of
    [avg_dist]. *)
Theorem get_peaks_group_partition (ana_res : list PeakAnalysisResult)
    (peaks : list nat) :
  (forall r i, r ∈ ana_res -> i ∈ peaks_family r -> i < length peaks) ->
  exists accepted leftover,
    Spectrum.get_peaks_group ana_res peaks true
      = Ok (accepted ++ [(leftover, Finite (-1))])
    /\ (forall i, i < length peaks <->
          i ∈ leftover \/ exists g, g ∈ accepted /\ i ∈ fst g)
    /\ (forall a b ga gb, a <> b ->
          accepted !! a = Some ga -> accepted !! b = Some gb ->
          forall i, i ∈ fst ga -> i ∉ fst gb)
    /\ (forall i, i ∈ leftover <->
          i < length peaks /\ forall g, g ∈ accepted -> i ∉ fst g)
    /\ (forall g, g ∈ accepted -> snd g <> Infinity)
    /\ (forall g, g ∈ accepted ->
          exists r, r ∈ ana_res /\ g = (peaks_family r, avg_dist r))
    /\ StronglySorted by_dist accepted.
Proof.
  intros Hrange. unfold Spectrum.get_peaks_group.
  set (fams := map (fun res => (peaks_family res, avg_dist res)) ana_res).
  set (n := length peaks).
  assert (Hfams : forall g, g ∈ Spectrum.sorted_by_dist fams ->
            exists r, r ∈ ana_res /\ g = (peaks_family r, avg_dist r)).
  { intros g Hg. rewrite sorted_by_dist_perm in Hg.
    apply list_elem_of_fmap in Hg as (r & -> & Hr). eauto. }
  destruct (group_loop_inv n (Spectrum.sorted_by_dist fams) []
              ([], replicate n false)) as (st & Hloop & Hinv).
  { split; [|split; [|split; [|split]]]; simpl.
    - apply length_replicate.
    - intros i. split.
      + intros H. apply lookup_replicate in H as [H _]. discriminate H.
      + intros (g & Hg & _). apply elem_of_nil in Hg. contradiction.
    - intros a b ga gb _ Ha. discriminate Ha.
    - intros g Hg. apply elem_of_nil in Hg. contradiction.
    - constructor. }
  { simpl. apply sorted_by_dist_sorted. }
  { intros g i Hg Hi. destruct (Hfams g Hg) as (r & Hr & ->).
    apply (Hrange r i Hr Hi). }
  rewrite Hloop. simpl.
  destruct st as [out selected].
  destruct Hinv as (Hlen & Hsel & Hdisj & Hmem & Hsorted). simpl in *.
  exists out, (where_ (map negb selected)).
  assert (Hleft : forall i, i ∈ where_ (map negb selected) <->
            selected !! i = Some false).
  { intros i. rewrite elem_of_where, list_lookup_fmap.
    destruct (selected !! i) as [[|]|]; simpl; split; congruence. }
  split; [reflexivity|].
  split; [|split; [exact Hdisj|split; [|split; [|split; [|exact Hsorted]]]]].
  - intros i. rewrite Hleft, <- Hsel. split.
    + intros Hi. destruct (lookup_lt_is_Some_2 selected i) as [[|] Hb];
        [lia|right; exact Hb|left; exact Hb].
    + intros [H|H]; apply lookup_lt_Some in H; lia.
  - intros i. rewrite Hleft. split.
    + intros Hi. split; [apply lookup_lt_Some in Hi; lia|].
      intros g Hg Hig.
      assert (Ht : selected !! i = Some true) by (apply Hsel; eauto).
      congruence.
    + intros [Hi Hnone].
      destruct (lookup_lt_is_Some_2 selected i) as [[|] Hb]; [lia| |exact Hb].
      apply Hsel in Hb as (g & Hg & Hig). exfalso. exact (Hnone g Hg Hig).
  - intros g Hg. apply Hmem, Hg.
  - intros g Hg. apply Hfams, Hmem, Hg.
Qed.

(** The theorem above on three overlapping families over seven peaks, one
    of them of infinite spacing. *)
Lemma get_peaks_group_partition_witness :
  (forall r i, r ∈ resolver_families -> i ∈ peaks_family r -> i < 7)
  /\ exists accepted leftover,
    Spectrum.get_peaks_group resolver_families [5; 6; 7; 8; 9; 10; 11] true
      = Ok (accepted ++ [(leftover, Finite (-1))])
    /\ (forall i, i < 7 <->
          i ∈ leftover \/ exists g, g ∈ accepted /\ i ∈ fst g)
    /\ (forall a b ga gb, a <> b ->
          accepted !! a = Some ga -> accepted !! b = Some gb ->
          forall i, i ∈ fst ga -> i ∉ fst gb)
    /\ (forall i, i ∈ leftover <->
          i < 7 /\ forall g, g ∈ accepted -> i ∉ fst g)
    /\ (forall g, g ∈ accepted -> snd g <> Infinity)
    /\ (forall g, g ∈ accepted ->
          exists r, r ∈ resolver_families /\ g = (peaks_family r, avg_dist r))
    /\ StronglySorted by_dist accepted.
Proof.
  assert (H : forall r i, r ∈ resolver_families -> i ∈ peaks_family r -> i < 7).
  { intros r i Hr Hi. unfold resolver_families in Hr.
    repeat (apply elem_of_cons in Hr as [->|Hr]); simpl in Hi;
      try (apply elem_of_nil in Hr; contradiction);
      repeat (apply elem_of_cons in Hi as [->|Hi]); try lia;
      apply elem_of_nil in Hi; contradiction. }
  split; [exact H|].
  exact (get_peaks_group_partition resolver_families [5; 6; 7; 8; 9; 10; 11] H).
Defined.

(** ** C4: acceptance conditions of the returned families *)

Lemma insert_uniq_elem (x y : Z) (l : list Z) :
  y ∈ insert_uniq x l <-> y = x \/ y ∈ l.
Proof.
  induction l as [|a l IH]; simpl.
  - rewrite list_elem_of_singleton, elem_of_nil. tauto.
  - destruct (Z.ltb_spec x a); [rewrite !elem_of_cons; tauto|].
    destruct (Z.eqb_spec x a) as [->|Hne].
    + rewrite elem_of_cons. tauto.
    + rewrite !elem_of_cons, IH. tauto.
Qed.

Lemma insert_uniq_sorted (x : Z) (l : list Z) :
  StronglySorted Z.lt l -> StronglySorted Z.lt (insert_uniq x l).
Proof.
  induction 1 as [|a l Hl IH Ha]; simpl.
  - repeat constructor.
  - destruct (Z.ltb_spec x a).
    + constructor; [constructor; assumption|].
      constructor; [assumption|].
      eapply Forall_impl; [exact Ha|]. simpl. intros. lia.
    + destruct (Z.eqb_spec x a) as [->|Hne]; [constructor; assumption|].
      constructor; [exact IH|].
      rewrite Forall_forall. intros z Hz. apply insert_uniq_elem in Hz as [->|Hz].
      * lia.
      * rewrite Forall_forall in Ha. apply Ha, Hz.
Qed.

Lemma unique_sorted_distinct (l : list Z) : sorted_distinct l (unique l).
Proof.
  unfold unique. induction l as [|x l [IH1 IH2]]; simpl.
  - split; [constructor|tauto].
  - split; [apply insert_uniq_sorted, IH1|].
    intros y. rewrite insert_uniq_elem, elem_of_cons, IH2. tauto.
Qed.

Lemma diff_shift (c : Z) (l : list Z) :
  diff (map (fun z => (c + z)%Z) l) = diff l.
Proof.
  induction l as [|x [|y l] IH]; simpl; try reflexivity.
  simpl in IH. rewrite IH. f_equal. lia.
Qed.

Lemma sorted_distinct_shift (c : Z) (l u : list Z) :
  sorted_distinct l u ->
  sorted_distinct (map (fun z => (c + z)%Z) l) (map (fun z => (c + z)%Z) u).
Proof.
  intros [Hs Hm]. split.
  - clear Hm. induction Hs as [|a u Hu IH Ha]; simpl; constructor; [exact IH|].
    rewrite Forall_forall in *. intros z Hz.
    apply list_elem_of_fmap in Hz as (w & -> & Hw). specialize (Ha w Hw). lia.
  - intros x. split; intros H; apply list_elem_of_fmap in H as (w & -> & Hw);
      apply list_elem_of_fmap_2; apply Hm, Hw.
Qed.

Lemma select_length_eq {A B} (m : list bool) (l : list A) (k : list B) :
  length l = length k -> length (select m l) = length (select m k).
Proof.
  revert l k. induction m as [|b m IH]; intros [|x l] [|y k] H; simpl in *;
    try reflexivity; try discriminate.
  injection H as H. destruct b; simpl; auto.
Qed.

Lemma match_grid_lengths (cnd grid : list Q) (bound : Q) idx gidx :
  match_grid cnd grid bound = Ok (idx, gidx) -> length gidx = length idx.
Proof.
  unfold match_grid. destruct grid as [|g0 grid]; [discriminate|].
  intros H.
  apply bind_Ok in H as (close & Hclose & H).
  apply bind_Ok in H as (match_error & Herr & H).
  apply mret_Ok in H. injection H as <- <-.
  unfold where_. apply select_length_eq.
  rewrite length_seq, length_map.
  apply mapM_Ok_length in Hclose, Herr.
  rewrite Herr, length_zip_with, Hclose. lia.
Qed.

Lemma make_family_peaks (cnd grid : list Q) (dist : Q) idx gidx r :
  make_family cnd grid dist idx gidx = Ok r -> peaks_family r = idx.
Proof.
  unfold make_family. intros H. exc_inv H. subst r. reflexivity.
Qed.

Section AnalyzeInvariant.
Variables (peaks : list nat) (center_nbr_dists : list Q).
Variables (center_peak : Q) (center_peak_i : Z).
Variables (grid_min_w grid_max_w tolerant abs_tolerant : Q).
Variable (allow_discontinue : Z).

Abbreviation accepted := (accepted_family center_nbr_dists center_peak grid_min_w
                        grid_max_w tolerant abs_tolerant allow_discontinue).
Abbreviation step := (analyze_step center_nbr_dists center_peak center_peak_i
                    grid_min_w grid_max_w tolerant abs_tolerant
                    allow_discontinue).

Lemma analyze_step_accepted (st st' : analyze_state) (j : Z) :
  step st j = Ok st' -> Forall accepted (snd st) -> Forall accepted (snd st').
Proof.
  unfold step, analyze_step. destruct st as [mask out]. simpl.
  intros H Hout.
  destruct (center_peak_i =? j)%Z; [apply mret_Ok in H; subst st'; exact Hout|].
  apply bind_Ok in H as (row & Hrow & H).
  apply bind_Ok in H as (seen & Hseen & H).
  destruct seen; [apply mret_Ok in H; subst st'; exact Hout|].
  apply bind_Ok in H as (d & Hd & H).
  destruct (Qle_bool (Qabs d) abs_tolerant) eqn:Hfar;
    [apply mret_Ok in H; subst st'; exact Hout|].
  apply bind_Ok in H as (grid & Hgrid & H).
  apply bind_Ok in H as ([idx gidx] & Hmatch & H).
  destruct (allowed_of (uni_gidx_of gidx) allow_discontinue
            && (1 <? length (uni_gidx_of gidx))) eqn:Hacc;
    [|apply mret_Ok in H; subst st'; exact Hout].
  apply bind_Ok in H as (mask' & Hmask & H).
  apply bind_Ok in H as (r & Hr & H).
  apply mret_Ok in H. subst st'. simpl.
  apply Forall_app. split; [exact Hout|]. constructor; [|constructor].
  apply andb_true_iff in Hacc as [Hallow Hlen].
  apply make_family_peaks in Hr.
  set (c := (Qfloor ((grid_min_w - center_peak) / Qabs d) + 1)%Z).
  exists j, d, grid, gidx, (map (fun z => (c + z)%Z) (uni_gidx_of gidx)).
  rewrite Hr.
  split; [exact Hd|].
  split.
  { apply Qnot_le_lt. intros Hle. apply Qle_bool_iff in Hle. congruence. }
  split; [exact Hgrid|]. split; [exact Hmatch|].
  split; [eapply match_grid_lengths, Hmatch|].
  split.
  { replace (map (grid_multiple grid_min_w center_peak (Qabs d)) gidx)
      with (map (fun z => (c + z)%Z) (map Z.of_nat gidx)).
    - apply sorted_distinct_shift, unique_sorted_distinct.
    - rewrite map_map. reflexivity. }
  split.
  { rewrite length_map. apply Nat.ltb_lt in Hlen. lia. }
  rewrite diff_shift. apply Forall_forall. intros x Hx.
  unfold allowed_of in Hallow. rewrite forallb_forall in Hallow.
  apply Z.leb_le, Hallow, list_elem_of_In, Hx.
Qed.

Lemma analyze_loop_accepted (js : list Z) (st st' : analyze_state) :
  analyze_loop center_nbr_dists center_peak center_peak_i grid_min_w
    grid_max_w tolerant abs_tolerant allow_discontinue st js = Ok st' ->
  Forall accepted (snd st) -> Forall accepted (snd st').
Proof.
  revert st. induction js as [|j js IH]; intros st H Hst; simpl in H.
  - apply mret_Ok in H. subst st'. exact Hst.
  - apply bind_Ok in H as (st1 & Hstep & H). eapply IH; [exact H|].
    eapply analyze_step_accepted; eassumption.
Qed.
End AnalyzeInvariant.

(** C4: every family returned by [analyze_peaks_distance_cent] satisfies the
    acceptance conditions: its matched grid multiples comprise at least two
    distinct integers, and consecutive ones among the sorted distinct
    multiples differ by at most [allow_discontinue + 1]. *)
Theorem analyze_families_accepted (peaks : list nat) (center_nbr_dists : list Q)
    (center_peak : Q) (center_peak_i : Z)
    (grid_min_w grid_max_w tolerant abs_tolerant : Q) (allow_discontinue : Z)
    (out : list PeakAnalysisResult) :
  analyze_peaks_distance_cent peaks center_nbr_dists center_peak center_peak_i
    grid_min_w grid_max_w tolerant abs_tolerant allow_discontinue = Ok out ->
  Forall (accepted_family center_nbr_dists center_peak grid_min_w grid_max_w
            tolerant abs_tolerant allow_discontinue) out.
Proof.
  unfold analyze_peaks_distance_cent. intros H.
  apply bind_Ok in H as (js & Hjs & H).
  apply bind_Ok in H as (st & Hloop & H).
  apply mret_Ok in H. subst out.
  eapply analyze_loop_accepted; [exact Hloop|]. constructor.
Qed.

(** The theorem above on the centre row of the scenario. *)
Lemma analyze_families_accepted_witness :
  exists out,
    analyze_peaks_distance_cent scenario_peaks [30; 20; 10; 0; 60]%Q 40 3
      0 120 (1 # 100) 15 1 = Ok out
    /\ length out = 3
    /\ Forall (accepted_family [30; 20; 10; 0; 60]%Q 40 0 120 (1 # 100) 15 1) out.
Proof.
  eexists. split; [vm_compute; reflexivity|]. split; [reflexivity|].
  apply (analyze_families_accepted scenario_peaks [30; 20; 10; 0; 60]%Q 40 3
           0 120 (1 # 100) 15 1).
  vm_compute. reflexivity.
Defined.

(** The grid lists [multiple * dist] at each index. *)
Lemma create_grid_lookup (start end_ center dist : Q) (grid : list Q) g x :
  create_grid start end_ center dist = Ok grid ->
  grid !! g = Some x ->
  x = (inject_Z (grid_multiple start center dist g) * dist)%Q.
Proof.
  unfold create_grid. destruct (Qeq_bool dist 0); [discriminate|].
  intros H Hg. injection H as <-.
  unfold arange in Hg. rewrite !list_lookup_fmap in Hg.
  destruct (seq 0 _ !! g) as [k|] eqn:Hk; [|discriminate].
  apply lookup_seq in Hk as [-> _]. simpl in Hg. injection Hg as <-.
  reflexivity.
Qed.

(** The generator stops by its own test: more fuel yields the same values. *)
Lemma nbr_loop_ended (fuel : nat) (center_i maxidx level : Z) :
  nbr_loop fuel center_i maxidx level true true = [].
Proof. destruct fuel; reflexivity. Qed.

Lemma nbr_loop_fuel (fuel extra : nat) (center_i maxidx level : Z)
    (endleft endright : bool) :
  Z.to_nat (Z.max (center_i + 1) (maxidx - center_i + 1) - level) < fuel ->
  nbr_loop (fuel + extra) center_i maxidx level endleft endright
  = nbr_loop fuel center_i maxidx level endleft endright.
Proof.
  revert level endleft endright.
  induction fuel as [|fuel IH]; intros level endleft endright Hfuel; [lia|].
  simpl. destruct (endleft && endright); [reflexivity|].
  f_equal. f_equal.
  destruct (Z.leb_spec 0 (center_i - (level + 1)));
    destruct (Z.leb_spec (center_i + (level + 1)) maxidx);
    try (apply IH; lia).
  destruct endleft, endright; try (apply IH; lia);
    rewrite !nbr_loop_ended; reflexivity.
Qed.

Lemma get_all_nbr_idxs_fuel (center_i : Z) (x : Z) (t : list Z) (extra : nat) :
  let maxidx := fold_left Z.max t x in
  get_all_nbr_idxs center_i (x :: t)
  = Ok (nbr_loop (nbr_fuel center_i maxidx + extra) center_i maxidx 0 false false).
Proof.
  intros maxidx. unfold get_all_nbr_idxs. fold maxidx. f_equal. symmetry.
  apply nbr_loop_fuel. unfold nbr_fuel. lia.
Qed.

(** The docstring's example of the visiting order. *)
Example get_all_nbr_idxs_docstring :
  get_all_nbr_idxs 3 (arange 0 5) = Ok [2; 4; 1; 0]%Z.
Proof. reflexivity. Qed.

(** ** C7: a singular baseline system *)

Lemma ret_bind {A B} (a : A) (f : A -> exc B) : (Ok a ≫= f) = f a.
Proof. reflexivity. Qed.

Lemma head_tail_length {A B} (n : nat) (l : list A) (k : list B) :
  length l = length k ->
  length (Spectrum.head_n n l ++ Spectrum.tail_n n l)
  = length (Spectrum.head_n n k ++ Spectrum.tail_n n k).
Proof.
  intros H. unfold Spectrum.head_n, Spectrum.tail_n.
  rewrite !length_app, !length_take, !length_drop, H. reflexivity.
Qed.

Lemma np_sub_same_length (a b : list Q) :
  length a = length b ->
  exists c, Spectrum.np_sub a b = Ok c /\ length c = length a.
Proof.
  intros H. unfold Spectrum.np_sub.
  apply Nat.eqb_eq in H as Hb. rewrite Hb.
  eexists. split; [reflexivity|]. rewrite length_zip_with. lia.
Qed.

(** On an aligned spectrum [remove_background()] raises exactly where the
    inversion does, with [LinAlgError], and otherwise keeps [ws] and the
    length of [spec]. *)
Lemma remove_background_cases (linalg_inv : Spectrum.mat2 -> option Spectrum.mat2)
    (cs : Spectrum.t) :
  aligned cs ->
  (linalg_inv (baseline_matrix cs) = None
   /\ Spectrum.remove_background linalg_inv cs 2 true = Raise LinAlgError)
  \/ exists N o, linalg_inv (baseline_matrix cs) = Some N
       /\ Spectrum.remove_background linalg_inv cs 2 true = Ok o
       /\ Spectrum.ws (Spectrum.receiver o) = Spectrum.ws cs
       /\ length (Spectrum.spec (Spectrum.receiver o))
          = length (Spectrum.spec cs).
Proof.
  intros Hwf. unfold Spectrum.remove_background, baseline_matrix.
  change (1 <? 2) with true. cbv iota.
  set (X := Spectrum.head_n 2 (Spectrum.ws cs) ++ Spectrum.tail_n 2 (Spectrum.ws cs)).
  set (Y := Spectrum.head_n 2 (Spectrum.spec cs) ++ Spectrum.tail_n 2 (Spectrum.spec cs)).
  assert (HXY : (length X =? length Y) = true).
  { apply Nat.eqb_eq, head_tail_length, Hwf. }
  rewrite ret_bind. cbn [fst snd].
  unfold Spectrum.lstsq_line.
  destruct (linalg_inv (Spectrum.normal_matrix X)) as [[[a b] [c d]]|];
    [|left; split; reflexivity].
  right. rewrite HXY. cbn [negb]. rewrite ret_bind.
  match goal with |- context [Spectrum.np_sub ?u ?v] =>
    destruct (np_sub_same_length u v) as (w & Hw & Hlen)
  end.
  { rewrite length_map. symmetry. exact Hwf. }
  rewrite Hw, ret_bind. eexists. eexists. split; [reflexivity|].
  split; [reflexivity|]. split; [reflexivity|]. exact Hlen.
Qed.

Section CleanCollapse.
Variable linalg_inv : Spectrum.mat2 -> option Spectrum.mat2.
Variable gaussian_filter1d : list Q -> Q -> list Q.
Variable normalize : Spectrum.t -> exc Spectrum.t.
Variables (smooth scale : bool).

Abbreviation clean_one_with rm_bg :=
  (RheedMask.clean_one linalg_inv gaussian_filter1d normalize smooth rm_bg scale).
Abbreviation clean_collapse_with rm_bg :=
  (RheedMask.clean_collapse linalg_inv gaussian_filter1d normalize smooth rm_bg scale).

Lemma clean_one_background (cs : Spectrum.t) :
  aligned cs ->
  exists k, background_step linalg_inv cs k
    /\ clean_one_with true cs
       = (r ← clean_one_with false (fst k); mret (fst r, snd k))
    /\ forall e, clean_one_with true cs = Raise e ->
         scale = true /\ normalize (fst k) = Raise e.
Proof.
  intros Hwf. unfold RheedMask.clean_one.
  assert (Hk : exists k, background_step linalg_inv cs k
            /\ match Spectrum.remove_background linalg_inv cs 2 true with
               | Ok o => mret (Spectrum.receiver o, [])
               | Raise LinAlgError => mret (cs, [RheedMask.LinAlgWarning])
               | Raise e => Raise e
               end = Ok k).
  { destruct (remove_background_cases linalg_inv cs Hwf)
      as [[Hi Hr]|(N & o & Hi & Hr & _)].
    - exists (cs, [RheedMask.LinAlgWarning]). rewrite Hr.
      split; [left; auto|reflexivity].
    - exists (Spectrum.receiver o, []). rewrite Hr.
      split; [right; exists N, o; auto|reflexivity]. }
  destruct Hk as ([cs1 w] & Hstep & ->).
  exists (cs1, w). split; [exact Hstep|]. rewrite !ret_bind. cbn [fst snd].
  destruct scale.
  - destruct (normalize cs1) as [cs2|e']; simpl.
    + split; [reflexivity|]. intros e He. discriminate He.
    + split; [reflexivity|]. intros e He. injection He as <-.
      split; reflexivity.
  - simpl. split; [reflexivity|]. intros e He. discriminate He.
Qed.

(** C7, as amended: where the inversion of the baseline matrix raises,
    [Spectrum.remove_background] raises [LinAlgError]; the caller
    [RheedMask.clean_collapse] catches it, warns once for that spectrum,
    leaves the spectrum as it was and goes on. Over aligned spectra the
    call with [rm_bg] set is the call without background removal on the
    spectra that the background step leaves, with one warning per spectrum
    whose inversion raised, and the only exceptions that leave it are those
    of [normalize]. *)
Theorem clean_collapse_tolerates_singular (collapses : list Spectrum.t) :
  Forall aligned collapses ->
  exists kept,
    Forall2 (background_step linalg_inv) collapses kept
    /\ RheedMask.clean_collapse linalg_inv gaussian_filter1d normalize
         smooth true scale collapses
       = (r ← RheedMask.clean_collapse linalg_inv gaussian_filter1d normalize
                smooth false scale (map fst kept);
          mret (fst r, concat (map snd kept)))
    /\ forall e,
         RheedMask.clean_collapse linalg_inv gaussian_filter1d normalize
           smooth true scale collapses = Raise e ->
         scale = true /\ exists cs, normalize cs = Raise e.
Proof.
  induction 1 as [|cs rest Hcs _ (kept & Hkept & IH & Hexc)].
  - exists []. split; [constructor|]. split; [reflexivity|].
    intros e He. discriminate He.
  - destruct (clean_one_background cs Hcs) as (k & Hk & Hone & Hraise).
    exists (k :: kept). split; [constructor; assumption|].
    cbn [RheedMask.clean_collapse map concat].
    rewrite Hone. rewrite IH in Hexc |- *.
    destruct (clean_one_with false (fst k)) as [r|e1] eqn:E1.
    + rewrite !ret_bind. cbn [fst snd].
      destruct (clean_collapse_with false (map fst kept)) as [rs|e2] eqn:E2.
      * rewrite !ret_bind. cbn [fst snd].
        split; [reflexivity|]. intros e He. discriminate He.
      * split; [reflexivity|]. intros e He. apply Hexc. exact He.
    + split; [reflexivity|]. intros e He. simpl in He. injection He as <-.
      destruct (Hraise e1) as [Hs Hn]; [rewrite Hone; reflexivity|].
      split; [exact Hs|]. exists (fst k). exact Hn.
Qed.
End CleanCollapse.

(** C7, the counterexample: on a one-sample spectrum the matrix of the
    baseline system is [[18, 6], [6, 2]], which has no inverse, and
    [remove_background] itself raises [LinAlgError]; it neither warns nor
    returns. *)
Lemma remove_background_singular_raises :
  aligned single_sample
  /\ baseline_matrix single_sample = ((18, 6), (6, 2))%Q
  /\ Spectrum.exact_inv ((18, 6), (6, 2))%Q = None
  /\ Spectrum.remove_background Spectrum.exact_inv single_sample 2 true
     = Raise LinAlgError.
Proof. repeat split. Qed.

(** The theorem above on a spectrum whose inversion raises and a regular
    one, with the exact inverse, the identity as filter and the min-max
    normalisation as [normalize]. *)
Lemma clean_collapse_tolerates_singular_witness :
  Forall aligned [single_sample; three_samples]
  /\ exists kept,
    Forall2 (background_step Spectrum.exact_inv)
      [single_sample; three_samples] kept
    /\ RheedMask.clean_collapse Spectrum.exact_inv (fun spec _ => spec)
         normalize_min_max true true true [single_sample; three_samples]
       = (r ← RheedMask.clean_collapse Spectrum.exact_inv (fun spec _ => spec)
                normalize_min_max true false true (map fst kept);
          mret (fst r, concat (map snd kept)))
    /\ forall e,
         RheedMask.clean_collapse Spectrum.exact_inv (fun spec _ => spec)
           normalize_min_max true true true [single_sample; three_samples]
         = Raise e ->
         true = true /\ exists cs, normalize_min_max cs = Raise e.
Proof.
  assert (H : Forall aligned [single_sample; three_samples]).
  { repeat constructor. }
  split; [exact H|].
  exact (clean_collapse_tolerates_singular Spectrum.exact_inv (fun spec _ => spec)
           normalize_min_max true true [single_sample; three_samples] H).
Defined.

(** The run of the witness: the one-sample spectrum is warned about and
    only normalised, the background of the other one is removed. *)
Example clean_collapse_run :
  exists out,
    RheedMask.clean_collapse Spectrum.exact_inv (fun spec _ => spec)
      normalize_min_max true true true [single_sample; three_samples]
    = Ok (out, [RheedMask.LinAlgWarning])
    /\ out !! 0 = Some {| Spectrum.spec := [0%Q]; Spectrum.ws := [3%Q] |}.
Proof.
  eexists. split; [vm_compute; reflexivity|].
  vm_compute. reflexivity.
Qed.

(** ** C10: centre peaks in the intensity attribution *)

Lemma nth_exc_map {A B} (f : A -> B) (l : list A) (i : nat) :
  nth_exc (map f l) i
  = match nth_exc l i with
    | Ok x => Ok (f x)
    | Raise e => Raise e
    end.
Proof.
  unfold nth_exc. rewrite list_lookup_fmap. destruct (l !! i); reflexivity.
Qed.

Lemma take_idx_map {A B} (f : A -> B) (l : list A) (idx : list nat) :
  take_idx (map f l) idx
  = match take_idx l idx with
    | Ok k => Ok (map f k)
    | Raise e => Raise e
    end.
Proof.
  unfold take_idx. induction idx as [|i idx IH]; simpl; [reflexivity|].
  rewrite nth_exc_map. destruct (nth_exc l i) as [x|e]; simpl; [|reflexivity].
  rewrite IH. destruct (mapM (nth_exc l) idx); reflexivity.
Qed.

Section CenterPeaks.
Variable curve_fit : list Q -> list Q -> list Q -> exc (list Q).
Variable self : RheedMask.t.

Abbreviation cis := (RheedMask.collapses_peaks_flatten_cis self).

Lemma peak_step_center (st : RheedMask.acc) (p : nat) :
  bool_decide (p ∈ cis) = true ->
  RheedMask.peak_step curve_fit self st p = Ok st.
Proof.
  intros Hp. unfold RheedMask.peak_step.
  destruct st as [[group_mask gauss_fit] warns]. fold cis. rewrite Hp.
  reflexivity.
Qed.

Lemma peaks_loop_cons (s : RheedMask.t) (st : RheedMask.acc) (p : nat)
    (rest : list nat) :
  RheedMask.peaks_loop curve_fit s st (p :: rest)
  = RheedMask.peak_step curve_fit s st p
      ≫= fun st' => RheedMask.peaks_loop curve_fit s st' rest.
Proof. reflexivity. Qed.

Lemma peaks_loop_without_center (family : list nat) (st : RheedMask.acc) :
  RheedMask.peaks_loop curve_fit (drop_center_peaks self) st
    (List.filter (fun p => negb (bool_decide (p ∈ cis))) family)
  = RheedMask.peaks_loop curve_fit self st family.
Proof.
  revert st. induction family as [|p family IH]; intros st; [reflexivity|].
  rewrite (peaks_loop_cons self). cbn [List.filter].
  destruct (bool_decide (p ∈ cis)) eqn:Hp; cbn [negb].
  - rewrite (peak_step_center st p Hp), IH. reflexivity.
  - rewrite (peaks_loop_cons (drop_center_peaks self)).
    change (RheedMask.peak_step curve_fit (drop_center_peaks self) st p)
      with (RheedMask.peak_step curve_fit self st p).
    destruct (RheedMask.peak_step curve_fit self st p); simpl; [apply IH|reflexivity].
Qed.

Lemma families_loop_without_center (selected : list PeakAnalysisResult)
    (st : RheedMask.acc) :
  RheedMask.families_loop curve_fit (drop_center_peaks self) st
    (map (without_center cis) selected)
  = RheedMask.families_loop curve_fit self st selected.
Proof.
  revert st. induction selected as [|ana rest IH]; intros st; [reflexivity|].
  simpl. rewrite peaks_loop_without_center.
  destruct (RheedMask.peaks_loop curve_fit self st (peaks_family ana));
    simpl; [apply IH|reflexivity].
Qed.

Lemma label_step_without_center (st : RheedMask.label_state) (i : nat) (ul : Z) :
  RheedMask.label_step curve_fit (drop_center_peaks self) st i ul
  = RheedMask.label_step curve_fit self st i ul.
Proof.
  unfold RheedMask.label_step. destruct st as [[[gi gp] gauss_fit] warns].
  unfold RheedMask.selected_of. simpl.
  rewrite take_idx_map.
  destruct (take_idx _ _) as [selected|e]; simpl; [|reflexivity].
  rewrite families_loop_without_center. reflexivity.
Qed.

Lemma labels_loop_without_center (uls : list Z) (st : RheedMask.label_state)
    (i : nat) :
  RheedMask.labels_loop curve_fit (drop_center_peaks self) st i uls
  = RheedMask.labels_loop curve_fit self st i uls.
Proof.
  revert st i. induction uls as [|ul uls IH]; intros st i; [reflexivity|].
  simpl. rewrite label_step_without_center.
  destruct (RheedMask.label_step curve_fit self st i ul); simpl;
    [apply IH|reflexivity].
Qed.
End CenterPeaks.

(** C10: [get_group_intensity] skips every peak recorded in
    [collapses_peaks_flatten_cis]: the intensities, the relative intensities
    and the warnings are those of the same pattern with these peaks removed
    from every family, whatever the fit does. *)
Theorem center_peaks_never_contribute
    (curve_fit : list Q -> list Q -> list Q -> exc (list Q))
    (self : RheedMask.t) :
  RheedMask.get_group_intensity curve_fit self
  = RheedMask.get_group_intensity curve_fit (drop_center_peaks self).
Proof.
  unfold RheedMask.get_group_intensity.
  rewrite labels_loop_without_center. reflexivity.
Qed.

(** The indices recorded by the analysis are those of the flattened peaks
    within [abs_tolerant] of the horizontal midpoint. *)
Lemma Qltb_lt (x y : Q) : Qltb x y = true <-> (x < y)%Q.
Proof.
  unfold Qltb. rewrite negb_true_iff. split.
  - intros H. apply Qnot_le_lt. intros Hle. apply Qle_bool_iff in Hle. congruence.
  - intros H. destruct (Qle_bool y x) eqn:E; [|reflexivity].
    apply Qle_bool_iff in E. exfalso. exact (Qlt_not_le _ _ H E).
Qed.

Lemma get_center_peak_idxs_spec (peaks : list Q) (c tolerant : Q) (i : nat) :
  i ∈ get_center_peak_idxs peaks c tolerant
  <-> exists p, peaks !! i = Some p /\ (Qabs (p - c) < tolerant)%Q.
Proof.
  unfold get_center_peak_idxs. rewrite elem_of_where, list_lookup_fmap.
  destruct (peaks !! i) as [p|]; cbn [fmap option_fmap option_map].
  - split.
    + intros H. exists p. split; [reflexivity|]. injection H as H.
      apply Qltb_lt, H.
    + intros (q & Hq & Hlt). injection Hq as <-. f_equal. apply Qltb_lt, Hlt.
  - split; [discriminate|]. intros (p & Hp & _). discriminate Hp.
Qed.

Lemma analyze_records_center_peaks (self self' : RheedMask.t)
    (tolerant abs_tolerant : Q) (allow_discontinue : Z) :
  RheedMask.analyze_peaks_distance_cent self tolerant abs_tolerant
    allow_discontinue = Ok self' ->
  RheedMask.collapses_peaks_flatten_cis self'
  = get_center_peak_idxs (RheedMask.collapses_peaks_ws_flatten self')
      (inject_Z (Z.of_nat (ncols (RheedMask.pattern self') / 2))) abs_tolerant.
Proof.
  unfold RheedMask.analyze_peaks_distance_cent. intros H.
  apply bind_Ok in H as (s1 & Hs1 & H).
  apply bind_Ok in H as (ci & Hci & H).
  apply bind_Ok in H as (ciw & Hciw & H).
  apply bind_Ok in H as (inter & Hinter & H).
  apply bind_Ok in H as (nbr & Hnbr & H).
  apply bind_Ok in H as (ana & Hana & H).
  apply mret_Ok in H. subst self'. reflexivity.
Qed.

(** ** C6: recovery from fit and mask failures (simulation by the fallback fit) *)

Lemma exc_sim_bind {A A' B B'} (R : A -> A' -> Prop) (S : B -> B' -> Prop)
    (m : exc A) (m' : exc A') (f : A -> exc B) (f' : A' -> exc B') :
  exc_sim R m m' ->
  (forall a a', R a a' -> exc_sim S (f a) (f' a')) ->
  exc_sim S (m ≫= f) (m' ≫= f').
Proof.
  destruct m as [a|e], m' as [a'|e']; simpl; intros H Hf;
    try contradiction; auto.
Qed.

Lemma exc_sim_refl {A} (R : A -> A -> Prop) (m : exc A) :
  (forall a, R a a) -> exc_sim R m m.
Proof. destruct m; simpl; auto. Qed.

Lemma filter_snoc_gaussian (w : list RheedMask.warning) (rid : nat) :
  List.filter not_gaussian_fail (w ++ [RheedMask.GaussianFail rid])
  = List.filter not_gaussian_fail w.
Proof. rewrite List.filter_app. simpl. apply app_nil_r. Qed.

Lemma filter_snoc_mask (w : list RheedMask.warning) (rid : nat) :
  List.filter not_gaussian_fail (w ++ [RheedMask.MaskFail rid])
  = List.filter not_gaussian_fail w ++ [RheedMask.MaskFail rid].
Proof. rewrite List.filter_app. reflexivity. Qed.

Section Simulation.
Variable curve_fit : list Q -> list Q -> list Q -> exc (list Q).
Variable self : RheedMask.t.

Lemma region_fit_sim (rid : nat) (gauss_fit : gmap nat (list Q))
    (warns : list RheedMask.warning) :
  exc_sim fit_sim
    (RheedMask.region_fit curve_fit self rid gauss_fit warns)
    (RheedMask.region_fit (fallback curve_fit) self rid gauss_fit
       (List.filter not_gaussian_fail warns)).
Proof.
  unfold RheedMask.region_fit.
  destruct (gauss_fit !! rid) as [popt|]; [simpl; repeat split|].
  apply exc_sim_bind with (R := eq); [apply exc_sim_refl; reflexivity|].
  intros guess ? <-.
  apply exc_sim_bind with (R := eq); [apply exc_sim_refl; reflexivity|].
  intros cs ? <-. unfold fallback.
  destruct (curve_fit _ _ guess) as [popt|e]; simpl.
  - repeat split.
  - split; [reflexivity|]. split; [reflexivity|]. apply filter_snoc_gaussian.
Qed.

Lemma peak_step_sim (st st' : RheedMask.acc) (p : nat) :
  acc_sim st st' ->
  exc_sim acc_sim (RheedMask.peak_step curve_fit self st p)
    (RheedMask.peak_step (fallback curve_fit) self st' p).
Proof.
  destruct st as [[group_mask gauss_fit] warns].
  destruct st' as [[group_mask' gauss_fit'] warns'].
  intros (Hm & Hc & Hw). simpl in Hm, Hc, Hw. subst group_mask' gauss_fit' warns'.
  unfold RheedMask.peak_step.
  destruct (bool_decide _); [simpl; repeat split|].
  apply exc_sim_bind with (R := eq); [apply exc_sim_refl; reflexivity|].
  intros pid ? <-.
  apply exc_sim_bind with (R := eq); [apply exc_sim_refl; reflexivity|].
  intros rid ? <-.
  apply exc_sim_bind with (R := eq); [apply exc_sim_refl; reflexivity|].
  intros region ? <-.
  destruct (RheedMask.bbox region) as [[[minr minc] maxr] maxc].
  apply exc_sim_bind with (R := eq); [apply exc_sim_refl; reflexivity|].
  intros ps ? <-.
  destruct (length ps =? 1).
  { apply exc_sim_bind with (R := eq); [apply exc_sim_refl; reflexivity|].
    intros m ? <-. simpl. repeat split. }
  destruct (negb _); [simpl; reflexivity|].
  destruct (select _ _) as [|x rest]; [simpl; reflexivity|].
  apply exc_sim_bind with (R := fit_sim); [apply region_fit_sim|].
  intros [[popt c] w] [[popt' c'] w'] (Hp & Hc & Hw).
  simpl in Hp, Hc, Hw. subst popt' c' w'.
  apply exc_sim_bind with (R := eq); [apply exc_sim_refl; reflexivity|].
  intros ce ? <-.
  apply exc_sim_bind with (R := eq); [apply exc_sim_refl; reflexivity|].
  intros sg ? <-.
  destruct (RheedMask.or_into _ _ _ _ _ _) as [m|e]; simpl.
  - repeat split.
  - split; [reflexivity|]. split; [reflexivity|]. apply filter_snoc_mask.
Qed.

Lemma peaks_loop_sim (family : list nat) (st st' : RheedMask.acc) :
  acc_sim st st' ->
  exc_sim acc_sim (RheedMask.peaks_loop curve_fit self st family)
    (RheedMask.peaks_loop (fallback curve_fit) self st' family).
Proof.
  revert st st'. induction family as [|p family IH]; intros st st' H.
  - exact H.
  - apply exc_sim_bind with (R := acc_sim); [apply peak_step_sim, H|].
    intros a a' Ha. apply IH, Ha.
Qed.

Lemma families_loop_sim (selected : list PeakAnalysisResult)
    (st st' : RheedMask.acc) :
  acc_sim st st' ->
  exc_sim acc_sim (RheedMask.families_loop curve_fit self st selected)
    (RheedMask.families_loop (fallback curve_fit) self st' selected).
Proof.
  revert st st'. induction selected as [|ana rest IH]; intros st st' H.
  - exact H.
  - apply exc_sim_bind with (R := acc_sim); [apply peaks_loop_sim, H|].
    intros a a' Ha. apply IH, Ha.
Qed.

Lemma label_step_sim (st st' : RheedMask.label_state) (i : nat) (ul : Z) :
  label_sim st st' ->
  exc_sim label_sim (RheedMask.label_step curve_fit self st i ul)
    (RheedMask.label_step (fallback curve_fit) self st' i ul).
Proof.
  destruct st as [[[gi gp] c] w]. destruct st' as [[[gi' gp'] c'] w'].
  intros (H1 & H2 & H3). simpl in H1, H2, H3. injection H1 as <- <-. subst c' w'.
  unfold RheedMask.label_step.
  apply exc_sim_bind with (R := eq); [apply exc_sim_refl; reflexivity|].
  intros selected ? <-.
  apply exc_sim_bind with (R := acc_sim).
  { apply families_loop_sim. repeat split. }
  intros [[m c1] w1] [[m' c1'] w1'] (Hm & Hc & Hw).
  simpl in Hm, Hc, Hw. subst m' c1' w1'. simpl. repeat split.
Qed.

Lemma labels_loop_sim (uls : list Z) (st st' : RheedMask.label_state) (i : nat) :
  label_sim st st' ->
  exc_sim label_sim (RheedMask.labels_loop curve_fit self st i uls)
    (RheedMask.labels_loop (fallback curve_fit) self st' i uls).
Proof.
  revert st st' i. induction uls as [|ul uls IH]; intros st st' i H.
  - exact H.
  - apply exc_sim_bind with (R := label_sim); [apply label_step_sim, H|].
    intros a a' Ha. apply IH, Ha.
Qed.

Lemma get_group_intensity_sim :
  exc_sim result_sim (RheedMask.get_group_intensity curve_fit self)
    (RheedMask.get_group_intensity (fallback curve_fit) self).
Proof.
  unfold RheedMask.get_group_intensity.
  apply exc_sim_bind with (R := label_sim).
  { apply labels_loop_sim. repeat split. }
  intros [[[gi gp] c] w] [[[gi' gp'] c'] w'] (H1 & H2 & H3).
  simpl in H1, H2, H3. injection H1 as <- <-. subst c' w'.
  destruct gp; simpl; [repeat split|reflexivity].
Qed.
End Simulation.

(** ** C6: recovery from fit and mask failures (no exception on well-formed patterns) *)

Lemma bdim_refl (a : nat) : bdim a a = Some a.
Proof. unfold bdim. rewrite Nat.eqb_refl. reflexivity. Qed.

Lemma slice_range_inside (n : nat) (a b : Z) :
  (0 <= a)%Z -> (a <= b)%Z -> (b <= Z.of_nat n)%Z ->
  slice_range n a b = (Z.to_nat a, Z.to_nat (b - a)).
Proof.
  intros Ha Hab Hb. unfold slice_range, norm_bound.
  destruct (Z.ltb_spec a 0); [lia|]. destruct (Z.ltb_spec b 0); [lia|].
  f_equal; lia.
Qed.

Lemma or_into_shape (m m' : array bool) (r0 r1 c0 c1 : Z) (img : array bool) :
  RheedMask.or_into m r0 r1 c0 c1 img = Ok m' ->
  nrows m' = nrows m /\ ncols m' = ncols m.
Proof.
  unfold RheedMask.or_into. intros H.
  apply bind_Ok in H as (v & _ & H). unfold assign2 in H.
  destruct (_ && _); [|discriminate]. injection H as <-. split; reflexivity.
Qed.

Lemma or_into_region (m : array bool) (h w : nat) (r : RheedMask.Region)
    (minr minc maxr maxc : Z) :
  RheedMask.bbox r = (minr, minc, maxr, maxc) ->
  region_wf h w r = true -> nrows m = h -> ncols m = w ->
  exists m', RheedMask.or_into m minr maxr minc maxc (RheedMask.image r) = Ok m'.
Proof.
  intros Hb Hwf Hh Hw. unfold region_wf in Hwf. rewrite Hb in Hwf.
  repeat (apply andb_true_iff in Hwf as [Hwf ?]).
  repeat match goal with
  | H : (_ <=? _)%Z = true |- _ => apply Z.leb_le in H
  | H : (_ =? _)%Z = true |- _ => apply Z.eqb_eq in H
  end.
  assert (HrS : nrows (slice2 m minr maxr minc maxc) = nrows (RheedMask.image r)).
  { unfold slice2. cbn [nrows]. rewrite Hh, slice_range_inside by lia.
    cbn [snd]. lia. }
  assert (HcS : ncols (slice2 m minr maxr minc maxc) = ncols (RheedMask.image r)).
  { unfold slice2. cbn [ncols]. rewrite Hw, slice_range_inside by lia.
    cbn [snd]. lia. }
  unfold RheedMask.or_into, bor. rewrite HrS, HcS, !bdim_refl, ret_bind.
  unfold assign2. cbn [nrows ncols]. rewrite Hh, Hw.
  rewrite (slice_range_inside h minr maxr) by lia.
  rewrite (slice_range_inside w minc maxc) by lia. cbn [fst snd].
  replace (Z.to_nat (maxr - minr)) with (nrows (RheedMask.image r)) by lia.
  replace (Z.to_nat (maxc - minc)) with (ncols (RheedMask.image r)) by lia.
  rewrite !Nat.eqb_refl. cbn [orb andb].
  eexists. reflexivity.
Qed.

Lemma py_max_total (l : list Q) : l <> [] -> exists x, py_max l = Ok x.
Proof. destruct l; [congruence|]. intros _. eexists. reflexivity. Qed.

Lemma py_min_total (l : list Q) : l <> [] -> exists x, py_min l = Ok x.
Proof. destruct l; [congruence|]. intros _. eexists. reflexivity. Qed.

Lemma flat_map_triple_length {A} (f : A -> list Q) (l : list A) :
  (forall x, length (f x) = 3) -> length (flat_map f l) = 3 * length l.
Proof.
  intros Hf. induction l as [|x l IH]; simpl; [reflexivity|].
  rewrite length_app, Hf, IH. lia.
Qed.

Lemma take_idx_elem {A} (l : list A) (idx : list nat) (k : list A) x :
  take_idx l idx = Ok k -> x ∈ k -> x ∈ l.
Proof.
  intros H Hx. apply list_elem_of_lookup in Hx as [j Hj].
  assert (Hlen := mapM_Ok_length _ _ _ H).
  destruct (lookup_lt_is_Some_2 idx j) as [i Hi].
  { rewrite <- Hlen. eapply lookup_lt_Some, Hj. }
  destruct (take_idx_lookup _ _ _ _ _ H Hi) as (y & Hy & Hl).
  rewrite Hj in Hy. injection Hy as <-. eapply list_elem_of_lookup_2, Hl.
Qed.

Section Totality.
Variable curve_fit : list Q -> list Q -> list Q -> exc (list Q).
Hypothesis curve_fit_contract : fit_contract curve_fit.
Variable self : RheedMask.t.

Lemma initial_guess_total (rid : nat) (cs : Spectrum.t) (ps : list nat) :
  RheedMask.collapses self !! rid = Some cs ->
  RheedMask.collapses_peaks self !! rid = Some ps ->
  1 <= length ps ->
  forallb (fun k => (k <? length (Spectrum.ws cs))
                    && (k <? length (Spectrum.spec cs))) ps = true ->
  exists guess, RheedMask.initial_guess self rid = Ok guess
    /\ length guess = 3 * length ps + 1.
Proof.
  intros Hcs Hps Hlen Hin. unfold RheedMask.initial_guess.
  apply nth_exc_Ok in Hcs, Hps. rewrite Hcs, Hps. simpl.
  rewrite forallb_forall in Hin.
  destruct (take_idx_total (Spectrum.ws cs) ps) as [xs Hxs].
  { intros k Hk. apply list_elem_of_In, Hin, andb_true_iff in Hk as [Hk _].
    apply Nat.ltb_lt, Hk. }
  destruct (take_idx_total (Spectrum.spec cs) ps) as [hs Hhs].
  { intros k Hk. apply list_elem_of_In, Hin, andb_true_iff in Hk as [_ Hk].
    apply Nat.ltb_lt, Hk. }
  rewrite Hxs, Hhs. simpl.
  assert (Hlx := mapM_Ok_length _ _ _ Hxs).
  assert (Hlh := mapM_Ok_length _ _ _ Hhs).
  destruct (py_max_total xs) as [mx Hmx]; [destruct xs; simpl in *; [lia|congruence]|].
  destruct (py_min_total xs) as [mn Hmn]; [destruct xs; simpl in *; [lia|congruence]|].
  rewrite Hmx, Hmn. simpl. eexists. split; [reflexivity|].
  rewrite length_app, flat_map_triple_length by reflexivity.
  rewrite length_zip_with. simpl. lia.
Qed.

Lemma region_fit_total (rid : nat) (cs : Spectrum.t) (ps : list nat)
    (gauss_fit : gmap nat (list Q)) (warns : list RheedMask.warning) :
  RheedMask.collapses self !! rid = Some cs ->
  RheedMask.collapses_peaks self !! rid = Some ps ->
  1 <= length ps ->
  forallb (fun k => (k <? length (Spectrum.ws cs))
                    && (k <? length (Spectrum.spec cs))) ps = true ->
  cache_ok self gauss_fit ->
  exists popt gauss_fit' warns',
    RheedMask.region_fit curve_fit self rid gauss_fit warns
    = Ok (popt, gauss_fit', warns')
    /\ cache_ok self gauss_fit'
    /\ length popt = 3 * length ps + 1.
Proof.
  intros Hcs Hps Hlen Hin Hcache. unfold RheedMask.region_fit.
  destruct (gauss_fit !! rid) as [popt|] eqn:Hrid.
  { exists popt, gauss_fit, warns. split; [reflexivity|]. split; [exact Hcache|].
    exact (Hcache rid popt ps Hrid Hps). }
  destruct (initial_guess_total rid cs ps Hcs Hps Hlen Hin) as (guess & Hg & Hgl).
  rewrite Hg. simpl. apply nth_exc_Ok in Hcs as Hcs'. rewrite Hcs'. simpl.
  assert (Hins : forall popt, length popt = 3 * length ps + 1 ->
            cache_ok self (<[rid := popt]> gauss_fit)).
  { intros popt Hl r q qs Hr Hq. destruct (decide (rid = r)) as [<-|Hne].
    - rewrite lookup_insert_eq in Hr. injection Hr as <-.
      rewrite Hps in Hq. injection Hq as <-. exact Hl.
    - rewrite lookup_insert_ne in Hr by exact Hne. exact (Hcache r q qs Hr Hq). }
  destruct (curve_fit _ _ guess) as [popt|e] eqn:Hfit.
  - apply curve_fit_contract in Hfit. rewrite Hgl in Hfit.
    do 3 eexists. split; [reflexivity|]. split; [apply Hins, Hfit|exact Hfit].
  - do 3 eexists. split; [reflexivity|]. split; [apply Hins, Hgl|exact Hgl].
Qed.

Lemma peak_step_total (st : RheedMask.acc) (p : nat) :
  peak_wf self p = true -> acc_inv self st ->
  exists st', RheedMask.peak_step curve_fit self st p = Ok st'
    /\ acc_inv self st'.
Proof.
  destruct st as [[group_mask gauss_fit] warns].
  intros Hwf (Hh & Hw & Hcache). simpl in Hh, Hw, Hcache.
  unfold peak_wf in Hwf. unfold RheedMask.peak_step.
  destruct (bool_decide _).
  { eexists. split; [reflexivity|]. repeat split; assumption. }
  cbn [orb] in Hwf.
  destruct (RheedMask.collapses_peaks_flatten_pids self !! p) as [pid|] eqn:Hpid;
    [|discriminate].
  destruct (RheedMask.collapses_peaks_flatten_regions self !! p) as [rid|] eqn:Hrid;
    [|discriminate].
  destruct (RheedMask.regions self !! rid) as [region|] eqn:Hreg; [|discriminate].
  destruct (RheedMask.collapses_peaks self !! rid) as [ps|] eqn:Hps; [|discriminate].
  apply nth_exc_Ok in Hpid as Hpid', Hrid as Hrid', Hreg as Hreg', Hps as Hps'.
  rewrite Hpid', ret_bind, Hrid', ret_bind, Hreg', ret_bind.
  destruct (RheedMask.bbox region) as [[[minr minc] maxr] maxc] eqn:Hbox.
  rewrite Hps', ret_bind.
  destruct (length ps =? 1).
  { destruct (or_into_region group_mask _ _ region minr minc maxr maxc
                Hbox Hwf Hh Hw) as [m' Hm'].
    rewrite Hm', ret_bind. eexists. split; [reflexivity|].
    apply or_into_shape in Hm' as [H1 H2].
    split; [simpl; congruence|]. split; [simpl; congruence|]. exact Hcache. }
  destruct (RheedMask.collapses self !! rid) as [cs|] eqn:Hcs; [|discriminate].
  apply andb_true_iff in Hwf as [Hwf Hrank].
  apply andb_true_iff in Hwf as [Hwf Hlens].
  apply andb_true_iff in Hwf as [Hne Hin].
  rewrite Hlens. cbn [negb].
  destruct (select _ _) as [|x rest]; [discriminate|].
  apply Nat.leb_le in Hne. apply Nat.ltb_lt in Hrank.
  destruct (region_fit_total rid cs ps gauss_fit warns Hcs Hps Hne Hin Hcache)
    as (popt & gauss_fit' & warns' & Hfit & Hcache' & Hlen).
  rewrite Hfit, ret_bind.
  destruct (lookup_lt_is_Some_2 popt ((pid - fold_left Nat.min rest x) * 3 + 1))
    as [ce Hce]; [lia|].
  destruct (lookup_lt_is_Some_2 popt ((pid - fold_left Nat.min rest x) * 3 + 2))
    as [sg Hsg]; [lia|].
  apply nth_exc_Ok in Hce, Hsg. rewrite Hce, ret_bind, Hsg, ret_bind.
  destruct (RheedMask.or_into _ _ _ _ _ _) as [m'|e] eqn:Hor.
  - eexists. split; [reflexivity|]. apply or_into_shape in Hor as [H1 H2].
    split; [simpl; congruence|]. split; [simpl; congruence|]. exact Hcache'.
  - eexists. split; [reflexivity|]. repeat split; assumption.
Qed.

Lemma peaks_loop_total (family : list nat) (st : RheedMask.acc) :
  forallb (peak_wf self) family = true -> acc_inv self st ->
  exists st', RheedMask.peaks_loop curve_fit self st family = Ok st'
    /\ acc_inv self st'.
Proof.
  revert st. induction family as [|p family IH]; intros st Hwf Hinv.
  - exists st. split; [reflexivity|exact Hinv].
  - simpl in Hwf. apply andb_true_iff in Hwf as [Hp Hrest].
    destruct (peak_step_total st p Hp Hinv) as (st1 & Hst1 & Hinv1).
    simpl. rewrite Hst1, ret_bind. apply IH; assumption.
Qed.

Lemma families_loop_total (selected : list PeakAnalysisResult)
    (st : RheedMask.acc) :
  forallb (fun r => forallb (peak_wf self) (peaks_family r)) selected = true ->
  acc_inv self st ->
  exists st', RheedMask.families_loop curve_fit self st selected = Ok st'
    /\ acc_inv self st'.
Proof.
  revert st. induction selected as [|ana rest IH]; intros st Hwf Hinv.
  - exists st. split; [reflexivity|exact Hinv].
  - simpl in Hwf. apply andb_true_iff in Hwf as [Hp Hrest].
    destruct (peaks_loop_total _ st Hp Hinv) as (st1 & Hst1 & Hinv1).
    simpl. rewrite Hst1, ret_bind. apply IH; assumption.
Qed.

Hypothesis self_wf : rheed_wf self = true.

Lemma selected_of_total (ul : Z) :
  exists selected, RheedMask.selected_of self ul = Ok selected
    /\ forallb (fun r => forallb (peak_wf self) (peaks_family r)) selected = true.
Proof.
  unfold rheed_wf in self_wf.
  apply andb_true_iff in self_wf as [Hwf Hfam].
  apply andb_true_iff in Hwf as [_ Hlen]. apply Nat.leb_le in Hlen.
  unfold RheedMask.selected_of.
  destruct (take_idx_total (RheedMask.collapses_peaks_flatten_ana_res self)
              (where_ (map (fun cl => (cl =? ul)%Z) (RheedMask.cluster_labels self))))
    as [selected Hsel].
  { intros i Hi. apply elem_of_where, lookup_lt_Some in Hi.
    rewrite length_map in Hi. lia. }
  exists selected. split; [exact Hsel|].
  apply forallb_forall. intros r Hr.
  rewrite forallb_forall in Hfam. apply Hfam.
  apply list_elem_of_In. eapply take_idx_elem; [exact Hsel|].
  apply list_elem_of_In, Hr.
Qed.

Abbreviation n := (length (RheedMask.cluster_labels_unique self)).

Lemma label_step_total (st : RheedMask.label_state) (i : nat) (ul : Z) :
  length (fst (fst (fst st))) = n -> cache_ok self (snd (fst st)) ->
  exists gi gp gauss_fit warns,
    RheedMask.label_step curve_fit self st i ul = Ok (gi, Some gp, gauss_fit, warns)
    /\ length gi = n /\ length gp = n /\ cache_ok self gauss_fit.
Proof.
  destruct st as [[[gi gp] gauss_fit] warns]. simpl. intros Hgi Hcache.
  unfold RheedMask.label_step.
  destruct (selected_of_total ul) as (selected & Hsel & Hwf).
  rewrite Hsel, ret_bind.
  destruct (families_loop_total selected
              (zeros (nrows (RheedMask.pattern self)) (ncols (RheedMask.pattern self)),
               gauss_fit, warns) Hwf) as ([[m c] w] & Hloop & (_ & _ & Hc)).
  { repeat split; assumption. }
  rewrite Hloop, ret_bind. simpl in Hc.
  do 4 eexists. split; [reflexivity|].
  rewrite length_map, length_insert. auto.
Qed.

Lemma labels_loop_total (uls : list Z) (st : RheedMask.label_state) (i : nat) :
  length (fst (fst (fst st))) = n -> cache_ok self (snd (fst st)) ->
  exists gi gp gauss_fit warns,
    RheedMask.labels_loop curve_fit self st i uls = Ok (gi, gp, gauss_fit, warns)
    /\ length gi = n
    /\ (uls <> [] -> exists l, gp = Some l /\ length l = n)
    /\ (forall l, snd (fst (fst st)) = Some l -> length l = n ->
          exists l', gp = Some l' /\ length l' = n).
Proof.
  revert st i. induction uls as [|ul uls IH]; intros st i Hgi Hcache.
  - destruct st as [[[gi gp] c] w]. exists gi, gp, c, w. simpl in *.
    split; [reflexivity|]. split; [exact Hgi|]. split; [congruence|].
    intros l -> Hl. eauto.
  - destruct (label_step_total st i ul Hgi Hcache)
      as (gi1 & gp1 & c1 & w1 & Hstep & Hgi1 & Hgp1 & Hc1).
    simpl. rewrite Hstep, ret_bind.
    destruct (IH (gi1, Some gp1, c1, w1) (S i) Hgi1 Hc1)
      as (gi2 & gp2 & c2 & w2 & Hloop & Hgi2 & _ & Hgp2).
    exists gi2, gp2, c2, w2. split; [exact Hloop|]. split; [exact Hgi2|].
    split; intros; apply (Hgp2 gp1); auto.
Qed.

Lemma get_group_intensity_total :
  exists gi gp warns,
    RheedMask.get_group_intensity curve_fit self = Ok (gi, gp, warns)
    /\ length gi = n /\ length gp = n.
Proof.
  unfold RheedMask.get_group_intensity.
  destruct (labels_loop_total (RheedMask.cluster_labels_unique self)
              (replicate n 0%Q, None, ∅, []) 0)
    as (gi & gp & c & w & Hloop & Hgi & Hgp & _).
  { simpl. apply length_replicate. }
  { intros rid popt ps Hrid. cbn [fst snd] in Hrid.
    rewrite lookup_empty in Hrid. discriminate Hrid. }
  fold n. rewrite Hloop, ret_bind.
  destruct Hgp as (l & -> & Hl).
  { unfold rheed_wf in self_wf.
    apply andb_true_iff in self_wf as [Hwf _].
    apply andb_true_iff in Hwf as [Hne _].
    intros Hnil. fold n in Hne. unfold n in Hne. rewrite Hnil in Hne.
    discriminate Hne. }
  exists gi, l, w. auto.
Qed.
End Totality.

(** ** C6: recovery from fit and mask failures (the anatomy of a step) *)

Lemma or_into_shape_only (m m' : array bool) (r0 r1 c0 c1 : Z) (img : array bool) :
  nrows m = nrows m' -> ncols m = ncols m' ->
  match RheedMask.or_into m r0 r1 c0 c1 img,
        RheedMask.or_into m' r0 r1 c0 c1 img with
  | Ok _, Ok _ => True
  | Raise _, Raise _ => True
  | _, _ => False
  end.
Proof.
  intros Hr Hc. unfold RheedMask.or_into, bor, assign2, slice2.
  cbn [nrows ncols]. rewrite Hr, Hc.
  repeat match goal with
  | |- context [bdim ?a ?b] => destruct (bdim a b)
  end; simpl; auto.
  match goal with
  | |- context [if ?b && ?c then Ok _ else _] => destruct (b && c)
  end; simpl; auto.
Qed.

Ltac red_bind := cbn [mbind exc_bind mret exc_ret].

Section Anatomy.
Variable curve_fit : list Q -> list Q -> list Q -> exc (list Q).
Variable self : RheedMask.t.

Lemma region_fit_popt (rid : nat) (gauss_fit : gmap nat (list Q))
    (warns : list RheedMask.warning) :
  cache_sound curve_fit self gauss_fit ->
  RheedMask.region_fit curve_fit self rid gauss_fit warns
  = (popt ← region_popt curve_fit self rid;
     mret (popt, <[rid := popt]> gauss_fit, warns ++ fit_warning curve_fit self gauss_fit rid)).
Proof.
  intros Hsound. unfold RheedMask.region_fit.
  destruct (gauss_fit !! rid) as [popt|] eqn:Hrid.
  - unfold fit_warning. rewrite Hrid.
    rewrite (Hsound rid popt Hrid), ret_bind, app_nil_r.
    rewrite insert_id by exact Hrid. reflexivity.
  - unfold fit_warning. rewrite Hrid. unfold region_popt, fit_fails.
    destruct (RheedMask.initial_guess self rid) as [guess|e]; [|reflexivity].
    rewrite !ret_bind. unfold nth_exc.
    destruct (RheedMask.collapses self !! rid) as [cs|]; [|reflexivity].
    rewrite !ret_bind. unfold fallback.
    destruct (curve_fit _ _ guess) as [popt|e]; simpl.
    + rewrite app_nil_r. reflexivity.
    + reflexivity.
Qed.

Lemma cache_sound_insert (rid : nat) (popt : list Q)
    (gauss_fit : gmap nat (list Q)) :
  cache_sound curve_fit self gauss_fit ->
  region_popt curve_fit self rid = Ok popt ->
  cache_sound curve_fit self (<[rid := popt]> gauss_fit).
Proof.
  intros Hsound Hp r q Hr. destruct (decide (rid = r)) as [<-|Hne].
  - rewrite lookup_insert_eq in Hr. injection Hr as <-. exact Hp.
  - rewrite lookup_insert_ne in Hr by exact Hne. apply Hsound, Hr.
Qed.

(** A peak that is not fitted leaves the cache and the warnings alone, and
    what it does to the mask depends on the mask only. *)
Lemma peak_step_unfitted (m : array bool) (c : gmap nat (list Q))
    (w : list RheedMask.warning) (p : nat) (st' : RheedMask.acc) :
  fitted_region self p = None ->
  RheedMask.peak_step curve_fit self (m, c, w) p = Ok st' ->
  exists m', st' = (m', c, w)
    /\ (mask_shape self m -> mask_shape self m')
    /\ forall c2 w2,
         RheedMask.peak_step curve_fit self (m, c2, w2) p = Ok (m', c2, w2).
Proof.
  unfold fitted_region, RheedMask.peak_step. intros Hf H.
  destruct (bool_decide _).
  { apply mret_Ok in H. subst st'. exists m. auto. }
  apply bind_Ok in H as (pid & Hpid & H). rewrite Hpid. red_bind.
  apply bind_Ok in H as (rid & Hrid & H). rewrite Hrid. red_bind.
  apply bind_Ok in H as (region & Hreg & H). rewrite Hreg. red_bind.
  apply nth_exc_Ok in Hrid. rewrite Hrid in Hf.
  destruct (RheedMask.bbox region) as [[[minr minc] maxr] maxc].
  apply bind_Ok in H as (ps & Hps & H). rewrite Hps. red_bind.
  apply nth_exc_Ok in Hps. rewrite Hps in Hf.
  destruct (length ps =? 1); [|discriminate Hf].
  apply bind_Ok in H as (m' & Hm' & H). apply mret_Ok in H. subst st'.
  exists m'. split; [reflexivity|]. split.
  - intros [H1 H2]. apply or_into_shape in Hm' as [H3 H4].
    split; congruence.
  - intros c2 w2. rewrite Hm'. reflexivity.
Qed.

(** A fitted peak: the parameters of its region are defined, the cache
    holds them afterwards, the fit warns if it was not cached and raises,
    the composition warns and leaves the mask if it raises; what the step
    does to the mask depends on the mask only. *)
Lemma peak_step_fitted (m : array bool) (c : gmap nat (list Q))
    (w : list RheedMask.warning) (p rid : nat) (st' : RheedMask.acc) :
  fitted_region self p = Some rid ->
  cache_sound curve_fit self c -> mask_shape self m ->
  RheedMask.peak_step curve_fit self (m, c, w) p = Ok st' ->
  exists popt m',
    region_popt curve_fit self rid = Ok popt
    /\ st' = (m', <[rid := popt]> c,
              (w ++ fit_warning curve_fit self c rid)
              ++ (if mask_fails curve_fit self p
                  then [RheedMask.MaskFail rid] else []))
    /\ mask_shape self m'
    /\ (mask_fails curve_fit self p = true -> m' = m)
    /\ forall c2 w2, cache_sound curve_fit self c2 ->
         RheedMask.peak_step curve_fit self (m, c2, w2) p
         = Ok (m', <[rid := popt]> c2,
               (w2 ++ fit_warning curve_fit self c2 rid)
               ++ (if mask_fails curve_fit self p
                   then [RheedMask.MaskFail rid] else [])).
Proof.
  unfold fitted_region, RheedMask.peak_step, mask_fails.
  intros Hf Hsound Hshape H.
  destruct (bool_decide _); [discriminate Hf|].
  apply bind_Ok in H as (pid & Hpid & H). rewrite Hpid. red_bind.
  apply bind_Ok in H as (rid' & Hrid & H). rewrite Hrid. red_bind.
  apply bind_Ok in H as (region & Hreg & H). rewrite Hreg. red_bind.
  apply nth_exc_Ok in Hpid, Hrid, Hreg. rewrite Hpid, Hrid, Hreg.
  rewrite Hrid in Hf.
  destruct (RheedMask.bbox region) as [[[minr minc] maxr] maxc].
  apply bind_Ok in H as (ps & Hps & H). rewrite Hps. red_bind.
  apply nth_exc_Ok in Hps. rewrite Hps in Hf.
  destruct (length ps =? 1); [discriminate Hf|]. injection Hf as ->.
  destruct (negb _); [discriminate H|].
  destruct (select _ _) as [|x rest]; [discriminate H|].
  rewrite (region_fit_popt rid c w Hsound) in H.
  apply bind_Ok in H as (f & Hfit & H).
  apply bind_Ok in Hfit as (popt & Hpopt & Hfit). apply mret_Ok in Hfit.
  subst f. rewrite Hpopt.
  apply bind_Ok in H as (ce & Hce & H). apply bind_Ok in H as (sg & Hsg & H).
  exists popt.
  apply nth_exc_Ok in Hce as Hce', Hsg as Hsg'. rewrite Hce', Hsg'.
  pose proof (or_into_shape_only m
                (zeros (nrows (RheedMask.pattern self)) (ncols (RheedMask.pattern self)))
                minr maxr
                (Z.max minc (int_of (ce - Qabs sg)))
                (Z.min maxc (int_of (ce + Qabs sg)))
                (slice_cols (RheedMask.image region)
                   (Z.max minc (int_of (ce - Qabs sg)) - minc)
                   (Z.min maxc (int_of (ce + Qabs sg)) - minc))
                (proj1 Hshape) (proj2 Hshape)) as Hdep.
  destruct (RheedMask.or_into m _ _ _ _ _) as [m'|e] eqn:Hor;
    destruct (RheedMask.or_into (zeros _ _) _ _ _ _ _) as [z|e'];
    try contradiction.
  - apply mret_Ok in H. subst st'. exists m'.
    split; [reflexivity|]. split; [rewrite app_nil_r; reflexivity|].
    split.
    { apply or_into_shape in Hor as [H3 H4]. destruct Hshape.
      split; congruence. }
    split; [discriminate|].
    intros c2 w2 Hs2. rewrite (region_fit_popt rid c2 w2 Hs2), Hpopt. red_bind.
    rewrite Hce. red_bind. rewrite Hsg. red_bind. rewrite Hor, app_nil_r.
    reflexivity.
  - apply mret_Ok in H. subst st'. exists m.
    split; [reflexivity|]. split; [reflexivity|].
    split; [exact Hshape|]. split; [reflexivity|].
    intros c2 w2 Hs2. rewrite (region_fit_popt rid c2 w2 Hs2), Hpopt. red_bind.
    rewrite Hce. red_bind. rewrite Hsg. red_bind. rewrite Hor. reflexivity.
Qed.
End Anatomy.

(** ** C6: recovery from fit and mask failures (the warnings issued) *)

Section WarnInvariant.
Variable curve_fit : list Q -> list Q -> list Q -> exc (list Q).
Variable self : RheedMask.t.

Lemma warn_inv_unfitted (done : list nat) (c : gmap nat (list Q))
    (w : list RheedMask.warning) (p : nat) :
  fitted_region self p = None ->
  warn_inv curve_fit self done c w ->
  warn_inv curve_fit self (done ++ [p]) c w.
Proof.
  intros Hf (Hsound & Hdom & Hg & Hm).
  assert (Hold : forall (P : nat -> Prop) rid,
            (exists q, q ∈ done ++ [p] /\ fitted_region self q = Some rid /\ P q)
            <-> (exists q, q ∈ done /\ fitted_region self q = Some rid /\ P q)).
  { intros P rid. split; intros (q & Hq & Hfq & HP).
    - apply elem_of_app in Hq as [Hq|Hq]; [eauto|].
      apply list_elem_of_singleton in Hq. subst q. congruence.
    - exists q. split; [apply elem_of_app; auto|auto]. }
  split; [exact Hsound|]. split.
  - intros rid Hrid. destruct (Hdom rid Hrid) as (q & Hq & Hfq).
    exists q. split; [apply elem_of_app; auto|exact Hfq].
  - split; intros rid.
    + rewrite Hg. symmetry.
      apply (Hold (fun _ => fit_fails curve_fit self rid = true)).
    + rewrite Hm. symmetry.
      apply (Hold (fun q => mask_fails curve_fit self q = true)).
Qed.

Lemma warn_inv_fitted (done : list nat) (c : gmap nat (list Q))
    (w : list RheedMask.warning) (p rid : nat) (popt : list Q) :
  fitted_region self p = Some rid ->
  region_popt curve_fit self rid = Ok popt ->
  warn_inv curve_fit self done c w ->
  warn_inv curve_fit self (done ++ [p]) (<[rid := popt]> c)
    ((w ++ fit_warning curve_fit self c rid)
     ++ (if mask_fails curve_fit self p then [RheedMask.MaskFail rid] else [])).
Proof.
  intros Hf Hpopt (Hsound & Hdom & Hg & Hm).
  split; [apply cache_sound_insert; assumption|]. split.
  { intros r Hr. destruct (decide (rid = r)) as [<-|Hne].
    - exists p. split; [apply elem_of_app; right; constructor|exact Hf].
    - rewrite lookup_insert_ne in Hr by exact Hne.
      destruct (Hdom r Hr) as (q & Hq & Hfq).
      exists q. split; [apply elem_of_app; auto|exact Hfq]. }
  split; intros r.
  - rewrite !elem_of_app, Hg. split.
    + intros [[(q & Hq & Hfq & Hff)|Hin]|Hin].
      * exists q. split; [apply elem_of_app; auto|auto].
      * unfold fit_warning in Hin. destruct (c !! rid); [inversion Hin|].
        destruct (fit_fails curve_fit self rid) eqn:Hff; [|inversion Hin].
        apply list_elem_of_singleton in Hin. injection Hin as ->.
        exists p. split; [apply elem_of_app; right; constructor|auto].
      * destruct (mask_fails curve_fit self p); [|inversion Hin].
        apply list_elem_of_singleton in Hin. discriminate Hin.
    + intros (q & Hq & Hfq & Hff).
      apply elem_of_app in Hq as [Hq|Hq]; [left; left; eauto|].
      apply list_elem_of_singleton in Hq. subst q.
      rewrite Hf in Hfq. injection Hfq as <-.
      unfold fit_warning. destruct (c !! rid) as [old|] eqn:Hc.
      * left. left. destruct (Hdom rid) as (q & Hq & Hfq); [eauto|]. eauto.
      * left. right. rewrite Hff. constructor.
  - rewrite !elem_of_app, Hm. split.
    + intros [[(q & Hq & Hfq & Hff)|Hin]|Hin].
      * exists q. split; [apply elem_of_app; auto|auto].
      * unfold fit_warning in Hin. destruct (c !! rid); [inversion Hin|].
        destruct (fit_fails curve_fit self rid); [|inversion Hin].
        apply list_elem_of_singleton in Hin. discriminate Hin.
      * destruct (mask_fails curve_fit self p) eqn:Hmf; [|inversion Hin].
        apply list_elem_of_singleton in Hin. injection Hin as ->.
        exists p. split; [apply elem_of_app; right; constructor|auto].
    + intros (q & Hq & Hfq & Hff).
      apply elem_of_app in Hq as [Hq|Hq]; [left; left; eauto|].
      apply list_elem_of_singleton in Hq. subst q.
      rewrite Hf in Hfq. injection Hfq as <-.
      right. rewrite Hff. constructor.
Qed.

Lemma peak_step_warn_inv (done : list nat) (st st' : RheedMask.acc) (p : nat) :
  mask_shape self (fst (fst st)) ->
  warn_inv curve_fit self done (snd (fst st)) (snd st) ->
  RheedMask.peak_step curve_fit self st p = Ok st' ->
  mask_shape self (fst (fst st'))
  /\ warn_inv curve_fit self (done ++ [p]) (snd (fst st')) (snd st').
Proof.
  destruct st as [[m c] w]. cbn [fst snd]. intros Hshape Hinv H.
  destruct (fitted_region self p) as [rid|] eqn:Hf.
  - destruct (peak_step_fitted curve_fit self m c w p rid st' Hf
                (proj1 Hinv) Hshape H)
      as (popt & m' & Hpopt & -> & Hshape' & _).
    cbn [fst snd]. split; [exact Hshape'|].
    apply warn_inv_fitted; assumption.
  - destruct (peak_step_unfitted curve_fit self m c w p st' Hf H)
      as (m' & -> & Hshape' & _).
    cbn [fst snd]. split; [auto|]. apply warn_inv_unfitted; assumption.
Qed.

Lemma peaks_loop_warn_inv (family done : list nat) (st st' : RheedMask.acc) :
  mask_shape self (fst (fst st)) ->
  warn_inv curve_fit self done (snd (fst st)) (snd st) ->
  RheedMask.peaks_loop curve_fit self st family = Ok st' ->
  mask_shape self (fst (fst st'))
  /\ warn_inv curve_fit self (done ++ family) (snd (fst st')) (snd st').
Proof.
  revert done st. induction family as [|p family IH]; intros done st Hs Hi H.
  - apply mret_Ok in H. subst st'. rewrite app_nil_r. auto.
  - cbn [RheedMask.peaks_loop RheedMask.families_loop RheedMask.labels_loop] in H.
    apply bind_Ok in H as (st1 & H1 & H).
    destruct (peak_step_warn_inv done st st1 p Hs Hi H1) as [Hs1 Hi1].
    rewrite (cons_middle p done family), app_assoc. eapply IH; eassumption.
Qed.

Lemma families_loop_warn_inv (selected : list PeakAnalysisResult)
    (done : list nat) (st st' : RheedMask.acc) :
  mask_shape self (fst (fst st)) ->
  warn_inv curve_fit self done (snd (fst st)) (snd st) ->
  RheedMask.families_loop curve_fit self st selected = Ok st' ->
  mask_shape self (fst (fst st'))
  /\ warn_inv curve_fit self (done ++ flat_map peaks_family selected)
       (snd (fst st')) (snd st').
Proof.
  revert done st. induction selected as [|ana rest IH]; intros done st Hs Hi H.
  - apply mret_Ok in H. subst st'. simpl. rewrite app_nil_r. auto.
  - cbn [RheedMask.peaks_loop RheedMask.families_loop RheedMask.labels_loop] in H.
    apply bind_Ok in H as (st1 & H1 & H).
    destruct (peaks_loop_warn_inv _ done st st1 Hs Hi H1) as [Hs1 Hi1].
    cbn [flat_map]. rewrite app_assoc. eapply IH; eassumption.
Qed.

Lemma labels_loop_warn_inv (uls : list Z) (done : list nat)
    (st st' : RheedMask.label_state) (i : nat) :
  warn_inv curve_fit self done (snd (fst st)) (snd st) ->
  RheedMask.labels_loop curve_fit self st i uls = Ok st' ->
  warn_inv curve_fit self
    (done ++ flat_map (fun ul =>
                         match RheedMask.selected_of self ul with
                         | Ok selected => flat_map peaks_family selected
                         | Raise _ => []
                         end) uls)
    (snd (fst st')) (snd st').
Proof.
  revert done st i. induction uls as [|ul uls IH]; intros done st i Hi H.
  - apply mret_Ok in H. subst st'. simpl. rewrite app_nil_r. exact Hi.
  - cbn [RheedMask.peaks_loop RheedMask.families_loop RheedMask.labels_loop] in H.
    apply bind_Ok in H as (st1 & H1 & H).
    cbn [flat_map]. rewrite app_assoc. eapply IH; [|exact H].
    destruct st as [[[gi gp] c] w]. cbn [fst snd] in Hi.
    unfold RheedMask.label_step in H1.
    apply bind_Ok in H1 as (selected & Hsel & H1). rewrite Hsel.
    apply bind_Ok in H1 as ([[m' c'] w'] & Hloop & H1).
    apply mret_Ok in H1. subst st1. cbn [fst snd].
    apply (families_loop_warn_inv selected done _ _) in Hloop as [_ Hi'];
      [exact Hi'| split; reflexivity | exact Hi].
Qed.

Lemma get_group_intensity_warned (gi gp : list Q)
    (warns : list RheedMask.warning) :
  RheedMask.get_group_intensity curve_fit self = Ok (gi, gp, warns) ->
  warned curve_fit self (visited self) warns.
Proof.
  unfold RheedMask.get_group_intensity. intros H.
  apply bind_Ok in H as ([[[gi' gp'] c] w] & Hloop & H).
  destruct gp' as [l|]; [|discriminate H].
  apply mret_Ok in H. injection H as -> -> ->.
  apply (labels_loop_warn_inv _ []) in Hloop.
  - destruct Hloop as (_ & _ & Hw). exact Hw.
  - cbn [fst snd]. split; [|split; [|split]].
    + intros rid popt Hr. rewrite lookup_empty in Hr. discriminate Hr.
    + intros rid [x Hr]. rewrite lookup_empty in Hr. discriminate Hr.
    + intros rid. split; [intros Hin; inversion Hin|].
      intros (p & Hp & _). inversion Hp.
    + intros rid. split; [intros Hin; inversion Hin|].
      intros (p & Hp & _). inversion Hp.
Qed.
End WarnInvariant.

(** ** C6: recovery from fit and mask failures (the peaks that are skipped) *)

Section SkippedPeaks.
Variable curve_fit : list Q -> list Q -> list Q -> exc (list Q).
Variable self : RheedMask.t.

Abbreviation bad := (mask_skipped curve_fit self).
Abbreviation self' := (drop_peaks (mask_skipped curve_fit self) self).

Lemma peaks_loop_skipped (family : list nat) (m m' : array bool)
    (c c' c2 : gmap nat (list Q)) (w w' w2 : list RheedMask.warning) :
  mask_shape self m ->
  cache_sound curve_fit self c -> cache_sound curve_fit self c2 ->
  RheedMask.peaks_loop curve_fit self (m, c, w) family = Ok (m', c', w') ->
  cache_sound curve_fit self c'
  /\ exists c2' w2',
       RheedMask.peaks_loop curve_fit self' (m, c2, w2)
         (List.filter (fun p => negb (bad p)) family) = Ok (m', c2', w2')
       /\ cache_sound curve_fit self c2'.
Proof.
  revert m c w c2 w2.
  induction family as [|p family IH]; intros m c w c2 w2 Hs Hc Hc2 H.
  - apply mret_Ok in H. injection H as <- <- <-.
    split; [exact Hc|]. exists c2, w2. split; [reflexivity|exact Hc2].
  - cbn [RheedMask.peaks_loop RheedMask.families_loop RheedMask.labels_loop] in H.
    apply bind_Ok in H as (st1 & H1 & H).
    cbn [List.filter].
    assert (Hbad : bad p = match fitted_region self p with
                           | Some _ => mask_fails curve_fit self p
                           | None => false
                           end) by reflexivity.
    rewrite Hbad. clear Hbad.
    destruct (fitted_region self p) as [rid|] eqn:Hf.
    + destruct (peak_step_fitted curve_fit self m c w p rid st1 Hf Hc Hs H1)
        as (popt & m1 & Hpopt & -> & Hs1 & Hskip & Hany).
      pose proof (cache_sound_insert curve_fit self rid popt c Hc Hpopt) as Hc1.
      destruct (mask_fails curve_fit self p) eqn:Hmf; cbn [negb].
      * rewrite (Hskip eq_refl) in H. eapply IH; eassumption.
      * pose proof (cache_sound_insert curve_fit self rid popt c2 Hc2 Hpopt)
          as Hc3.
        destruct (IH m1 _ _ _
                    ((w2 ++ fit_warning curve_fit self c2 rid) ++ [])
                    Hs1 Hc1 Hc3 H) as (Hc' & c2' & w2' & Hloop & Hc2').
        split; [exact Hc'|]. exists c2', w2'. split; [|exact Hc2'].
        cbn [RheedMask.peaks_loop].
        change (RheedMask.peak_step curve_fit self' (m, c2, w2) p)
          with (RheedMask.peak_step curve_fit self (m, c2, w2) p).
        rewrite (Hany c2 w2 Hc2). exact Hloop.
    + destruct (peak_step_unfitted curve_fit self m c w p st1 Hf H1)
        as (m1 & -> & Hs1 & Hany).
      cbn [negb].
      destruct (IH m1 c w c2 w2 (Hs1 Hs) Hc Hc2 H)
        as (Hc' & c2' & w2' & Hloop & Hc2').
      split; [exact Hc'|]. exists c2', w2'. split; [|exact Hc2'].
      cbn [RheedMask.peaks_loop].
      change (RheedMask.peak_step curve_fit self' (m, c2, w2) p)
        with (RheedMask.peak_step curve_fit self (m, c2, w2) p).
      rewrite (Hany c2 w2). exact Hloop.
Qed.

Lemma peaks_loop_shape (family : list nat) (st st' : RheedMask.acc) :
  mask_shape self (fst (fst st)) ->
  cache_sound curve_fit self (snd (fst st)) ->
  RheedMask.peaks_loop curve_fit self st family = Ok st' ->
  mask_shape self (fst (fst st')).
Proof.
  revert st. induction family as [|p family IH]; intros st Hs Hc H.
  - apply mret_Ok in H. subst st'. exact Hs.
  - cbn [RheedMask.peaks_loop RheedMask.families_loop RheedMask.labels_loop] in H.
    apply bind_Ok in H as (st1 & H1 & H).
    destruct st as [[m c] w]. cbn [fst snd] in Hs, Hc.
    destruct (fitted_region self p) as [rid|] eqn:Hf.
    + destruct (peak_step_fitted curve_fit self m c w p rid st1 Hf Hc Hs H1)
        as (popt & m1 & Hpopt & -> & Hs1 & _).
      refine (IH (m1, _, _) Hs1 _ H).
      cbn [fst snd]. apply cache_sound_insert; assumption.
    + destruct (peak_step_unfitted curve_fit self m c w p st1 Hf H1)
        as (m1 & -> & Hs1 & _).
      exact (IH (m1, c, w) (Hs1 Hs) Hc H).
Qed.

Lemma families_loop_skipped (selected : list PeakAnalysisResult)
    (m m' : array bool)
    (c c' c2 : gmap nat (list Q)) (w w' w2 : list RheedMask.warning) :
  mask_shape self m ->
  cache_sound curve_fit self c -> cache_sound curve_fit self c2 ->
  RheedMask.families_loop curve_fit self (m, c, w) selected = Ok (m', c', w') ->
  cache_sound curve_fit self c'
  /\ exists c2' w2',
       RheedMask.families_loop curve_fit self' (m, c2, w2)
         (map (without_peaks bad) selected) = Ok (m', c2', w2')
       /\ cache_sound curve_fit self c2'.
Proof.
  revert m c w c2 w2.
  induction selected as [|ana rest IH]; intros m c w c2 w2 Hs Hc Hc2 H.
  - apply mret_Ok in H. injection H as <- <- <-.
    split; [exact Hc|]. exists c2, w2. split; [reflexivity|exact Hc2].
  - cbn [RheedMask.families_loop] in H.
    apply bind_Ok in H as ([[m1 c1] w1] & H1 & H).
    pose proof (peaks_loop_shape _ (m, c, w) _ Hs Hc H1) as Hs1.
    cbn [fst snd] in Hs1.
    destruct (peaks_loop_skipped _ m m1 c c1 c2 w w1 w2 Hs Hc Hc2 H1)
      as (Hc1 & c3 & w3 & Hloop & Hc3).
    destruct (IH m1 c1 w1 c3 w3 Hs1 Hc1 Hc3 H)
      as (Hc' & c2' & w2' & Hrest & Hc2').
    split; [exact Hc'|]. exists c2', w2'. split; [|exact Hc2'].
    cbn [map RheedMask.families_loop without_peaks peaks_family].
    rewrite Hloop. exact Hrest.
Qed.

Lemma labels_loop_skipped (uls : list Z) (i : nat) (gi gi' : list Q)
    (gp gp' : option (list Q))
    (c c' c2 : gmap nat (list Q)) (w w' w2 : list RheedMask.warning) :
  cache_sound curve_fit self c -> cache_sound curve_fit self c2 ->
  RheedMask.labels_loop curve_fit self (gi, gp, c, w) i uls
  = Ok (gi', gp', c', w') ->
  exists c2' w2',
    RheedMask.labels_loop curve_fit self' (gi, gp, c2, w2) i uls
    = Ok (gi', gp', c2', w2').
Proof.
  revert i gi gp c w c2 w2.
  induction uls as [|ul uls IH]; intros i gi gp c w c2 w2 Hc Hc2 H.
  - apply mret_Ok in H. injection H as <- <- <- <-.
    exists c2, w2. reflexivity.
  - cbn [RheedMask.peaks_loop RheedMask.families_loop RheedMask.labels_loop] in H.
    apply bind_Ok in H as (st1 & H1 & H).
    unfold RheedMask.label_step in H1.
    apply bind_Ok in H1 as (selected & Hsel & H1).
    apply bind_Ok in H1 as ([[m1 c1] w1] & Hloop & H1).
    apply mret_Ok in H1. subst st1.
    assert (Hz : mask_shape self
                   (zeros (nrows (RheedMask.pattern self))
                          (ncols (RheedMask.pattern self))))
      by (split; reflexivity).
    destruct (families_loop_skipped selected _ m1 c c1 c2 w w1 w2
                Hz Hc Hc2 Hloop)
      as (Hc1 & c3 & w3 & Hloop' & Hc3).
    destruct (IH _ _ _ _ _ c3 w3 Hc1 Hc3 H) as (c2' & w2' & Hrest).
    exists c2', w2'. cbn [RheedMask.labels_loop].
    unfold RheedMask.label_step at 1.
    change (RheedMask.selected_of self' ul)
      with (take_idx (map (without_peaks bad)
                        (RheedMask.collapses_peaks_flatten_ana_res self))
              (where_ (map (fun cl => (cl =? ul)%Z) (RheedMask.cluster_labels self)))).
    rewrite take_idx_map.
    unfold RheedMask.selected_of in Hsel. rewrite Hsel. red_bind.
    change (RheedMask.pattern self') with (RheedMask.pattern self).
    rewrite Hloop'. red_bind. exact Hrest.
Qed.

Lemma get_group_intensity_skipped (gi gp : list Q)
    (warns : list RheedMask.warning) :
  RheedMask.get_group_intensity curve_fit self = Ok (gi, gp, warns) ->
  exists warns',
    RheedMask.get_group_intensity curve_fit self' = Ok (gi, gp, warns').
Proof.
  unfold RheedMask.get_group_intensity. intros H.
  apply bind_Ok in H as ([[[gi' gp'] c] w] & Hloop & H).
  destruct gp' as [l|]; [|discriminate H].
  apply mret_Ok in H. injection H as -> -> ->.
  assert (He : cache_sound curve_fit self ∅).
  { intros rid popt Hr. rewrite lookup_empty in Hr. discriminate Hr. }
  destruct (labels_loop_skipped _ _ _ _ _ _ _ _ ∅ _ _ [] He He Hloop)
    as (c2' & w2' & Hloop').
  exists w2'.
  change (RheedMask.cluster_labels_unique self')
    with (RheedMask.cluster_labels_unique self).
  rewrite Hloop'. reflexivity.
Qed.
End SkippedPeaks.

(** ** C6: recovery from fit and mask failures *)



(** The run of the witness: both peaks of region 0 fail to register, the
    fit of region 1 fails and is replaced by its guess; eight unit pixels
    of region 1 are attributed to the one label. *)
Example two_doublets_run :
  exists gi gp,
    RheedMask.get_group_intensity zeros_or_fail two_doublets
    = Ok (gi, gp, [RheedMask.MaskFail 0; RheedMask.MaskFail 0;
                   RheedMask.GaussianFail 1])
    /\ Forall2 Qeq gi [8%Q] /\ Forall2 Qeq gp [1%Q]
    /\ List.filter (mask_skipped zeros_or_fail two_doublets) [0; 1; 2; 3]
       = [0; 1].
Proof.
  eexists. eexists. split; [vm_compute; reflexivity|].
  split; [repeat constructor|]. split; [repeat constructor|].
  vm_compute. reflexivity.
Qed.

(** The run on the pattern with two regions and a fit that always fails:
    the fit of region 0 is replaced by its guess; sixteen unit pixels are
    attributed to the one label. *)
Example two_regions_run :
  exists gi gp,
    RheedMask.get_group_intensity failing_fit two_regions
    = Ok (gi, gp, [RheedMask.GaussianFail 0])
    /\ Forall2 Qeq gi [16%Q] /\ Forall2 Qeq gp [1%Q].
Proof.
  eexists. eexists. split; [vm_compute; reflexivity|].
  split; repeat constructor.
Qed.

(** ** C8 and C5: the sibling paths *)

(** The methods that forward [inplace]: with [inplace=False] the receiver
    keeps its fields and a fresh object with the same [ws] is returned. *)
Lemma update_spectrum_copy (self : Spectrum.t) (spec ws : list Q) :
  Spectrum._update_spectrum self spec ws false
  = {| Spectrum.receiver := self;
       Spectrum.returned := {| Spectrum.spec := spec; Spectrum.ws := ws |};
       Spectrum.is_self := false |}.
Proof. reflexivity. Qed.

Lemma normalization_copy (self : Spectrum.t) (o : Spectrum.outcome) :
  Spectrum.normalization self false = Ok o ->
  Spectrum.receiver o = self /\ Spectrum.is_self o = false
  /\ Spectrum.ws (Spectrum.returned o) = Spectrum.ws self.
Proof.
  unfold Spectrum.normalization. intros H.
  apply bind_Ok in H as (mn & _ & H). apply bind_Ok in H as (mx & _ & H).
  apply mret_Ok in H. subst o. repeat split.
Qed.

Lemma clip_copy (self : Spectrum.t) (clip_min clip_max : Q) :
  Spectrum.receiver (Spectrum.clip self clip_min clip_max false) = self
  /\ Spectrum.is_self (Spectrum.clip self clip_min clip_max false) = false
  /\ Spectrum.ws (Spectrum.returned (Spectrum.clip self clip_min clip_max false))
     = Spectrum.ws self.
Proof. repeat split. Qed.

Lemma remove_background_copy (linalg_inv : Spectrum.mat2 -> option Spectrum.mat2)
    (self : Spectrum.t) (n : nat) (o : Spectrum.outcome) :
  Spectrum.remove_background linalg_inv self n false = Ok o ->
  Spectrum.receiver o = self /\ Spectrum.is_self o = false
  /\ Spectrum.ws (Spectrum.returned o) = Spectrum.ws self.
Proof.
  unfold Spectrum.remove_background. intros H.
  apply bind_Ok in H as (XY & _ & H). apply bind_Ok in H as (A & _ & H).
  apply bind_Ok in H as (nspec & _ & H).
  apply mret_Ok in H. subst o. repeat split.
Qed.

Lemma filling_flat_copy
    (interp1d_quadratic : list Q -> list Q -> list Q -> exc (list Q))
    (self : Spectrum.t) (trunc : Q) (o : Spectrum.outcome) :
  Spectrum.filling_flat interp1d_quadratic self trunc false = Ok o ->
  Spectrum.receiver o = self /\ Spectrum.is_self o = false
  /\ Spectrum.ws (Spectrum.returned o) = Spectrum.ws self.
Proof.
  unfold Spectrum.filling_flat. intros H.
  apply bind_Ok in H as (spec' & _ & H).
  apply mret_Ok in H. subst o. repeat split.
Qed.

(** In the per-spectrum path every entry of the consumed matrix is the
    unsigned distance of the two peaks. *)
Lemma spectrum_interdist_unsigned (self : Spectrum.t) (peaks : list nat)
    (m : list (list Q)) (i j pi pj : nat) (wi wj : Q) :
  Spectrum.consumed_interdist self peaks = Ok m ->
  peaks !! i = Some pi -> peaks !! j = Some pj ->
  Spectrum.ws self !! pi = Some wi -> Spectrum.ws self !! pj = Some wj ->
  exists row d, m !! i = Some row /\ row !! j = Some d
    /\ (d == Qabs (wi - wj))%Q.
Proof.
  unfold Spectrum.consumed_interdist, Spectrum.get_peaks_distance.
  intros H Hi Hj Hwi Hwj.
  apply bind_Ok in H as (d0 & Hd0 & H).
  apply bind_Ok in Hd0 as (pw & Hpw & Hd0).
  apply mret_Ok in Hd0. subst d0. simpl in H. apply mret_Ok in H. subst m.
  destruct (take_idx_lookup _ _ _ _ _ Hpw Hi) as (x & Hx & Hx').
  destruct (take_idx_lookup _ _ _ _ _ Hpw Hj) as (y & Hy & Hy').
  rewrite Hwi in Hx'. injection Hx' as <-.
  rewrite Hwj in Hy'. injection Hy' as <-.
  destruct (lookup_distance_matrix pw pw i j wi wj Hx Hy) as (r0 & Hr0 & Hr0j).
  destruct (lookup_negate_tril _ i j r0 _ Hr0 Hr0j) as (r1 & Hr1 & Hr1j).
  destruct (lookup_negate_tril _ i j r1 _ Hr1 Hr1j) as (r2 & Hr2 & Hr2j).
  exists r2. eexists. split; [exact Hr2|]. split; [exact Hr2j|].
  destruct (j <=? i); [ring|reflexivity].
Qed.

(** ** C2: the relabelling without the outlier label *)

Lemma insert_key_perm (x : Q * nat) (l : list (Q * nat)) :
  insert_key x l ≡ₚ x :: l.
Proof.
  induction l as [|y t IH]; simpl; [reflexivity|].
  destruct (Qle_bool (fst x) (fst y)); [reflexivity|].
  rewrite IH. apply Permutation_swap.
Qed.

Lemma insert_key_sorted (x : Q * nat) (l : list (Q * nat)) :
  StronglySorted key_le l -> StronglySorted key_le (insert_key x l).
Proof.
  induction 1 as [|y t Ht IH Hy]; simpl.
  - repeat constructor.
  - destruct (Qle_bool (fst x) (fst y)) eqn:E.
    + apply Qle_bool_iff in E. constructor; [constructor; assumption|].
      constructor; [exact E|].
      eapply Forall_impl; [exact Hy|]. intros z Hz.
      unfold key_le in *. eapply Qle_trans; eassumption.
    + constructor; [exact IH|].
      rewrite Forall_forall. intros z Hz.
      rewrite insert_key_perm in Hz. apply elem_of_cons in Hz as [->|Hz].
      * unfold key_le. destruct (Qlt_le_dec (fst y) (fst x)) as [H|H].
        -- apply Qlt_le_weak, H.
        -- apply Qle_bool_iff in H. congruence.
      * rewrite Forall_forall in Hy. apply Hy, Hz.
Qed.

Lemma sort_keys_perm (l : list (Q * nat)) : foldr insert_key [] l ≡ₚ l.
Proof.
  induction l as [|x l IH]; simpl; [reflexivity|].
  rewrite insert_key_perm, IH. reflexivity.
Qed.

Lemma sort_keys_sorted (l : list (Q * nat)) :
  StronglySorted key_le (foldr insert_key [] l).
Proof.
  induction l as [|x l IH]; simpl; [constructor|].
  apply insert_key_sorted, IH.
Qed.

Lemma argsort_perm (l : list Q) : argsort l ≡ₚ seq 0 (length l).
Proof.
  unfold argsort. rewrite sort_keys_perm.
  change (map snd (zip l (seq 0 (length l)))) with
    (snd <$> zip l (seq 0 (length l))).
  rewrite snd_zip; [reflexivity|]. rewrite length_seq. lia.
Qed.

Lemma argsort_length (l : list Q) : length (argsort l) = length l.
Proof. rewrite argsort_perm. apply length_seq. Qed.

(** [l[argsort(l)]] is [l] in ascending order. *)
Lemma take_idx_argsort (l : list Q) :
  take_idx l (argsort l) = Ok (map fst (foldr insert_key [] (zip l (seq 0 (length l))))).
Proof.
  unfold argsort.
  assert (H : Forall (fun p => l !! snd p = Some (fst p))
                (foldr insert_key [] (zip l (seq 0 (length l))))).
  { rewrite Forall_forall. intros [v i] Hp. rewrite sort_keys_perm in Hp.
    apply list_elem_of_lookup in Hp as [k Hk].
    apply lookup_zip_with_Some in Hk as (x & y & Heq & Hx & Hy).
    injection Heq as -> ->. apply lookup_seq in Hy as [-> _]. exact Hx. }
  induction H as [|[v i] t Hvi _ IH]; [reflexivity|].
  unfold take_idx in *. simpl in *.
  apply nth_exc_Ok in Hvi. rewrite Hvi, ret_bind, IH. reflexivity.
Qed.

Lemma sorted_keys_values (L : list (Q * nat)) :
  StronglySorted key_le L -> StronglySorted Qle (map fst L).
Proof.
  induction 1 as [|a t Ht IH Ha]; simpl; constructor; [exact IH|].
  rewrite Forall_forall in Ha. rewrite Forall_forall. intros v Hv.
  apply list_elem_of_fmap in Hv as (b & -> & Hb). apply Ha, Hb.
Qed.

(** The mapper is the inverse of the sorting permutation. *)
Lemma fold_mapper_lookup (ps : list (nat * nat)) (m0 : list Z) (i j : nat) :
  NoDup (map snd ps) ->
  (forall p, p ∈ ps -> snd p < length m0) ->
  (i, j) ∈ ps ->
  fold_left (fun mapper ij => <[snd ij := Z.of_nat (fst ij)]> mapper) ps m0 !! j
  = Some (Z.of_nat i).
Proof.
  revert m0. induction ps as [|[a b] ps IH]; intros m0 Hnd Hlt Hin.
  - apply elem_of_nil in Hin. contradiction.
  - simpl in *. apply NoDup_cons in Hnd as [Hb Hnd].
    apply elem_of_cons in Hin as [Heq|Hin].
    + injection Heq as -> ->.
      assert (Hkeep : forall (qs : list (nat * nat)) (m : list Z), b ∉ map snd qs ->
                fold_left (fun mapper ij => <[snd ij := Z.of_nat (fst ij)]> mapper) qs m !! b
                = m !! b).
      { clear. induction qs as [|[c d] qs IHq]; intros m Hnot; [reflexivity|].
        simpl in *. rewrite IHq.
        - apply list_lookup_insert_ne. intros ->. apply Hnot. left.
        - intros H. apply Hnot. right. exact H. }
      rewrite Hkeep by exact Hb.
      apply list_lookup_insert_eq. apply (Hlt (a, b)). left.
    + apply IH; [exact Hnd| |exact Hin].
      intros p Hp. rewrite length_insert. apply Hlt. right. exact Hp.
Qed.

Lemma make_mapper_lookup (idx : list nat) (i j : nat) :
  idx ≡ₚ seq 0 (length idx) -> idx !! i = Some j ->
  DBSCANDistanceCluster.make_mapper idx !! j = Some (Z.of_nat i).
Proof.
  intros Hperm Hij. unfold DBSCANDistanceCluster.make_mapper.
  apply fold_mapper_lookup.
  - change (map snd (zip (seq 0 (length idx)) idx)) with
      (snd <$> zip (seq 0 (length idx)) idx).
    rewrite snd_zip by (rewrite length_seq; lia).
    rewrite Hperm. apply NoDup_seq.
  - intros [a b] Hp. simpl. rewrite length_replicate.
    apply list_elem_of_lookup in Hp as [k Hk].
    apply lookup_zip_with_Some in Hk as (x & y & Heq & Hx & Hy).
    injection Heq as <- <-.
    assert (Hb : b ∈ idx) by (eapply list_elem_of_lookup_2, Hy).
    rewrite Hperm in Hb. apply elem_of_seq in Hb. lia.
  - apply list_elem_of_lookup. exists i.
    apply lookup_zip_with_Some. exists i, j. split; [reflexivity|].
    split; [|exact Hij]. apply lookup_seq. split; [reflexivity|].
    eapply lookup_lt_Some, Hij.
Qed.

Lemma sorted_pairs_consistent (l : list Q) (v : Q) (i : nat) :
  (v, i) ∈ foldr insert_key [] (zip l (seq 0 (length l))) -> l !! i = Some v.
Proof.
  intros Hp. rewrite sort_keys_perm in Hp.
  apply list_elem_of_lookup in Hp as [k Hk].
  apply lookup_zip_with_Some in Hk as (x & y & Heq & Hx & Hy).
  injection Heq as -> ->. apply lookup_seq in Hy as [-> _]. exact Hx.
Qed.

Lemma make_mapper_length (idx : list nat) :
  length (DBSCANDistanceCluster.make_mapper idx) = length idx.
Proof.
  unfold DBSCANDistanceCluster.make_mapper.
  assert (H : forall (ps : list (nat * nat)) (m : list Z),
            length (fold_left
                      (fun mapper ij => <[snd ij := Z.of_nat (fst ij)]> mapper) ps m)
            = length m).
  { induction ps as [|p ps IH]; intros m; simpl; [reflexivity|].
    rewrite IH. apply length_insert. }
  rewrite H. apply length_replicate.
Qed.

Lemma mean_dist_without_outlier (labels : list Z) (dists : list Q) (k : nat) :
  length labels = length dists ->
  unique labels = map Z.of_nat (seq 0 k) ->
  DBSCANDistanceCluster._mean_dist labels dists
  = Ok (map (fun c => cluster_mean labels dists (Z.of_nat c)) (seq 0 k)).
Proof.
  intros Hlen Hu. unfold DBSCANDistanceCluster._mean_dist.
  apply Nat.eqb_eq in Hlen. rewrite Hlen. cbn [negb]. rewrite Hu.
  f_equal. generalize (seq 0 k). intros cs.
  induction cs as [|c cs IH]; simpl; [reflexivity|].
  destruct (Z.eqb_spec (Z.of_nat c) (-1)); [lia|]. simpl. f_equal. exact IH.
Qed.

(** Without the outlier label (the labels are exactly [0..k-1]) the
    relabelling is as intended: the stored means are in ascending order, one
    per cluster, and every sample's new label is the position of its
    cluster's mean in that table. *)
Lemma fit_predict_without_outlier (model_labels : list Q -> list Z)
    (dists : list Q) (k : nat) :
  length (model_labels dists) = length dists ->
  unique (model_labels dists) = map Z.of_nat (seq 0 k) ->
  exists r,
    DBSCANDistanceCluster.fit_predict model_labels dists = Ok r
    /\ length (DBSCANDistanceCluster.mean_dists r) = k
    /\ StronglySorted Qle (DBSCANDistanceCluster.mean_dists r)
    /\ forall s l, model_labels dists !! s = Some l ->
         exists L,
           DBSCANDistanceCluster.labels r !! s = Some (Z.of_nat L)
           /\ DBSCANDistanceCluster.mean_dists r !! L
              = Some (cluster_mean (model_labels dists) dists l).
Proof.
  intros Hlen Hu. unfold DBSCANDistanceCluster.fit_predict.
  set (labels := model_labels dists) in *.
  rewrite (mean_dist_without_outlier labels dists k Hlen Hu), ret_bind.
  set (means := map (fun c => cluster_mean labels dists (Z.of_nat c)) (seq 0 k)).
  assert (Hmk : length means = k) by (unfold means; rewrite length_map, length_seq; reflexivity).
  unfold DBSCANDistanceCluster._sort_dists.
  rewrite take_idx_argsort, ret_bind.
  set (L := foldr insert_key [] (zip means (seq 0 (length means)))).
  assert (Hperm : argsort means ≡ₚ seq 0 (length (argsort means))).
  { rewrite argsort_length. apply argsort_perm. }
  assert (Hrank : forall l, l ∈ labels ->
            exists c i, l = Z.of_nat c /\ c < k /\ argsort means !! i = Some c
              /\ index (DBSCANDistanceCluster.make_mapper (argsort means)) l
                 = Ok (Z.of_nat i)).
  { intros l Hl. apply (proj2 (unique_sorted_distinct labels)) in Hl.
    rewrite Hu in Hl. apply list_elem_of_fmap in Hl as (c & -> & Hc).
    apply elem_of_seq in Hc.
    assert (Hc' : c ∈ argsort means).
    { rewrite argsort_perm, Hmk. apply elem_of_seq. lia. }
    apply list_elem_of_lookup in Hc' as [i Hi].
    exists c, i. split; [reflexivity|]. split; [lia|]. split; [exact Hi|].
    unfold index. rewrite make_mapper_length, argsort_length, Hmk.
    destruct (Z.ltb_spec (Z.of_nat c) 0); [lia|].
    destruct (Z.leb_spec 0 (Z.of_nat c)); [|lia].
    destruct (Z.ltb_spec (Z.of_nat c) (Z.of_nat k)); [|lia].
    cbn [andb]. rewrite Nat2Z.id.
    rewrite (make_mapper_lookup _ i c Hperm Hi). reflexivity. }
  destruct (mapM_total (index (DBSCANDistanceCluster.make_mapper (argsort means)))
              labels) as [labels' Hlabels'].
  { rewrite Forall_forall. intros l Hl.
    destruct (Hrank l Hl) as (c & i & _ & _ & _ & Hidx). eauto. }
  rewrite Hlabels', ret_bind. eexists. split; [reflexivity|]. simpl.
  split.
  { rewrite length_map. unfold L.
    rewrite (Permutation_length (sort_keys_perm _)), length_zip_with, length_seq.
    lia. }
  split; [apply sorted_keys_values, sort_keys_sorted|].
  intros s l Hs.
  destruct (mapM_Ok_lookup _ _ _ _ _ Hlabels' Hs) as (y & Hy & Hidx).
  destruct (Hrank l (list_elem_of_lookup_2 _ _ _ Hs))
    as (c & i & -> & Hck & Hi & Hidx').
  rewrite Hidx' in Hidx. injection Hidx as <-.
  exists i. split; [exact Hy|].
  unfold argsort in Hi. fold L in Hi.
  rewrite list_lookup_fmap in Hi. rewrite list_lookup_fmap.
  destruct (L !! i) as [[v c']|] eqn:HLi; [|discriminate].
  simpl in Hi. injection Hi as ->. simpl. f_equal.
  assert (Hin : (v, c) ∈ L) by (eapply list_elem_of_lookup_2, HLi).
  apply sorted_pairs_consistent in Hin.
  unfold means in Hin. rewrite list_lookup_fmap in Hin.
  rewrite lookup_seq_lt in Hin by lia. simpl in Hin. injection Hin as <-.
  reflexivity.
Qed.

(** ** C1: the tolerance test of the centre selection *)

(** Whatever its distance, a closest peak at or left of the midpoint is
    accepted as the centre for every positive tolerance. *)
Lemma get_center_peak_idx_left (peaks : list Q) (c tolerant : Q) (ci : nat) (p : Q) :
  argmin (map (fun q => Qabs (q - c)) peaks) = Ok ci ->
  peaks !! ci = Some p ->
  (p <= c)%Q -> (0 < tolerant)%Q ->
  get_center_peak_idx peaks c tolerant = Ok (Z.of_nat ci).
Proof.
  intros Hci Hp Hle Htol. unfold get_center_peak_idx.
  apply nth_exc_Ok in Hp. rewrite Hci, ret_bind, Hp, ret_bind.
  replace (Qltb (p - c) tolerant) with true; [reflexivity|].
  symmetry. apply Qltb_lt. lra.
Qed.

(** ** The visiting order of the neighbours *)

Lemma nbr_loop_spec (fuel : nat) (c M level : Z) (endleft endright : bool) :
  (0 <= c <= M)%Z -> (0 <= level)%Z ->
  endleft = (c - level <? 0)%Z -> endright = (M <? c + level)%Z ->
  Z.to_nat (Z.max (c + 1) (M - c + 1) - level) < fuel ->
  let js := nbr_loop fuel c M level endleft endright in
  (forall j, j ∈ js <-> (0 <= j <= M)%Z /\ (level < Z.abs (j - c))%Z)
  /\ NoDup js
  /\ StronglySorted (nearer c) js.
Proof.
  revert level endleft endright.
  induction fuel as [|fuel IH]; intros level el er Hc Hl Hel Her Hfuel; [lia|].
  cbn [nbr_loop].
  destruct (el && er) eqn:Hend.
  { rewrite Hel, Her in Hend. apply andb_true_iff in Hend as [Hel' Her'].
    apply Z.ltb_lt in Hel', Her'.
    split; [|split; constructor].
    intros j. rewrite elem_of_nil. split; [tauto|]. lia. }
  assert (Hnot : (0 <= c - level)%Z \/ (c + level <= M)%Z).
  { rewrite Hel, Her in Hend. apply andb_false_iff in Hend as [H|H];
      apply Z.ltb_ge in H; lia. }
  destruct (IH (level + 1)%Z
              (if (0 <=? c - (level + 1))%Z then el else true)
              (if (c + (level + 1) <=? M)%Z then er else true))
    as (Hmem & Hnd & Hs); try lia.
  { destruct (Z.leb_spec 0 (c - (level + 1))).
    - rewrite Hel. transitivity false;
        [apply Z.ltb_ge; lia | symmetry; apply Z.ltb_ge; lia].
    - symmetry. apply Z.ltb_lt. lia. }
  { destruct (Z.leb_spec (c + (level + 1)) M).
    - rewrite Her. transitivity false;
        [apply Z.ltb_ge; lia | symmetry; apply Z.ltb_ge; lia].
    - symmetry. apply Z.ltb_lt. lia. }
  set (rest := nbr_loop fuel c M (level + 1) _ _) in *.
  assert (Hrest : forall j, j ∈ rest -> (level + 1 < Z.abs (j - c))%Z).
  { intros j Hj. apply Hmem in Hj. lia. }
  split; [|split].
  - intros j. rewrite !elem_of_app, Hmem.
    destruct (Z.leb_spec 0 (c - (level + 1)));
      destruct (Z.leb_spec (c + (level + 1)) M);
      rewrite ?list_elem_of_singleton, ?elem_of_nil; lia.
  - destruct (Z.leb_spec 0 (c - (level + 1)));
      destruct (Z.leb_spec (c + (level + 1)) M); simpl;
      repeat (apply NoDup_cons; split); try exact Hnd;
      rewrite ?elem_of_cons; intros Hin;
      repeat match goal with
      | H : _ \/ _ |- _ => destruct H
      | H : _ ∈ rest |- _ => apply Hrest in H
      end; lia.
  - assert (Hall : forall a, (Z.abs (a - c) = level + 1)%Z ->
               Forall (nearer c a) rest).
    { intros a Ha. rewrite Forall_forall. intros j Hj. apply Hrest in Hj.
      unfold nearer. lia. }
    destruct (Z.leb_spec 0 (c - (level + 1)));
      destruct (Z.leb_spec (c + (level + 1)) M); simpl;
      repeat (apply SSorted_cons); try exact Hs;
      repeat (apply Forall_cons; split); try (apply Hall; lia);
      unfold nearer; lia.
Qed.

Lemma fold_max_ge (t : list Z) (x : Z) : (x <= fold_left Z.max t x)%Z.
Proof.
  revert x. induction t as [|y t IH]; intros x; simpl; [lia|].
  specialize (IH (Z.max x y)). lia.
Qed.

(** X1: for a centre inside [0..max(idxs)], [get_all_nbr_idxs] yields every
    index of that range except the centre exactly once, nearest first. *)
Theorem get_all_nbr_idxs_visits (center_i x : Z) (t : list Z) :
  (0 <= center_i <= fold_left Z.max t x)%Z ->
  exists js,
    get_all_nbr_idxs center_i (x :: t) = Ok js
    /\ (forall j, j ∈ js <->
          (0 <= j <= fold_left Z.max t x)%Z /\ j <> center_i)
    /\ NoDup js
    /\ StronglySorted (nearer center_i) js.
Proof.
  intros Hc. eexists. split; [reflexivity|].
  assert (Hel : false = (center_i - 0 <? 0)%Z) by (symmetry; apply Z.ltb_ge; lia).
  assert (Her : false = (fold_left Z.max t x <? center_i + 0)%Z)
    by (symmetry; apply Z.ltb_ge; lia).
  assert (Hfuel : Z.to_nat (Z.max (center_i + 1)
                              (fold_left Z.max t x - center_i + 1) - 0)
                  < nbr_fuel center_i (fold_left Z.max t x))
    by (unfold nbr_fuel; lia).
  destruct (nbr_loop_spec _ center_i (fold_left Z.max t x) 0 false false
              Hc (Z.le_refl 0) Hel Her Hfuel) as (Hmem & Hnd & Hs).
  split; [|split; assumption].
  intros j. rewrite Hmem. lia.
Qed.

Lemma get_all_nbr_idxs_visits_witness :
  (0 <= 3 <= fold_left Z.max [1; 2; 3; 4] 0)%Z
  /\ exists js,
    get_all_nbr_idxs 3 [0; 1; 2; 3; 4]%Z = Ok js
    /\ (forall j, j ∈ js <->
          (0 <= j <= fold_left Z.max [1; 2; 3; 4] 0)%Z /\ j <> 3%Z)
    /\ NoDup js
    /\ StronglySorted (nearer 3) js.
Proof.
  split; [simpl; lia|].
  apply (get_all_nbr_idxs_visits 3 0 [1; 2; 3; 4]%Z). simpl. lia.
Defined.

(** ** The grid and the centre selection *)

Lemma Qle_bool_false (x y : Q) : Qle_bool x y = false <-> (y < x)%Q.
Proof.
  split.
  - intros H. apply Qnot_le_lt. intros Hle. apply Qle_bool_iff in Hle. congruence.
  - intros H. destruct (Qle_bool x y) eqn:E; [|reflexivity].
    apply Qle_bool_iff in E. exfalso. exact (Qlt_not_le _ _ H E).
Qed.

Lemma elem_of_arange (a b k : Z) : k ∈ arange a b <-> (a <= k < b)%Z.
Proof.
  unfold arange. change (map ?f ?l) with (f <$> l). rewrite list_elem_of_fmap. split.
  - intros (i & -> & Hi). apply elem_of_seq in Hi. lia.
  - intros Hk. exists (Z.to_nat (k - a)). split; [lia|].
    apply elem_of_seq. lia.
Qed.

Lemma create_grid_elems (start end_ center dist : Q) :
  (0 < dist)%Q ->
  exists grid,
    create_grid start end_ center dist = Ok grid
    /\ forall x, x ∈ grid <->
         exists k : Z, x = (inject_Z k * dist)%Q
           /\ (start - center < inject_Z k * dist)%Q
           /\ (inject_Z k * dist <= end_ - center)%Q.
Proof.
  intros Hd. unfold create_grid.
  replace (Qeq_bool dist 0) with false.
  2:{ symmetry. apply not_true_is_false. intros H. apply Qeq_bool_iff in H.
      rewrite H in Hd. exact (Qlt_irrefl 0 Hd). }
  eexists. split; [reflexivity|].
  set (a := ((start - center) / dist)%Q). set (b := ((end_ - center) / dist)%Q).
  assert (Hnz : ~ (dist == 0)%Q).
  { intros H. rewrite H in Hd. exact (Qlt_irrefl 0 Hd). }
  assert (Hea : (start - center == a * dist)%Q) by (unfold a; field; exact Hnz).
  assert (Heb : (end_ - center == b * dist)%Q) by (unfold b; field; exact Hnz).
  assert (Ha : forall k : Z, (start - center < inject_Z k * dist)%Q <-> (Qfloor a + 1 <= k)%Z).
  { intros k. rewrite Hea, Qmult_lt_r by exact Hd. split.
    - intros Hak. assert (Hfl := Qfloor_le a).
      assert (Hlt : (inject_Z (Qfloor a) < inject_Z k)%Q)
        by (eapply Qle_lt_trans; eassumption).
      rewrite <- Zlt_Qlt in Hlt. lia.
    - intros H. assert (Hlt := Qlt_floor a).
      assert (Hk : (inject_Z (Qfloor a + 1) <= inject_Z k)%Q) by (rewrite <- Zle_Qle; exact H).
      eapply Qlt_le_trans; eassumption. }
  assert (Hb : forall k : Z, (inject_Z k * dist <= end_ - center)%Q <-> (k < Qfloor b + 1)%Z).
  { intros k. rewrite Heb, Qmult_le_r by exact Hd. split.
    - intros Hkb. assert (Hlt := Qlt_floor b).
      assert (Hlt' : (inject_Z k < inject_Z (Qfloor b + 1))%Q)
        by (eapply Qle_lt_trans; eassumption).
      rewrite <- Zlt_Qlt in Hlt'. exact Hlt'.
    - intros H. assert (Hfl := Qfloor_le b).
      assert (Hk : (inject_Z k <= inject_Z (Qfloor b))%Q) by (rewrite <- Zle_Qle; lia).
      eapply Qle_trans; eassumption. }
  intros x. change (map ?f ?l) with (f <$> l). rewrite list_elem_of_fmap. split.
  - intros (k & -> & Hk). apply elem_of_arange in Hk. exists k.
    split; [reflexivity|]. split; [apply Ha|apply Hb]; lia.
  - intros (k & -> & H1 & H2). exists k. split; [reflexivity|].
    apply elem_of_arange. apply Ha in H1. apply Hb in H2. lia.
Qed.

(** X2: for a positive spacing, [create_grid] returns exactly the integer
    multiples of [dist] that lie in the half-open interval
    [(start - center, end - center]]. *)
Theorem create_grid_multiples (start end_ center dist : Q) :
  (0 < dist)%Q ->
  exists grid,
    create_grid start end_ center dist = Ok grid
    /\ forall x, x ∈ grid <->
         exists k : Z, x = (inject_Z k * dist)%Q
           /\ (start - center < inject_Z k * dist)%Q
           /\ (inject_Z k * dist <= end_ - center)%Q.
Proof. exact (create_grid_elems start end_ center dist). Qed.

Lemma create_grid_multiples_witness :
  (0 < 20)%Q
  /\ exists grid,
    create_grid 0 120 40 20 = Ok grid
    /\ forall x, x ∈ grid <->
         exists k : Z, x = (inject_Z k * 20)%Q
           /\ (0 - 40 < inject_Z k * 20)%Q
           /\ (inject_Z k * 20 <= 120 - 40)%Q.
Proof.
  split; [reflexivity|]. apply (create_grid_multiples 0 120 40 20). reflexivity.
Defined.

(** [np.argmin] returns the first position of a least value. *)
Lemma argmin_from_spec (pre t : list Q) (best_i : nat) (best : Q) :
  pre !! best_i = Some best ->
  (forall x, x ∈ pre -> (best <= x)%Q) ->
  (forall j w, j < best_i -> pre !! j = Some w -> (best < w)%Q) ->
  exists v, (pre ++ t) !! argmin_from best_i best (length pre) t = Some v
    /\ (forall x, x ∈ pre ++ t -> (v <= x)%Q)
    /\ (forall j w, j < argmin_from best_i best (length pre) t ->
          (pre ++ t) !! j = Some w -> (v < w)%Q).
Proof.
  revert pre best_i best. induction t as [|x t IH]; intros pre bi b Hb Hle Hlt.
  - simpl. rewrite app_nil_r. eauto.
  - cbn [argmin_from]. unfold Qltb.
    replace (pre ++ x :: t) with ((pre ++ [x]) ++ t) by (rewrite <- app_assoc; reflexivity).
    replace (S (length pre)) with (length (pre ++ [x])) by (rewrite length_app; simpl; lia).
    destruct (Qle_bool b x) eqn:E; cbn [negb].
    + apply Qle_bool_iff in E. apply IH.
      * apply lookup_app_l_Some, Hb.
      * intros y Hy. apply elem_of_app in Hy as [Hy|Hy]; [apply Hle, Hy|].
        apply list_elem_of_singleton in Hy. subst y. exact E.
      * intros j w Hj Hw. apply (Hlt j w Hj).
        rewrite lookup_app_l in Hw; [exact Hw|].
        apply lookup_lt_Some in Hb. lia.
    + apply Qle_bool_false in E.
      assert (Hx : (pre ++ [x]) !! length pre = Some x).
      { apply list_lookup_middle. reflexivity. }
      apply IH.
      * exact Hx.
      * intros y Hy. apply elem_of_app in Hy as [Hy|Hy].
        -- apply Qlt_le_weak. eapply Qlt_le_trans; [exact E|apply Hle, Hy].
        -- apply list_elem_of_singleton in Hy. subst y. apply Qle_refl.
      * intros j w Hj Hw. rewrite lookup_app_l in Hw by lia.
        eapply Qlt_le_trans; [exact E|]. apply Hle. eapply list_elem_of_lookup_2, Hw.
Qed.

Lemma argmin_spec (l : list Q) (i : nat) :
  argmin l = Ok i ->
  exists v, l !! i = Some v
    /\ (forall x, x ∈ l -> (v <= x)%Q)
    /\ (forall j w, j < i -> l !! j = Some w -> (v < w)%Q).
Proof.
  destruct l as [|x t]; [discriminate|]. simpl. intros H. injection H as <-.
  apply (argmin_from_spec [x] t 0 x).
  - reflexivity.
  - intros y Hy. apply list_elem_of_singleton in Hy. subst y. apply Qle_refl.
  - intros j w Hj. lia.
Qed.

Lemma center_idx_cases (peaks : list Q) (c tolerant : Q) :
  match peaks with
  | [] => get_center_peak_idx peaks c tolerant = Raise ValueError
  | _ =>
      exists ci p,
        peaks !! ci = Some p
        /\ (forall q, q ∈ peaks -> (Qabs (p - c) <= Qabs (q - c))%Q)
        /\ (forall j q, j < ci -> peaks !! j = Some q ->
              (Qabs (p - c) < Qabs (q - c))%Q)
        /\ get_center_peak_idx peaks c tolerant
           = Ok (if Qltb (p - c) tolerant then Z.of_nat ci else (-1)%Z)
  end.
Proof.
  destruct peaks as [|p0 rest]; [reflexivity|].
  set (peaks := p0 :: rest).
  destruct (argmin (map (fun p => Qabs (p - c)) peaks)) as [ci|e] eqn:Hci;
    [|discriminate Hci].
  destruct (argmin_spec _ _ Hci) as (v & Hv & Hmin & Hfirst).
  change (map ?f ?l) with (f <$> l) in Hv, Hmin, Hfirst.
  rewrite list_lookup_fmap in Hv.
  destruct (peaks !! ci) as [p|] eqn:Hp; [|discriminate Hv].
  cbn [fmap option_fmap option_map] in Hv. injection Hv as <-.
  exists ci, p. split; [exact Hp|]. split; [|split].
  - intros q Hq. apply Hmin. apply list_elem_of_fmap. eauto.
  - intros j q Hj Hq. apply (Hfirst j _ Hj).
    rewrite list_lookup_fmap, Hq. reflexivity.
  - unfold get_center_peak_idx. fold peaks. rewrite Hci, ret_bind.
    apply nth_exc_Ok in Hp. rewrite Hp, ret_bind.
    destruct (Qltb (p - c) tolerant); reflexivity.
Qed.

(** X3: on a non-empty peak list [get_center_peak_idx] picks the first peak
    [p] closest to the centre location; it returns its index when the
    signed difference [p - spec_center_loc] is below the tolerance and [-1]
    otherwise. On an empty list it raises [ValueError]. *)
Theorem get_center_peak_idx_spec (peaks : list Q) (c tolerant : Q) :
  match peaks with
  | [] => get_center_peak_idx peaks c tolerant = Raise ValueError
  | _ =>
      exists ci p,
        peaks !! ci = Some p
        /\ (forall q, q ∈ peaks -> (Qabs (p - c) <= Qabs (q - c))%Q)
        /\ (forall j q, j < ci -> peaks !! j = Some q ->
              (Qabs (p - c) < Qabs (q - c))%Q)
        /\ get_center_peak_idx peaks c tolerant
           = Ok (if Qltb (p - c) tolerant then Z.of_nat ci else (-1)%Z)
  end.
Proof. exact (center_idx_cases peaks c tolerant). Qed.

(** ** Members of the returned families *)

Lemma select_seq_sorted (m : list bool) (k : nat) :
  StronglySorted lt (select m (seq k (length m))).
Proof.
  revert k. induction m as [|b m IH]; intros k; simpl; [constructor|].
  destruct b; [|apply IH]. constructor; [apply IH|].
  rewrite Forall_forall. intros i Hi. apply elem_of_select_seq in Hi. lia.
Qed.

Lemma match_grid_members (cnd grid : list Q) (bound : Q) idx gidx :
  match_grid cnd grid bound = Ok (idx, gidx) ->
  StronglySorted lt idx /\ forall i, i ∈ idx -> i < length cnd.
Proof.
  unfold match_grid. destruct grid as [|g0 grid]; [discriminate|].
  intros H.
  apply bind_Ok in H as (close & Hclose & H).
  apply bind_Ok in H as (match_error & Herr & H).
  apply mret_Ok in H. injection H as <- <-.
  split; [apply select_seq_sorted|].
  intros i Hi. apply elem_of_where, lookup_lt_Some in Hi.
  rewrite length_map in Hi.
  apply mapM_Ok_length in Hclose, Herr.
  rewrite Herr, length_zip_with, Hclose in Hi.
  unfold distance_matrix in Hi. rewrite !length_map in Hi. lia.
Qed.

Section AnalyzeFamilies.
Variables (peaks : list nat) (center_nbr_dists : list Q).
Variables (center_peak : Q) (center_peak_i : Z).
Variables (grid_min_w grid_max_w tolerant abs_tolerant : Q).
Variable (allow_discontinue : Z).
Variable P : PeakAnalysisResult -> Prop.

(** Whatever holds of the match of every accepted hypothesis holds of every
    returned family. *)
Hypothesis P_accepted : forall j d grid idx gidx r,
  index center_nbr_dists j = Ok d ->
  (abs_tolerant < Qabs d)%Q ->
  create_grid grid_min_w grid_max_w center_peak (Qabs d) = Ok grid ->
  match_grid center_nbr_dists grid
    (Qmin (tolerant * Qabs d) abs_tolerant) = Ok (idx, gidx) ->
  1 < length (uni_gidx_of gidx) ->
  make_family center_nbr_dists grid (Qabs d) idx gidx = Ok r ->
  P r.

Lemma analyze_step_families (st st' : analyze_state) (j : Z) :
  analyze_step center_nbr_dists center_peak center_peak_i grid_min_w
    grid_max_w tolerant abs_tolerant allow_discontinue st j = Ok st' ->
  Forall P (snd st) -> Forall P (snd st').
Proof.
  unfold analyze_step. destruct st as [mask out]. simpl.
  intros H Hout.
  destruct (center_peak_i =? j)%Z; [apply mret_Ok in H; subst st'; exact Hout|].
  apply bind_Ok in H as (row & Hrow & H).
  apply bind_Ok in H as (seen & Hseen & H).
  destruct seen; [apply mret_Ok in H; subst st'; exact Hout|].
  apply bind_Ok in H as (d & Hd & H).
  destruct (Qle_bool (Qabs d) abs_tolerant) eqn:Hfar;
    [apply mret_Ok in H; subst st'; exact Hout|].
  apply bind_Ok in H as (grid & Hgrid & H).
  apply bind_Ok in H as ([idx gidx] & Hmatch & H).
  destruct (allowed_of (uni_gidx_of gidx) allow_discontinue
            && (1 <? length (uni_gidx_of gidx))) eqn:Hacc;
    [|apply mret_Ok in H; subst st'; exact Hout].
  apply bind_Ok in H as (mask' & Hmask & H).
  apply bind_Ok in H as (r & Hr & H).
  apply mret_Ok in H. subst st'. simpl.
  apply Forall_app. split; [exact Hout|]. constructor; [|constructor].
  apply andb_true_iff in Hacc as [_ Hlen]. apply Nat.ltb_lt in Hlen.
  apply (P_accepted j d grid idx gidx r Hd); try assumption.
  apply Qle_bool_false, Hfar.
Qed.

Lemma analyze_loop_families (js : list Z) (st st' : analyze_state) :
  analyze_loop center_nbr_dists center_peak center_peak_i grid_min_w
    grid_max_w tolerant abs_tolerant allow_discontinue st js = Ok st' ->
  Forall P (snd st) -> Forall P (snd st').
Proof.
  revert st. induction js as [|j js IH]; intros st H Hst; simpl in H.
  - apply mret_Ok in H. subst st'. exact Hst.
  - apply bind_Ok in H as (st1 & Hstep & H). eapply IH; [exact H|].
    eapply analyze_step_families; eassumption.
Qed.

Lemma analyze_families (out : list PeakAnalysisResult) :
  analyze_peaks_distance_cent peaks center_nbr_dists center_peak center_peak_i
    grid_min_w grid_max_w tolerant abs_tolerant allow_discontinue = Ok out ->
  Forall P out.
Proof.
  unfold analyze_peaks_distance_cent. intros H.
  apply bind_Ok in H as (js & Hjs & H).
  apply bind_Ok in H as (st & Hloop & H).
  apply mret_Ok in H. subst out.
  eapply analyze_loop_families; [exact Hloop|]. constructor.
Qed.
End AnalyzeFamilies.

Lemma sorted_distinct_length (l u : list Z) :
  sorted_distinct l u -> length u <= length l.
Proof.
  intros [Hs Hel]. apply submseteq_length, NoDup_submseteq.
  - clear Hel. induction Hs as [|x u Hs IH Hx]; constructor; [|exact IH].
    intros Hin. rewrite Forall_forall in Hx. specialize (Hx x Hin). lia.
  - intros x Hx. apply Hel, Hx.
Qed.

Lemma accepted_family_size (center_nbr_dists : list Q)
    (center_peak grid_min_w grid_max_w tolerant abs_tolerant : Q)
    (allow_discontinue : Z) (r : PeakAnalysisResult) :
  accepted_family center_nbr_dists center_peak grid_min_w grid_max_w tolerant
    abs_tolerant allow_discontinue r ->
  2 <= length (peaks_family r).
Proof.
  intros (j & d & grid & gidx & u & _ & _ & _ & _ & Hlen & Hu & H2 & _).
  apply sorted_distinct_length in Hu. rewrite length_map in Hu. lia.
Qed.

Lemma analyze_members_in_range (peaks : list nat) (center_nbr_dists : list Q)
    (center_peak : Q) (center_peak_i : Z)
    (grid_min_w grid_max_w tolerant abs_tolerant : Q) (allow_discontinue : Z)
    (out : list PeakAnalysisResult) :
  analyze_peaks_distance_cent peaks center_nbr_dists center_peak center_peak_i
    grid_min_w grid_max_w tolerant abs_tolerant allow_discontinue = Ok out ->
  Forall (fun r => StronglySorted lt (peaks_family r)
                   /\ (forall i, i ∈ peaks_family r -> i < length center_nbr_dists)
                   /\ 2 <= length (peaks_family r)) out.
Proof.
  intros H.
  assert (H1 : Forall (fun r => StronglySorted lt (peaks_family r)
                   /\ (forall i, i ∈ peaks_family r -> i < length center_nbr_dists)) out).
  { eapply analyze_families; [|exact H].
    intros j d grid idx gidx r _ _ _ Hmatch _ Hr.
    apply make_family_peaks in Hr. rewrite Hr.
    eapply match_grid_members, Hmatch. }
  assert (H2 : Forall (accepted_family center_nbr_dists center_peak grid_min_w
                         grid_max_w tolerant abs_tolerant allow_discontinue) out).
  { clear H1. revert H. unfold analyze_peaks_distance_cent. intros H.
    apply bind_Ok in H as (js & Hjs & H).
    apply bind_Ok in H as (st & Hloop & H).
    apply mret_Ok in H. subst out.
    eapply analyze_loop_accepted; [exact Hloop|]. constructor. }
  rewrite Forall_forall in *. intros r Hr.
  destruct (H1 r Hr) as [Ha Hb]. split; [exact Ha|]. split; [exact Hb|].
  eapply accepted_family_size, H2, Hr.
Qed.

(** X4: every family returned by [analyze_peaks_distance_cent] has at least
    two members, listed in strictly increasing order, each a valid position
    of [center_nbr_dists]. *)
Theorem analyze_family_members (peaks : list nat) (center_nbr_dists : list Q)
    (center_peak : Q) (center_peak_i : Z)
    (grid_min_w grid_max_w tolerant abs_tolerant : Q) (allow_discontinue : Z)
    (out : list PeakAnalysisResult) :
  analyze_peaks_distance_cent peaks center_nbr_dists center_peak center_peak_i
    grid_min_w grid_max_w tolerant abs_tolerant allow_discontinue = Ok out ->
  Forall (fun r => StronglySorted lt (peaks_family r)
                   /\ (forall i, i ∈ peaks_family r -> i < length center_nbr_dists)
                   /\ 2 <= length (peaks_family r)) out.
Proof.
  exact (analyze_members_in_range peaks center_nbr_dists center_peak
           center_peak_i grid_min_w grid_max_w tolerant abs_tolerant
           allow_discontinue out).
Qed.

(** The theorem above on a centre row with five peaks. *)
Lemma analyze_family_members_witness :
  exists out,
    analyze_peaks_distance_cent [5; 15; 25; 35; 45] [20; 10; 0; 10; 20]%Q 25 2
      0 50 (1 # 100) 5 1 = Ok out
    /\ length out = 1
    /\ Forall (fun r => StronglySorted lt (peaks_family r)
                   /\ (forall i, i ∈ peaks_family r -> i < 5)
                   /\ 2 <= length (peaks_family r)) out.
Proof.
  eexists. split; [vm_compute; reflexivity|]. split; [reflexivity|].
  apply (analyze_family_members [5; 15; 25; 35; 45] [20; 10; 0; 10; 20]%Q 25 2
           0 50 (1 # 100) 5 1).
  vm_compute. reflexivity.
Defined.

Lemma negate_tril_row_length (m : list (list Q)) (n : nat) :
  Forall (fun row => length row = n) m ->
  Forall (fun row => length row = n) (negate_tril m).
Proof.
  intros H. rewrite Forall_forall in *. intros row Hrow.
  apply list_elem_of_lookup in Hrow as [i Hi].
  unfold negate_tril in Hi. rewrite list_lookup_imap in Hi.
  destruct (m !! i) as [row0|] eqn:Hm; [|discriminate].
  simpl in Hi. injection Hi as <-. rewrite length_imap.
  apply H. eapply list_elem_of_lookup_2, Hm.
Qed.

Lemma distance_matrix_row_length (xs ys : list Q) :
  Forall (fun row => length row = length ys) (distance_matrix xs ys).
Proof.
  rewrite Forall_forall. intros row Hrow. unfold distance_matrix in Hrow.
  change (map ?f ?l) with (f <$> l) in Hrow.
  apply list_elem_of_fmap in Hrow as (x & -> & _). apply length_map.
Qed.

Lemma index_elem {A} (l : list A) (i : Z) (x : A) : index l i = Ok x -> x ∈ l.
Proof.
  unfold index. destruct (_ && _); [|discriminate].
  destruct (l !! _) eqn:E; [|discriminate]. intros H. injection H as <-.
  eapply list_elem_of_lookup_2, E.
Qed.

Lemma spectrum_center_row_length (self : Spectrum.t) (peaks : list nat)
    (m : list (list Q)) (i : Z) (row : list Q) :
  Spectrum.consumed_interdist self peaks = Ok m ->
  index m i = Ok row -> length row = length peaks.
Proof.
  unfold Spectrum.consumed_interdist, Spectrum.get_peaks_distance.
  intros H Hrow.
  apply bind_Ok in H as (d0 & Hd0 & H).
  apply bind_Ok in Hd0 as (pw & Hpw & Hd0).
  apply mret_Ok in Hd0. subst d0. simpl in H. apply mret_Ok in H. subst m.
  apply index_elem in Hrow.
  pose proof (negate_tril_row_length _ _
                (negate_tril_row_length _ _ (distance_matrix_row_length pw pw))) as Hall.
  rewrite Forall_forall in Hall. rewrite (Hall row Hrow).
  apply (mapM_Ok_length _ _ _ Hpw).
Qed.

(** The families of the per-spectrum path index the peak list. *)
Lemma spectrum_analyze_in_range (self : Spectrum.t) (peaks : list nat)
    (tolerant abs_tolerant : Q) (allow_discontinue : Z)
    (out : list PeakAnalysisResult) :
  Spectrum.analyze_peaks_distance_cent self peaks tolerant abs_tolerant
    allow_discontinue = Ok out ->
  forall r i, r ∈ out -> i ∈ peaks_family r -> i < length peaks.
Proof.
  unfold Spectrum.analyze_peaks_distance_cent. intros H.
  apply bind_Ok in H as (gmax & _ & H).
  apply bind_Ok in H as (m & Hm & H).
  apply bind_Ok in H as (ci & _ & H).
  destruct (ci =? -1)%Z.
  { apply mret_Ok in H. subst out. intros r i Hr. apply elem_of_nil in Hr. contradiction. }
  apply bind_Ok in H as (cp & _ & H).
  apply bind_Ok in H as (row & Hrow & H).
  apply analyze_members_in_range in H. rewrite Forall_forall in H.
  intros r i Hr Hi. destruct (H r Hr) as (_ & Hlt & _).
  rewrite <- (spectrum_center_row_length self peaks m ci row Hm Hrow).
  apply Hlt, Hi.
Qed.

(** The partition computed by the resolver, for families that index the
    peak list. *)
Lemma resolver_partition (ana_res : list PeakAnalysisResult) (peaks : list nat) :
  (forall r i, r ∈ ana_res -> i ∈ peaks_family r -> i < length peaks) ->
  exists accepted leftover,
    Spectrum.get_peaks_group ana_res peaks true
      = Ok (accepted ++ [(leftover, Finite (-1))])
    /\ (forall i, i < length peaks <->
          i ∈ leftover \/ exists g, g ∈ accepted /\ i ∈ fst g)
    /\ (forall a b ga gb, a <> b ->
          accepted !! a = Some ga -> accepted !! b = Some gb ->
          forall i, i ∈ fst ga -> i ∉ fst gb)
    /\ (forall i, i ∈ leftover <->
          i < length peaks /\ forall g, g ∈ accepted -> i ∉ fst g).
Proof.
  intros Hrange. unfold Spectrum.get_peaks_group.
  set (fams := map (fun res => (peaks_family res, avg_dist res)) ana_res).
  set (n := length peaks).
  assert (Hfams : forall g, g ∈ Spectrum.sorted_by_dist fams ->
            exists r, r ∈ ana_res /\ g = (peaks_family r, avg_dist r)).
  { intros g Hg. rewrite sorted_by_dist_perm in Hg.
    apply list_elem_of_fmap in Hg as (r & -> & Hr). eauto. }
  destruct (group_loop_inv n (Spectrum.sorted_by_dist fams) []
              ([], replicate n false)) as (st & Hloop & Hinv).
  { split; [|split; [|split; [|split]]]; simpl.
    - apply length_replicate.
    - intros i. split.
      + intros H. apply lookup_replicate in H as [H _]. discriminate H.
      + intros (g & Hg & _). apply elem_of_nil in Hg. contradiction.
    - intros a b ga gb _ Ha. discriminate Ha.
    - intros g Hg. apply elem_of_nil in Hg. contradiction.
    - constructor. }
  { simpl. apply sorted_by_dist_sorted. }
  { intros g i Hg Hi. destruct (Hfams g Hg) as (r & Hr & ->).
    apply (Hrange r i Hr Hi). }
  rewrite Hloop. simpl.
  destruct st as [out selected].
  destruct Hinv as (Hlen & Hsel & Hdisj & Hmem & Hsorted). simpl in *.
  exists out, (where_ (map negb selected)).
  assert (Hleft : forall i, i ∈ where_ (map negb selected) <->
            selected !! i = Some false).
  { intros i. rewrite elem_of_where, list_lookup_fmap.
    destruct (selected !! i) as [[|]|]; simpl; split; congruence. }
  split; [reflexivity|].
  split; [|split; [exact Hdisj|]].
  - intros i. rewrite Hleft, <- Hsel. split.
    + intros Hi. destruct (lookup_lt_is_Some_2 selected i) as [[|] Hb];
        [lia|right; exact Hb|left; exact Hb].
    + intros [H|H]; apply lookup_lt_Some in H; lia.
  - intros i. rewrite Hleft. split.
    + intros Hi. split; [apply lookup_lt_Some in Hi; lia|].
      intros g Hg Hig.
      assert (Ht : selected !! i = Some true) by (apply Hsel; eauto).
      congruence.
    + intros [Hi Hnone].
      destruct (lookup_lt_is_Some_2 selected i) as [[|] Hb]; [lia| |exact Hb].
      apply Hsel in Hb as (g & Hg & Hig). exfalso. exact (Hnone g Hg Hig).
Qed.

(** X5: the resolver accepts what the per-spectrum engine returns: on the
    families of [Spectrum.analyze_peaks_distance_cent], [get_peaks_group]
    with [exclusive=True] does not raise and partitions the peak indices
    into pairwise disjoint accepted groups and the leftover group. *)
Theorem spectrum_families_resolve (self : Spectrum.t) (peaks : list nat)
    (tolerant abs_tolerant : Q) (allow_discontinue : Z)
    (out : list PeakAnalysisResult) :
  Spectrum.analyze_peaks_distance_cent self peaks tolerant abs_tolerant
    allow_discontinue = Ok out ->
  exists accepted leftover,
    Spectrum.get_peaks_group out peaks true
      = Ok (accepted ++ [(leftover, Finite (-1))])
    /\ (forall i, i < length peaks <->
          i ∈ leftover \/ exists g, g ∈ accepted /\ i ∈ fst g)
    /\ (forall a b ga gb, a <> b ->
          accepted !! a = Some ga -> accepted !! b = Some gb ->
          forall i, i ∈ fst ga -> i ∉ fst gb)
    /\ (forall i, i ∈ leftover <->
          i < length peaks /\ forall g, g ∈ accepted -> i ∉ fst g).
Proof.
  intros H. apply resolver_partition.
  exact (spectrum_analyze_in_range self peaks tolerant abs_tolerant
           allow_discontinue out H).
Qed.

Lemma spectrum_families_resolve_witness :
  exists out,
    Spectrum.analyze_peaks_distance_cent scenario_spectrum [40; 50; 60; 70; 80]
      (1 # 100) 5 1 = Ok out
    /\ length out = 1
    /\ exists accepted leftover,
    Spectrum.get_peaks_group out [40; 50; 60; 70; 80] true
      = Ok (accepted ++ [(leftover, Finite (-1))])
    /\ (forall i, i < 5 <->
          i ∈ leftover \/ exists g, g ∈ accepted /\ i ∈ fst g)
    /\ (forall a b ga gb, a <> b ->
          accepted !! a = Some ga -> accepted !! b = Some gb ->
          forall i, i ∈ fst ga -> i ∉ fst gb)
    /\ (forall i, i ∈ leftover <->
          i < 5 /\ forall g, g ∈ accepted -> i ∉ fst g).
Proof.
  eexists. split; [vm_compute; reflexivity|]. split; [reflexivity|].
  apply (spectrum_families_resolve scenario_spectrum [40; 50; 60; 70; 80]
           (1 # 100) 5 1).
  vm_compute. reflexivity.
Defined.

(** ** Sums of rationals *)

Lemma np_sum_acc (l : list Q) (a : Q) : (fold_left Qplus l a == a + np_sum l)%Q.
Proof.
  unfold np_sum. revert a. induction l as [|x l IH]; intros a; simpl.
  - ring.
  - rewrite (IH (a + x)%Q), (IH (0 + x)%Q). ring.
Qed.

Lemma np_sum_cons (x : Q) (l : list Q) : (np_sum (x :: l) == x + np_sum l)%Q.
Proof. unfold np_sum at 1. simpl. rewrite np_sum_acc. ring. Qed.

Lemma np_sum_nil : (np_sum [] == 0)%Q.
Proof. reflexivity. Qed.

(** ** The centre peak in the returned families *)

Lemma index_nonneg {A} (l : list A) (i : Z) (x : A) :
  (0 <= i)%Z -> index l i = Ok x -> l !! Z.to_nat i = Some x.
Proof.
  intros Hi. unfold index.
  destruct (Z.ltb_spec i 0); [lia|].
  destruct (_ && _); [|discriminate].
  destruct (l !! Z.to_nat i); [|discriminate]. congruence.
Qed.

(** A peak whose distance from the centre is a grid point is matched. *)
Lemma match_grid_on_grid (cnd grid : list Q) (bound : Q) (c : nat) (d0 x : Q)
    idx gidx :
  cnd !! c = Some d0 -> x ∈ grid -> (d0 == x)%Q -> (0 < bound)%Q ->
  match_grid cnd grid bound = Ok (idx, gidx) -> c ∈ idx.
Proof.
  intros Hc Hx Hd0 Hb. unfold match_grid.
  destruct grid as [|g0 grid0] eqn:Eg; [apply elem_of_nil in Hx; contradiction|].
  rewrite <- Eg in *. clear Eg.
  intros H.
  apply bind_Ok in H as (close & Hclose & H).
  apply bind_Ok in H as (match_error & Herr & H).
  apply mret_Ok in H. injection H as <- _.
  apply elem_of_where.
  set (row := map Qabs (map (fun y => Qabs (d0 - y)) grid)).
  assert (Hrow : map (map Qabs) (distance_matrix cnd grid) !! c = Some row).
  { unfold distance_matrix.
    change (map ?f ?l) with (f <$> l). rewrite !list_lookup_fmap, Hc. reflexivity. }
  destruct (mapM_Ok_lookup _ _ _ _ _ Hclose Hrow) as (k & Hk & Hamin).
  destruct (argmin_spec _ _ Hamin) as (v & Hv & Hmin & _).
  assert (Hzip : zip (map (map Qabs) (distance_matrix cnd grid)) close !! c
                 = Some (row, k)).
  { apply lookup_zip_with_Some. exists row, k. auto. }
  destruct (mapM_Ok_lookup _ _ _ _ _ Herr Hzip) as (e & He & Hnth).
  simpl in Hnth. apply nth_exc_Ok in Hnth. rewrite Hv in Hnth. injection Hnth as <-.
  change (map ?f ?l) with (f <$> l). rewrite list_lookup_fmap, He. simpl.
  f_equal. apply Qltb_lt.
  assert (Hv0 : (v <= 0)%Q).
  { assert (Hin : Qabs (Qabs (d0 - x)) ∈ row).
    { unfold row. change (map ?f ?l) with (f <$> l).
      apply list_elem_of_fmap. exists (Qabs (d0 - x)). split; [reflexivity|].
      apply list_elem_of_fmap. exists x. split; [reflexivity|exact Hx]. }
    apply Hmin in Hin. eapply Qle_trans; [exact Hin|].
    assert (Hz : (d0 - x == 0)%Q) by (rewrite Hd0; ring).
    rewrite Hz. apply Qle_refl. }
  assert (Hv1 : (0 <= v)%Q).
  { apply list_elem_of_lookup_2 in Hv. unfold row in Hv.
    change (map ?f ?l) with (f <$> l) in Hv.
    apply list_elem_of_fmap in Hv as (y & -> & _). apply Qabs_nonneg. }
  assert (Hz : (v == 0)%Q) by (apply Qle_antisym; assumption).
  rewrite Hz. exact Hb.
Qed.

Lemma analyze_center_member (peaks : list nat) (center_nbr_dists : list Q)
    (center_peak : Q) (center_peak_i : Z)
    (grid_min_w grid_max_w tolerant abs_tolerant : Q) (allow_discontinue : Z)
    (d0 : Q) (out : list PeakAnalysisResult) :
  (0 <= center_peak_i)%Z ->
  index center_nbr_dists center_peak_i = Ok d0 -> (d0 == 0)%Q ->
  (grid_min_w < center_peak)%Q -> (center_peak <= grid_max_w)%Q ->
  (0 < tolerant)%Q -> (0 < abs_tolerant)%Q ->
  analyze_peaks_distance_cent peaks center_nbr_dists center_peak center_peak_i
    grid_min_w grid_max_w tolerant abs_tolerant allow_discontinue = Ok out ->
  Forall (fun r => Z.to_nat center_peak_i ∈ peaks_family r) out.
Proof.
  intros Hci Hd0 Hz Hmin Hmax Htol Hatol H.
  eapply analyze_families; [|exact H].
  intros j d grid idx gidx r Hd Hfar Hgrid Hmatch _ Hr.
  apply make_family_peaks in Hr. rewrite Hr.
  assert (Hdist : (0 < Qabs d)%Q) by (eapply Qlt_trans; eassumption).
  destruct (create_grid_elems grid_min_w grid_max_w center_peak (Qabs d) Hdist)
    as (grid' & Hgrid' & Hel).
  rewrite Hgrid in Hgrid'. injection Hgrid' as <-.
  eapply (match_grid_on_grid center_nbr_dists grid
            (Qmin (tolerant * Qabs d) abs_tolerant) (Z.to_nat center_peak_i)
            d0 (inject_Z 0 * Qabs d)%Q).
  - apply index_nonneg; assumption.
  - apply Hel. exists 0%Z. split; [reflexivity|].
    assert (E : (inject_Z 0 * Qabs d == 0)%Q) by ring.
    rewrite E. split; lra.
  - rewrite Hz. ring.
  - apply Q.min_glb_lt; [|exact Hatol].
    apply Qmult_lt_0_compat; assumption.
  - exact Hmatch.
Qed.

(** X7: the centre peak belongs to every family the engine returns: when
    the centre index is a valid non-negative position whose entry in
    [center_nbr_dists] is zero, the centre lies inside the window
    [(grid_min_w, grid_max_w]] and both tolerances are positive, every
    returned [peaks_family] contains [center_peak_i]. *)
Theorem analyze_families_contain_center (peaks : list nat)
    (center_nbr_dists : list Q) (center_peak : Q) (center_peak_i : Z)
    (grid_min_w grid_max_w tolerant abs_tolerant : Q) (allow_discontinue : Z)
    (d0 : Q) (out : list PeakAnalysisResult) :
  (0 <= center_peak_i)%Z ->
  index center_nbr_dists center_peak_i = Ok d0 -> (d0 == 0)%Q ->
  (grid_min_w < center_peak)%Q -> (center_peak <= grid_max_w)%Q ->
  (0 < tolerant)%Q -> (0 < abs_tolerant)%Q ->
  analyze_peaks_distance_cent peaks center_nbr_dists center_peak center_peak_i
    grid_min_w grid_max_w tolerant abs_tolerant allow_discontinue = Ok out ->
  Forall (fun r => Z.to_nat center_peak_i ∈ peaks_family r) out.
Proof.
  exact (analyze_center_member peaks center_nbr_dists center_peak center_peak_i
           grid_min_w grid_max_w tolerant abs_tolerant allow_discontinue d0 out).
Qed.

(** The theorem above on five peaks around the centre at 25. *)
Lemma analyze_families_contain_center_witness :
  exists out,
    analyze_peaks_distance_cent [5; 15; 25; 35; 47] [-20; -10; 0; 10; 22]%Q 25 2
      0 50 (1 # 100) 5 1 = Ok out
    /\ length out = 2
    /\ Forall (fun r => Z.to_nat 2 ∈ peaks_family r) out.
Proof.
  eexists. split; [vm_compute; reflexivity|]. split; [reflexivity|].
  apply (analyze_families_contain_center [5; 15; 25; 35; 47]
           [-20; -10; 0; 10; 22]%Q 25 2 0 50 (1 # 100) 5 1 0).
  - lia.
  - reflexivity.
  - reflexivity.
  - reflexivity.
  - discriminate.
  - reflexivity.
  - reflexivity.
  - vm_compute. reflexivity.
Defined.

(** ** The resolver on families that do not index the peak list *)

Lemma take_idx_raises {A} (l : list A) (idx : list nat) (e : exn) :
  take_idx l idx = Raise e -> e = IndexError.
Proof.
  unfold take_idx. induction idx as [|a idx IH]; [discriminate|].
  change (mapM (nth_exc l) (a :: idx))
    with (y ← nth_exc l a; k ← mapM (nth_exc l) idx; mret (y :: k)).
  destruct (nth_exc l a) as [x|e1] eqn:E1.
  - rewrite ret_bind. destruct (mapM (nth_exc l) idx) as [k|e2].
    + discriminate.
    + intros H. injection H as <-. apply IH. reflexivity.
  - intros H. injection H as <-. unfold nth_exc in E1.
    destruct (l !! a); congruence.
Qed.

Lemma take_idx_out_of_range {A} (l : list A) (idx : list nat) (i : nat) :
  i ∈ idx -> length l <= i -> take_idx l idx = Raise IndexError.
Proof.
  intros Hi Hlen.
  destruct (take_idx l idx) as [k|e] eqn:E.
  - apply list_elem_of_lookup in Hi as [j Hj].
    destruct (take_idx_lookup _ _ _ _ _ E Hj) as (x & _ & Hx).
    apply lookup_lt_Some in Hx. lia.
  - f_equal. eapply take_idx_raises, E.
Qed.

Lemma set_true_out_of_range (fam : list nat) (sel : list bool) (i : nat) :
  i ∈ fam -> length sel <= i -> Spectrum.set_true fam sel = Raise IndexError.
Proof.
  intros Hi Hlen. unfold Spectrum.set_true.
  destruct (forallb _ fam) eqn:E; [|reflexivity].
  rewrite forallb_forall in E. apply list_elem_of_In in Hi.
  apply E, Nat.ltb_lt in Hi. lia.
Qed.

Lemma group_step_out_of_range (exclusive : bool) (out : list (list nat * spacing))
    (sel : list bool) (fam : list nat) (q : Q) (i : nat) :
  i ∈ fam -> length sel <= i ->
  Spectrum.group_step exclusive (out, sel) (fam, Finite q) = Raise IndexError.
Proof.
  intros Hi Hlen. unfold Spectrum.group_step. cbn [Spectrum.lt_inf].
  destruct exclusive; cbn [negb].
  - rewrite (take_idx_out_of_range sel fam i Hi Hlen). reflexivity.
  - rewrite ret_bind, (set_true_out_of_range fam sel i Hi Hlen). reflexivity.
Qed.

Lemma group_step_cases (exclusive : bool) (st : Spectrum.group_state)
    (fd : list nat * spacing) :
  (exists st', Spectrum.group_step exclusive st fd = Ok st'
     /\ length (snd st') = length (snd st))
  \/ Spectrum.group_step exclusive st fd = Raise IndexError.
Proof.
  destruct st as [out sel]. destruct fd as [fam [q|]]; cbn [Spectrum.group_step Spectrum.lt_inf];
    [|left; eexists; split; reflexivity].
  assert (Hset : (exists st', (selected' ← Spectrum.set_true fam sel;
                               mret (out ++ [(fam, Finite q)], selected'))
                              = Ok st' /\ length (snd st') = length (snd (out, sel)))
                 \/ (selected' ← Spectrum.set_true fam sel;
                     mret (out ++ [(fam, Finite q)], selected')
                     : exc Spectrum.group_state) = Raise IndexError).
  { unfold Spectrum.set_true. destruct (forallb _ fam); [left|right; reflexivity].
    eexists. split; [reflexivity|]. simpl. apply foldr_set_true_length. }
  destruct exclusive; cbn [negb].
  - destruct (take_idx sel fam) as [k|e] eqn:E.
    + rewrite !ret_bind. destruct (forallb negb k); [exact Hset|].
      left. eexists. split; reflexivity.
    + right. apply take_idx_raises in E. subst e. reflexivity.
  - rewrite ret_bind. exact Hset.
Qed.

Lemma group_step_in_range (exclusive : bool) (st : Spectrum.group_state)
    (fd : list nat * spacing) :
  (snd fd <> Infinity -> forall i, i ∈ fst fd -> i < length (snd st)) ->
  exists st', Spectrum.group_step exclusive st fd = Ok st'
    /\ length (snd st') = length (snd st).
Proof.
  destruct st as [out sel]. destruct fd as [fam [q|]];
    cbn [Spectrum.group_step Spectrum.lt_inf fst snd]; intros Hr;
    [|eexists; split; reflexivity].
  assert (Hin : forall i, i ∈ fam -> i < length sel) by (apply Hr; discriminate).
  rewrite (set_true_Ok fam sel Hin).
  destruct exclusive; cbn [negb].
  - destruct (take_idx_total sel fam Hin) as [k Hk]. rewrite Hk, !ret_bind.
    destruct (forallb negb k); eexists; (split; [reflexivity|]); simpl;
      [apply foldr_set_true_length|reflexivity].
  - rewrite !ret_bind. eexists. split; [reflexivity|]. simpl.
    apply foldr_set_true_length.
Qed.

Lemma group_loop_out_of_range (exclusive : bool) (l : list (list nat * spacing))
    (st : Spectrum.group_state) (g : list nat * spacing) (i : nat) :
  g ∈ l -> snd g <> Infinity -> i ∈ fst g -> length (snd st) <= i ->
  Spectrum.group_loop exclusive st l = Raise IndexError.
Proof.
  revert st. induction l as [|fd l IH]; intros st Hg Hfin Hi Hlen.
  - apply elem_of_nil in Hg. contradiction.
  - cbn [Spectrum.group_loop]. apply elem_of_cons in Hg as [<-|Hg].
    + destruct st as [out sel]. destruct g as [fam [q|]]; [|contradiction].
      simpl in Hi, Hlen.
      rewrite (group_step_out_of_range exclusive out sel fam q i Hi Hlen).
      reflexivity.
    + destruct (group_step_cases exclusive st fd) as [(st' & Hst' & Hl)|Hraise].
      * rewrite Hst', ret_bind. apply IH; try assumption. lia.
      * rewrite Hraise. reflexivity.
Qed.

Lemma group_loop_in_range (exclusive : bool) (l : list (list nat * spacing))
    (st : Spectrum.group_state) :
  (forall g i, g ∈ l -> snd g <> Infinity -> i ∈ fst g -> i < length (snd st)) ->
  exists st', Spectrum.group_loop exclusive st l = Ok st'.
Proof.
  revert st. induction l as [|fd l IH]; intros st Hr; cbn [Spectrum.group_loop].
  - eexists. reflexivity.
  - destruct (group_step_in_range exclusive st fd) as (st' & Hst' & Hl).
    { intros Hfin i Hi. apply (Hr fd i); [apply elem_of_cons; left; reflexivity| |];
        assumption. }
    rewrite Hst', ret_bind. apply IH. intros g i Hg Hfin Hi. rewrite Hl.
    apply (Hr g i); [apply elem_of_cons; right|..]; assumption.
Qed.

(** X8: for either value of [exclusive], [get_peaks_group] raises
    [IndexError] as soon as one family with a finite [avg_dist] names an
    index outside the peak list, and returns when every such family indexes
    the peak list; the members of families with [avg_dist = inf] are never
    used as indices. *)
Theorem get_peaks_group_index_error (ana_res : list PeakAnalysisResult)
    (peaks : list nat) (exclusive : bool) :
  ((exists r i, r ∈ ana_res /\ avg_dist r <> Infinity
                /\ i ∈ peaks_family r /\ length peaks <= i) ->
   Spectrum.get_peaks_group ana_res peaks exclusive = Raise IndexError)
  /\ ((forall r i, r ∈ ana_res -> avg_dist r <> Infinity ->
                   i ∈ peaks_family r -> i < length peaks) ->
      exists groups, Spectrum.get_peaks_group ana_res peaks exclusive = Ok groups).
Proof.
  unfold Spectrum.get_peaks_group. split.
  - intros (r & i & Hr & Hfin & Hi & Hlen).
    rewrite (group_loop_out_of_range exclusive _ _ (peaks_family r, avg_dist r) i);
      [reflexivity| | | |].
    + rewrite sorted_by_dist_perm. apply list_elem_of_fmap. exists r. auto.
    + exact Hfin.
    + exact Hi.
    + simpl. rewrite length_replicate. exact Hlen.
  - intros Hr.
    destruct (group_loop_in_range exclusive
                (Spectrum.sorted_by_dist
                   (map (fun res => (peaks_family res, avg_dist res)) ana_res))
                ([], replicate (length peaks) false)) as [st Hst].
    { intros g i Hg Hfin Hi. simpl. rewrite length_replicate.
      rewrite sorted_by_dist_perm in Hg.
      apply list_elem_of_fmap in Hg as (r & -> & Hin). eapply Hr; eassumption. }
    rewrite Hst, ret_bind. eexists. reflexivity.
Qed.

Lemma group_loop_nonexclusive (l : list (list nat * spacing))
    (out : list (list nat * spacing)) (sel : list bool) :
  (forall g i, g ∈ l -> snd g <> Infinity -> i ∈ fst g -> i < length sel) ->
  exists sel',
    Spectrum.group_loop false (out, sel) l
      = Ok (out ++ List.filter (fun g => Spectrum.lt_inf (snd g)) l, sel')
    /\ length sel' = length sel
    /\ forall i, sel' !! i = Some true <->
         sel !! i = Some true
         \/ exists g, g ∈ l /\ snd g <> Infinity /\ i ∈ fst g.
Proof.
  revert out sel. induction l as [|[fam d] l IH]; intros out sel Hr;
    cbn [Spectrum.group_loop List.filter].
  - exists sel. rewrite app_nil_r. split; [reflexivity|]. split; [reflexivity|].
    intros i. split; [auto|]. intros [H|(g & Hg & _)]; [exact H|].
    apply elem_of_nil in Hg. contradiction.
  - destruct d as [q|]; cbn [Spectrum.group_step Spectrum.lt_inf snd negb].
    + assert (Hin : forall i, i ∈ fam -> i < length sel).
      { intros i Hi. apply (Hr (fam, Finite q) i);
          [apply elem_of_cons; left; reflexivity|discriminate|exact Hi]. }
      rewrite !ret_bind, (set_true_Ok fam sel Hin), !ret_bind.
      destruct (IH (out ++ [(fam, Finite q)])
                  (foldr (fun i s => <[i := true]> s) sel fam))
        as (sel' & Hloop & Hlen & Hsel).
      { intros g i Hg Hfin Hi. rewrite foldr_set_true_length.
        apply (Hr g i); [apply elem_of_cons; right|..]; assumption. }
      exists sel'. rewrite Hloop, <- app_assoc. split; [reflexivity|].
      split; [rewrite Hlen; apply foldr_set_true_length|].
      intros i. rewrite Hsel, foldr_set_true_lookup. split.
      * intros [[[Hi Hlt]|H]|(g & Hg & Hfin & Hi)].
        -- right. exists (fam, Finite q). split; [apply elem_of_cons; left; reflexivity|].
           split; [discriminate|exact Hi].
        -- left. exact H.
        -- right. exists g. split; [apply elem_of_cons; right; exact Hg|]. auto.
      * intros [H|(g & Hg & Hfin & Hi)]; [left; right; exact H|].
        apply elem_of_cons in Hg as [->|Hg].
        -- left. left. split; [exact Hi|apply Hin, Hi].
        -- right. exists g. auto.
    + rewrite ret_bind.
      destruct (IH out sel) as (sel' & Hloop & Hlen & Hsel).
      { intros g i Hg Hfin Hi.
        apply (Hr g i); [apply elem_of_cons; right|..]; assumption. }
      exists sel'. split; [exact Hloop|]. split; [exact Hlen|].
      intros i. rewrite Hsel. split.
      * intros [H|(g & Hg & Hfin & Hi)]; [left; exact H|].
        right. exists g. split; [apply elem_of_cons; right; exact Hg|]. auto.
      * intros [H|(g & Hg & Hfin & Hi)]; [left; exact H|].
        apply elem_of_cons in Hg as [->|Hg]; [contradiction|].
        right. exists g. auto.
Qed.

(** X9: with [exclusive=False] nothing is filtered but the infinite
    spacings: [get_peaks_group] returns every family of finite [avg_dist],
    overlapping or not, in the order of the stable sort by [avg_dist],
    followed by the leftover group, which holds exactly the peak indices
    that no finite family names. *)
Theorem get_peaks_group_nonexclusive (ana_res : list PeakAnalysisResult)
    (peaks : list nat) :
  (forall r i, r ∈ ana_res -> avg_dist r <> Infinity ->
               i ∈ peaks_family r -> i < length peaks) ->
  exists leftover,
    Spectrum.get_peaks_group ana_res peaks false
    = Ok (List.filter (fun g => Spectrum.lt_inf (snd g))
            (Spectrum.sorted_by_dist
               (map (fun res => (peaks_family res, avg_dist res)) ana_res))
          ++ [(leftover, Finite (-1))])
    /\ forall i, i ∈ leftover <->
         i < length peaks
         /\ forall r, r ∈ ana_res -> avg_dist r <> Infinity -> i ∉ peaks_family r.
Proof.
  intros Hr. unfold Spectrum.get_peaks_group.
  set (fams := Spectrum.sorted_by_dist
                 (map (fun res => (peaks_family res, avg_dist res)) ana_res)).
  destruct (group_loop_nonexclusive fams [] (replicate (length peaks) false))
    as (sel' & Hloop & Hlen & Hsel).
  { intros g i Hg Hfin Hi. rewrite length_replicate.
    unfold fams in Hg. rewrite sorted_by_dist_perm in Hg.
    apply list_elem_of_fmap in Hg as (r & -> & Hin). eapply Hr; eassumption. }
  rewrite Hloop, ret_bind. cbn [fst snd app].
  eexists. split; [reflexivity|].
  rewrite length_replicate in Hlen.
  intros i. rewrite elem_of_where, list_lookup_fmap. split.
  - intros Hi. destruct (sel' !! i) as [b|] eqn:Hb; [|discriminate].
    simpl in Hi. injection Hi as Hi. apply negb_true_iff in Hi. subst b.
    split; [apply lookup_lt_Some in Hb; lia|].
    intros r Hin Hfin Hmem.
    assert (Ht : sel' !! i = Some true).
    { apply Hsel. right. exists (peaks_family r, avg_dist r).
      split; [|auto]. unfold fams. rewrite sorted_by_dist_perm.
      apply list_elem_of_fmap. exists r. auto. }
    congruence.
  - intros [Hlt Hnone].
    destruct (lookup_lt_is_Some_2 sel' i) as [b Hb]; [lia|].
    rewrite Hb. simpl. f_equal. destruct b; [|reflexivity]. exfalso.
    apply Hsel in Hb as [Hb|(g & Hg & Hfin & Hi)].
    + apply lookup_replicate in Hb as [Hb _]. discriminate.
    + unfold fams in Hg. rewrite sorted_by_dist_perm in Hg.
      apply list_elem_of_fmap in Hg as (r & -> & Hin).
      exact (Hnone r Hin Hfin Hi).
Qed.

(** The theorem above on three families over six peaks, two of them
    overlapping and one of infinite spacing. *)
Lemma get_peaks_group_nonexclusive_witness :
  exists leftover,
    Spectrum.get_peaks_group resolver_families [1; 2; 3; 4; 5; 6] false
    = Ok (List.filter (fun g => Spectrum.lt_inf (snd g))
            (Spectrum.sorted_by_dist
               (map (fun res => (peaks_family res, avg_dist res)) resolver_families))
          ++ [(leftover, Finite (-1))])
    /\ forall i, i ∈ leftover <->
         i < 6
         /\ forall r, r ∈ resolver_families -> avg_dist r <> Infinity ->
              i ∉ peaks_family r.
Proof.
  apply (get_peaks_group_nonexclusive resolver_families [1; 2; 3; 4; 5; 6]).
  intros r i Hr Hfin Hi. unfold resolver_families in Hr.
  repeat (apply elem_of_cons in Hr as [->|Hr]);
    [| |contradiction|apply elem_of_nil in Hr; contradiction]; simpl in Hi;
    repeat (apply elem_of_cons in Hi as [->|Hi]); simpl; try lia;
    apply elem_of_nil in Hi; contradiction.
Defined.

(** ** Relabelling without outliers *)

(** X10: when the clustering primitive reports no outlier, that is when its
    labels are exactly [0..k-1], one per sample, [fit_predict] stores the [k]
    cluster means in ascending order and gives every sample the position of
    its cluster's mean in that table. *)
Theorem fit_predict_orders_clusters (model_labels : list Q -> list Z)
    (dists : list Q) (k : nat) :
  length (model_labels dists) = length dists ->
  unique (model_labels dists) = map Z.of_nat (seq 0 k) ->
  exists r,
    DBSCANDistanceCluster.fit_predict model_labels dists = Ok r
    /\ length (DBSCANDistanceCluster.mean_dists r) = k
    /\ StronglySorted Qle (DBSCANDistanceCluster.mean_dists r)
    /\ forall s l, model_labels dists !! s = Some l ->
         exists L,
           DBSCANDistanceCluster.labels r !! s = Some (Z.of_nat L)
           /\ DBSCANDistanceCluster.mean_dists r !! L
              = Some (cluster_mean (model_labels dists) dists l).
Proof. exact (fit_predict_without_outlier model_labels dists k). Qed.

(** The theorem above on two clusters whose labels are in descending order
    of mean. *)
Lemma fit_predict_orders_clusters_witness :
  exists r,
    DBSCANDistanceCluster.fit_predict (fun _ => [0; 0; 1; 1]%Z) [10; 11; 1; 2]%Q
    = Ok r
    /\ length (DBSCANDistanceCluster.mean_dists r) = 2
    /\ StronglySorted Qle (DBSCANDistanceCluster.mean_dists r)
    /\ forall s l, [0; 0; 1; 1]%Z !! s = Some l ->
         exists L,
           DBSCANDistanceCluster.labels r !! s = Some (Z.of_nat L)
           /\ DBSCANDistanceCluster.mean_dists r !! L
              = Some (cluster_mean [0; 0; 1; 1]%Z [10; 11; 1; 2]%Q l).
Proof.
  apply (fit_predict_orders_clusters (fun _ => [0; 0; 1; 1]%Z) [10; 11; 1; 2]%Q 2).
  - reflexivity.
  - reflexivity.
Defined.

(** ** The flattened peak table *)

Lemma take_idx_perm_lookup {A} (l : list A) (idx : list nat) :
  (forall i, i ∈ idx -> i < length l) ->
  exists k, take_idx l idx = Ok k
    /\ length k = length idx
    /\ forall j p, idx !! j = Some p -> k !! j = l !! p.
Proof.
  intros Hr. destruct (take_idx_total l idx Hr) as [k Hk].
  exists k. split; [exact Hk|]. split; [apply (mapM_Ok_length _ _ _ Hk)|].
  intros j p Hj. destruct (take_idx_lookup _ _ _ _ _ Hk Hj) as (x & Hx & Hl).
  congruence.
Qed.

Lemma flatten_peaks_table (self : RheedMask.t) :
  length (concat (RheedMask.collapses_peaks self))
  = length (concat (RheedMask.collapses_peaks_ws self)) ->
  length (concat (RheedMask.collapses_peaks_regions self))
  = length (concat (RheedMask.collapses_peaks_ws self)) ->
  exists self',
    RheedMask._flatten_peaks self = Ok self'
    /\ StronglySorted Qle (RheedMask.collapses_peaks_ws_flatten self')
    /\ RheedMask.collapses_peaks_flatten_pids self'
       ≡ₚ seq 0 (length (concat (RheedMask.collapses_peaks_ws self)))
    /\ forall k p,
         RheedMask.collapses_peaks_flatten_pids self' !! k = Some p ->
         RheedMask.collapses_peaks_ws_flatten self' !! k
         = concat (RheedMask.collapses_peaks_ws self) !! p
         /\ RheedMask.collapses_peaks_flatten self' !! k
            = concat (RheedMask.collapses_peaks self) !! p
         /\ RheedMask.collapses_peaks_flatten_regions self' !! k
            = concat (RheedMask.collapses_peaks_regions self) !! p.
Proof.
  intros Hp Hr. unfold RheedMask._flatten_peaks.
  set (ws := concat (RheedMask.collapses_peaks_ws self)) in *.
  set (ps := concat (RheedMask.collapses_peaks self)) in *.
  set (rs := concat (RheedMask.collapses_peaks_regions self)) in *.
  assert (Hidx : forall i, i ∈ argsort ws -> i < length ws).
  { intros i Hi. rewrite argsort_perm in Hi. apply elem_of_seq in Hi. lia. }
  destruct (take_idx_perm_lookup ws (argsort ws) Hidx) as (ws' & Hws & _ & Hwl).
  destruct (take_idx_perm_lookup ps (argsort ws)) as (ps' & Hps & _ & Hpl).
  { intros i Hi. rewrite Hp. apply Hidx, Hi. }
  destruct (take_idx_perm_lookup rs (argsort ws)) as (rs' & Hrs & _ & Hrl).
  { intros i Hi. rewrite Hr. apply Hidx, Hi. }
  rewrite Hws, ret_bind, Hps, ret_bind, Hrs, ret_bind.
  eexists. split; [reflexivity|]. cbn.
  split.
  { rewrite take_idx_argsort in Hws. injection Hws as <-.
    apply sorted_keys_values, sort_keys_sorted. }
  split; [apply argsort_perm|].
  intros k p Hk. auto.
Qed.

(** X11: when the three per-region tables hold as many entries,
    [_flatten_peaks] succeeds; the flattened peak positions are in ascending
    order, [collapses_peaks_flatten_pids] is a permutation of the positions
    of the concatenated table, and entry [k] of each flattened table is the
    entry of the concatenated table at [pids[k]], so positions, sample
    indices and regions stay aligned. *)
Theorem flatten_peaks_sorted_aligned (self : RheedMask.t) :
  length (concat (RheedMask.collapses_peaks self))
  = length (concat (RheedMask.collapses_peaks_ws self)) ->
  length (concat (RheedMask.collapses_peaks_regions self))
  = length (concat (RheedMask.collapses_peaks_ws self)) ->
  exists self',
    RheedMask._flatten_peaks self = Ok self'
    /\ StronglySorted Qle (RheedMask.collapses_peaks_ws_flatten self')
    /\ RheedMask.collapses_peaks_flatten_pids self'
       ≡ₚ seq 0 (length (concat (RheedMask.collapses_peaks_ws self)))
    /\ forall k p,
         RheedMask.collapses_peaks_flatten_pids self' !! k = Some p ->
         RheedMask.collapses_peaks_ws_flatten self' !! k
         = concat (RheedMask.collapses_peaks_ws self) !! p
         /\ RheedMask.collapses_peaks_flatten self' !! k
            = concat (RheedMask.collapses_peaks self) !! p
         /\ RheedMask.collapses_peaks_flatten_regions self' !! k
            = concat (RheedMask.collapses_peaks_regions self) !! p.
Proof. exact (flatten_peaks_table self). Qed.

(** The theorem above on the pattern with two regions. *)
Lemma flatten_peaks_sorted_aligned_witness :
  exists self',
    RheedMask._flatten_peaks two_regions = Ok self'
    /\ StronglySorted Qle (RheedMask.collapses_peaks_ws_flatten self')
    /\ RheedMask.collapses_peaks_flatten_pids self' ≡ₚ seq 0 3
    /\ forall k p,
         RheedMask.collapses_peaks_flatten_pids self' !! k = Some p ->
         RheedMask.collapses_peaks_ws_flatten self' !! k = [1; 3; 6]%Q !! p
         /\ RheedMask.collapses_peaks_flatten self' !! k = [1; 3; 1] !! p
         /\ RheedMask.collapses_peaks_flatten_regions self' !! k = [0; 0; 1] !! p.
Proof.
  apply (flatten_peaks_sorted_aligned two_regions); reflexivity.
Defined.

(** ** The relative intensities *)

Lemma np_sum_scale (l : list Q) (t : Q) :
  (np_sum (map (fun x => x / t) l) == np_sum l / t)%Q.
Proof.
  induction l as [|x l IH]; cbn [map].
  - unfold np_sum. simpl. unfold Qdiv. ring.
  - rewrite !np_sum_cons, IH. unfold Qdiv. ring.
Qed.

Section GroupPercent.
Variable curve_fit : list Q -> list Q -> list Q -> exc (list Q).
Variable self : RheedMask.t.

(** After at least one label the state holds the percentages of its own
    intensities. *)
Lemma labels_loop_percent (uls : list Z) (st st' : RheedMask.label_state) (i : nat) :
  RheedMask.labels_loop curve_fit self st i uls = Ok st' ->
  (uls = [] /\ st' = st)
  \/ (uls <> [] /\
      snd (fst (fst st'))
      = Some (map (fun x => (x / np_sum (fst (fst (fst st'))))%Q)
                (fst (fst (fst st'))))).
Proof.
  revert st i. induction uls as [|ul uls IH]; intros st i H;
    cbn [RheedMask.labels_loop] in H.
  - apply mret_Ok in H. left. auto.
  - right. split; [discriminate|].
    apply bind_Ok in H as (st1 & Hstep & H).
    destruct (IH _ _ H) as [[-> ->]|[_ Hp]]; [|exact Hp].
    clear H IH. unfold RheedMask.label_step in Hstep.
    destruct st as [[[gi gp] gf] w].
    apply bind_Ok in Hstep as (sel & _ & Hstep).
    apply bind_Ok in Hstep as ([[gm gf'] w'] & _ & Hstep).
    apply mret_Ok in Hstep. subst st1. reflexivity.
Qed.

Lemma labels_loop_length (uls : list Z) (st st' : RheedMask.label_state) (i : nat) :
  RheedMask.labels_loop curve_fit self st i uls = Ok st' ->
  length (fst (fst (fst st'))) = length (fst (fst (fst st))).
Proof.
  revert st i. induction uls as [|ul uls IH]; intros st i H;
    cbn [RheedMask.labels_loop] in H.
  - apply mret_Ok in H. subst st'. reflexivity.
  - apply bind_Ok in H as (st1 & Hstep & H). rewrite (IH _ _ H).
    clear H IH. unfold RheedMask.label_step in Hstep.
    destruct st as [[[gi gp] gf] w].
    apply bind_Ok in Hstep as (sel & _ & Hstep).
    apply bind_Ok in Hstep as ([[gm gf'] w'] & _ & Hstep).
    apply mret_Ok in Hstep. subst st1. cbn [fst]. apply length_insert.
Qed.
End GroupPercent.

(** X12: what [get_group_intensity] returns is one intensity and one
    percentage per unique label, for at least one label; when the
    intensities do not sum to zero, each percentage is its intensity divided
    by that sum and the percentages sum to one. *)
Theorem get_group_intensity_percent
    (curve_fit : list Q -> list Q -> list Q -> exc (list Q))
    (self : RheedMask.t) (gi gp : list Q) (warns : list RheedMask.warning) :
  RheedMask.get_group_intensity curve_fit self = Ok (gi, gp, warns) ->
  RheedMask.cluster_labels_unique self <> []
  /\ length gi = length (RheedMask.cluster_labels_unique self)
  /\ length gp = length gi
  /\ (~ (np_sum gi == 0)%Q ->
      gp = map (fun x => (x / np_sum gi)%Q) gi /\ (np_sum gp == 1)%Q).
Proof.
  unfold RheedMask.get_group_intensity. intros H.
  apply bind_Ok in H as (st & Hloop & H).
  pose proof (labels_loop_length _ _ _ _ _ _ Hloop) as Hlen.
  destruct (labels_loop_percent _ _ _ _ _ _ Hloop) as [[Hnil ->]|[Hne Hp]].
  { discriminate H. }
  destruct st as [[[gi' gp'] gf] w]. cbn [fst snd] in *. subst gp'.
  apply mret_Ok in H. injection H as <- <- <-.
  split; [exact Hne|]. split; [rewrite Hlen; apply length_replicate|].
  split; [apply length_map|].
  intros Hnz. split; [reflexivity|].
  rewrite np_sum_scale. field. exact Hnz.
Qed.

(** The theorem above on the pattern with two regions and a failing fit. *)
Lemma get_group_intensity_percent_witness :
  exists gi gp warns,
    RheedMask.get_group_intensity failing_fit two_regions = Ok (gi, gp, warns)
    /\ ~ (np_sum gi == 0)%Q
    /\ RheedMask.cluster_labels_unique two_regions <> []
    /\ length gi = 1
    /\ length gp = length gi
    /\ (~ (np_sum gi == 0)%Q ->
        gp = map (fun x => (x / np_sum gi)%Q) gi /\ (np_sum gp == 1)%Q).
Proof.
  eexists _, _, _. split; [vm_compute; reflexivity|].
  split; [vm_compute; discriminate|].
  eapply (get_group_intensity_percent failing_fit two_regions).
  vm_compute. reflexivity.
Defined.

(** X13: without any cluster label the loop body never runs and the
    [return] reads the unassigned local [group_percent]:
    [get_group_intensity] raises [UnboundLocalError] whatever the pattern
    and the fit. *)
Theorem get_group_intensity_no_labels
    (curve_fit : list Q -> list Q -> list Q -> exc (list Q))
    (self : RheedMask.t) :
  RheedMask.cluster_labels_unique self = [] ->
  RheedMask.get_group_intensity curve_fit self = Raise UnboundLocalError.
Proof.
  intros H. unfold RheedMask.get_group_intensity. rewrite H. reflexivity.
Qed.

(** The theorem above on the pattern with two regions, its labels removed. *)
Lemma get_group_intensity_no_labels_witness :
  RheedMask.get_group_intensity failing_fit
    {| RheedMask.pattern := RheedMask.pattern two_regions;
       RheedMask.regions := RheedMask.regions two_regions;
       RheedMask.collapses := RheedMask.collapses two_regions;
       RheedMask.collapses_peaks := RheedMask.collapses_peaks two_regions;
       RheedMask.collapses_peaks_ws := RheedMask.collapses_peaks_ws two_regions;
       RheedMask.collapses_peaks_regions := RheedMask.collapses_peaks_regions two_regions;
       RheedMask.collapses_peaks_ws_flatten := RheedMask.collapses_peaks_ws_flatten two_regions;
       RheedMask.collapses_peaks_flatten := RheedMask.collapses_peaks_flatten two_regions;
       RheedMask.collapses_peaks_flatten_pids := RheedMask.collapses_peaks_flatten_pids two_regions;
       RheedMask.collapses_peaks_flatten_regions :=
         RheedMask.collapses_peaks_flatten_regions two_regions;
       RheedMask.collapses_peaks_flatten_nbr_dist :=
         RheedMask.collapses_peaks_flatten_nbr_dist two_regions;
       RheedMask.collapses_peaks_flatten_ci := RheedMask.collapses_peaks_flatten_ci two_regions;
       RheedMask.collapses_peaks_flatten_cis := RheedMask.collapses_peaks_flatten_cis two_regions;
       RheedMask.collapses_peaks_flatten_ciw := RheedMask.collapses_peaks_flatten_ciw two_regions;
       RheedMask.collapses_peaks_flatten_ana_res :=
         RheedMask.collapses_peaks_flatten_ana_res two_regions;
       RheedMask.cluster_labels := [];
       RheedMask.cluster_labels_unique := [] |}
  = Raise UnboundLocalError.
Proof.
  apply get_group_intensity_no_labels. reflexivity.
Defined.

(** ** The first strict minimum of a scan *)

Lemma first_least_from_spec {A} (cand : A -> bool) (key : A -> Q)
    (pre rest : list A) (best : option (nat * A)) :
  match best with
  | None => forall c, c ∈ pre -> cand c = false
  | Some (k, b) => first_least cand key pre k b
  end ->
  match first_least_from cand key best (length pre) rest with
  | None => forall c, c ∈ pre ++ rest -> cand c = false
  | Some (k, b) => first_least cand key (pre ++ rest) k b
  end.
Proof.
  revert pre best. induction rest as [|x rest IH]; intros pre best Hinv.
  - simpl. rewrite app_nil_r. exact Hinv.
  - cbn [first_least_from].
    replace (pre ++ x :: rest) with ((pre ++ [x]) ++ rest)
      by (rewrite <- app_assoc; reflexivity).
    replace (S (length pre)) with (length (pre ++ [x]))
      by (rewrite length_app; simpl; lia).
    apply IH.
    destruct (cand x) eqn:Hc; cbn [andb].
    + destruct best as [[k b]|]; cbn [option_map Rheed.below snd].
      * destruct Hinv as (Hk & Hb & Hmin & Hfirst).
        destruct (Qltb (key x) (key b)) eqn:Hlt.
        -- apply Qltb_lt in Hlt. split; [|split; [exact Hc|split]].
           ++ rewrite lookup_app_r by lia. replace (_ - _) with 0 by lia. reflexivity.
           ++ intros j c Hj Hcc. apply lookup_app_Some in Hj as [Hj|[_ Hj]].
              ** apply Qlt_le_weak. eapply Qlt_le_trans; [exact Hlt|].
                 eapply Hmin; eassumption.
              ** apply list_lookup_singleton_Some in Hj as [_ <-]. apply Qle_refl.
           ++ intros j c Hjk Hj Hcc. apply lookup_app_Some in Hj as [Hj|[Hge _]]; [|lia].
              eapply Qlt_le_trans; [exact Hlt|]. eapply Hmin; eassumption.
        -- assert (Hge : (key b <= key x)%Q).
           { apply Qnot_lt_le. intros Hx. apply Qltb_lt in Hx. congruence. }
           split; [|split; [exact Hb|split]].
           ++ apply lookup_app_l_Some, Hk.
           ++ intros j c Hj Hcc. apply lookup_app_Some in Hj as [Hj|[_ Hj]].
              ** eapply Hmin; eassumption.
              ** apply list_lookup_singleton_Some in Hj as [_ <-]. exact Hge.
           ++ intros j c Hjk Hj Hcc. apply lookup_app_Some in Hj as [Hj|[Hge' _]].
              ** eapply Hfirst; eassumption.
              ** apply lookup_lt_Some in Hk. lia.
      * split; [|split; [exact Hc|split]].
        -- rewrite lookup_app_r by lia. replace (_ - _) with 0 by lia. reflexivity.
        -- intros j c Hj Hcc. apply lookup_app_Some in Hj as [Hj|[_ Hj]].
           ++ apply list_elem_of_lookup_2, Hinv in Hj. congruence.
           ++ apply list_lookup_singleton_Some in Hj as [_ <-]. apply Qle_refl.
        -- intros j c Hjk Hj Hcc. apply lookup_app_Some in Hj as [Hj|[Hge _]]; [|lia].
           apply list_elem_of_lookup_2, Hinv in Hj. congruence.
    + destruct best as [[k b]|].
      * destruct Hinv as (Hk & Hb & Hmin & Hfirst).
        split; [|split; [exact Hb|split]].
        -- apply lookup_app_l_Some, Hk.
        -- intros j c Hj Hcc. apply lookup_app_Some in Hj as [Hj|[_ Hj]].
           ++ eapply Hmin; eassumption.
           ++ apply list_lookup_singleton_Some in Hj as [_ <-]. congruence.
        -- intros j c Hjk Hj Hcc. apply lookup_app_Some in Hj as [Hj|[Hge' _]].
           ++ eapply Hfirst; eassumption.
           ++ apply lookup_lt_Some in Hk. lia.
      * intros c Hin. apply elem_of_app in Hin as [Hin|Hin]; [apply Hinv, Hin|].
        apply list_elem_of_singleton in Hin. subst c. exact Hc.
Qed.

Lemma first_least_scan {A} (cand : A -> bool) (key : A -> Q) (l : list A) :
  match first_least_from cand key None 0 l with
  | None => forall c, c ∈ l -> cand c = false
  | Some (k, b) => first_least cand key l k b
  end.
Proof.
  apply (first_least_from_spec cand key [] l None).
  intros c Hc. apply elem_of_nil in Hc. contradiction.
Qed.

Lemma first_least_unique {A} (cand : A -> bool) (key : A -> Q) (l : list A)
    (k k' : nat) (b b' : A) :
  first_least cand key l k b -> first_least cand key l k' b' -> k = k' /\ b = b'.
Proof.
  intros (Hk & Hb & Hmin & Hfirst) (Hk' & Hb' & Hmin' & Hfirst').
  assert (k = k') as <-.
  { destruct (Nat.lt_trichotomy k k') as [Hlt|[Heq|Hgt]]; [|exact Heq|].
    - pose proof (Hfirst' k b Hlt Hk Hb) as H1.
      pose proof (Hmin k' b' Hk' Hb') as H2. lra.
    - pose proof (Hfirst k' b' Hgt Hk' Hb') as H1.
      pose proof (Hmin' k b Hk Hb) as H2. lra. }
  split; [reflexivity|]. congruence.
Qed.

(** ** The blob queries *)

Lemma top_blob_loop_scan (rmin : Q) (rest : list Rheed.blob)
    (best : option (nat * Rheed.blob)) (i : nat) (idx : option nat) :
  Rheed.top_blob_loop rmin
    (option_map (fun p => blob_row (snd p)) best,
     option_map (fun p => blob_xy (snd p)) best, idx) i rest
  = (option_map (fun p => blob_row (snd p))
       (first_least_from (wide_blob rmin) blob_row best i rest),
     option_map (fun p => blob_xy (snd p))
       (first_least_from (wide_blob rmin) blob_row best i rest),
     match rest with [] => idx | _ => Some (i + length rest - 1) end).
Proof.
  revert best i idx. induction rest as [|b rest IH]; intros best i idx.
  - reflexivity.
  - cbn [Rheed.top_blob_loop first_least_from].
    set (c := wide_blob rmin b
              && Rheed.below (blob_row b)
                   (option_map (fun p => blob_row (snd p)) best)).
    assert (Hstep :
      Rheed.top_blob_step rmin
        (option_map (fun p => blob_row (snd p)) best,
         option_map (fun p => blob_xy (snd p)) best, idx) i b
      = (option_map (fun p => blob_row (snd p)) (if c then Some (i, b) else best),
         option_map (fun p => blob_xy (snd p)) (if c then Some (i, b) else best),
         Some i)).
    { unfold c, Rheed.top_blob_step, wide_blob, blob_row. destruct b as [[x y] r].
      cbn [fst snd]. rewrite andb_comm.
      destruct (Qle_bool rmin r && Rheed.below x _); reflexivity. }
    rewrite Hstep, IH. f_equal.
    destruct rest; f_equal; simpl; lia.
Qed.

Lemma get_top_blob_scan (rmin : Q) (blobs : list Rheed.blob) :
  Rheed.get_top_blob rmin blobs
  = match blobs with
    | [] => Raise UnboundLocalError
    | _ => Ok (option_map (fun p => blob_xy (snd p))
                 (first_least_from (wide_blob rmin) blob_row None 0 blobs),
               length blobs - 1)
    end.
Proof.
  unfold Rheed.get_top_blob.
  pose proof (top_blob_loop_scan rmin blobs None 0 None) as H.
  cbn [option_map] in H. rewrite H. destruct blobs; reflexivity.
Qed.

(** X14: [get_direct_beam] on an empty blob table raises
    [UnboundLocalError]; otherwise the position it returns is that of the
    first blob of least row among those of radius at least [rmin] ([None]
    when every radius is below [rmin]), but the blob id it returns is
    always the index of the last blob, whichever blob was selected. *)
Theorem get_direct_beam_last_index (blobs : list Rheed.blob) (rmin : Q) :
  match blobs with
  | [] => Rheed.get_direct_beam blobs rmin = Raise UnboundLocalError
  | _ =>
      exists tb,
        Rheed.get_direct_beam blobs rmin = Ok (tb, length blobs - 1)
        /\ match tb with
           | None => forall c, c ∈ blobs -> (snd c < rmin)%Q
           | Some xy =>
               exists k b, first_least (wide_blob rmin) blob_row blobs k b
                           /\ xy = blob_xy b
           end
  end.
Proof.
  unfold Rheed.get_direct_beam. rewrite get_top_blob_scan.
  destruct blobs as [|b0 rest]; [reflexivity|].
  eexists. split; [reflexivity|].
  pose proof (first_least_scan (wide_blob rmin) blob_row (b0 :: rest)) as H.
  destruct (first_least_from (wide_blob rmin) blob_row None 0 (b0 :: rest))
    as [[k b]|]; cbn [option_map snd].
  - exists k, b. split; [exact H|reflexivity].
  - intros c Hc. apply H in Hc. unfold wide_blob in Hc.
    apply Qle_bool_false, Hc.
Qed.

Lemma spot_loop_scan (rmin : Q) (db : Rheed.blob) (rest : list Rheed.blob)
    (best : option (nat * Rheed.blob)) (i : nat) (idx : Z) :
  Rheed.spot_loop rmin db
    (option_map (fun p => blob_row (snd p)) best, option_map snd best, idx) i rest
  = (option_map (fun p => blob_row (snd p))
       (first_least_from (spot_candidate rmin db) blob_row best i rest),
     option_map snd
       (first_least_from (spot_candidate rmin db) blob_row best i rest),
     match rest with [] => idx | _ => Z.of_nat (i + length rest - 1) end).
Proof.
  revert best i idx. induction rest as [|b rest IH]; intros best i idx.
  - reflexivity.
  - cbn [Rheed.spot_loop first_least_from].
    set (c := spot_candidate rmin db b
              && Rheed.below (blob_row b)
                   (option_map (fun p => blob_row (snd p)) best)).
    assert (Hstep :
      Rheed.spot_step rmin db
        (option_map (fun p => blob_row (snd p)) best, option_map snd best, idx) i b
      = (option_map (fun p => blob_row (snd p)) (if c then Some (i, b) else best),
         option_map snd (if c then Some (i, b) else best),
         Z.of_nat i)).
    { unfold c, Rheed.spot_step, spot_candidate, blob_row.
      destruct b as [[x y] r]. destruct db as [[dbx dby] dbr]. cbn [fst snd].
      destruct (Rheed.same_blob (x, y, r) (dbx, dby, dbr)); cbn [negb andb];
        [reflexivity|].
      destruct (Qle_bool rmin r && Qle_bool x (dbx + dbr) && Qle_bool (dbx - dbr) x
                && Rheed.below x _); reflexivity. }
    rewrite Hstep, IH. f_equal.
    destruct rest; f_equal; simpl; lia.
Qed.

Lemma get_specular_spot_scan (blobs : list Rheed.blob) (db_i : nat) (rmin : Q)
    (db : Rheed.blob) :
  blobs !! db_i = Some db ->
  Rheed.get_specular_spot blobs db_i rmin
  = Ok (option_map snd
          (first_least_from (spot_candidate rmin db) blob_row None 0 blobs),
        Z.of_nat (length blobs - 1)).
Proof.
  intros Hdb. unfold Rheed.get_specular_spot.
  apply nth_exc_Ok in Hdb as Hnth. rewrite Hnth, ret_bind.
  pose proof (spot_loop_scan rmin db blobs None 0 (-1)%Z) as H.
  cbn [option_map] in H. rewrite H. destruct blobs; [discriminate Hdb|]. reflexivity.
Qed.

(** X15: [get_specular_spot] returns the index of the last blob, and the
    spot it selects is the first blob of least row among the blobs that
    differ from the recorded direct beam [blobs[db_i]], have radius at least
    [rmin] and lie within the beam's radius of its row; it is [None] when
    there is no such blob. *)
Theorem get_specular_spot_spec (blobs : list Rheed.blob) (db_i : nat) (rmin : Q)
    (db : Rheed.blob) :
  blobs !! db_i = Some db ->
  exists ss,
    Rheed.get_specular_spot blobs db_i rmin = Ok (ss, Z.of_nat (length blobs - 1))
    /\ match ss with
       | None => forall c, c ∈ blobs -> spot_candidate rmin db c = false
       | Some b =>
           exists k, first_least (spot_candidate rmin db) blob_row blobs k b
                     /\ Rheed.same_blob b db = false
                     /\ (rmin <= snd b)%Q
                     /\ (fst (fst db) - snd db <= blob_row b)%Q
                     /\ (blob_row b <= fst (fst db) + snd db)%Q
       end.
Proof.
  intros Hdb. rewrite (get_specular_spot_scan blobs db_i rmin db Hdb).
  eexists. split; [reflexivity|].
  pose proof (first_least_scan (spot_candidate rmin db) blob_row blobs) as H.
  destruct (first_least_from (spot_candidate rmin db) blob_row None 0 blobs)
    as [[k b]|]; cbn [option_map snd]; [|exact H].
  exists k. split; [exact H|].
  destruct H as (_ & Hc & _). unfold spot_candidate in Hc.
  apply andb_true_iff in Hc as [Hs Hc].
  apply andb_true_iff in Hc as [Hc H3].
  apply andb_true_iff in Hc as [H1 H2].
  apply negb_true_iff in Hs. apply Qle_bool_iff in H1, H2, H3.
  unfold blob_row. auto.
Qed.

(** The theorem above on three blobs, the beam recorded at the first. *)
Lemma get_specular_spot_spec_witness :
  exists ss,
    Rheed.get_specular_spot [(10, 50, 4); (30, 52, 5); (12, 51, 3)]%Q 0 3
    = Ok (ss, Z.of_nat 2)
    /\ match ss with
       | None => forall c, c ∈ [(10, 50, 4); (30, 52, 5); (12, 51, 3)]%Q ->
                   spot_candidate 3 (10, 50, 4)%Q c = false
       | Some b =>
           exists k, first_least (spot_candidate 3 (10, 50, 4)%Q) blob_row
                       [(10, 50, 4); (30, 52, 5); (12, 51, 3)]%Q k b
                     /\ Rheed.same_blob b (10, 50, 4)%Q = false
                     /\ (3 <= snd b)%Q
                     /\ (10 - 4 <= blob_row b)%Q
                     /\ (blob_row b <= 10 + 4)%Q
       end.
Proof.
  apply (get_specular_spot_spec [(10, 50, 4); (30, 52, 5); (12, 51, 3)]%Q 0 3
           (10, 50, 4)%Q).
  reflexivity.
Defined.

(** X16: the blob id stored by [get_direct_beam] is the last index, so
    [get_specular_spot] excludes the last blob instead of the direct beam:
    when the selected direct beam [b] is not the last blob and its row lies
    within the last blob's radius of the last blob's row, the specular spot
    that [get_specular_spot] returns after [get_direct_beam] is the direct
    beam [b] itself. *)
Theorem specular_spot_is_direct_beam (blobs : list Rheed.blob) (rmin : Q)
    (k : nat) (b l : Rheed.blob) :
  first_least (wide_blob rmin) blob_row blobs k b ->
  last blobs = Some l ->
  Rheed.same_blob b l = false ->
  (fst (fst l) - snd l <= blob_row b)%Q ->
  (blob_row b <= fst (fst l) + snd l)%Q ->
  exists db_i,
    Rheed.get_direct_beam blobs rmin = Ok (Some (blob_xy b), db_i)
    /\ Rheed.get_specular_spot blobs db_i rmin
       = Ok (Some b, Z.of_nat (length blobs - 1)).
Proof.
  intros Hb Hlast Hdiff Hlo Hhi.
  exists (length blobs - 1).
  assert (Hl : blobs !! (length blobs - 1) = Some l).
  { rewrite last_lookup in Hlast.
    replace (length blobs - 1) with (pred (length blobs)) by lia. exact Hlast. }
  split.
  - unfold Rheed.get_direct_beam. rewrite get_top_blob_scan.
    destruct blobs as [|b0 rest]; [discriminate Hlast|].
    pose proof (first_least_scan (wide_blob rmin) blob_row (b0 :: rest)) as H.
    destruct (first_least_from (wide_blob rmin) blob_row None 0 (b0 :: rest))
      as [[k' b']|]; cbn [option_map snd].
    + destruct (first_least_unique _ _ _ _ _ _ _ Hb H) as [_ <-]. reflexivity.
    + destruct Hb as (Hk & Hc & _). apply list_elem_of_lookup_2, H in Hk. congruence.
  - rewrite (get_specular_spot_scan blobs _ rmin l Hl).
    pose proof (first_least_scan (spot_candidate rmin l) blob_row blobs) as H.
    assert (Hcand : spot_candidate rmin l b = true).
    { unfold spot_candidate. rewrite Hdiff. cbn [negb andb].
      destruct Hb as (_ & Hw & _). unfold wide_blob in Hw. rewrite Hw.
      apply andb_true_iff. split; apply Qle_bool_iff; assumption. }
    assert (Hsub : forall c, spot_candidate rmin l c = true -> wide_blob rmin c = true).
    { intros c Hc. unfold spot_candidate in Hc.
      apply andb_true_iff in Hc as [_ Hc]. apply andb_true_iff in Hc as [Hc _].
      apply andb_true_iff in Hc as [Hc _]. exact Hc. }
    destruct (first_least_from (spot_candidate rmin l) blob_row None 0 blobs)
      as [[k' b']|]; cbn [option_map snd].
    + destruct Hb as (Hk & Hw & Hmin & Hfirst).
      destruct H as (Hk' & Hc' & Hmin' & Hfirst').
      assert (k = k') as <-.
      { destruct (Nat.lt_trichotomy k k') as [Hlt|[Heq|Hgt]]; [|exact Heq|].
        - pose proof (Hfirst' k b Hlt Hk Hcand) as H1.
          pose proof (Hmin k' b' Hk' (Hsub _ Hc')) as H2. lra.
        - pose proof (Hfirst k' b' Hgt Hk' (Hsub _ Hc')) as H1.
          pose proof (Hmin' k b Hk Hcand) as H2. lra. }
      rewrite Hk in Hk'. injection Hk' as <-. reflexivity.
    + destruct Hb as (Hk & _). apply list_elem_of_lookup_2, H in Hk. congruence.
Qed.

(** The theorem above on a beam at row 10 followed by a spot at row 12. *)
Lemma specular_spot_is_direct_beam_witness :
  exists db_i,
    Rheed.get_direct_beam [(10, 50, 4); (12, 51, 3)]%Q 3
    = Ok (Some (blob_xy (10, 50, 4)%Q), db_i)
    /\ Rheed.get_specular_spot [(10, 50, 4); (12, 51, 3)]%Q db_i 3
       = Ok (Some (10, 50, 4)%Q, Z.of_nat (2 - 1)).
Proof.
  apply (specular_spot_is_direct_beam [(10, 50, 4); (12, 51, 3)]%Q 3 0
           (10, 50, 4)%Q (12, 51, 3)%Q).
  - split; [reflexivity|]. split; [reflexivity|]. split.
    + intros j c Hj _. destruct j as [|[|j]]; simpl in Hj; try discriminate;
        injection Hj as <-; unfold blob_row; simpl; lra.
    + intros j c Hj. lia.
  - reflexivity.
  - reflexivity.
  - unfold blob_row. simpl. lra.
  - unfold blob_row. simpl. lra.
Defined.

(** ** The region queries *)

Section TopRegion.
Variable centroid : RheedMask.Region -> Q * Q.
Variable pattern : array Q.

Abbreviation height := (inject_Z (Z.of_nat (nrows pattern))).
Abbreviation row := (fun r : RheedMask.Region => fst (centroid r)).
Abbreviation above := (fun r : RheedMask.Region => Qltb (fst (centroid r)) height).

Lemma top_region_loop_scan (rest : list RheedMask.Region)
    (best : option (nat * RheedMask.Region)) (i : nat) :
  match best with
  | None => True
  | Some (_, r0) => above r0 = true
  end ->
  Regions.top_region_loop centroid
    (match best with None => height | Some (_, r0) => row r0 end,
     option_map snd best,
     match best with None => (-1)%Z | Some (k, _) => Z.of_nat k end) i rest
  = let best' := first_least_from above row best i rest in
    (match best' with None => height | Some (_, r0) => row r0 end,
     option_map snd best',
     match best' with None => (-1)%Z | Some (k, _) => Z.of_nat k end).
Proof.
  revert best i. induction rest as [|r rest IH]; intros best i Hbest.
  - reflexivity.
  - cbn [Regions.top_region_loop first_least_from]. cbv zeta.
    set (c := above r && Rheed.below (row r) (option_map (fun p => row (snd p)) best)).
    assert (Hc : Qltb (row r) (match best with None => height | Some (_, r0) => row r0 end)
                 = c).
    { unfold c. destruct best as [[k r0]|]; cbn [option_map Rheed.below snd].
      - destruct (Qltb (row r) (row r0)) eqn:E; [|rewrite andb_false_r; reflexivity].
        rewrite andb_true_r. symmetry. apply Qltb_lt.
        cbv beta iota in Hbest. apply Qltb_lt in E. apply Qltb_lt in Hbest.
        eapply Qlt_trans; eassumption.
      - rewrite andb_true_r. reflexivity. }
    unfold Regions.top_region_step. rewrite Hc.
    specialize (IH (if c then Some (i, r) else best) (S i)).
    destruct c eqn:Ec.
    + apply IH. unfold c in Ec. apply andb_true_iff in Ec as [Ec _]. exact Ec.
    + destruct best as [[k r0]|]; apply IH; exact Hbest.
Qed.

Lemma top_region_first_least (regions : list RheedMask.Region) :
  match Regions.get_top_region centroid pattern regions with
  | (None, i) =>
      i = (-1)%Z /\ forall r, r ∈ regions -> (height <= row r)%Q
  | (Some r, i) =>
      exists k,
        i = Z.of_nat k /\ regions !! k = Some r
        /\ (row r < height)%Q
        /\ (forall c, c ∈ regions -> (row r <= row c)%Q)
        /\ (forall j c, j < k -> regions !! j = Some c -> (row r < row c)%Q)
  end.
Proof.
  unfold Regions.get_top_region.
  pose proof (top_region_loop_scan regions None 0 I) as H. cbv zeta in H.
  cbn [option_map] in H. rewrite H. clear H.
  pose proof (first_least_scan above row regions) as H.
  destruct (first_least_from above row None 0 regions) as [[k r]|];
    cbn [option_map snd].
  - destruct H as (Hk & Hr & Hmin & Hfirst). apply Qltb_lt in Hr.
    exists k. split; [reflexivity|]. split; [exact Hk|]. split; [exact Hr|].
    split.
    + intros c Hc. apply list_elem_of_lookup in Hc as [j Hj].
      destruct (above c) eqn:Ec; [eapply Hmin; eassumption|].
      apply Qlt_le_weak. eapply Qlt_le_trans; [exact Hr|].
      apply Qnot_lt_le. intros Hlt. apply Qltb_lt in Hlt. congruence.
    + intros j c Hjk Hj.
      destruct (above c) eqn:Ec; [eapply Hfirst; eassumption|].
      eapply Qlt_le_trans; [exact Hr|].
      apply Qnot_lt_le. intros Hlt. apply Qltb_lt in Hlt. congruence.
  - split; [reflexivity|]. intros r Hr. apply H in Hr.
    apply Qnot_lt_le. intros Hlt. apply Qltb_lt in Hlt. congruence.
Qed.
End TopRegion.

(** X17: [get_top_region] returns [(None, -1)] exactly when no region has
    its centroid row above the bottom of the pattern (in particular without
    any region); otherwise it returns the first region of least centroid row
    together with its index. *)
Theorem get_top_region_first_least (centroid : RheedMask.Region -> Q * Q)
    (pattern : array Q) (regions : list RheedMask.Region) :
  match Regions.get_top_region centroid pattern regions with
  | (None, i) =>
      i = (-1)%Z
      /\ forall r, r ∈ regions ->
           (inject_Z (Z.of_nat (nrows pattern)) <= fst (centroid r))%Q
  | (Some r, i) =>
      exists k,
        i = Z.of_nat k /\ regions !! k = Some r
        /\ (fst (centroid r) < inject_Z (Z.of_nat (nrows pattern)))%Q
        /\ (forall c, c ∈ regions -> (fst (centroid r) <= fst (centroid c))%Q)
        /\ (forall j c, j < k -> regions !! j = Some c ->
              (fst (centroid r) < fst (centroid c))%Q)
  end.
Proof. exact (top_region_first_least centroid pattern regions). Qed.

Lemma cell_at_inside {A} (m : array A) (r c : Z) :
  (0 <= r < Z.of_nat (nrows m))%Z -> (0 <= c < Z.of_nat (ncols m))%Z ->
  Regions.cell_at m r c = Ok (cell m (Z.to_nat r) (Z.to_nat c)).
Proof.
  intros Hr Hc. unfold Regions.cell_at.
  destruct (Z.ltb_spec r 0); [lia|]. destruct (Z.ltb_spec c 0); [lia|].
  destruct (Z.leb_spec 0 r); [|lia]. destruct (Z.ltb_spec r (Z.of_nat (nrows m))); [|lia].
  destruct (Z.leb_spec 0 c); [|lia]. destruct (Z.ltb_spec c (Z.of_nat (ncols m))); [|lia].
  reflexivity.
Qed.

Lemma cell_at_outside {A} (m : array A) (r c : Z) :
  (0 <= r)%Z -> (0 <= c)%Z ->
  (Z.of_nat (nrows m) <= r)%Z \/ (Z.of_nat (ncols m) <= c)%Z ->
  Regions.cell_at m r c = Raise IndexError.
Proof.
  intros Hr Hc Hout. unfold Regions.cell_at.
  destruct (Z.ltb_spec r 0); [lia|]. destruct (Z.ltb_spec c 0); [lia|].
  destruct (Z.leb_spec 0 r); [|lia]. destruct (Z.leb_spec 0 c); [|lia].
  destruct (Z.ltb_spec r (Z.of_nat (nrows m)));
    destruct (Z.ltb_spec c (Z.of_nat (ncols m))); try reflexivity. lia.
Qed.

Lemma within_box_closed (r : RheedMask.Region) (x y : Z) sx sy ex ey :
  RheedMask.bbox r = (sx, sy, ex, ey) ->
  ((sx <=? x) && (x <=? ex) && ((sy <=? y) && (y <=? ey)))%Z = true
  <-> in_closed_box r x y.
Proof.
  intros Hb. unfold in_closed_box. rewrite Hb.
  rewrite !andb_true_iff, !Z.leb_le. tauto.
Qed.

Lemma region_within_loop_first (regions : list RheedMask.Region) (x y : Z) (i : nat) :
  Forall region_shape regions ->
  (forall r, r ∈ regions -> ~ on_max_edge r x y) ->
  exists res,
    Regions.region_within_loop i regions x y = Ok res
    /\ match res with
       | None => forall r, r ∈ regions -> ~ in_region r x y
       | Some (r, k) =>
           i <= k /\ regions !! (k - i) = Some r /\ in_region r x y
           /\ forall j c, j < k - i -> regions !! j = Some c -> ~ in_region c x y
       end.
Proof.
  revert i. induction regions as [|r rest IH]; intros i Hshape Hedge.
  - exists None. split; [reflexivity|]. intros r Hr. apply elem_of_nil in Hr. contradiction.
  - cbn [Regions.region_within_loop].
    apply Forall_cons in Hshape as [Hr Hshape].
    assert (Hedge' : forall c, c ∈ rest -> ~ on_max_edge c x y).
    { intros c Hc. apply Hedge. apply elem_of_cons. right. exact Hc. }
    destruct (IH (S i) Hshape Hedge') as (res & Hres & Hspec).
    assert (Hskip : ~ in_region r x y ->
      exists res0,
        Regions.region_within_loop (S i) rest x y = Ok res0
        /\ match res0 with
           | None => forall c, c ∈ r :: rest -> ~ in_region c x y
           | Some (c, k) =>
               i <= k /\ (r :: rest) !! (k - i) = Some c /\ in_region c x y
               /\ forall j d, j < k - i -> (r :: rest) !! j = Some d -> ~ in_region d x y
           end).
    { intros Hnot. exists res. split; [exact Hres|].
      destruct res as [[c k]|].
      - destruct Hspec as (Hk & Hlook & Hin & Hfirst).
        split; [lia|]. split.
        + replace (k - i) with (S (k - S i)) by lia. exact Hlook.
        + split; [exact Hin|]. intros j d Hj Hd. destruct j as [|j].
          * simpl in Hd. injection Hd as <-. exact Hnot.
          * simpl in Hd. apply (Hfirst j d); [lia|exact Hd].
      - intros c Hc. apply elem_of_cons in Hc as [->|Hc]; [exact Hnot|].
        apply Hspec, Hc. }
    pose proof (Hedge r ltac:(apply elem_of_cons; left; reflexivity)) as Hne.
    unfold region_shape in Hr. unfold on_max_edge in Hne.
    destruct (RheedMask.bbox r) as [[[sx sy] ex] ey] eqn:Hb.
    destruct Hr as (Hsx & Hsy & Hrows & Hcols).
    destruct ((sx <=? x) && (x <=? ex) && ((sy <=? y) && (y <=? ey)))%Z eqn:Hbox.
    + apply (within_box_closed r x y sx sy ex ey Hb) in Hbox.
      unfold in_closed_box in Hbox. rewrite Hb in Hbox. destruct Hbox as [Hx Hy].
      assert (x <> ex /\ y <> ey) as [Hxe Hye].
      { split; intros ->; apply Hne; split; try split; try lia; auto. }
      rewrite cell_at_inside by lia. rewrite ret_bind.
      destruct (cell (RheedMask.image r) (Z.to_nat (x - sx)) (Z.to_nat (y - sy))) eqn:Hcell.
      * exists (Some (r, i)). split; [reflexivity|].
        split; [lia|]. split; [replace (i - i) with 0 by lia; reflexivity|].
        split.
        -- unfold in_region. rewrite Hb. split; [lia|]. split; [lia|exact Hcell].
        -- intros j c Hj. lia.
      * apply Hskip. unfold in_region. rewrite Hb. intros (_ & _ & Hc). congruence.
    + apply Hskip. unfold in_region. rewrite Hb. intros (Hx & Hy & _).
      assert (((sx <=? x) && (x <=? ex) && ((sy <=? y) && (y <=? ey)))%Z = true);
        [|congruence].
      rewrite !andb_true_iff, !Z.leb_le. lia.
Qed.

(** X18: for regions whose image has the extent of the bounding box and a
    point that is on the maximal row or column of no region's closed box,
    [get_region_within] does not raise and returns the first region whose
    mask contains the point, with its index, or [(None, None)] when no
    region's mask contains it. *)
Theorem get_region_within_first (regions : list RheedMask.Region) (x y : Z) :
  Forall region_shape regions ->
  (forall r, r ∈ regions -> ~ on_max_edge r x y) ->
  exists res,
    Regions.get_region_within regions x y = Ok res
    /\ match res with
       | None => forall r, r ∈ regions -> ~ in_region r x y
       | Some (r, k) =>
           regions !! k = Some r /\ in_region r x y
           /\ forall j c, j < k -> regions !! j = Some c -> ~ in_region c x y
       end.
Proof.
  intros Hshape Hedge.
  destruct (region_within_loop_first regions x y 0 Hshape Hedge) as (res & Hres & Hspec).
  exists res. split; [exact Hres|].
  destruct res as [[r k]|]; [|exact Hspec].
  destruct Hspec as (_ & Hk & Hin & Hfirst).
  replace (k - 0) with k in * by lia. auto.
Qed.

(** The theorem above on the two regions of the example pattern and the
    point [(1, 6)]. *)
Lemma get_region_within_first_witness :
  exists res,
    Regions.get_region_within (RheedMask.regions two_regions) 1 6 = Ok res
    /\ match res with
       | None => forall r, r ∈ RheedMask.regions two_regions -> ~ in_region r 1 6
       | Some (r, k) =>
           RheedMask.regions two_regions !! k = Some r /\ in_region r 1 6
           /\ forall j c, j < k -> RheedMask.regions two_regions !! j = Some c ->
                ~ in_region c 1 6
       end.
Proof.
  apply (get_region_within_first (RheedMask.regions two_regions) 1 6).
  - simpl. repeat (constructor; [unfold region_shape; simpl; lia|]). constructor.
  - intros r Hr. simpl in Hr.
    repeat (apply elem_of_cons in Hr as [->|Hr]);
      [| |apply elem_of_nil in Hr; contradiction];
      unfold on_max_edge; simpl; lia.
Defined.

Lemma region_within_loop_edge (regions : list RheedMask.Region) (x y : Z)
    (i k : nat) (r : RheedMask.Region) :
  regions !! k = Some r ->
  region_shape r -> on_max_edge r x y ->
  (forall j c, j < k -> regions !! j = Some c -> ~ in_closed_box c x y) ->
  Regions.region_within_loop i regions x y = Raise IndexError.
Proof.
  revert i k. induction regions as [|c rest IH]; intros i k Hk Hshape Hedge Hbefore;
    [discriminate Hk|].
  cbn [Regions.region_within_loop].
  destruct k as [|k].
  - simpl in Hk. injection Hk as ->.
    unfold region_shape in Hshape. unfold on_max_edge in Hedge.
    destruct (RheedMask.bbox r) as [[[sx sy] ex] ey] eqn:Hb.
    destruct Hshape as (Hsx & Hsy & Hrows & Hcols).
    destruct Hedge as (Hx & Hy & Hon).
    assert (Hbox : ((sx <=? x) && (x <=? ex) && ((sy <=? y) && (y <=? ey)))%Z = true).
    { rewrite !andb_true_iff, !Z.leb_le. lia. }
    rewrite Hbox. rewrite cell_at_outside by lia. reflexivity.
  - simpl in Hk.
    assert (Hc : ~ in_closed_box c x y) by (apply (Hbefore 0 c); [lia|reflexivity]).
    destruct (RheedMask.bbox c) as [[[sx sy] ex] ey] eqn:Hb.
    destruct ((sx <=? x) && (x <=? ex) && ((sy <=? y) && (y <=? ey)))%Z eqn:Hbox.
    + apply (within_box_closed c x y sx sy ex ey Hb) in Hbox. contradiction.
    + apply (IH (S i) k Hk Hshape Hedge).
      intros j d Hj Hd. apply (Hbefore (S j) d); [lia|exact Hd].
Qed.

(** X19: the box test of [get_region_within] includes the maximal row and
    column, which the region's image does not have: for a point on the
    maximal row or column of the closed box of a region whose image has the
    extent of its bounding box, and outside the closed boxes of all earlier
    regions, the call raises [IndexError]. *)
Theorem get_region_within_edge_raises (regions : list RheedMask.Region) (x y : Z)
    (k : nat) (r : RheedMask.Region) :
  regions !! k = Some r ->
  region_shape r -> on_max_edge r x y ->
  (forall j c, j < k -> regions !! j = Some c -> ~ in_closed_box c x y) ->
  Regions.get_region_within regions x y = Raise IndexError.
Proof. exact (region_within_loop_edge regions x y 0 k r). Qed.

(** The theorem above on the second region of the example pattern and the
    point [(4, 6)] below its last row. *)
Lemma get_region_within_edge_raises_witness :
  Regions.get_region_within (RheedMask.regions two_regions) 4 6 = Raise IndexError.
Proof.
  apply (get_region_within_edge_raises (RheedMask.regions two_regions) 4 6 1
           {| RheedMask.bbox := (0, 5, 4, 8)%Z; RheedMask.image := ones 4 3 |}).
  - reflexivity.
  - unfold region_shape. simpl. lia.
  - unfold on_max_edge. simpl. lia.
  - intros j c Hj Hc. destruct j as [|j]; [|lia]. simpl in Hc. injection Hc as <-.
    unfold in_closed_box. simpl. lia.
Defined.

Lemma filter_twice {A} (p : A -> bool) (l : list A) :
  List.filter p (List.filter p l) = List.filter p l.
Proof.
  induction l as [|x l IH]; simpl; [reflexivity|].
  destruct (p x) eqn:E; simpl; [rewrite E, IH|]; auto.
Qed.

(** X20: [filter_regions] returns the regions of area at least [min_area],
    in their order, whatever [inplace] is: with [inplace=True] the second
    comprehension runs over the already filtered attribute and changes
    nothing; the attribute is the returned list with [inplace=True] and
    untouched otherwise, and filtering the result again returns it
    unchanged. *)
Theorem filter_regions_result (area : RheedMask.Region -> Q)
    (regions : list RheedMask.Region) (min_area : Q) (inplace : bool) :
  snd (Regions.filter_regions area regions min_area inplace)
  = List.filter (fun r => Qle_bool min_area (area r)) regions
  /\ fst (Regions.filter_regions area regions min_area inplace)
     = (if inplace then snd (Regions.filter_regions area regions min_area inplace)
        else regions)
  /\ (forall r, r ∈ snd (Regions.filter_regions area regions min_area inplace) <->
        r ∈ regions /\ (min_area <= area r)%Q)
  /\ Regions.filter_regions area
       (snd (Regions.filter_regions area regions min_area inplace)) min_area true
     = (snd (Regions.filter_regions area regions min_area inplace),
        snd (Regions.filter_regions area regions min_area inplace)).
Proof.
  assert (Hres : snd (Regions.filter_regions area regions min_area inplace)
                 = List.filter (fun r => Qle_bool min_area (area r)) regions).
  { unfold Regions.filter_regions. destruct inplace; cbn [snd];
      [apply filter_twice|reflexivity]. }
  split; [exact Hres|]. split.
  { rewrite Hres. unfold Regions.filter_regions. destruct inplace; reflexivity. }
  split.
  { intros r. rewrite Hres, list_elem_of_In, filter_In, <- list_elem_of_In.
    rewrite Qle_bool_iff. reflexivity. }
  rewrite Hres. unfold Regions.filter_regions. cbn [fst snd].
  rewrite !filter_twice. reflexivity.
Qed.

(** ** The shift of the zeroth Laue circle *)

(** X21: [correct_zero_laue] translates by the displacement of the direct
    beam: it maps the old beam position to the new one, and correcting back
    with the beams exchanged returns the original point. *)
Theorem correct_zero_laue_round_trip (xy : Q * Q) (db ndb : Rheed.blob) :
  (fst (correct_zero_laue (blob_xy db) db ndb) == fst (blob_xy ndb))%Q
  /\ (snd (correct_zero_laue (blob_xy db) db ndb) == snd (blob_xy ndb))%Q
  /\ (fst (correct_zero_laue (correct_zero_laue xy db ndb) ndb db) == fst xy)%Q
  /\ (snd (correct_zero_laue (correct_zero_laue xy db ndb) ndb db) == snd xy)%Q.
Proof.
  destruct db as [[x y] r]. destruct ndb as [[nx ny] nr]. destruct xy as [a b].
  unfold correct_zero_laue, blob_xy. cbn [fst snd].
  repeat split; ring.
Qed.

(** ** Spectra that filling and clipping leave alone *)

Lemma count_mask {A} (f : A -> bool) (l : list A) :
  length (List.filter id (map f l)) = length (List.filter f l).
Proof.
  induction l as [|x l IH]; simpl; [reflexivity|].
  unfold id at 1. destruct (f x); simpl; [f_equal|]; exact IH.
Qed.

Lemma filter_all {A} (f : A -> bool) (l : list A) :
  (forall x, x ∈ l -> f x = true) -> List.filter f l = l.
Proof.
  induction l as [|x l IH]; intros H; simpl; [reflexivity|].
  rewrite (H x) by (apply elem_of_cons; left; reflexivity).
  f_equal. apply IH. intros y Hy. apply H. apply elem_of_cons. right. exact Hy.
Qed.

(** X22: [filling_flat] leaves the spectrum alone, and never calls the
    interpolation, when no sample exceeds [trunc] or when at most two
    samples are at or below [trunc]: the returned object has the fields of
    the receiver, which is returned itself with [inplace=True]. *)
Theorem filling_flat_untouched
    (interp1d_quadratic : list Q -> list Q -> list Q -> exc (list Q))
    (self : Spectrum.t) (trunc : Q) (inplace : bool) :
  Forall (fun x => (x <= trunc)%Q) (Spectrum.spec self)
  \/ length (List.filter (fun x => Qle_bool x trunc) (Spectrum.spec self)) <= 2 ->
  Spectrum.filling_flat interp1d_quadratic self trunc inplace
  = Ok {| Spectrum.receiver := self;
          Spectrum.returned := self;
          Spectrum.is_self := inplace |}.
Proof.
  intros H. unfold Spectrum.filling_flat. cbv zeta. rewrite count_mask.
  set (cnt := length (List.filter (fun x => Qle_bool x trunc) (Spectrum.spec self))).
  assert (Hc : (cnt <? length (Spectrum.spec self)) && (2 <? cnt) = false).
  { destruct H as [H|H].
    - unfold cnt. rewrite filter_all.
      + rewrite Nat.ltb_irrefl. reflexivity.
      + intros x Hx. rewrite Forall_forall in H. apply Qle_bool_iff, H, Hx.
    - apply andb_false_iff. right. apply Nat.ltb_ge. exact H. }
  rewrite Hc, ret_bind. destruct self as [sp w]. destruct inplace; reflexivity.
Qed.

(** The theorem above on a spectrum below the truncation level and an
    interpolation that always fails. *)
Lemma filling_flat_untouched_witness :
  Spectrum.filling_flat (fun _ _ _ => Raise ValueError) three_samples 5 false
  = Ok {| Spectrum.receiver := three_samples;
          Spectrum.returned := three_samples;
          Spectrum.is_self := false |}.
Proof.
  apply (filling_flat_untouched (fun _ _ _ => Raise ValueError) three_samples 5 false).
  left. unfold three_samples. simpl. repeat constructor; discriminate.
Defined.

(** X23: for [clip_min <= clip_max], [clip] keeps the number of samples and
    [ws], brings every sample into [[clip_min, clip_max]] and keeps the
    value of every sample that already lies in that interval. *)
Theorem clip_into_range (self : Spectrum.t) (clip_min clip_max : Q) (inplace : bool) :
  (clip_min <= clip_max)%Q ->
  let s := Spectrum.returned (Spectrum.clip self clip_min clip_max inplace) in
  Spectrum.ws s = Spectrum.ws self
  /\ length (Spectrum.spec s) = length (Spectrum.spec self)
  /\ Forall (fun y => (clip_min <= y)%Q /\ (y <= clip_max)%Q) (Spectrum.spec s)
  /\ forall i x, Spectrum.spec self !! i = Some x ->
       (clip_min <= x)%Q -> (x <= clip_max)%Q ->
       exists y, Spectrum.spec s !! i = Some y /\ (y == x)%Q.
Proof.
  intros Hle s.
  assert (Hs : s = {| Spectrum.spec := Spectrum.np_clip clip_min clip_max (Spectrum.spec self);
                      Spectrum.ws := Spectrum.ws self |}).
  { unfold s, Spectrum.clip, Spectrum._update_spectrum. destruct inplace; reflexivity. }
  rewrite Hs. cbn [Spectrum.spec Spectrum.ws]. unfold Spectrum.np_clip.
  split; [reflexivity|]. split; [apply length_map|]. split.
  - rewrite Forall_forall. intros y Hy.
    change (map ?f ?l) with (f <$> l) in Hy.
    apply list_elem_of_fmap in Hy as (x & -> & _). split.
    + apply Q.min_glb; [|exact Hle]. apply Q.le_max_r.
    + apply Q.le_min_r.
  - intros i x Hi Hlo Hhi.
    change (map ?f ?l) with (f <$> l). rewrite list_lookup_fmap, Hi. simpl.
    eexists. split; [reflexivity|].
    rewrite (Q.max_l x clip_min Hlo). apply Q.min_l. exact Hhi.
Qed.

(** The theorem above on a three-sample spectrum clipped to [[2, 3]]. *)
Lemma clip_into_range_witness :
  let s := Spectrum.returned (Spectrum.clip three_samples 2 3 false) in
  Spectrum.ws s = Spectrum.ws three_samples
  /\ length (Spectrum.spec s) = length (Spectrum.spec three_samples)
  /\ Forall (fun y => (2 <= y)%Q /\ (y <= 3)%Q) (Spectrum.spec s)
  /\ forall i x, Spectrum.spec three_samples !! i = Some x ->
       (2 <= x)%Q -> (x <= 3)%Q ->
       exists y, Spectrum.spec s !! i = Some y /\ (y == x)%Q.
Proof.
  apply (clip_into_range three_samples 2 3 false). discriminate.
Defined.

(** ** The early return of the per-spectrum analysis *)

(** X24: when every peak lies at least [abs_tolerant] to the right of the
    midpoint sample, [Spectrum.analyze_peaks_distance_cent] finds no centre
    peak and returns the empty list without running the engine. *)
Theorem spectrum_analyze_without_center (self : Spectrum.t) (peaks : list nat)
    (tolerant abs_tolerant : Q) (allow_discontinue : Z) :
  peaks <> [] ->
  (forall p, p ∈ peaks -> p < length (Spectrum.ws self)) ->
  (forall p, p ∈ peaks ->
     (abs_tolerant
      <= inject_Z (Z.of_nat p)
         - inject_Z (Z.of_nat (length (Spectrum.ws self) / 2)))%Q) ->
  Spectrum.analyze_peaks_distance_cent self peaks tolerant abs_tolerant
    allow_discontinue = Ok [].
Proof.
  intros Hne Hrange Hright. unfold Spectrum.analyze_peaks_distance_cent.
  destruct (py_max_total (Spectrum.ws self)) as [gmax Hmax].
  { destruct peaks as [|p peaks]; [congruence|].
    specialize (Hrange p ltac:(apply elem_of_cons; left; reflexivity)).
    destruct (Spectrum.ws self); [simpl in Hrange; lia|discriminate]. }
  rewrite Hmax, ret_bind.
  unfold Spectrum.consumed_interdist, Spectrum.get_peaks_distance.
  destruct (take_idx_total (Spectrum.ws self) peaks Hrange) as [pw Hpw].
  rewrite Hpw, !ret_bind. cbn [get_peaks_distance negb]. rewrite ret_bind.
  set (c := inject_Z (Z.of_nat (length (Spectrum.ws self) / 2))) in *.
  pose proof (center_idx_cases (map (fun p => inject_Z (Z.of_nat p)) peaks)
                c abs_tolerant) as Hc.
  destruct (map (fun p => inject_Z (Z.of_nat p)) peaks) as [|q0 qs] eqn:Hq.
  { destruct peaks; [congruence|discriminate Hq]. }
  destruct Hc as (ci & p & Hp & _ & _ & Hci).
  rewrite Hci, ret_bind.
  assert (Hfar : Qltb (p - c) abs_tolerant = false).
  { apply list_elem_of_lookup_2 in Hp. rewrite <- Hq in Hp.
    change (map ?f ?l) with (f <$> l) in Hp.
    apply list_elem_of_fmap in Hp as (n & -> & Hn).
    destruct (Qltb _ abs_tolerant) eqn:E; [|reflexivity].
    apply Qltb_lt in E. specialize (Hright n Hn). lra. }
  rewrite Hfar. reflexivity.
Qed.

(** The theorem above on the scenario spectrum with peaks at 80, 90 and 100. *)
Lemma spectrum_analyze_without_center_witness :
  Spectrum.analyze_peaks_distance_cent scenario_spectrum [80; 90; 100]
    (1 # 100) 15 1 = Ok [].
Proof.
  apply (spectrum_analyze_without_center scenario_spectrum [80; 90; 100]
           (1 # 100) 15 1).
  - discriminate.
  - intros p Hp. repeat (apply elem_of_cons in Hp as [->|Hp]);
      [| | |apply elem_of_nil in Hp; contradiction]; vm_compute; lia.
  - intros p Hp. repeat (apply elem_of_cons in Hp as [->|Hp]);
      [| | |apply elem_of_nil in Hp; contradiction]; vm_compute; discriminate.
Defined.

(** ** The families of the flattened path *)

Lemma index_of_lookup {A} (l : list A) (k : nat) (x : A) :
  l !! k = Some x -> index l (Z.of_nat k) = Ok x.
Proof.
  intros H. unfold index. apply lookup_lt_Some in H as Hlt.
  destruct (Z.ltb_spec (Z.of_nat k) 0); [lia|].
  destruct (Z.leb_spec 0 (Z.of_nat k)); [|lia].
  destruct (Z.ltb_spec (Z.of_nat k) (Z.of_nat (length l))); [|lia].
  cbn [andb]. rewrite Nat2Z.id, H. reflexivity.
Qed.

(** X25: in the flattened path, when a centre peak was found (its index
    [ci] is not [-1]), the centre lies inside the pattern's columns
    ([0 < ciw <= shape[1]]) and both tolerances are positive, every family
    stored in [collapses_peaks_flatten_ana_res] contains the centre index
    [ci], has at least two members, and its members are positions of the
    flattened peak table. *)
Theorem flattened_families_contain_center (self self' : RheedMask.t)
    (tolerant abs_tolerant : Q) (allow_discontinue : Z) :
  RheedMask.analyze_peaks_distance_cent self tolerant abs_tolerant
    allow_discontinue = Ok self' ->
  (0 <= RheedMask.collapses_peaks_flatten_ci self')%Z ->
  (0 < RheedMask.collapses_peaks_flatten_ciw self')%Q ->
  (RheedMask.collapses_peaks_flatten_ciw self'
   <= inject_Z (Z.of_nat (ncols (RheedMask.pattern self))))%Q ->
  (0 < tolerant)%Q -> (0 < abs_tolerant)%Q ->
  Forall (fun r =>
            Z.to_nat (RheedMask.collapses_peaks_flatten_ci self') ∈ peaks_family r
            /\ 2 <= length (peaks_family r)
            /\ forall i, i ∈ peaks_family r ->
                 i < length (RheedMask.collapses_peaks_ws_flatten self'))
    (RheedMask.collapses_peaks_flatten_ana_res self').
Proof.
  unfold RheedMask.analyze_peaks_distance_cent.
  intros H Hci Hcw0 Hcw1 Htol Hatol.
  apply bind_Ok in H as (s1 & Hflat & H).
  apply bind_Ok in H as (ci & Hcidx & H).
  apply bind_Ok in H as (ciw & Hciw & H).
  apply bind_Ok in H as (inter & Hinter & H).
  apply bind_Ok in H as (nbr & Hnbr & H).
  apply bind_Ok in H as (ana & Hana & H).
  apply mret_Ok in H. subst self'. cbn in Hci, Hcw0, Hcw1 |- *.
  assert (Hpat : RheedMask.pattern s1 = RheedMask.pattern self).
  { unfold RheedMask._flatten_peaks in Hflat.
    apply bind_Ok in Hflat as (a & _ & Hflat).
    apply bind_Ok in Hflat as (b & _ & Hflat).
    apply bind_Ok in Hflat as (c & _ & Hflat).
    apply mret_Ok in Hflat. subst s1. reflexivity. }
  rewrite Hpat in *.
  set (allpeaks := RheedMask.collapses_peaks_ws_flatten s1) in *.
  apply (index_nonneg _ _ _ Hci) in Hciw as Hcl.
  apply (index_nonneg _ _ _ Hci) in Hnbr as Hrow.
  unfold RheedMask.consumed_interdist in Hinter. cbn [get_peaks_distance negb] in Hinter.
  apply mret_Ok in Hinter. subst inter.
  destruct (lookup_distance_matrix allpeaks allpeaks _ _ _ _ Hcl Hcl)
    as (row0 & Hrow0 & Hd0).
  destruct (lookup_negate_tril _ _ _ _ _ Hrow0 Hd0) as (row1 & Hrow1 & Hd1).
  rewrite Hrow in Hrow1. injection Hrow1 as <-.
  rewrite Nat.leb_refl in Hd1.
  assert (Hlen : length nbr = length allpeaks).
  { pose proof (negate_tril_row_length _ _ (distance_matrix_row_length allpeaks allpeaks))
      as Hall.
    rewrite Forall_forall in Hall. apply Hall. eapply list_elem_of_lookup_2, Hrow. }
  assert (Hidx : index nbr ci = Ok (- Qabs (ciw - ciw))%Q).
  { rewrite <- (Z2Nat.id ci Hci). apply index_of_lookup, Hd1. }
  assert (Hz : (- Qabs (ciw - ciw) == 0)%Q).
  { assert (E : (ciw - ciw == 0)%Q) by ring. rewrite E. reflexivity. }
  pose proof (analyze_center_member _ _ _ _ _ _ _ _ _ _ _ Hci Hidx Hz
                Hcw0 Hcw1 Htol Hatol Hana) as Hcenter.
  pose proof (analyze_members_in_range _ _ _ _ _ _ _ _ _ _ Hana) as Hmem.
  rewrite Forall_forall in *. intros r Hr.
  destruct (Hmem r Hr) as (_ & Hlt & H2).
  split; [apply Hcenter, Hr|]. split; [exact H2|].
  intros i Hi. rewrite <- Hlen. apply Hlt, Hi.
Qed.

(** The theorem above on the pattern with two regions. *)
Lemma flattened_families_contain_center_witness :
  exists self',
    RheedMask.analyze_peaks_distance_cent two_regions (1 # 100) 2 1 = Ok self'
    /\ length (RheedMask.collapses_peaks_flatten_ana_res self') = 1
    /\ Forall (fun r =>
            Z.to_nat (RheedMask.collapses_peaks_flatten_ci self') ∈ peaks_family r
            /\ 2 <= length (peaks_family r)
            /\ forall i, i ∈ peaks_family r ->
                 i < length (RheedMask.collapses_peaks_ws_flatten self'))
         (RheedMask.collapses_peaks_flatten_ana_res self').
Proof.
  eexists. split; [vm_compute; reflexivity|]. split; [reflexivity|].
  apply (flattened_families_contain_center two_regions _ (1 # 100) 2 1).
  - vm_compute. reflexivity.
  - vm_compute. discriminate.
  - vm_compute. reflexivity.
  - vm_compute. discriminate.
  - reflexivity.
  - reflexivity.
Defined.

(** ** The peak tables of the regions *)

(** Position by position, the concatenated tables name a peak of a row,
    its position and the number of the row. *)
Lemma concat_tables_aligned (tables : list (list nat * list Q)) (g : nat -> nat)
    (j rid : nat) :
  Forall (fun t => length (snd t) = length (fst t)) tables ->
  concat (imap (fun i ps => replicate (length ps) (g i)) (map fst tables)) !! j
  = Some rid ->
  exists i ps wl o,
    rid = g i /\ tables !! i = Some (ps, wl) /\ o < length ps
    /\ concat (map fst tables) !! j = ps !! o
    /\ concat (map snd tables) !! j = wl !! o.
Proof.
  revert g j. induction tables as [|[ps wl] tables IH]; intros g j Hlen Hj.
  - discriminate Hj.
  - apply Forall_cons in Hlen as [Hl Hlen]. cbn [fst snd] in Hl.
    cbn [map imap concat] in Hj |- *. cbn [fst snd].
    destruct (Nat.lt_ge_cases j (length ps)) as [Hlt|Hge].
    + rewrite lookup_app_l in Hj by (rewrite length_replicate; exact Hlt).
      apply lookup_replicate in Hj as [-> _].
      exists 0, ps, wl, j. split; [reflexivity|]. split; [reflexivity|].
      split; [exact Hlt|]. split; apply lookup_app_l; lia.
    + rewrite lookup_app_r in Hj by (rewrite length_replicate; exact Hge).
      rewrite length_replicate in Hj.
      destruct (IH (fun i => g (S i)) (j - length ps) Hlen Hj)
        as (i & ps' & wl' & o & -> & Hi & Ho & Hp & Hw).
      exists (S i), ps', wl', o. split; [reflexivity|]. split; [exact Hi|].
      split; [exact Ho|]. split.
      * rewrite lookup_app_r by lia. exact Hp.
      * rewrite lookup_app_r by lia. rewrite Hl. exact Hw.
Qed.

Lemma concat_tables_length (tables : list (list nat * list Q)) (g : nat -> nat) :
  Forall (fun t => length (snd t) = length (fst t)) tables ->
  length (concat (map snd tables)) = length (concat (map fst tables))
  /\ length (concat (imap (fun i ps => replicate (length ps) (g i)) (map fst tables)))
     = length (concat (map fst tables)).
Proof.
  revert g. induction tables as [|[ps wl] tables IH]; intros g Hlen.
  - split; reflexivity.
  - apply Forall_cons in Hlen as [Hl Hlen]. cbn [fst snd] in Hl.
    cbn [map imap concat fst snd]. rewrite !length_app, length_replicate, Hl.
    destruct (IH (fun i => g (S i)) Hlen) as [H1 H2].
    split; [rewrite H1; reflexivity|].
    unfold compose. rewrite H2. reflexivity.
Qed.

(** X26: whenever [fit_collapse_peaks] returns, whatever the peak finder,
    the tables it builds can be flattened: [_flatten_peaks] succeeds on
    them, the flattened positions are in ascending order, the three
    flattened tables have one length, and every flattened entry stays
    attached to its region: the region recorded at position [k] has a
    collapse that is not [None], the peak at [k] is one of the peaks found
    in that collapse, and its flattened position is the collapse's
    coordinate at the peak. *)
Theorem fit_collapse_peaks_flatten
    (find_spectrum_peaks : Spectrum.t -> exc (list nat))
    (collapses : list (option Spectrum.t)) (self s1 : RheedMask.t) :
  PeakTables.fit_collapse_peaks find_spectrum_peaks collapses self = Ok s1 ->
  exists s2,
    RheedMask._flatten_peaks s1 = Ok s2
    /\ StronglySorted Qle (RheedMask.collapses_peaks_ws_flatten s2)
    /\ length (RheedMask.collapses_peaks_flatten s2)
       = length (RheedMask.collapses_peaks_ws_flatten s2)
    /\ length (RheedMask.collapses_peaks_flatten_regions s2)
       = length (RheedMask.collapses_peaks_ws_flatten s2)
    /\ forall k rid,
         RheedMask.collapses_peaks_flatten_regions s2 !! k = Some rid ->
         exists cs ps p w,
           collapses !! rid = Some (Some cs)
           /\ find_spectrum_peaks cs = Ok ps
           /\ RheedMask.collapses_peaks_flatten s2 !! k = Some p
           /\ p ∈ ps
           /\ RheedMask.collapses_peaks_ws_flatten s2 !! k = Some w
           /\ Spectrum.ws cs !! p = Some w.
Proof.
  unfold PeakTables.fit_collapse_peaks. intros H.
  apply bind_Ok in H as (tables & Htab & H). apply mret_Ok in H.
  assert (Hrows : forall i ps wl, tables !! i = Some (ps, wl) ->
            (ps = [] /\ wl = [])
            \/ exists cs, collapses !! i = Some (Some cs)
                 /\ find_spectrum_peaks cs = Ok ps
                 /\ take_idx (Spectrum.ws cs) ps = Ok wl).
  { intros i ps wl Hi.
    assert (Hlen := mapM_Ok_length _ _ _ Htab).
    destruct (lookup_lt_is_Some_2 collapses i) as [ocs Hcs].
    { rewrite <- Hlen. eapply lookup_lt_Some, Hi. }
    destruct (mapM_Ok_lookup _ _ _ _ _ Htab Hcs) as (y & Hy & Hfit).
    rewrite Hi in Hy. injection Hy as <-.
    unfold PeakTables.fit_one in Hfit. destruct ocs as [cs|].
    - apply bind_Ok in Hfit as (ps' & Hps & Hfit).
      apply bind_Ok in Hfit as (w & Hw & Hfit). apply mret_Ok in Hfit.
      injection Hfit as <- <-. right. eauto.
    - apply mret_Ok in Hfit. injection Hfit as <- <-. left. auto. }
  assert (Hshape : Forall (fun t => length (snd t) = length (fst t)) tables).
  { rewrite Forall_forall. intros [ps wl] Hin.
    apply list_elem_of_lookup in Hin as [i Hi].
    destruct (Hrows i ps wl Hi) as [[-> ->]|(cs & _ & _ & Hw)]; [reflexivity|].
    apply (mapM_Ok_length _ _ _ Hw). }
  destruct (concat_tables_length tables (fun i => i) Hshape) as [Hlw Hlr].
  destruct (flatten_peaks_table s1) as (s2 & Hs2 & Hsorted & Hperm & Halign).
  { subst s1. cbn. symmetry. exact Hlw. }
  { subst s1. cbn. rewrite Hlr. symmetry. exact Hlw. }
  exists s2. split; [exact Hs2|]. split; [exact Hsorted|].
  assert (Hpl : forall k, k < length (RheedMask.collapses_peaks_flatten_pids s2) ->
            exists p, RheedMask.collapses_peaks_flatten_pids s2 !! k = Some p
              /\ p < length (concat (map snd tables))).
  { intros k Hk. destruct (lookup_lt_is_Some_2 _ _ Hk) as [p Hp].
    exists p. split; [exact Hp|].
    apply list_elem_of_lookup_2 in Hp. rewrite Hperm in Hp.
    apply elem_of_seq in Hp. subst s1. cbn in Hp. lia. }
  assert (Hlens : length (RheedMask.collapses_peaks_flatten s2)
                  = length (RheedMask.collapses_peaks_ws_flatten s2)
                  /\ length (RheedMask.collapses_peaks_flatten_regions s2)
                     = length (RheedMask.collapses_peaks_ws_flatten s2)).
  { unfold RheedMask._flatten_peaks in Hs2.
    apply bind_Ok in Hs2 as (a & Ha & Hs2).
    apply bind_Ok in Hs2 as (b & Hb & Hs2).
    apply bind_Ok in Hs2 as (c & Hc & Hs2).
    apply mret_Ok in Hs2. subst s2. cbn.
    apply mapM_Ok_length in Ha, Hb, Hc. lia. }
  split; [apply Hlens|]. split; [apply Hlens|].
  intros k rid Hk.
  assert (Hkp : k < length (RheedMask.collapses_peaks_flatten_pids s2)).
  { apply lookup_lt_Some in Hk.
    assert (length (RheedMask.collapses_peaks_flatten_pids s2)
            = length (RheedMask.collapses_peaks_flatten_regions s2)); [|lia].
    unfold RheedMask._flatten_peaks in Hs2.
    apply bind_Ok in Hs2 as (a & Ha & Hs2).
    apply bind_Ok in Hs2 as (b & Hb & Hs2).
    apply bind_Ok in Hs2 as (c & Hc & Hs2).
    apply mret_Ok in Hs2. subst s2. cbn.
    apply mapM_Ok_length in Hc. lia. }
  destruct (Hpl k Hkp) as (pos & Hpos & _).
  destruct (Halign k pos Hpos) as (Hw & Hp & Hr).
  rewrite Hk in Hr. symmetry in Hr. subst s1. cbn in Hw, Hp, Hr.
  destruct (concat_tables_aligned tables (fun i => i) pos rid Hshape Hr)
    as (i & ps & wl & o & -> & Hi & Ho & Hpp & Hww).
  destruct (Hrows i ps wl Hi) as [[-> _]|(cs & Hcs & Hfind & Htake)];
    [simpl in Ho; lia|].
  destruct (lookup_lt_is_Some_2 _ _ Ho) as [p Hpo].
  destruct (take_idx_lookup _ _ _ _ _ Htake Hpo) as (w & Hwo & Hwp).
  exists cs, ps, p, w. split; [exact Hcs|]. split; [exact Hfind|].
  split; [rewrite Hp, Hpp; exact Hpo|].
  split; [eapply list_elem_of_lookup_2, Hpo|].
  split; [rewrite Hw, Hww; exact Hwo|exact Hwp].
Qed.

(** The theorem above on three collapses, the second of them [None], with
    the peaks of a collapse at the samples above 4. *)
Lemma fit_collapse_peaks_flatten_witness :
  exists s1 s2,
    PeakTables.fit_collapse_peaks peaks_above_4 some_collapses two_regions
    = Ok s1
    /\ RheedMask.collapses_peaks s1 = [[1; 3]; []; [1]]
    /\ RheedMask._flatten_peaks s1 = Ok s2
    /\ StronglySorted Qle (RheedMask.collapses_peaks_ws_flatten s2)
    /\ length (RheedMask.collapses_peaks_flatten s2)
       = length (RheedMask.collapses_peaks_ws_flatten s2)
    /\ length (RheedMask.collapses_peaks_flatten_regions s2)
       = length (RheedMask.collapses_peaks_ws_flatten s2)
    /\ forall k rid,
         RheedMask.collapses_peaks_flatten_regions s2 !! k = Some rid ->
         exists cs ps p w,
           some_collapses !! rid = Some (Some cs)
           /\ peaks_above_4 cs = Ok ps
           /\ RheedMask.collapses_peaks_flatten s2 !! k = Some p
           /\ p ∈ ps
           /\ RheedMask.collapses_peaks_ws_flatten s2 !! k = Some w
           /\ Spectrum.ws cs !! p = Some w.
Proof.
  destruct (PeakTables.fit_collapse_peaks peaks_above_4 some_collapses
              two_regions) as [s1|e] eqn:Hs1; [|vm_compute in Hs1; discriminate].
  exists s1.
  destruct (fit_collapse_peaks_flatten _ _ two_regions s1 Hs1) as (s2 & Hs2).
  exists s2. split; [reflexivity|]. split; [|exact Hs2].
  vm_compute in Hs1. injection Hs1 as <-. reflexivity.
Defined.

(** ** The labels of the patterns after clustering *)

Section PhaserLoops.
Import RHEEDMaskDistancePhaser.

Lemma with_labels_twice (o : RheedMask.t) (a u b v : list Z) :
  with_labels (with_labels o a u) b v = with_labels o b v.
Proof. reflexivity. Qed.

Lemma with_labels_same (o : RheedMask.t) :
  with_labels o (RheedMask.cluster_labels o) (RheedMask.cluster_labels_unique o) = o.
Proof. destruct o. reflexivity. Qed.

(** A loop that updates each listed object with an idempotent function. *)
Lemma foldl_alter_lookup (f : RheedMask.t -> RheedMask.t) (rdms : list nat)
    (s : list RheedMask.t) (id : nat) :
  (forall o, f (f o) = f o) ->
  foldl (fun s rdm => alter f rdm s) s rdms !! id
  = if decide (id ∈ rdms) then f <$> s !! id else s !! id.
Proof.
  intros Hidem. revert s. induction rdms as [|r rdms IH]; intros s.
  - simpl. destruct (decide (id ∈ [])) as [H|_]; [|reflexivity].
    apply elem_of_nil in H. contradiction.
  - cbn [foldl]. rewrite IH. destruct (decide (r = id)) as [->|Hne].
    + rewrite list_lookup_alter_eq.
      destruct (decide (id ∈ id :: rdms)) as [_|Hn];
        [|exfalso; apply Hn, elem_of_cons; left; reflexivity].
      destruct (decide (id ∈ rdms)); [|reflexivity].
      destruct (s !! id); simpl; [rewrite Hidem|]; reflexivity.
    + rewrite list_lookup_alter_ne by exact Hne.
      destruct (decide (id ∈ rdms)) as [Hin|Hn];
        destruct (decide (id ∈ r :: rdms)) as [Hin'|Hn']; try reflexivity.
      * exfalso. apply Hn'. apply elem_of_cons. right. exact Hin.
      * exfalso. apply elem_of_cons in Hin' as [->|Hin']; [congruence|contradiction].
Qed.

Lemma foldl_alter_length (f : RheedMask.t -> RheedMask.t) (rdms : list nat)
    (s : list RheedMask.t) :
  length (foldl (fun s rdm => alter f rdm s) s rdms) = length s.
Proof.
  revert s. induction rdms as [|r rdms IH]; intros s; [reflexivity|].
  cbn [foldl]. rewrite IH. apply length_alter.
Qed.

Lemma assign_labels_bucket (rdms : list nat) (zs : list (Z * (nat * nat * spacing)))
    (s : list RheedMask.t) :
  (forall z, z ∈ zs -> fst (fst (snd z)) < length rdms) ->
  exists s',
    assign_labels s rdms zs = Ok s'
    /\ length s' = length s
    /\ forall id,
         s' !! id
         = (fun o => with_labels o (RheedMask.cluster_labels o ++ bucket rdms id zs)
                       (RheedMask.cluster_labels_unique o)) <$> s !! id.
Proof.
  revert s. induction zs as [|[label [[i j] d]] zs IH]; intros s Hidx.
  - exists s. split; [reflexivity|]. split; [reflexivity|].
    intros id. cbn [bucket flat_map]. destruct (s !! id) as [o|]; [|reflexivity].
    simpl. rewrite app_nil_r, with_labels_same. reflexivity.
  - cbn [assign_labels fst].
    destruct (lookup_lt_is_Some_2 rdms i) as [rdm Hrdm].
    { apply (Hidx (label, (i, j, d))). apply elem_of_cons. left. reflexivity. }
    apply nth_exc_Ok in Hrdm as Hnth. rewrite Hnth, ret_bind.
    destruct (IH (alter (fun o => with_labels o (RheedMask.cluster_labels o ++ [label])
                                   (RheedMask.cluster_labels_unique o)) rdm s))
      as (s' & Hs' & Hlen & Hlook).
    { intros z Hz. apply Hidx. apply elem_of_cons. right. exact Hz. }
    exists s'. split; [exact Hs'|]. split; [rewrite Hlen; apply length_alter|].
    intros id. rewrite Hlook. unfold bucket at 2. cbn [flat_map fst snd].
    fold (bucket rdms id zs).
    destruct (decide (rdm = id)) as [->|Hne].
    + rewrite list_lookup_alter_eq. rewrite decide_True by exact Hrdm.
      destruct (s !! id) as [o|]; [|reflexivity]. simpl.
      rewrite <- app_assoc. reflexivity.
    + rewrite list_lookup_alter_ne by exact Hne.
      rewrite decide_False by (rewrite Hrdm; congruence). reflexivity.
Qed.

Lemma bucket_unlisted (rdms : list nat) (id : nat)
    (zs : list (Z * (nat * nat * spacing))) :
  id ∉ rdms -> bucket rdms id zs = [].
Proof.
  intros Hout. unfold bucket. induction zs as [|z zs IH]; [reflexivity|].
  cbn [flat_map]. rewrite decide_False; [exact IH|].
  intros Hz. apply list_elem_of_lookup_2 in Hz. contradiction.
Qed.
End PhaserLoops.

Section PhaserSlices.
Import RHEEDMaskDistancePhaser.
Variable store : list RheedMask.t.

Lemma labels_at_app (v : nat) (a b : list (Z * (nat * nat * spacing))) :
  labels_at v (a ++ b) = labels_at v a ++ labels_at v b.
Proof. apply flat_map_app. Qed.

Lemma labels_at_none (v : nat) (zs : list (Z * (nat * nat * spacing))) :
  (forall z, z ∈ zs -> fst (fst (snd z)) <> v) -> labels_at v zs = [].
Proof.
  induction zs as [|z zs IH]; intros H; [reflexivity|].
  cbn [labels_at flat_map].
  rewrite decide_False by (apply H, elem_of_cons; left; reflexivity).
  apply IH. intros y Hy. apply H, elem_of_cons. right. exact Hy.
Qed.

Lemma labels_at_block (v i : nat) (h : nat -> nat) (ress : list PeakAnalysisResult)
    (L : list Z) :
  length L = length ress ->
  labels_at v (zip L (imap (fun j res => ((i, h j), avg_dist res)) ress))
  = if decide (i = v) then L else [].
Proof.
  revert h L. induction ress as [|res ress IH]; intros h L Hlen.
  - destruct L; [|discriminate]. destruct (decide (i = v)); reflexivity.
  - destruct L as [|l L]; [discriminate|]. injection Hlen as Hlen.
    change (labels_at v (zip (l :: L)
              (imap (fun j res => ((i, h j), avg_dist res)) (res :: ress))))
      with ((if decide (i = v) then [l] else [])
            ++ labels_at v (zip L (imap (fun j res => ((i, (h ∘ S) j), avg_dist res))
                                        ress))).
    rewrite (IH (h ∘ S) L Hlen).
    destruct (decide (i = v)); reflexivity.
Qed.

Lemma blocks_cons (g : nat -> nat) (r : nat) (rs : list nat) :
  blocks_from g store (r :: rs)
  = imap (fun j res => ((g 0, j), avg_dist res)) (ana_res_of store r)
    ++ blocks_from (g ∘ S) store rs.
Proof. reflexivity. Qed.

Lemma blocks_length (g g' : nat -> nat) (rs : list nat) :
  length (blocks_from g store rs) = length (blocks_from g' store rs).
Proof.
  revert g g'. induction rs as [|r rs IH]; intros g g'; [reflexivity|].
  rewrite !blocks_cons, !length_app, !length_imap, (IH (g ∘ S) (g' ∘ S)).
  reflexivity.
Qed.

Lemma blocks_entries (g : nat -> nat) (rs : list nat) (e : nat * nat * spacing) :
  e ∈ blocks_from g store rs -> exists k, k < length rs /\ fst (fst e) = g k.
Proof.
  revert g. induction rs as [|r rs IH]; intros g He.
  - apply elem_of_nil in He. contradiction.
  - rewrite blocks_cons in He. apply elem_of_app in He as [He|He].
    + apply list_elem_of_lookup in He as [j Hj].
      rewrite list_lookup_imap in Hj.
      destruct (ana_res_of store r !! j); [|discriminate].
      simpl in Hj. injection Hj as <-. exists 0. split; [simpl; lia|reflexivity].
    + destruct (IH _ He) as (k & Hk & Hg).
      exists (S k). split; [simpl; lia|exact Hg].
Qed.

(** The labels paired with one pattern are one slice of the label array,
    after the labels of the patterns listed before it. *)
Lemma labels_at_slice (rs : list nat) (g : nat -> nat) (L : list Z) (k rdm : nat) :
  (forall a b, g a = g b -> a = b) ->
  length L = length (blocks_from g store rs) ->
  rs !! k = Some rdm ->
  exists L1 L2 L3,
    L = L1 ++ L2 ++ L3
    /\ length L1 = length (blocks_from g store (take k rs))
    /\ length L2 = length (ana_res_of store rdm)
    /\ labels_at (g k) (zip L (blocks_from g store rs)) = L2.
Proof.
  revert g L k. induction rs as [|r rs IH]; intros g L k Hinj Hlen Hk;
    [discriminate Hk|].
  rewrite blocks_cons in Hlen. rewrite length_app, length_imap in Hlen.
  set (n := length (ana_res_of store r)) in *.
  assert (HL : L = take n L ++ drop n L) by (symmetry; apply take_drop).
  assert (Hn : length (take n L) = n) by (rewrite length_take; lia).
  assert (F : labels_at (g k) (zip L (blocks_from g store (r :: rs)))
              = (if decide (g 0 = g k) then take n L else [])
                ++ labels_at (g k) (zip (drop n L) (blocks_from (g ∘ S) store rs))).
  { rewrite blocks_cons. rewrite <- (take_drop n L) at 1.
    pose proof (zip_with_app pair (take n L) (drop n L)
                  (imap (fun j res => ((g 0, j), avg_dist res)) (ana_res_of store r))
                  (blocks_from (g ∘ S) store rs)) as HZ.
    rewrite HZ by (rewrite length_imap; exact Hn).
    rewrite labels_at_app.
    rewrite <- (labels_at_block (g k) (g 0) (fun j => j) (ana_res_of store r)
                  (take n L) Hn).
    reflexivity. }
  destruct k as [|k].
  - simpl in Hk. injection Hk as ->.
    exists [], (take n L), (drop n L).
    split; [exact HL|]. split; [reflexivity|]. split; [exact Hn|].
    rewrite F, decide_True by reflexivity.
    rewrite labels_at_none; [apply app_nil_r|].
    intros [l e] Hz. apply elem_of_zip_r in Hz. cbn [fst snd].
    apply blocks_entries in Hz as (k' & _ & Hz). rewrite Hz.
    unfold compose. intros Heq. apply Hinj in Heq. discriminate.
  - simpl in Hk.
    destruct (IH (g ∘ S) (drop n L) k) as (L1 & L2 & L3 & HLd & H1 & H2 & H3).
    + intros a b Hab. unfold compose in Hab. apply Hinj in Hab. lia.
    + rewrite length_drop. lia.
    + exact Hk.
    + exists (take n L ++ L1), L2, L3.
      split; [rewrite <- app_assoc, <- HLd; exact HL|].
      split.
      * cbn [take]. rewrite blocks_cons, !length_app, length_imap, Hn, H1.
        reflexivity.
      * split; [exact H2|].
        rewrite F, decide_False by (intros Heq; apply Hinj in Heq; discriminate).
        exact H3.
Qed.
End PhaserSlices.

Section RunCluster.
Import RHEEDMaskDistancePhaser.

End RunCluster.


(** ** The refined spacing of a family *)

Lemma select_lookup {A} (m : list bool) (l : list A) (t : nat) (x : A) :
  select m l !! t = Some x -> exists i, m !! i = Some true /\ l !! i = Some x.
Proof.
  revert l t. induction m as [|b m IH]; intros [|y l] t H;
    try (simpl in H; discriminate H).
  cbn [select] in H. destruct b.
  - destruct t as [|t].
    + injection H as <-. exists 0. split; reflexivity.
    + destruct (IH l t H) as (i & Hi & Hl). exists (S i). auto.
  - destruct (IH l t H) as (i & Hi & Hl). exists (S i). auto.
Qed.

Lemma select_zip {A B} (m : list bool) (l1 : list A) (l2 : list B) :
  select m (zip l1 l2) = zip (select m l1) (select m l2).
Proof.
  revert l1 l2. induction m as [|b m IH]; intros [|x l1] [|y l2]; try reflexivity.
  - cbn [select zip_with]. destruct b; [|destruct (select m l1); reflexivity].
    destruct (select m l1); reflexivity.
  - cbn [select zip_with]. destruct b; cbn [zip_with]; rewrite IH; reflexivity.
Qed.

Lemma Qabs_idem (a : Q) : (Qabs (Qabs a) == Qabs a)%Q.
Proof. apply Qabs_pos, Qabs_nonneg. Qed.

(** Every matched peak lies within the bound of the grid point it hit. *)
Lemma match_grid_pairs (cnd grid : list Q) (bound : Q) idx gidx t i g :
  match_grid cnd grid bound = Ok (idx, gidx) ->
  idx !! t = Some i -> gidx !! t = Some g ->
  exists di x, cnd !! i = Some di /\ grid !! g = Some x
               /\ (Qabs (di - x) < bound)%Q.
Proof.
  unfold match_grid. destruct grid as [|g0 grid0] eqn:Eg; [discriminate|].
  rewrite <- Eg. clear Eg g0 grid0.
  intros H Hi Hg.
  apply bind_Ok in H as (close & Hclose & H).
  apply bind_Ok in H as (match_error & Herr & H).
  apply mret_Ok in H. injection H as <- <-.
  set (sel := map (fun e => Qltb (Qabs e) bound) match_error) in *.
  assert (Hz : zip (where_ sel) (select sel close) !! t = Some (i, g)).
  { apply lookup_zip_with_Some. exists i, g. auto. }
  unfold where_ in Hz. rewrite <- select_zip in Hz.
  apply select_lookup in Hz as (k & Hk & Hz).
  apply lookup_zip_with_Some in Hz as (i' & g' & Heq & Hseq & Hcl).
  injection Heq as <- <-. apply lookup_seq in Hseq as [Hseq _]. simpl in Hseq. subst k.
  unfold sel in Hk. change (map ?f ?l) with (f <$> l) in Hk.
  rewrite list_lookup_fmap in Hk.
  destruct (match_error !! i) as [e|] eqn:He; [|discriminate Hk].
  simpl in Hk. injection Hk as Hk. apply Qltb_lt in Hk.
  assert (Hlen := mapM_Ok_length _ _ _ Herr).
  destruct (lookup_lt_is_Some_2 (zip (map (map Qabs) (distance_matrix cnd grid)) close) i)
    as [[row g'] Hrow].
  { rewrite <- Hlen. eapply lookup_lt_Some, He. }
  destruct (mapM_Ok_lookup _ _ _ _ _ Herr Hrow) as (e' & He' & Hnth).
  rewrite He in He'. injection He' as <-.
  apply lookup_zip_with_Some in Hrow as (row' & g'' & Heq & Hrow & Hcl').
  injection Heq as <- <-. rewrite Hcl in Hcl'. injection Hcl' as <-.
  simpl in Hnth. apply nth_exc_Ok in Hnth.
  unfold distance_matrix in Hrow. change (map ?f ?l) with (f <$> l) in Hrow.
  rewrite !list_lookup_fmap in Hrow.
  destruct (cnd !! i) as [di|] eqn:Hdi; [|discriminate Hrow].
  simpl in Hrow. injection Hrow as <-.
  change (map ?f ?l) with (f <$> l) in Hnth. rewrite !list_lookup_fmap in Hnth.
  destruct (grid !! g) as [x|] eqn:Hx; [|discriminate Hnth].
  simpl in Hnth. injection Hnth as <-.
  exists di, x. split; [reflexivity|]. split; [reflexivity|].
  assert (E : (Qabs (Qabs (Qabs (di - x))) == Qabs (di - x))%Q).
  { transitivity (Qabs (Qabs (di - x))); apply Qabs_idem. }
  eapply Qle_lt_trans; [|exact Hk]. rewrite E. apply Qle_refl.
Qed.

Lemma np_sum_between (c b : Q) (R : list Q) :
  Forall (fun r => (Qabs (r - c) < b)%Q) R ->
  (inject_Z (Z.of_nat (length R)) * (c - b) <= np_sum R)%Q
  /\ (np_sum R <= inject_Z (Z.of_nat (length R)) * (c + b))%Q.
Proof.
  induction 1 as [|r R Hr _ [IH1 IH2]].
  - change (np_sum []) with 0%Q. change (inject_Z (Z.of_nat (length (@nil Q)))) with 0%Q.
    split; lra.
  - rewrite np_sum_cons. cbn [length]. rewrite Nat2Z.inj_succ. unfold Z.succ.
    rewrite inject_Z_plus.
    apply Qabs_Qlt_condition in Hr as [Hlo Hhi].
    set (k := inject_Z (Z.of_nat (length R))) in *.
    change (inject_Z 1) with 1%Q. split; nra.
Qed.

Lemma mean_close (c b : Q) (R : list Q) :
  R <> [] ->
  Forall (fun r => (Qabs (r - c) < b)%Q) R ->
  (Qabs (np_sum R / inject_Z (Z.of_nat (length R)) - c) < b)%Q.
Proof.
  intros Hne HR. destruct R as [|r R]; [congruence|].
  apply Forall_cons in HR as [Hr HR].
  destruct (np_sum_between c b R HR) as [H1 H2].
  apply Qabs_Qlt_condition in Hr as [Hlo Hhi].
  set (k := inject_Z (Z.of_nat (length R))) in *.
  assert (Hk : (0 <= k)%Q).
  { unfold k. change 0%Q with (inject_Z 0). rewrite <- Zle_Qle. lia. }
  assert (Hk1 : (inject_Z (Z.of_nat (length (r :: R))) == k + 1)%Q).
  { cbn [length]. rewrite Nat2Z.inj_succ. unfold Z.succ. rewrite inject_Z_plus.
    reflexivity. }
  rewrite Hk1, np_sum_cons.
  apply Qabs_Qlt_condition. split.
  - apply Qlt_minus_iff.
    assert (E : ((r + np_sum R) / (k + 1) - c + - - b
                 == (r + np_sum R - (k + 1) * (c - b)) / (k + 1))%Q)
      by (field; lra).
    rewrite E. apply Qlt_shift_div_l; [lra|]. nra.
  - apply Qlt_minus_iff.
    assert (E : (b + - ((r + np_sum R) / (k + 1) - c)
                 == ((k + 1) * (c + b) - (r + np_sum R)) / (k + 1))%Q)
      by (field; lra).
    rewrite E. apply Qlt_shift_div_l; [lra|]. nra.
Qed.

Lemma integer_abs_ge_1 (m : Z) : m <> 0%Z -> (1 <= Qabs (inject_Z m))%Q.
Proof.
  intros Hm. unfold Qabs, inject_Z. simpl. unfold Qle. simpl. lia.
Qed.

(** The ratios of the matched distances to their non-zero grid multiples
    lie within the bound of the spacing. *)
Lemma ratios_close (dist bound : Q) (ds gs : list Q) :
  (0 < dist)%Q ->
  Forall2 (fun d x => exists m : Z, (x == inject_Z m * dist)%Q
                                    /\ (Qabs (d - x) < bound)%Q) ds gs ->
  let sm := map (fun x => (x / dist)%Q) gs in
  let nz := map (fun m => negb (Qeq_bool m 0)) sm in
  let ratios := map (fun dm => (fst dm / snd dm)%Q)
                    (zip (select nz ds) (select nz sm)) in
  Forall (fun r => (Qabs (r - dist) < bound)%Q) ratios
  /\ length ratios = length (List.filter id nz).
Proof.
  intros Hd H. cbv zeta. induction H as [|d x ds gs (m & Hx & Hb) _ [IH1 IH2]].
  - split; [constructor|reflexivity].
  - cbn [map].
    destruct (negb (Qeq_bool (x / dist) 0)) eqn:Hnz.
    + cbn [select zip_with map length fst snd].
      match goal with |- context [List.filter id (true :: ?l)] =>
        change (List.filter id (true :: l)) with (true :: List.filter id l) end.
      cbn [length].
      split; [|f_equal; exact IH2].
      constructor; [|exact IH1].
      apply negb_true_iff in Hnz.
      assert (Hmq : ~ (x / dist == 0)%Q).
      { intros E. apply Qeq_bool_iff in E. congruence. }
      assert (Hm : m <> 0%Z).
      { intros ->. apply Hmq. rewrite Hx. unfold Qdiv. ring. }
      assert (Hxm : (x / dist == inject_Z m)%Q) by (rewrite Hx; field; lra).
      assert (Hm0 : ~ (inject_Z m == 0)%Q) by (rewrite <- Hxm; exact Hmq).
      assert (E : (d / (x / dist) - dist == (d - x) * / inject_Z m)%Q).
      { rewrite Hxm, Hx. field. exact Hm0. }
      rewrite E, Qabs_Qmult, Qabs_Qinv.
      pose proof (integer_abs_ge_1 m Hm) as H1.
      pose proof (Qabs_nonneg (d - x)) as H0.
      assert (Hinv : (/ Qabs (inject_Z m) <= 1)%Q).
      { apply Qle_shift_inv_r; lra. }
      assert (Hinv0 : (0 < / Qabs (inject_Z m))%Q) by (apply Qinv_lt_0_compat; lra).
      eapply Qle_lt_trans; [|exact Hb]. nra.
    + cbn [select].
      match goal with |- context [List.filter id (false :: ?l)] =>
        change (List.filter id (false :: l)) with (List.filter id l) end.
      split; [exact IH1|exact IH2].
Qed.

Lemma unique_two_distinct (l : list Z) :
  1 < length (unique l) -> exists a b, a ∈ l /\ b ∈ l /\ a <> b.
Proof.
  intros Hlen. destruct (unique_sorted_distinct l) as [Hs Hel].
  destruct (unique l) as [|a [|b u]]; simpl in Hlen; try lia.
  exists a, b. split; [apply Hel; repeat constructor|].
  split; [apply Hel; repeat constructor|].
  apply StronglySorted_inv in Hs as [_ Ha].
  apply Forall_cons in Ha as [Hab _]. lia.
Qed.

Lemma filter_id_nonempty (nz : list bool) (t : nat) :
  nz !! t = Some true -> 1 <= length (List.filter id nz).
Proof.
  intros H. apply list_elem_of_lookup_2, list_elem_of_In in H.
  assert (Hin : In true (List.filter id nz)) by (apply filter_In; auto).
  destruct (List.filter id nz); [contradiction|simpl; lia].
Qed.

Lemma family_spacing_close (cnd grid : list Q) (dist bound : Q) (base : Z)
    idx gidx r :
  (0 < dist)%Q ->
  (forall g x, grid !! g = Some x -> x = (inject_Z (base + Z.of_nat g) * dist)%Q) ->
  match_grid cnd grid bound = Ok (idx, gidx) ->
  1 < length (uni_gidx_of gidx) ->
  make_family cnd grid dist idx gidx = Ok r ->
  exists q, avg_dist r = Finite q /\ (Qabs (q - dist) < bound)%Q.
Proof.
  intros Hd Hgrid Hmatch Huni Hr. unfold make_family in Hr.
  apply bind_Ok in Hr as (gs & Hgs & Hr).
  apply bind_Ok in Hr as (ds & Hds & Hr).
  apply mret_Ok in Hr. subst r. cbn [avg_dist].
  eexists. split; [reflexivity|].
  pose proof (match_grid_lengths _ _ _ _ _ Hmatch) as Hlen.
  pose proof (mapM_Ok_length _ _ _ Hgs) as Hlgs.
  pose proof (mapM_Ok_length _ _ _ Hds) as Hlds.
  assert (Hpairs : Forall2 (fun d x => exists m : Z, (x == inject_Z m * dist)%Q
                                         /\ (Qabs (d - x) < bound)%Q) ds gs).
  { apply Forall2_same_length_lookup_2; [lia|].
    intros t d x Hd' Hx'.
    destruct (lookup_lt_is_Some_2 idx t) as [i Hi].
    { rewrite <- Hlds. eapply lookup_lt_Some, Hd'. }
    destruct (lookup_lt_is_Some_2 gidx t) as [g Hg].
    { rewrite <- Hlgs. eapply lookup_lt_Some, Hx'. }
    destruct (take_idx_lookup _ _ _ _ _ Hds Hi) as (d0 & Hd0 & Hcd).
    destruct (take_idx_lookup _ _ _ _ _ Hgs Hg) as (x0 & Hx0 & Hgx).
    rewrite Hd' in Hd0. injection Hd0 as <-.
    rewrite Hx' in Hx0. injection Hx0 as <-.
    destruct (match_grid_pairs _ _ _ _ _ _ _ _ Hmatch Hi Hg)
      as (di & x1 & Hdi & Hx1 & Hb).
    rewrite Hcd in Hdi. injection Hdi as <-.
    rewrite Hgx in Hx1. injection Hx1 as <-.
    exists (base + Z.of_nat g)%Z. split; [|exact Hb].
    rewrite (Hgrid g x Hgx). reflexivity. }
  destruct (ratios_close dist bound ds gs Hd Hpairs) as [Hclose Hcount].
  set (sm := map (fun x => (x / dist)%Q) gs) in *.
  set (nz := map (fun m => negb (Qeq_bool m 0)) sm) in *.
  set (ratios := map (fun dm => (fst dm / snd dm)%Q)
                     (zip (select nz ds) (select nz sm))) in *.
  rewrite <- Hcount.
  apply mean_close; [|exact Hclose].
  assert (Hsome : exists t, nz !! t = Some true).
  { destruct (unique_two_distinct _ Huni) as (a & b & Ha & Hb & Hab).
    change (map ?f ?l) with (f <$> l) in Ha, Hb.
    apply list_elem_of_fmap in Ha as (g1 & -> & Hg1).
    apply list_elem_of_fmap in Hb as (g2 & -> & Hg2).
    assert (Hpick : exists g, g ∈ gidx /\ (base + Z.of_nat g <> 0)%Z).
    { destruct (decide (base + Z.of_nat g1 = 0)%Z) as [E1|N1].
      - exists g2. split; [exact Hg2|]. intros E2. apply Hab. lia.
      - exists g1. split; [exact Hg1|exact N1]. }
    destruct Hpick as (g & Hg & Hm).
    apply list_elem_of_lookup in Hg as [t Ht].
    destruct (take_idx_lookup _ _ _ _ _ Hgs Ht) as (x & Hx & Hgx).
    exists t. unfold nz, sm. change (map ?f ?l) with (f <$> l).
    rewrite !list_lookup_fmap, Hx. simpl. f_equal.
    apply negb_true_iff. destruct (Qeq_bool (x / dist) 0) eqn:E; [|reflexivity].
    exfalso. apply Qeq_bool_iff in E. rewrite (Hgrid g x Hgx) in E.
    assert (E' : (inject_Z (base + Z.of_nat g) == 0)%Q).
    { rewrite <- E. field. lra. }
    apply Hm. unfold Qeq in E'. simpl in E'. lia. }
  destruct Hsome as [t Ht]. apply filter_id_nonempty in Ht.
  intros Hnil. rewrite <- Hcount, Hnil in Ht. simpl in Ht. lia.
Qed.

(** X28: the refined spacing of every returned family stays within the
    matching tolerance of the hypothesis it was found with: for each family
    there is a neighbour [j], farther than [abs_tolerant] from the centre,
    whose distance [dist = |center_nbr_dists[j]|] satisfies
    [|avg_dist - dist| < min(tolerant * dist, abs_tolerant)]; the average is
    taken over at least one non-zero grid multiple. *)
Theorem analyze_avg_dist_close (peaks : list nat) (center_nbr_dists : list Q)
    (center_peak : Q) (center_peak_i : Z)
    (grid_min_w grid_max_w tolerant abs_tolerant : Q) (allow_discontinue : Z)
    (out : list PeakAnalysisResult) :
  analyze_peaks_distance_cent peaks center_nbr_dists center_peak center_peak_i
    grid_min_w grid_max_w tolerant abs_tolerant allow_discontinue = Ok out ->
  Forall (fun r =>
            exists j d q,
              index center_nbr_dists j = Ok d
              /\ (abs_tolerant < Qabs d)%Q
              /\ avg_dist r = Finite q
              /\ (Qabs (q - Qabs d) < Qmin (tolerant * Qabs d) abs_tolerant)%Q)
    out.
Proof.
  intros H. eapply analyze_families; [|exact H].
  intros j d grid idx gidx r Hd Hfar Hgrid Hmatch Huni Hr.
  assert (Hdist : (0 < Qabs d)%Q).
  { destruct (Qlt_le_dec 0 (Qabs d)) as [Hpos|Hle]; [exact Hpos|].
    exfalso. pose proof (Qabs_nonneg d) as H0.
    assert (E : (Qabs d == 0)%Q) by (apply Qle_antisym; assumption).
    unfold create_grid in Hgrid. apply Qeq_bool_iff in E. rewrite E in Hgrid.
    discriminate Hgrid. }
  destruct (family_spacing_close center_nbr_dists grid (Qabs d)
              (Qmin (tolerant * Qabs d) abs_tolerant)
              (Qfloor ((grid_min_w - center_peak) / Qabs d) + 1)
              idx gidx r Hdist) as (q & Hq & Hclose); try assumption.
  { intros g x Hx. apply (create_grid_lookup _ _ _ _ _ _ _ Hgrid Hx). }
  exists j, d, q. auto.
Qed.

(** The theorem above on five peaks, one of them slightly off the grid. *)
Lemma analyze_avg_dist_close_witness :
  exists out,
    analyze_peaks_distance_cent [5; 15; 25; 35; 47]
      [-20; -(101 # 10); 0; 10; 22]%Q 25 2 0 50 (2 # 100) 5 1 = Ok out
    /\ length out = 2
    /\ Forall (fun r =>
            exists j d q,
              index [-20; -(101 # 10); 0; 10; 22]%Q j = Ok d
              /\ (5 < Qabs d)%Q
              /\ avg_dist r = Finite q
              /\ (Qabs (q - Qabs d) < Qmin ((2 # 100) * Qabs d) 5)%Q)
         out.
Proof.
  eexists. split; [vm_compute; reflexivity|]. split; [reflexivity|].
  apply (analyze_avg_dist_close [5; 15; 25; 35; 47]
           [-20; -(101 # 10); 0; 10; 22]%Q 25 2 0 50 (2 # 100) 5 1).
  vm_compute. reflexivity.
Defined.

(** ** The width guess of the peak model *)

Lemma sorted_lookup_le (l : list Q) (i j : nat) (a b : Q) :
  StronglySorted Qle l -> i <= j -> l !! i = Some a -> l !! j = Some b ->
  (a <= b)%Q.
Proof.
  intros Hs. revert i j. induction Hs as [|x l Hs IH Hx]; intros i j Hij Hi Hj.
  - discriminate Hi.
  - destruct i as [|i]; destruct j as [|j]; simpl in Hi, Hj; try lia.
    + injection Hi as <-. injection Hj as <-. apply Qle_refl.
    + injection Hi as <-. rewrite Forall_forall in Hx.
      apply Hx. eapply list_elem_of_lookup_2, Hj.
    + apply (IH i j); [lia|assumption..].
Qed.

Lemma fold_min_elem (rest : list nat) (i : nat) :
  fold_left Nat.min rest i ∈ i :: rest
  /\ forall k, k ∈ i :: rest -> fold_left Nat.min rest i <= k.
Proof.
  revert i. induction rest as [|y rest IH]; intros i; simpl.
  - split; [repeat constructor|]. intros k Hk.
    apply list_elem_of_singleton in Hk. lia.
  - destruct (IH (Nat.min i y)) as [Hin Hle]. split.
    + apply elem_of_cons in Hin as [Heq|Hin].
      * rewrite Heq. destruct (Nat.min_spec i y) as [[_ ->]|[_ ->]];
          [left|right; left].
      * right. right. exact Hin.
    + intros k Hk. apply elem_of_cons in Hk as [->|Hk].
      * specialize (Hle (Nat.min i y) ltac:(left)). lia.
      * apply elem_of_cons in Hk as [->|Hk].
        -- specialize (Hle (Nat.min i y) ltac:(left)). lia.
        -- apply Hle. right. exact Hk.
Qed.

Lemma fold_max_elem (rest : list nat) (i : nat) :
  fold_left Nat.max rest i ∈ i :: rest
  /\ forall k, k ∈ i :: rest -> k <= fold_left Nat.max rest i.
Proof.
  revert i. induction rest as [|y rest IH]; intros i; simpl.
  - split; [repeat constructor|]. intros k Hk.
    apply list_elem_of_singleton in Hk. lia.
  - destruct (IH (Nat.max i y)) as [Hin Hle]. split.
    + apply elem_of_cons in Hin as [Heq|Hin].
      * rewrite Heq. destruct (Nat.max_spec i y) as [[_ ->]|[_ ->]];
          [right; left|left].
      * right. right. exact Hin.
    + intros k Hk. apply elem_of_cons in Hk as [->|Hk].
      * specialize (Hle (Nat.max i y) ltac:(left)). lia.
      * apply elem_of_cons in Hk as [->|Hk].
        -- specialize (Hle (Nat.max i y) ltac:(left)). lia.
        -- apply Hle. right. exact Hk.
Qed.

Lemma window_slice_lookup {A} (l : list A) (p window k : nat) :
  k < p + window - (p - window) ->
  SpectrumModel.window_slice l p window !! k = l !! (p - window + k).
Proof.
  intros Hk. unfold SpectrumModel.window_slice.
  rewrite lookup_take_lt by exact Hk. apply lookup_drop.
Qed.

Lemma window_slice_length {A B} (l : list A) (k : list B) (p window : nat) :
  length l = length k ->
  length (SpectrumModel.window_slice l p window)
  = length (SpectrumModel.window_slice k p window).
Proof.
  intros H. unfold SpectrumModel.window_slice.
  rewrite !length_take, !length_drop, H. reflexivity.
Qed.

Lemma guess_one_bracket (spec : Spectrum.t) (window p : nat) (wm v w : Q) :
  0 < window ->
  length (Spectrum.ws spec) = length (Spectrum.spec spec) ->
  StronglySorted Qle (Spectrum.ws spec) ->
  Spectrum.spec spec !! p = Some v -> (wm <= v)%Q ->
  Spectrum.ws spec !! p = Some w ->
  exists l r,
    SpectrumModel.guess_one spec window p wm = Ok (l, r)
    /\ (l <= w)%Q /\ (w <= r)%Q
    /\ l ∈ SpectrumModel.window_slice (Spectrum.ws spec) p window
    /\ r ∈ SpectrumModel.window_slice (Spectrum.ws spec) p window.
Proof.
  intros Hwin Hlen Hsorted Hv Hwm Hw. unfold SpectrumModel.guess_one. cbv zeta.
  set (xs := SpectrumModel.window_slice (Spectrum.ws spec) p window).
  set (ys := SpectrumModel.window_slice (Spectrum.spec spec) p window).
  set (mask := map negb (map (fun v => Qltb v wm) ys)).
  set (o := p - (p - window)).
  assert (Ho : o < p + window - (p - window)) by (unfold o; lia).
  assert (Hpo : p - window + o = p) by (unfold o; lia).
  assert (Hyo : ys !! o = Some v).
  { unfold ys. rewrite window_slice_lookup by exact Ho. rewrite Hpo. exact Hv. }
  assert (Hmo : mask !! o = Some true).
  { unfold mask. change (map ?f ?l) with (f <$> l).
    rewrite !list_lookup_fmap, Hyo. simpl. f_equal. apply negb_true_iff.
    destruct (Qltb v wm) eqn:E; [|reflexivity]. apply Qltb_lt in E. lra. }
  assert (Hlm : length mask = length xs).
  { unfold mask. rewrite !length_map. unfold xs, ys. symmetry.
    apply window_slice_length, Hlen. }
  apply elem_of_where in Hmo as Hin.
  destruct (where_ mask) as [|i rest] eqn:Hwh; [apply elem_of_nil in Hin; contradiction|].
  destruct (fold_min_elem rest i) as [Hminin Hmin].
  destruct (fold_max_elem rest i) as [Hmaxin Hmax].
  set (lft := fold_left Nat.min rest i) in *.
  set (rgt := fold_left Nat.max rest i) in *.
  assert (Hrange : forall k, k ∈ i :: rest ->
            exists a, xs !! k = Some a /\ Spectrum.ws spec !! (p - window + k) = Some a).
  { intros k Hk. rewrite <- Hwh in Hk. apply elem_of_where, lookup_lt_Some in Hk.
    rewrite Hlm in Hk. destruct (lookup_lt_is_Some_2 xs k Hk) as [a Ha].
    exists a. split; [exact Ha|]. unfold xs in Ha, Hk.
    rewrite window_slice_lookup in Ha; [exact Ha|].
    unfold SpectrumModel.window_slice in Hk. rewrite length_take in Hk. lia. }
  destruct (Hrange lft Hminin) as (l & Hl & Hwl).
  destruct (Hrange rgt Hmaxin) as (r & Hr & Hwr).
  exists l, r.
  apply nth_exc_Ok in Hl as Hnl. apply nth_exc_Ok in Hr as Hnr.
  rewrite Hnl, ret_bind, Hnr, ret_bind.
  split; [reflexivity|]. rewrite <- Hpo in Hw.
  pose proof (Hmin o Hin) as Hlo. pose proof (Hmax o Hin) as Hhi.
  split; [apply (sorted_lookup_le _ (p - window + lft) (p - window + o) _ _ Hsorted);
          [lia|assumption..]|].
  split; [apply (sorted_lookup_le _ (p - window + o) (p - window + rgt) _ _ Hsorted);
          [lia|assumption..]|].
  split; eapply list_elem_of_lookup_2; eassumption.
Qed.

(** X29: on a spectrum with ascending coordinates and a positive window,
    when every peak's sample is at least half the height given for it, the
    width guess succeeds and returns one width per peak; each width is the
    difference of two coordinates of the peak's window that bracket the
    peak's coordinate, so no width is negative. *)
Theorem guess_FWHM_brackets_peak (spec : Spectrum.t) (peaks : list nat)
    (peak_heights : list Q) (window : nat) :
  0 < window ->
  length (Spectrum.ws spec) = length (Spectrum.spec spec) ->
  StronglySorted Qle (Spectrum.ws spec) ->
  length peak_heights = length peaks ->
  (forall i p h, peaks !! i = Some p -> peak_heights !! i = Some h ->
     exists v, Spectrum.spec spec !! p = Some v /\ (h / 2 <= v)%Q) ->
  exists widths,
    SpectrumModel._guess_FWHM spec peaks peak_heights window = Ok widths
    /\ length widths = length peaks
    /\ forall i p w, peaks !! i = Some p -> widths !! i = Some w ->
         exists l r a,
           (w == r - l)%Q /\ Spectrum.ws spec !! p = Some a
           /\ (l <= a)%Q /\ (a <= r)%Q
           /\ l ∈ SpectrumModel.window_slice (Spectrum.ws spec) p window
           /\ r ∈ SpectrumModel.window_slice (Spectrum.ws spec) p window.
Proof.
  intros Hwin Hlen Hsorted Hlh Hpeaks. unfold SpectrumModel._guess_FWHM. cbv zeta.
  set (wms := map (fun h => (h / 2)%Q) peak_heights).
  assert (Hone : forall i p wm, zip peaks wms !! i = Some (p, wm) ->
            exists l r a,
              SpectrumModel.guess_one spec window p wm = Ok (l, r)
              /\ Spectrum.ws spec !! p = Some a
              /\ (l <= a)%Q /\ (a <= r)%Q
              /\ l ∈ SpectrumModel.window_slice (Spectrum.ws spec) p window
              /\ r ∈ SpectrumModel.window_slice (Spectrum.ws spec) p window).
  { intros i p wm Hz. apply lookup_zip_with_Some in Hz as (p' & wm' & Heq & Hp & Hwmi).
    injection Heq as <- <-. unfold wms in Hwmi.
    change (map ?f ?l) with (f <$> l) in Hwmi. rewrite list_lookup_fmap in Hwmi.
    destruct (peak_heights !! i) as [h|] eqn:Hh; [|discriminate Hwmi].
    simpl in Hwmi. injection Hwmi as <-.
    destruct (Hpeaks i p h Hp Hh) as (v & Hv & Hhv).
    destruct (lookup_lt_is_Some_2 (Spectrum.ws spec) p) as [a Ha].
    { rewrite Hlen. eapply lookup_lt_Some, Hv. }
    destruct (guess_one_bracket spec window p (h / 2) v a Hwin Hlen Hsorted Hv Hhv Ha)
      as (l & r & Hg & H1 & H2 & H3 & H4).
    exists l, r, a. auto 10. }
  destruct (mapM_total (fun pw => SpectrumModel.guess_one spec window (fst pw) (snd pw))
              (zip peaks wms)) as [lr Hlr].
  { rewrite Forall_forall. intros [p wm] Hin.
    apply list_elem_of_lookup in Hin as [i Hi].
    destruct (Hone i p wm Hi) as (l & r & a & Hg & _). exists (l, r). exact Hg. }
  rewrite Hlr, ret_bind. eexists. split; [reflexivity|].
  pose proof (mapM_Ok_length _ _ _ Hlr) as Hll.
  assert (Hzl : length (zip peaks wms) = length peaks).
  { rewrite length_zip_with. unfold wms. rewrite length_map. lia. }
  split; [rewrite length_map; lia|].
  intros i p w Hp Hwi.
  change (map ?f ?l) with (f <$> l) in Hwi. rewrite list_lookup_fmap in Hwi.
  destruct (lr !! i) as [[l r]|] eqn:Hi; [|discriminate Hwi].
  simpl in Hwi. injection Hwi as <-.
  destruct (lookup_lt_is_Some_2 (zip peaks wms) i) as [[p' wm] Hz].
  { rewrite <- Hll. eapply lookup_lt_Some, Hi. }
  assert (p' = p) as ->.
  { apply lookup_zip_with_Some in Hz as (p'' & wm' & Heq & Hp' & _).
    injection Heq as <- <-. congruence. }
  destruct (mapM_Ok_lookup _ _ _ _ _ Hlr Hz) as (y & Hy & Hg).
  rewrite Hi in Hy. injection Hy as <-.
  destruct (Hone i p wm Hz) as (l' & r' & a & Hg' & Ha & H1 & H2 & H3 & H4).
  simpl in Hg. rewrite Hg in Hg'. injection Hg' as <- <-.
  exists l, r, a. split; [reflexivity|]. auto 10.
Qed.

(** The theorem above on a five-sample spectrum with one peak. *)
Lemma guess_FWHM_brackets_peak_witness :
  exists widths,
    SpectrumModel._guess_FWHM
      {| Spectrum.spec := [0; 3; 4; 3; 0]%Q; Spectrum.ws := [10; 11; 12; 13; 14]%Q |}
      [2] [4%Q] 2 = Ok widths
    /\ length widths = 1
    /\ forall i p w, [2] !! i = Some p -> widths !! i = Some w ->
         exists l r a,
           (w == r - l)%Q /\ [10; 11; 12; 13; 14]%Q !! p = Some a
           /\ (l <= a)%Q /\ (a <= r)%Q
           /\ l ∈ SpectrumModel.window_slice [10; 11; 12; 13; 14]%Q p 2
           /\ r ∈ SpectrumModel.window_slice [10; 11; 12; 13; 14]%Q p 2.
Proof.
  apply (guess_FWHM_brackets_peak
           {| Spectrum.spec := [0; 3; 4; 3; 0]%Q; Spectrum.ws := [10; 11; 12; 13; 14]%Q |}
           [2] [4%Q] 2).
  - lia.
  - reflexivity.
  - simpl. repeat (constructor; [|repeat (constructor; [discriminate|]); constructor]).
    constructor.
  - reflexivity.
  - intros i p h Hp Hh. destruct i as [|i]; [|discriminate Hp].
    injection Hp as <-. injection Hh as <-. exists 4%Q. split; [reflexivity|].
    discriminate.
Defined.

(** ** The three shapes of the distance table *)

Lemma strict_tril_length (rows : list (list Q)) (k : nat) :
  Forall (fun row => k + length rows <= length row) rows ->
  2 * length (concat (imap (fun i row => take (k + i) row) rows))
  = length rows * (2 * k + length rows - 1).
Proof.
  revert k. induction rows as [|r rows IH]; intros k Hall; [reflexivity|].
  apply Forall_cons in Hall as [Hr Hall]. cbn [length] in Hr.
  rewrite imap_cons. cbn [concat]. rewrite length_app, length_take.
  rewrite (imap_ext _ (fun i row => take (S k + i) row)).
  - specialize (IH (S k)).
    assert (Hall' : Forall (fun row => S k + length rows <= length row) rows).
    { eapply Forall_impl; [exact Hall|]. cbn [length]. intros row H. lia. }
    specialize (IH Hall'). cbn [length]. nia.
  - intros i x _. unfold compose. f_equal. lia.
Qed.

(** X30: the three shapes of [get_peaks_distance] on [n] peak positions.
    With [full=False] it returns the [n (n - 1) / 2] entries of the strict
    lower triangle, all non-negative, whatever [polar] is. With [full=True]
    it returns the [n] rows of the distance matrix, whose entry [(i, j)] is
    [|w_i - w_j|], negated on and below the diagonal when [polar] is set. *)
Theorem get_peaks_distance_shapes (peaks : list nat) (peaks_w : list Q)
    (polar : bool) :
  (exists v,
     get_peaks_distance peaks peaks_w false polar = Flat v
     /\ 2 * length v = length peaks_w * (length peaks_w - 1)
     /\ Forall (fun d => (0 <= d)%Q) v)
  /\ (exists m,
        get_peaks_distance peaks peaks_w true polar = Full m
        /\ length m = length peaks_w
        /\ forall i j wi wj,
             peaks_w !! i = Some wi -> peaks_w !! j = Some wj ->
             exists row d,
               m !! i = Some row /\ row !! j = Some d
               /\ (d == if polar && (j <=? i)
                        then - Qabs (wi - wj) else Qabs (wi - wj))%Q).
Proof.
  split.
  - eexists. split; [reflexivity|]. unfold strict_tril. split.
    + pose proof (strict_tril_length (distance_matrix peaks_w peaks_w) 0) as HL.
      cbn [Nat.add] in HL. rewrite HL.
      * unfold distance_matrix. rewrite length_map. lia.
      * pose proof (distance_matrix_row_length peaks_w peaks_w) as H.
        eapply Forall_impl; [exact H|]. intros row Hrow. cbn beta in Hrow.
        unfold distance_matrix. rewrite length_map. lia.
    + rewrite Forall_forall. intros d Hd.
      apply list_elem_of_In, in_concat in Hd as (l & Hl & Hd).
      apply list_elem_of_In in Hl, Hd.
      apply list_elem_of_lookup in Hl as [i Hi].
      rewrite list_lookup_imap in Hi.
      destruct (distance_matrix peaks_w peaks_w !! i) as [row|] eqn:Hrow;
        [|discriminate Hi].
      simpl in Hi. injection Hi as <-.
      apply elem_of_take in Hd as (t & Ht & _).
      unfold distance_matrix in Hrow. change (map ?f ?l) with (f <$> l) in Hrow.
      rewrite list_lookup_fmap in Hrow.
      destruct (peaks_w !! i) as [wi|]; [|discriminate Hrow].
      simpl in Hrow. injection Hrow as <-.
      apply list_elem_of_lookup_2 in Ht. change (map ?f ?l) with (f <$> l) in Ht.
      apply list_elem_of_fmap in Ht as (y & -> & _). exact (Qabs_nonneg (wi - y)).
  - unfold get_peaks_distance. cbn [negb]. eexists. split; [reflexivity|]. split.
    + destruct polar; unfold negate_tril, distance_matrix;
        rewrite ?length_imap, length_map; reflexivity.
    + intros i j wi wj Hi Hj.
      destruct (lookup_distance_matrix peaks_w peaks_w i j wi wj Hi Hj)
        as (row & Hrow & Hd).
      destruct polar; cbn [andb].
      * destruct (lookup_negate_tril _ i j row _ Hrow Hd) as (row' & Hrow' & Hd').
        exists row'. eexists. split; [exact Hrow'|]. split; [exact Hd'|].
        reflexivity.
      * exists row. eexists. split; [exact Hrow|]. split; [exact Hd|]. reflexivity.
Qed.
